(** * Swarm chunk storage core: BMT hasher, hasher store, network store

    A shallow embedding of the storage core of holisticode/swarm
    ([bmt/bmt.go], [storage/hasherstore.go], [storage/netstore.go], and the
    in-memory chunk store of [storage/common_test.go]) together with the
    properties stated about it.

    Conventions of the embedding:
    - a Go byte slice is a [list byte]; every slice the code builds comes from
      [make], so its capacity equals its length, and a slice expression that
      reaches past the length is a run-time panic ([Panic]);
    - Go functions returning [(value, error)] return an [outcome];
    - unsigned 64-bit arithmetic is arithmetic on [Z] modulo [2^64], written
      out at every operation;
    - goroutines are threads of an interleaving step relation; one step is one
      critical section of the source (one loop iteration guarded by the
      atomic toggle, one channel operation). *)

From Stdlib Require Import List ZArith Lia Bool Arith PeanoNat.
From Stdlib Require Import Strings.Byte NArith.
From Stdlib Require Strings.String.
Import ListNotations.

Set Implicit Arguments.

(* ================================================================== *)
(** * Shared vocabulary: bytes, errors, outcomes, slices *)
(* ================================================================== *)

Definition bytes := list byte.

(** The error values the storage package produces or passes on. *)
Inductive error : Type :=
| ErrInvalidChunkData (got : nat)
    (* fmt.Errorf("Invalid ChunkData, min length 8 got %v", ...) *)
| ErrInvalidReferenceLength (hashSize encryptedRefLength got : nat)
    (* fmt.Errorf("Invalid reference length, expected %v or %v got %v", ...) *)
| ErrNoSuitablePeer
    (* errors.New("no suitable peer") *)
| ErrCollaborator (code : nat).
    (* any error value handed back by a collaborator (encryption, local
       store, RemoteGet, context) *)

(** Result of a Go call: a value, a returned error, or a run-time panic. *)
Inductive outcome (A : Type) : Type :=
| Ok (a : A)
| Err (e : error)
| Panic.
Arguments Ok {A} a.
Arguments Err {A} e.
Arguments Panic {A}.

Definition bind {A B : Type} (m : outcome A) (k : A -> outcome B) : outcome B :=
  match m with
  | Ok a => k a
  | Err e => Err e
  | Panic => Panic
  end.

Notation "x <- m ;; k" := (bind m (fun x => k))
  (at level 61, m at next level, right associativity).
Notation "' p <- m ;; k" := (bind m (fun x => let p := x in k))
  (at level 61, p pattern, m at next level, right associativity).

Module GoSlice.

(** [make([]byte, n)] *)
Definition make (n : nat) : bytes := repeat x00 n.

(** [copy(dst, src)]: overwrites the first [min (len dst) (len src)] bytes of
    [dst]; the value is the new content of [dst]. *)
Definition copy (dst src : bytes) : bytes :=
  firstn (length dst) src ++ skipn (length src) dst.

(** [a[:n]] for a slice whose capacity is its length. *)
Definition slice_to (a : bytes) (n : nat) : outcome bytes :=
  if n <=? length a then Ok (firstn n a) else Panic.

(** [a[n:]] *)
Definition slice_from (a : bytes) (n : nat) : outcome bytes :=
  if n <=? length a then Ok (skipn n a) else Panic.

Lemma length_make n : length (make n) = n.
Proof. apply repeat_length. Qed.

Lemma firstn_repeat (A : Type) (x : A) n m :
  firstn n (repeat x m) = repeat x (Nat.min n m).
Proof.
  revert m. induction n as [|n IH]; intros [|m]; simpl; try reflexivity.
  now rewrite IH.
Qed.

Lemma skipn_repeat (A : Type) (x : A) n m :
  skipn n (repeat x m) = repeat x (m - n).
Proof.
  revert m. induction n as [|n IH]; intros [|m]; simpl; try reflexivity.
  apply IH.
Qed.

Lemma length_copy dst src : length (copy dst src) = length dst.
Proof.
  unfold copy. rewrite length_app, length_firstn, length_skipn. lia.
Qed.

Lemma copy_same_length dst src :
  length src = length dst -> copy dst src = src.
Proof.
  intros H. unfold copy. rewrite <- H, firstn_all, H.
  rewrite <- H at 1. rewrite H, skipn_all. apply app_nil_r.
Qed.

End GoSlice.

Module UInt64.

Definition modulus : Z := 2 ^ 64.
Definition wrap (z : Z) : Z := z mod modulus.
Definition add (a b : Z) : Z := wrap (a + b).
Definition mul (a b : Z) : Z := wrap (a * b).
Definition div (a b : Z) : Z := a / b.

(** [binary.LittleEndian.Uint64] on the first eight bytes. *)
Fixpoint le_decode (b : bytes) : Z :=
  match b with
  | [] => 0
  | x :: r => Z.of_N (Byte.to_N x) + 256 * le_decode r
  end.

(** [binary.LittleEndian.PutUint64] into a fresh 8-byte slice. *)
Fixpoint le_encode (n : nat) (z : Z) : bytes :=
  match n with
  | O => []
  | S n' =>
      match Byte.of_N (Z.to_N (z mod 256)) with
      | Some x => x
      | None => x00
      end :: le_encode n' (z / 256)
  end.

Definition Uint64 (b : bytes) : outcome Z :=
  if 8 <=? length b then Ok (le_decode (firstn 8 b)) else Panic.

Definition PutUint64 (z : Z) : bytes := le_encode 8 (wrap z).

End UInt64.

(* ================================================================== *)
(** * The hasher store: chunk codec and references
      ([storage/hasherstore.go]) *)
(* ================================================================== *)

Module HasherStore.

(** Modelled from the spec: the constant [chunk.DefaultSize] is declared in
    package [chunk], outside the sources at hand; the spec fixes
    [ChunkPayload C = 4096]. *)
Definition DefaultSize : Z := 4096.

(** Modelled from the spec: the constant [encryption.KeyLength]
    ([EncryptionKeyLength K = 32]). *)
Definition KeyLength : nat := 32.

(** Modelled from the spec: the constant [AddressLength] of package storage
    (an address is a byte string of length [S = 32]). *)
Definition AddressLength : nat := 32.

Definition ChunkData := bytes.
Definition Reference := bytes.
Definition Address := bytes.
Definition Key := bytes.

(** Modelled from the spec: [ChunkData.Size] is declared in [storage/types.go],
    outside the sources at hand; the span is the little-endian [uint64] held
    in the first eight bytes. *)
Definition Size (c : ChunkData) : outcome Z := UInt64.Uint64 c.

(** The fields of [hasherStore] the codec reads. *)
Record hasherStore : Type := mkHasherStore {
  toEncrypt : bool;
  hashSize : nat;
  refSize : Z
}.

Definition NewHasherStore (hash_size : nat) (to_encrypt : bool) : hasherStore :=
  {| toEncrypt := to_encrypt;
     hashSize := hash_size;
     refSize := if to_encrypt
                then (Z.of_nat hash_size + Z.of_nat KeyLength)%Z
                else Z.of_nat hash_size |}.

Definition parseReference (ref : Reference) (hash_size : nat)
  : outcome (Address * option Key) :=
  let encryptedRefLength := hash_size + KeyLength in
  if length ref =? AddressLength then Ok (ref, None)
  else if length ref =? encryptedRefLength then
    let encKeyIdx := length ref - KeyLength in
    Ok (firstn encKeyIdx ref, Some (skipn encKeyIdx ref))
  else Err (ErrInvalidReferenceLength hash_size encryptedRefLength (length ref)).

(** The padding loop of [decryptChunkData], on [uint64]:
    [for length > chunk.DefaultSize { length = length + (DefaultSize - 1);
     length = length / DefaultSize; length *= uint64(h.refSize) }].
    [None] when the fuel runs out before the loop exits. *)
Fixpoint trimLength (fuel : nat) (ref_size length : Z) : option Z :=
  if (length >? DefaultSize)%Z then
    match fuel with
    | O => None
    | S fuel' =>
        let l1 := UInt64.add length (DefaultSize - 1)%Z in
        let l2 := UInt64.div l1 DefaultSize in
        let l3 := UInt64.mul l2 (UInt64.wrap ref_size) in
        trimLength fuel' ref_size l3
    end
  else Some length.

(** The rule as the specification words it, on unbounded integers:
    while [length > C], [length <- ceil(length / C) * refSize]. *)
Definition ceil_div (a c : Z) : Z :=
  (if a mod c =? 0 then a / c else a / c + 1)%Z.

Fixpoint ruleLength (fuel : nat) (ref_size length : Z) : option Z :=
  if (length >? DefaultSize)%Z then
    match fuel with
    | O => None
    | S fuel' => ruleLength fuel' ref_size (ceil_div length DefaultSize * ref_size)%Z
    end
  else Some length.

Section WithCollaborators.

(** [encryption.New(key, a, b, hashFunc)] followed by [.Encrypt(data)]: the
    encryption package is a collaborator outside the sources at hand. *)
Variable New : Key -> Z -> Z -> bytes -> outcome bytes.

(** The [SwarmHasher] the store was built with:
    [Reset(); SetSpanBytes(span); Write(data); Sum(nil)]. *)
Variable hashFunc : bytes -> bytes -> bytes.

Variable h : hasherStore.

(** [h.newSpanEncryption(key).Encrypt]; the division panics on a zero
    [refSize], and the quotient is converted to [uint32]. *)
Definition newSpanEncryption (key : Key) (data : bytes) : outcome bytes :=
  if (refSize h =? 0)%Z then Panic
  else New key 0%Z (Z.quot DefaultSize (refSize h) mod 2 ^ 32)%Z data.

(** [h.newDataEncryption(key).Encrypt] *)
Definition newDataEncryption (key : Key) (data : bytes) : outcome bytes :=
  New key DefaultSize 0%Z data.

(** [encrypt]; [key] is the value [encryption.GenerateRandomKey] drew. *)
Definition encrypt (key : Key) (chunkData : ChunkData)
  : outcome (Key * bytes * bytes) :=
  span <- GoSlice.slice_to chunkData 8 ;;
  encryptedSpan <- newSpanEncryption key span ;;
  data <- GoSlice.slice_from chunkData 8 ;;
  encryptedData <- newDataEncryption key data ;;
  Ok (key, encryptedSpan, encryptedData).

(** [decrypt]: the source calls [Encrypt] again, in both positions. *)
Definition decrypt (chunkData : ChunkData) (key : Key)
  : outcome (bytes * bytes) :=
  span <- GoSlice.slice_to chunkData 8 ;;
  encryptedSpan <- newSpanEncryption key span ;;
  data <- GoSlice.slice_from chunkData 8 ;;
  encryptedData <- newDataEncryption key data ;;
  Ok (encryptedSpan, encryptedData).

Definition encryptChunkData (key : Key) (chunkData : ChunkData)
  : outcome (ChunkData * Key) :=
  if length chunkData <? 8 then Err (ErrInvalidChunkData (length chunkData))
  else
    '(k, encryptedSpan, encryptedData) <- encrypt key chunkData ;;
    let c := GoSlice.make (length encryptedSpan + length encryptedData) in
    c_head <- GoSlice.slice_to c 8 ;;
    c_tail <- GoSlice.slice_from c 8 ;;
    Ok (GoSlice.copy c_head encryptedSpan ++ GoSlice.copy c_tail encryptedData, k).

(** [decryptChunkData]; [None] when the padding loop does not exit within
    the fuel. *)
Definition decryptChunkData (fuel : nat) (chunkData : ChunkData) (encryptionKey : Key)
  : option (outcome ChunkData) :=
  if length chunkData <? 8 then Some (Err (ErrInvalidChunkData (length chunkData)))
  else
    match decrypt chunkData encryptionKey with
    | Err e => Some (Err e)
    | Panic => Some Panic
    | Ok (decryptedSpan, decryptedData) =>
        match Size decryptedSpan with
        | Err e => Some (Err e)
        | Panic => Some Panic
        | Ok length0 =>
            match trimLength fuel (refSize h) length0 with
            | None => None
            | Some len =>
                Some (
                  let c := GoSlice.make (Z.to_nat (UInt64.add len 8%Z)) in
                  c_head <- GoSlice.slice_to c 8 ;;
                  c_tail <- GoSlice.slice_from c 8 ;;
                  meaningful <- GoSlice.slice_to decryptedData (Z.to_nat len) ;;
                  Ok (GoSlice.copy c_head decryptedSpan
                        ++ GoSlice.copy c_tail meaningful))
            end
        end
    end.

(** [createHash]: both slice expressions need eight bytes. *)
Definition createHash (chunkData : ChunkData) : outcome Address :=
  span <- GoSlice.slice_to chunkData 8 ;;
  data <- GoSlice.slice_from chunkData 8 ;;
  Ok (hashFunc span data).

(** The value [Put] returns: the chunk is encrypted when the store encrypts,
    addressed by [createChunk], handed to [storeChunk] (modelled in
    [StorePipeline] below), and the reference is
    [append(chunk.Address(), encryptionKey...)]. *)
Definition Put (key : Key) (chunkData : ChunkData) : outcome Reference :=
  '(c, encryptionKey) <-
     (if toEncrypt h then encryptChunkData key chunkData
      else Ok (chunkData, [])) ;;
  addr <- createHash c ;;
  Ok (addr ++ encryptionKey).

End WithCollaborators.

(** Modelled from the spec: the encryptor is a keystream generator that is
    reproducible from the key alone and works the same way in both
    directions (XOR with the keystream); the data encryptor fills its
    output up to the fixed size it was built with, and refuses longer
    input.  The keystream repeats the key, offset by the initial counter;
    padding bytes are zero. *)
Definition byte_xor (a b : byte) : byte :=
  let '(a0, (a1, (a2, (a3, (a4, (a5, (a6, a7))))))) := Byte.to_bits a in
  let '(b0, (b1, (b2, (b3, (b4, (b5, (b6, b7))))))) := Byte.to_bits b in
  Byte.of_bits (xorb a0 b0, (xorb a1 b1, (xorb a2 b2, (xorb a3 b3,
               (xorb a4 b4, (xorb a5 b5, (xorb a6 b6, xorb a7 b7))))))).

Fixpoint xor_stream (key : Key) (pos : nat) (data : bytes) : bytes :=
  match data with
  | [] => []
  | x :: r => byte_xor x (nth (pos mod length key) key x00)
              :: xor_stream key (S pos) r
  end.

Definition xorNew (key : Key) (padding initCtr : Z) (data : bytes) : outcome bytes :=
  if ((0 <? padding) && (padding <? Z.of_nat (length data)))%Z
  then Err (ErrCollaborator 1)
  else Ok (xor_stream key (Z.to_nat initCtr) data
             ++ repeat x00 (Z.to_nat padding - length data)).

(** ** Properties of the codec *)

Ltac bind_cases :=
  repeat match goal with
  | H : bind ?m _ = _ |- _ =>
      let E := fresh "E" in destruct m eqn:E; simpl in H; try discriminate
  | H : (let '(_, _) := ?p in _) = _ |- _ => destruct p
  end.

Lemma slice_to_Ok a n r :
  GoSlice.slice_to a n = Ok r -> n <= length a /\ r = firstn n a.
Proof.
  unfold GoSlice.slice_to. destruct (n <=? length a) eqn:E; [|discriminate].
  intros [= <-]. apply Nat.leb_le in E. auto.
Qed.

Lemma slice_from_Ok a n r :
  GoSlice.slice_from a n = Ok r -> n <= length a /\ r = skipn n a.
Proof.
  unfold GoSlice.slice_from. destruct (n <=? length a) eqn:E; [|discriminate].
  intros [= <-]. apply Nat.leb_le in E. auto.
Qed.

Lemma slice_to_le a n : n <= length a -> GoSlice.slice_to a n = Ok (firstn n a).
Proof.
  intros H. unfold GoSlice.slice_to.
  destruct (n <=? length a) eqn:E; [reflexivity|].
  apply Nat.leb_gt in E. lia.
Qed.

Lemma slice_from_le a n : n <= length a -> GoSlice.slice_from a n = Ok (skipn n a).
Proof.
  intros H. unfold GoSlice.slice_from.
  destruct (n <=? length a) eqn:E; [reflexivity|].
  apply Nat.leb_gt in E. lia.
Qed.

Lemma byte_xor_involutive a b : byte_xor (byte_xor a b) b = a.
Proof.
  unfold byte_xor.
  destruct (Byte.to_bits a)
    as [a0 [a1 [a2 [a3 [a4 [a5 [a6 a7]]]]]]] eqn:Ea.
  destruct (Byte.to_bits b)
    as [b0 [b1 [b2 [b3 [b4 [b5 [b6 b7]]]]]]] eqn:Eb.
  rewrite Byte.to_bits_of_bits.
  rewrite !xorb_assoc, !xorb_nilpotent, !xorb_false_r.
  rewrite <- Ea. apply Byte.of_bits_to_bits.
Qed.

Lemma length_xor_stream key pos data :
  length (xor_stream key pos data) = length data.
Proof.
  revert pos. induction data as [|x r IH]; intros pos; simpl; [reflexivity|].
  now rewrite IH.
Qed.

Lemma xor_stream_app key pos a b :
  xor_stream key pos (a ++ b)
  = xor_stream key pos a ++ xor_stream key (pos + length a) b.
Proof.
  revert pos. induction a as [|x r IH]; intros pos; simpl.
  - now rewrite Nat.add_0_r.
  - rewrite IH. do 3 f_equal. lia.
Qed.

Lemma xor_stream_involutive key pos data :
  xor_stream key pos (xor_stream key pos data) = data.
Proof.
  revert pos. induction data as [|x r IH]; intros pos; simpl; [reflexivity|].
  now rewrite byte_xor_involutive, IH.
Qed.

(** The spec-modelled encryptor meets what the round trip needs of an
    encryptor: applying it twice gives the input back as a prefix, and
    without a fixed size ([padding = 0]) it keeps the length. *)
Lemma xorNew_twice key padding initCtr x y :
  xorNew key padding initCtr x = Ok y ->
  exists z, xorNew key padding initCtr y = Ok z /\ firstn (length x) z = x.
Proof.
  unfold xorNew.
  destruct ((0 <? padding)%Z && (padding <? Z.of_nat (length x))%Z) eqn:G;
    [discriminate|].
  intros [= <-].
  set (pad := repeat x00 (Z.to_nat padding - length x)).
  assert (Hlen : length (xor_stream key (Z.to_nat initCtr) x ++ pad)
                 = length x + (Z.to_nat padding - length x)).
  { rewrite length_app, length_xor_stream. unfold pad. now rewrite repeat_length. }
  assert (G' : ((0 <? padding)%Z
                && (padding <? Z.of_nat (length (xor_stream key (Z.to_nat initCtr) x ++ pad)))%Z)
               = false).
  { rewrite Hlen. apply andb_false_iff in G. apply andb_false_iff.
    destruct G as [G|G]; [left; exact G|].
    destruct (0 <? padding)%Z eqn:P; [right|left; reflexivity].
    apply Z.ltb_ge in G. apply Z.ltb_lt in P. apply Z.ltb_ge. lia. }
  rewrite G'. eexists. split; [reflexivity|].
  rewrite xor_stream_app, xor_stream_involutive, <- app_assoc.
  rewrite firstn_app, firstn_all, Nat.sub_diag. simpl. apply app_nil_r.
Qed.

Lemma xorNew_length key initCtr x y :
  xorNew key 0%Z initCtr x = Ok y -> length y = length x.
Proof.
  unfold xorNew. simpl. intros [= <-].
  rewrite length_app, length_xor_stream. simpl. lia.
Qed.

Lemma ceil_div_DefaultSize l :
  (0 <= l)%Z -> ceil_div l DefaultSize = ((l + (DefaultSize - 1)) / DefaultSize)%Z.
Proof.
  intros Hl. unfold ceil_div, DefaultSize.
  destruct (l mod 4096 =? 0)%Z eqn:E.
  - apply Z.eqb_eq in E. Z.div_mod_to_equations. lia.
  - apply Z.eqb_neq in E. Z.div_mod_to_equations. lia.
Qed.

(** X11 ([hasherStore.decryptChunkData]): below the wrap-around point the
    padding loop of the code computes the rule "while the length exceeds
    the chunk size, replace it by the number of chunks it fills times the
    reference size": for a reference size below 4096 and a length of at
    most [2^64 - 4096] the loop on [uint64] and the rule on unbounded
    integers give the same result, round for round. *)
Lemma trimLength_follows_rule fuel r l :
  (0 <= r < DefaultSize)%Z ->
  (0 <= l <= UInt64.modulus - DefaultSize)%Z ->
  trimLength fuel r l = ruleLength fuel r l.
Proof.
  unfold DefaultSize, UInt64.modulus. intros Hr.
  revert l. induction fuel as [|fuel IH]; intros l Hl; simpl; [reflexivity|].
  destruct (l >? DefaultSize)%Z eqn:G; [|reflexivity].
  unfold DefaultSize in G. apply Z.gtb_lt in G.
  rewrite ceil_div_DefaultSize by lia.
  unfold UInt64.add, UInt64.mul, UInt64.div, UInt64.wrap, UInt64.modulus, DefaultSize.
  rewrite (Z.mod_small (l + (4096 - 1))) by lia.
  rewrite (Z.mod_small r) by lia.
  assert (Hq : (0 <= (l + (4096 - 1)) / 4096 <= 2 ^ 52 - 1)%Z).
  { split.
    - apply Z.div_pos; lia.
    - apply Z.lt_succ_r. apply Z.div_lt_upper_bound; lia. }
  assert (Hp : (0 <= (l + (4096 - 1)) / 4096 * r <= (2 ^ 52 - 1) * 4095)%Z) by nia.
  rewrite Z.mod_small by lia.
  apply IH. lia.
Qed.

(** With the reference sizes the store can have ([refSize <= 64]) the loop
    exits within eleven rounds on every [uint64]. *)
Lemma trimLength_terminates fuel r l :
  (0 <= r <= 64)%Z ->
  (0 <= l < 2 ^ (12 + 5 * Z.of_nat fuel))%Z ->
  exists n, trimLength fuel r l = Some n /\ (0 <= n <= DefaultSize)%Z.
Proof.
  intros Hr. revert l. induction fuel as [|fuel IH]; intros l Hl.
  - simpl in *. change (2 ^ (12 + 5 * 0))%Z with 4096%Z in Hl.
    unfold DefaultSize.
    destruct (l >? 4096)%Z eqn:G; [apply Z.gtb_lt in G; lia|].
    exists l. split; [reflexivity|lia].
  - simpl trimLength.
    destruct (l >? DefaultSize)%Z eqn:G.
    + unfold DefaultSize in G. apply Z.gtb_lt in G.
      apply IH.
      unfold UInt64.add, UInt64.mul, UInt64.div, UInt64.wrap, UInt64.modulus, DefaultSize.
      rewrite (Z.mod_small r) by lia.
      assert (H1 : (0 <= (l + (4096 - 1)) mod 2 ^ 64 <= l + 4095)%Z).
      { split; [apply Z.mod_pos_bound; lia|].
        apply Z.mod_le; lia. }
      set (l1 := ((l + (4096 - 1)) mod 2 ^ 64)%Z) in *.
      assert (H2 : (0 <= l1 / 4096 <= l / 4096 + 1)%Z).
      { split; [apply Z.div_pos; lia|].
        transitivity ((l + 4095) / 4096)%Z.
        - apply Z.div_le_mono; lia.
        - Z.div_mod_to_equations. lia. }
      set (l2 := (l1 / 4096)%Z) in *.
      assert (H3 : (0 <= (l2 * r) mod 2 ^ 64 <= l2 * r)%Z).
      { split; [apply Z.mod_pos_bound; lia|].
        apply Z.mod_le; nia. }
      assert (H4 : (l2 * r <= l / 64 + 64)%Z).
      { assert (l2 * r <= (l / 4096 + 1) * 64)%Z by nia.
        assert (l / 4096 * 64 <= l / 64)%Z by (Z.div_mod_to_equations; lia).
        lia. }
      assert (H5 : (l / 64 + 64 <= l / 32)%Z) by (Z.div_mod_to_equations; lia).
      assert (H6 : (l / 32 < 2 ^ (12 + 5 * Z.of_nat fuel))%Z).
      { apply Z.div_lt_upper_bound; [lia|].
        replace (12 + 5 * Z.of_nat (S fuel))%Z
          with (5 + (12 + 5 * Z.of_nat fuel))%Z in Hl by lia.
        rewrite Z.pow_add_r in Hl by lia.
        change (2 ^ 5)%Z with 32%Z in Hl. lia. }
      clear Hl. set (P := (2 ^ (12 + 5 * Z.of_nat fuel))%Z) in *.
      change (0 <= (l2 * r) mod 2 ^ 64 < P)%Z. clearbody P l2. lia.
    + exists l. rewrite Z.gtb_ltb in G. apply Z.ltb_ge in G.
      split; [reflexivity|lia].
Qed.

Lemma trimLength_bound fuel r l n :
  (0 <= l)%Z -> trimLength fuel r l = Some n -> (0 <= n <= DefaultSize)%Z.
Proof.
  revert l. induction fuel as [|fuel IH]; intros l Hl; simpl;
    destruct (l >? DefaultSize)%Z eqn:G; try discriminate.
  - intros [= <-]. rewrite Z.gtb_ltb in G. apply Z.ltb_ge in G. lia.
  - apply IH. unfold UInt64.mul, UInt64.wrap, UInt64.modulus.
    apply Z.mod_pos_bound. lia.
  - intros [= <-]. rewrite Z.gtb_ltb in G. apply Z.ltb_ge in G. lia.
Qed.

Lemma le_decode_nonneg b : (0 <= UInt64.le_decode b)%Z.
Proof.
  induction b as [|x r IH]; [simpl; lia|].
  cbn [UInt64.le_decode].
  pose proof (N2Z.is_nonneg (Byte.to_N x)). lia.
Qed.

Section CodecProperties.

Variable New : Key -> Z -> Z -> bytes -> outcome bytes.
Variable hashFunc : bytes -> bytes -> bytes.
Variable h : hasherStore.

Lemma encryptChunkData_Ok key cd c k :
  encryptChunkData New h key cd = Ok (c, k) ->
  exists es ed,
    8 <= length cd /\ k = key /\
    newSpanEncryption New h key (firstn 8 cd) = Ok es /\
    newDataEncryption New key (skipn 8 cd) = Ok ed /\
    8 <= length es + length ed /\
    c = GoSlice.copy (GoSlice.make 8) es
          ++ GoSlice.copy (GoSlice.make (length es + length ed - 8)) ed.
Proof.
  unfold encryptChunkData, encrypt.
  destruct (length cd <? 8) eqn:L; [discriminate|]. apply Nat.ltb_ge in L.
  intros H. bind_cases.
  repeat match goal with
  | H : Ok _ = Ok _ |- _ => injection H as H; subst
  | H : GoSlice.slice_to _ _ = Ok _ |- _ => apply slice_to_Ok in H; destruct H as [? ?]; subst
  | H : GoSlice.slice_from _ _ = Ok _ |- _ => apply slice_from_Ok in H; destruct H as [? ?]; subst
  end.
  rewrite GoSlice.length_make in *.
  do 2 eexists. repeat split; eauto.
  unfold GoSlice.make. rewrite GoSlice.firstn_repeat, GoSlice.skipn_repeat.
  now rewrite Nat.min_l by lia.
Qed.

Lemma decrypt_Ok cd key span data :
  decrypt New h cd key = Ok (span, data) ->
  8 <= length cd /\
  newSpanEncryption New h key (firstn 8 cd) = Ok span /\
  newDataEncryption New key (skipn 8 cd) = Ok data.
Proof.
  unfold decrypt. intros H. bind_cases.
  repeat match goal with
  | H : Ok _ = Ok _ |- _ => injection H as H; subst
  | H : GoSlice.slice_to _ _ = Ok _ |- _ => apply slice_to_Ok in H; destruct H as [? ?]; subst
  | H : GoSlice.slice_from _ _ = Ok _ |- _ => apply slice_from_Ok in H; destruct H as [? ?]; subst
  end.
  auto.
Qed.

Lemma decrypt_intro cd key span data :
  8 <= length cd ->
  newSpanEncryption New h key (firstn 8 cd) = Ok span ->
  newDataEncryption New key (skipn 8 cd) = Ok data ->
  decrypt New h cd key = Ok (span, data).
Proof.
  intros L Hs Hd. unfold decrypt.
  rewrite slice_to_le by exact L. cbn [bind]. rewrite Hs. cbn [bind].
  rewrite slice_from_le by exact L. cbn [bind]. rewrite Hd. reflexivity.
Qed.



(** What [decryptChunkData] hands back once the two encryptors answered:
    the first eight bytes of the decrypted span, then the first [len]
    bytes of the decrypted data, [len] being what the padding loop left. *)
Lemma decryptChunkData_returns fuel cd key span data len :
  decrypt New h cd key = Ok (span, data) ->
  8 <= length span ->
  trimLength fuel (refSize h) (UInt64.le_decode (firstn 8 span)) = Some len ->
  Z.to_nat len <= length data ->
  decryptChunkData New h fuel cd key
  = Some (Ok (firstn 8 span ++ firstn (Z.to_nat len) data)).
Proof.
  intros Hd Hs Ht Hl.
  destruct (decrypt_Ok _ _ Hd) as (Lcd & _ & _).
  pose proof (trimLength_bound _ _ (le_decode_nonneg _) Ht) as Hb.
  unfold DefaultSize in Hb.
  unfold decryptChunkData.
  destruct (length cd <? 8) eqn:L; [apply Nat.ltb_lt in L; lia|].
  rewrite Hd. unfold Size, UInt64.Uint64.
  destruct (8 <=? length span) eqn:L2; [|apply Nat.leb_gt in L2; lia].
  rewrite Ht. f_equal.
  unfold UInt64.add, UInt64.wrap, UInt64.modulus.
  rewrite Z.mod_small by lia.
  replace (Z.to_nat (len + 8)) with (8 + Z.to_nat len) by lia.
  rewrite slice_to_le by (rewrite GoSlice.length_make; lia). cbn [bind].
  rewrite slice_from_le by (rewrite GoSlice.length_make; lia). cbn [bind].
  rewrite slice_to_le by exact Hl. cbn [bind].
  f_equal. f_equal.
  - unfold GoSlice.copy, GoSlice.make.
    rewrite GoSlice.firstn_repeat, repeat_length.
    replace (Nat.min 8 (8 + Z.to_nat len)) with 8 by lia.
    rewrite skipn_all2 by (rewrite repeat_length; lia). apply app_nil_r.
  - apply GoSlice.copy_same_length.
    unfold GoSlice.make. rewrite length_skipn, repeat_length, length_firstn. lia.
Qed.

Lemma createHash_value c :
  8 <= length c ->
  createHash hashFunc c = Ok (hashFunc (firstn 8 c) (skipn 8 c)).
Proof.
  intros L. unfold createHash.
  rewrite slice_to_le, slice_from_le by exact L. reflexivity.
Qed.

Lemma createHash_Ok c addr :
  createHash hashFunc c = Ok addr ->
  8 <= length c /\ addr = hashFunc (firstn 8 c) (skipn 8 c).
Proof.
  unfold createHash, GoSlice.slice_to, GoSlice.slice_from.
  destruct (8 <=? length c) eqn:L; cbn [bind]; [|discriminate].
  apply Nat.leb_le in L. intros [= <-]. auto.
Qed.

Lemma encryptChunkData_length key cd c k :
  encryptChunkData New h key cd = Ok (c, k) -> 8 <= length c /\ k = key.
Proof.
  intros E. apply encryptChunkData_Ok in E.
  destruct E as (es & ed & _ & -> & _ & _ & L & ->).
  rewrite length_app, !GoSlice.length_copy, !GoSlice.length_make.
  split; [lia|reflexivity].
Qed.

(** The reference of an address and a key is taken apart again. *)
Lemma parseReference_encrypted addr key :
  hashSize h = AddressLength ->
  length addr = AddressLength -> length key = KeyLength ->
  parseReference (addr ++ key) (hashSize h) = Ok (addr, Some key).
Proof.
  intros HS La Lk. unfold parseReference.
  rewrite HS, length_app, La, Lk. unfold AddressLength, KeyLength in *.
  cbn [Nat.eqb Nat.add Nat.sub].
  rewrite <- La at 1. rewrite firstn_app, firstn_all, Nat.sub_diag.
  cbn [firstn]. rewrite app_nil_r.
  rewrite <- La at 1. rewrite skipn_app, skipn_all, Nat.sub_diag.
  reflexivity.
Qed.

(** C3. [parseReference] accepts exactly the two reference lengths [S = 32]
    (the whole reference is the address, no key) and [S + K = 64] (the first
    [S] bytes are the address, the last [K] bytes the key) and rejects every
    other length with the invalid-reference-length error.  [Put] on a store
    that does not encrypt returns, for every chunk of eight bytes or more,
    the address of the chunk ([hashFunc] of its span and its data), a
    reference of length [S]; a shorter chunk makes [createHash] panic.
    [Put] on a store that encrypts returns, whenever [encryptChunkData]
    succeeds, the address of the encrypted chunk followed by the key, a
    reference of length [S + K], and passes on the error when it fails.  So
    whatever reference [Put] returns, [parseReference] finds in it the
    address of the stored chunk and tells from the length alone whether
    there is a key. *)
Theorem reference_length_determines_encryption :
  hashSize h = AddressLength ->
  (forall span data, length (hashFunc span data) = hashSize h) ->
  (forall ref, length ref = AddressLength ->
     parseReference ref (hashSize h) = Ok (ref, None)) /\
  (forall ref, length ref = AddressLength + KeyLength ->
     parseReference ref (hashSize h)
     = Ok (firstn AddressLength ref, Some (skipn AddressLength ref))) /\
  (forall ref, length ref <> AddressLength ->
     length ref <> AddressLength + KeyLength ->
     parseReference ref (hashSize h)
     = Err (ErrInvalidReferenceLength (hashSize h) (hashSize h + KeyLength)
              (length ref))) /\
  (toEncrypt h = false ->
   forall key chunkData,
     (8 <= length chunkData ->
      Put New hashFunc h key chunkData
      = Ok (hashFunc (firstn 8 chunkData) (skipn 8 chunkData)) /\
      length (hashFunc (firstn 8 chunkData) (skipn 8 chunkData))
      = AddressLength) /\
     (length chunkData < 8 -> Put New hashFunc h key chunkData = Panic)) /\
  (toEncrypt h = true ->
   forall key chunkData,
     length key = KeyLength ->
     match encryptChunkData New h key chunkData with
     | Ok (c, k) =>
         k = key /\
         Put New hashFunc h key chunkData
         = Ok (hashFunc (firstn 8 c) (skipn 8 c) ++ key) /\
         length (hashFunc (firstn 8 c) (skipn 8 c) ++ key)
         = AddressLength + KeyLength
     | Err e => Put New hashFunc h key chunkData = Err e
     | Panic => Put New hashFunc h key chunkData = Panic
     end) /\
  (forall key chunkData ref,
     length key = KeyLength ->
     Put New hashFunc h key chunkData = Ok ref ->
     exists c addr,
       (if toEncrypt h
        then encryptChunkData New h key chunkData = Ok (c, key)
        else c = chunkData) /\
       addr = hashFunc (firstn 8 c) (skipn 8 c) /\
       length addr = AddressLength /\
       ref = addr ++ (if toEncrypt h then key else []) /\
       length ref = (if toEncrypt h then AddressLength + KeyLength
                     else AddressLength) /\
       parseReference ref (hashSize h)
       = Ok (addr, if toEncrypt h then Some key else None)).
Proof.
  intros HS Hhash.
  assert (La : forall c, length (hashFunc (firstn 8 c) (skipn 8 c))
                         = AddressLength).
  { intros c. now rewrite Hhash. }
  split; [|split; [|split; [|split; [|split]]]].
  - intros ref L. unfold parseReference. rewrite L, Nat.eqb_refl. reflexivity.
  - intros ref L. unfold parseReference. rewrite HS, L.
    unfold AddressLength, KeyLength. reflexivity.
  - intros ref L1 L2. unfold parseReference. rewrite HS.
    destruct (length ref =? AddressLength) eqn:E1;
      [apply Nat.eqb_eq in E1; lia|].
    destruct (length ref =? AddressLength + KeyLength) eqn:E2;
      [apply Nat.eqb_eq in E2; lia|].
    reflexivity.
  - intros TE key cd. unfold Put. rewrite TE. cbn [bind]. split.
    + intros L. rewrite createHash_value by exact L. cbn [bind].
      rewrite app_nil_r. split; [reflexivity|apply La].
    + intros L. unfold createHash, GoSlice.slice_to.
      replace (8 <=? length cd) with false
        by (symmetry; apply Nat.leb_gt; exact L).
      reflexivity.
  - intros TE key cd Lk. unfold Put. rewrite TE.
    destruct (encryptChunkData New h key cd) as [[c k]|e|] eqn:EC;
      cbn [bind]; try reflexivity.
    destruct (encryptChunkData_length _ _ EC) as (L & ->).
    rewrite createHash_value by exact L. cbn [bind].
    split; [reflexivity|]. split; [reflexivity|].
    rewrite length_app, La, Lk. reflexivity.
  - intros key cd ref Lk HP. unfold Put in HP.
    destruct (toEncrypt h) eqn:TE.
    + destruct (encryptChunkData New h key cd) as [[c k]| |] eqn:EC;
        cbn [bind] in HP; try discriminate.
      destruct (encryptChunkData_length _ _ EC) as (L & ->).
      rewrite createHash_value in HP by exact L. cbn [bind] in HP.
      assert (Er : ref = hashFunc (firstn 8 c) (skipn 8 c) ++ key)
        by congruence.
      subst ref. clear HP.
      exists c, (hashFunc (firstn 8 c) (skipn 8 c)).
      split; [reflexivity|]. split; [reflexivity|]. split; [apply La|].
      split; [reflexivity|].
      split; [rewrite length_app, La, Lk; reflexivity|].
      apply parseReference_encrypted; auto.
    + cbn [bind] in HP.
      destruct (createHash hashFunc cd) as [addr| |] eqn:EH;
        cbn [bind] in HP; try discriminate.
      apply createHash_Ok in EH. destruct EH as (L & ->).
      assert (Er : ref = hashFunc (firstn 8 cd) (skipn 8 cd) ++ [])
        by congruence.
      subst ref. clear HP.
      exists cd, (hashFunc (firstn 8 cd) (skipn 8 cd)).
      split; [reflexivity|]. split; [reflexivity|]. split; [apply La|].
      rewrite app_nil_r. split; [reflexivity|]. split; [apply La|].
      unfold parseReference. rewrite La, Nat.eqb_refl. reflexivity.
Qed.



End CodecProperties.

(** ** The codec at concrete inputs *)

(** An encrypting store with the canonical sizes, a key, and a stand-in
    hasher of size 32. *)
Definition demoStore : hasherStore := NewHasherStore 32 true.
Definition demoKey : Key := repeat "*"%byte 32.
Definition demoHash (span data : bytes) : bytes := repeat x00 32.


(** A store that does not encrypt, a stand-in hasher whose value depends
    on the chunk (the first 32 bytes of span and data, filled up with
    zeros), and a chunk of three bytes of data under the span 3. *)
Definition plainStore : hasherStore := NewHasherStore 32 false.
Definition prefixHash (span data : bytes) : bytes :=
  GoSlice.copy (GoSlice.make 32) (span ++ data).
Definition demoChunk : ChunkData := UInt64.PutUint64 3 ++ [x61; x62; x63].
Definition demoAddress : Address :=
  [x03; x00; x00; x00; x00; x00; x00; x00; x61; x62; x63] ++ repeat x00 21.
Definition demoEncryptedAddress : Address :=
  [x29; x2a; x2a; x2a; x2a; x2a; x2a; x2a; x4b; x48; x49] ++ repeat x00 21.

Lemma reference_length_determines_encryption_witness :
  Put xorNew prefixHash plainStore demoKey demoChunk = Ok demoAddress /\
  parseReference demoAddress (hashSize plainStore) = Ok (demoAddress, None) /\
  Put xorNew prefixHash plainStore demoKey [x61; x62; x63] = Panic /\
  Put xorNew prefixHash demoStore demoKey demoChunk
  = Ok (demoEncryptedAddress ++ demoKey) /\
  parseReference (demoEncryptedAddress ++ demoKey) (hashSize demoStore)
  = Ok (demoEncryptedAddress, Some demoKey) /\
  Put xorNew prefixHash demoStore demoKey [x61; x62; x63]
  = Err (ErrInvalidChunkData 3).
Proof.
  assert (H0 : hashSize plainStore = AddressLength) by reflexivity.
  assert (H1 : hashSize demoStore = AddressLength) by reflexivity.
  assert (H2 : forall span data,
             length (prefixHash span data) = hashSize plainStore)
    by (intros; apply GoSlice.length_copy).
  assert (H3 : forall span data,
             length (prefixHash span data) = hashSize demoStore)
    by (intros; apply GoSlice.length_copy).
  destruct (reference_length_determines_encryption xorNew prefixHash
              plainStore H0 H2) as (P1 & _ & _ & P4 & _ & _).
  destruct (reference_length_determines_encryption xorNew prefixHash
              demoStore H1 H3) as (_ & _ & _ & _ & E5 & E6).
  assert (L8 : 8 <= length demoChunk) by (vm_compute; lia).
  assert (L3 : length [x61; x62; x63] < 8) by (vm_compute; lia).
  split; [exact (proj1 (proj1 (P4 eq_refl demoKey demoChunk) L8))|].
  split; [exact (P1 demoAddress eq_refl)|].
  split; [exact (proj2 (P4 eq_refl demoKey [x61; x62; x63]) L3)|].
  pose proof (E5 eq_refl demoKey demoChunk eq_refl) as Q.
  destruct (encryptChunkData xorNew demoStore demoKey demoChunk)
    as [[c k]|e|] eqn:EC; [|vm_compute in EC; discriminate EC
                           |vm_compute in EC; discriminate EC].
  destruct Q as (_ & Q & _).
  assert (Ec : prefixHash (firstn 8 c) (skipn 8 c) = demoEncryptedAddress).
  { vm_compute in EC. injection EC as <- _. vm_compute. reflexivity. }
  split; [rewrite Q, Ec; reflexivity|].
  split.
  - destruct (E6 demoKey demoChunk _ eq_refl
                (eq_trans Q (f_equal (fun a => Ok (a ++ demoKey)) Ec)))
      as (c' & addr & _ & _ & _ & Er & _ & Ep).
    apply app_inv_tail in Er. subst addr. exact Ep.
  - exact (E5 eq_refl demoKey [x61; x62; x63] eq_refl).
Defined.



(** C5. At the span [2^64 - 1] the loop of [decryptChunkData] does not
    compute the ceiling rule: [length + 4095] wraps around, the loop leaves
    length 0 where the rule gives 1024, and the 1024 data bytes of the
    chunk are dropped from the plaintext. *)
Theorem trimLength_wraps_at_top_of_range :
  trimLength 11 (refSize demoStore) (2 ^ 64 - 1) = Some 0%Z /\
  ruleLength 11 (refSize demoStore) (2 ^ 64 - 1) = Some 1024%Z /\
  exists c,
    encryptChunkData xorNew demoStore demoKey
      (repeat xff 8 ++ repeat "A"%byte 1024) = Ok (c, demoKey) /\
    decryptChunkData xorNew demoStore 11 c demoKey = Some (Ok (repeat xff 8)).
Proof.
  split; [vm_compute; reflexivity|]. split; [vm_compute; reflexivity|].
  eexists. split; [vm_compute; reflexivity|]. vm_compute. reflexivity.
Qed.



(** ** [Get], and the padding loop on every span *)

Lemma le_decode_bound b : (UInt64.le_decode b < 256 ^ Z.of_nat (length b))%Z.
Proof.
  induction b as [|x r IH]; [simpl; lia|].
  cbn [UInt64.le_decode length]. rewrite Nat2Z.inj_succ, Z.pow_succ_r by lia.
  assert (Hx : (Z.of_N (Byte.to_N x) < 256)%Z).
  { pose proof (Byte.to_N_bounded x). lia. }
  lia.
Qed.

Section StoreAccess.

Variable New : Key -> Z -> Z -> bytes -> outcome bytes.
Variable hashFunc : bytes -> bytes -> bytes.
Variable h : hasherStore.

(** [createChunk]: [NewChunk(hash, chunkData)]; the tag is left out. *)
Definition createChunk (chunkData : ChunkData) : outcome (Address * ChunkData) :=
  addr <- createHash hashFunc chunkData ;;
  Ok (addr, chunkData).

(** The chunk [Put] hands to [storeChunk]. *)
Definition PutChunk (key : Key) (chunkData : ChunkData)
  : outcome (Address * ChunkData) :=
  '(c, _) <-
     (if toEncrypt h then encryptChunkData New h key chunkData
      else Ok (chunkData, [])) ;;
  createChunk c.

(** [Get]; [storeGet addr] is what [h.store.Get] answers for the address
    (the data of the chunk, or an error).  [None] when the padding loop of
    [decryptChunkData] does not exit within the fuel. *)
Definition Get (storeGet : Address -> outcome ChunkData) (fuel : nat)
    (ref : Reference) : option (outcome ChunkData) :=
  match parseReference ref (hashSize h) with
  | Err e => Some (Err e)
  | Panic => Some Panic
  | Ok (addr, encryptionKey) =>
      match storeGet addr with
      | Err e => Some (Err e)
      | Panic => Some Panic
      | Ok chunkData =>
          match encryptionKey with
          | Some k => decryptChunkData New h fuel chunkData k
          | None => Some (Ok chunkData)
          end
      end
  end.

(** Decrypting what [encryptChunkData] made, for an encryptor that undoes
    itself. *)
Lemma decrypt_undoes_encrypt :
  (forall key a b x y, New key a b x = Ok y ->
     exists z, New key a b y = Ok z /\ firstn (length x) z = x) ->
  (forall key b x y, New key 0%Z b x = Ok y -> length y = length x) ->
  forall key chunkData c k fuel len,
    encryptChunkData New h key chunkData = Ok (c, k) ->
    trimLength fuel (refSize h) (UInt64.le_decode (firstn 8 chunkData)) = Some len ->
    Z.to_nat len = length chunkData - 8 ->
    decryptChunkData New h fuel c k = Some (Ok chunkData).
Proof.
  intros Htwice Hlen key cd c k fuel len HE HT HL.
  apply encryptChunkData_Ok in HE.
  destruct HE as (es & ed & Lcd & -> & Hes & Hed & Lsum & ->).
  assert (Les : length es = 8).
  { unfold newSpanEncryption in Hes. destruct (refSize h =? 0)%Z; [discriminate|].
    apply Hlen in Hes. rewrite Hes, length_firstn. lia. }
  rewrite (@GoSlice.copy_same_length (GoSlice.make 8) es)
    by (rewrite GoSlice.length_make; exact Les).
  rewrite GoSlice.copy_same_length by (rewrite GoSlice.length_make; lia).
  assert (Hzs : exists zs, newSpanEncryption New h key es = Ok zs
                           /\ zs = firstn 8 cd).
  { unfold newSpanEncryption in *. destruct (refSize h =? 0)%Z; [discriminate|].
    destruct (Htwice _ _ _ _ _ Hes) as (zs & Hz & Hp).
    exists zs. split; [exact Hz|].
    apply Hlen in Hz. rewrite length_firstn, Nat.min_l in Hp by lia.
    rewrite <- Hp. symmetry. apply firstn_all2. lia. }
  destruct Hzs as (zs & Hzs & ->).
  assert (Hzd : exists zd, newDataEncryption New key ed = Ok zd
                           /\ firstn (length cd - 8) zd = skipn 8 cd).
  { unfold newDataEncryption in *.
    destruct (Htwice _ _ _ _ _ Hed) as (zd & Hz & Hp).
    exists zd. split; [exact Hz|]. now rewrite length_skipn in Hp. }
  destruct Hzd as (zd & Hzd & Hp).
  assert (Lzd : length cd - 8 <= length zd).
  { apply (f_equal (@length byte)) in Hp.
    rewrite length_firstn, length_skipn in Hp. lia. }
  erewrite decryptChunkData_returns with (span := firstn 8 cd) (data := zd) (len := len).
  - rewrite firstn_firstn, Nat.min_id, HL, Hp. now rewrite firstn_skipn.
  - apply decrypt_intro.
    + rewrite length_app. lia.
    + rewrite <- Les at 1. rewrite firstn_app, firstn_all, Nat.sub_diag.
      simpl. rewrite app_nil_r. exact Hzs.
    + rewrite <- Les at 1. rewrite skipn_app, skipn_all, Nat.sub_diag.
      simpl. exact Hzd.
  - rewrite length_firstn. lia.
  - rewrite firstn_firstn, Nat.min_id. exact HT.
  - lia.
Qed.

(** X9 ([hasherStore.Get], [hasherStore.Put], [createChunk]): [Get] gives
    back what [Put] was given.  When [Put] returns a reference, it has
    handed a chunk to [storeChunk]; once the store answers the chunk's
    address with the chunk's data, [Get] of the reference returns the
    payload [Put] was given: as it is when the store does not encrypt, and
    decrypted when it does (for an encryptor that undoes itself and a
    payload whose data part has the length its span implies).  An error of
    the store is returned by [Get] as it is. *)
Theorem Get_returns_what_Put_stored :
  hashSize h = AddressLength ->
  (forall span data, length (hashFunc span data) = hashSize h) ->
  (forall key a b x y, New key a b x = Ok y ->
     exists z, New key a b y = Ok z /\ firstn (length x) z = x) ->
  (forall key b x y, New key 0%Z b x = Ok y -> length y = length x) ->
  forall key chunkData ref fuel len,
    length key = KeyLength ->
    Put New hashFunc h key chunkData = Ok ref ->
    (toEncrypt h = true ->
     trimLength fuel (refSize h) (UInt64.le_decode (firstn 8 chunkData))
     = Some len /\
     Z.to_nat len = length chunkData - 8) ->
    exists addr c,
      PutChunk key chunkData = Ok (addr, c) /\
      (forall storeGet,
          storeGet addr = Ok c ->
          Get storeGet fuel ref = Some (Ok chunkData)) /\
      (forall storeGet e,
          storeGet addr = Err e -> Get storeGet fuel ref = Some (Err e)).
Proof.
  intros HS Hhash Htwice Hlen key cd ref fuel len Lk HP Hspan.
  unfold Put in HP. unfold PutChunk, createChunk.
  assert (Haddr : forall c addr,
             createHash hashFunc c = Ok addr -> length addr = 32).
  { intros c addr. unfold createHash, GoSlice.slice_to, GoSlice.slice_from.
    destruct (8 <=? length c); cbn [bind]; [|discriminate].
    intros [= <-]. rewrite Hhash. exact HS. }
  unfold KeyLength in Lk.
  destruct (toEncrypt h) eqn:TE.
  - destruct (encryptChunkData New h key cd) as [[c k]| |] eqn:EC;
      cbn [bind] in HP; try discriminate.
    destruct (createHash hashFunc c) as [addr| |] eqn:EH;
      cbn [bind] in HP; try discriminate.
    injection HP as <-.
    pose proof (Haddr _ _ EH) as La.
    destruct (Hspan eq_refl) as (HT & HL).
    pose proof (decrypt_undoes_encrypt Htwice Hlen _ _ _ EC HT HL) as RT.
    apply encryptChunkData_Ok in EC. destruct EC as (es & ed & _ & -> & _).
    exists addr, c. cbn [bind]. rewrite EH. cbn [bind].
    split; [reflexivity|].
    assert (P : parseReference (addr ++ key) (hashSize h)
                = Ok (addr, Some key)).
    { unfold parseReference. rewrite HS, length_app, La, Lk.
      unfold AddressLength, KeyLength. cbn [Nat.eqb Nat.add Nat.sub].
      rewrite <- La at 1. rewrite firstn_app, firstn_all, Nat.sub_diag.
      cbn [firstn]. rewrite app_nil_r.
      rewrite <- La at 1. rewrite skipn_app, skipn_all, Nat.sub_diag.
      reflexivity. }
    split.
    + intros storeGet Hget. unfold Get. rewrite P, Hget. exact RT.
    + intros storeGet e Hget. unfold Get. now rewrite P, Hget.
  - cbn [bind] in HP.
    destruct (createHash hashFunc cd) as [addr| |] eqn:EH;
      cbn [bind] in HP; try discriminate.
    injection HP as <-.
    pose proof (Haddr _ _ EH) as La.
    exists addr, cd. cbn [bind]. rewrite EH. cbn [bind].
    split; [reflexivity|].
    assert (P : parseReference (addr ++ []) (hashSize h) = Ok (addr ++ [], None)).
    { unfold parseReference. rewrite app_nil_r, La. reflexivity. }
    rewrite app_nil_r in P. rewrite app_nil_r.
    split.
    + intros storeGet Hget. unfold Get. now rewrite P, Hget.
    + intros storeGet e Hget. unfold Get. now rewrite P, Hget.
Qed.

(** X10 ([hasherStore.decryptChunkData]): the padding loop always comes to
    an end.  With a reference size of at most 64 bytes the loop exits
    within eleven rounds whatever the eight span bytes are, so
    [decryptChunkData] returns for every payload and key: a chunk, an
    error or a run-time panic, but it never loops for ever. *)
Theorem decryptChunkData_terminates :
  (0 <= refSize h <= 64)%Z ->
  forall chunkData key,
    exists r, decryptChunkData New h 11 chunkData key = Some r.
Proof.
  intros Hr cd key. unfold decryptChunkData.
  destruct (length cd <? 8); [eauto|].
  destruct (decrypt New h cd key) as [[span data]| |]; eauto.
  unfold Size, UInt64.Uint64.
  destruct (8 <=? length span) eqn:L; eauto.
  destruct (@trimLength_terminates 11 (refSize h)
              (UInt64.le_decode (firstn 8 span)) Hr) as (n & -> & _); eauto.
  split; [apply le_decode_nonneg|].
  pose proof (le_decode_bound (firstn 8 span)) as B.
  rewrite length_firstn in B. apply Nat.leb_le in L.
  rewrite Nat.min_l in B by exact L.
  change (256 ^ Z.of_nat 8)%Z with (2 ^ 64)%Z in B.
  change (2 ^ (12 + 5 * Z.of_nat 11))%Z with (2 ^ 67)%Z. lia.
Qed.

End StoreAccess.

Lemma Get_returns_what_Put_stored_witness :
  exists addr c,
    PutChunk xorNew demoHash demoStore demoKey
      (UInt64.PutUint64 3 ++ [x61; x62; x63]) = Ok (addr, c) /\
    forall storeGet,
      storeGet addr = Ok c ->
      Get xorNew demoStore storeGet 0 (demoHash [] [] ++ demoKey)
      = Some (Ok (UInt64.PutUint64 3 ++ [x61; x62; x63])).
Proof.
  assert (H1 : hashSize demoStore = AddressLength) by reflexivity.
  assert (H2 : forall span data, length (demoHash span data) = hashSize demoStore)
    by (intros; apply repeat_length).
  assert (H3 : length demoKey = KeyLength) by reflexivity.
  assert (H4 : Put xorNew demoHash demoStore demoKey
                 (UInt64.PutUint64 3 ++ [x61; x62; x63])
               = Ok (demoHash [] [] ++ demoKey)) by (vm_compute; reflexivity).
  assert (H5 : toEncrypt demoStore = true ->
               trimLength 0 (refSize demoStore)
                 (UInt64.le_decode
                    (firstn 8 (UInt64.PutUint64 3 ++ [x61; x62; x63])))
               = Some 3%Z /\
               Z.to_nat 3 = length (UInt64.PutUint64 3 ++ [x61; x62; x63]) - 8)
    by (intros _; split; vm_compute; reflexivity).
  destruct (@Get_returns_what_Put_stored xorNew demoHash demoStore H1 H2
              xorNew_twice xorNew_length demoKey
              (UInt64.PutUint64 3 ++ [x61; x62; x63])
              (demoHash [] [] ++ demoKey) 0 3%Z H3 H4 H5)
    as (addr & c & E & G & _).
  exists addr, c. split; [exact E|exact G].
Defined.

Lemma decryptChunkData_terminates_witness :
  exists r,
    decryptChunkData xorNew demoStore 11 (repeat xff 8 ++ repeat x00 9)
      demoKey = Some r.
Proof.
  assert (H1 : (0 <= refSize demoStore <= 64)%Z) by (vm_compute; split; discriminate).
  exact (@decryptChunkData_terminates xorNew demoStore H1
           (repeat xff 8 ++ repeat x00 9) demoKey).
Defined.

Lemma trimLength_follows_rule_witness :
  trimLength 11 64 1000000 = ruleLength 11 64 1000000.
Proof.
  apply trimLength_follows_rule; unfold DefaultSize, UInt64.modulus; lia.
Defined.

End HasherStore.

(* ================================================================== *)
(** * Pools of goroutines *)
(* ================================================================== *)

(** The goroutines of a model are kept in a list; the goroutine at position
    [i] is replaced in place when it takes a step. *)
Module Pool.

Section Update.
Context {A : Type}.

Fixpoint update (i : nat) (x : A) (l : list A) : list A :=
  match l, i with
  | [], _ => []
  | _ :: r, O => x :: r
  | y :: r, S i' => y :: update i' x r
  end.

Lemma length_update i x l : length (update i x l) = length l.
Proof.
  revert i. induction l as [|y r IH]; intros [|i]; simpl; auto.
Qed.

Lemma nth_error_update_eq i x l :
  i < length l -> nth_error (update i x l) i = Some x.
Proof.
  revert i. induction l as [|y r IH]; intros [|i] H; simpl in *; try lia; auto.
  apply IH. lia.
Qed.

Lemma nth_error_update_ne i j x l :
  i <> j -> nth_error (update i x l) j = nth_error l j.
Proof.
  revert i j. induction l as [|y r IH]; intros [|i] [|j] H; simpl; auto;
    congruence.
Qed.

Lemma nth_error_update i j x l :
  nth_error (update i x l) j
  = if Nat.eqb i j then
      match nth_error l j with Some _ => Some x | None => None end
    else nth_error l j.
Proof.
  destruct (Nat.eqb i j) eqn:E.
  - apply Nat.eqb_eq in E. subst j.
    destruct (nth_error l i) eqn:N.
    + apply nth_error_update_eq. apply nth_error_Some. congruence.
    + apply nth_error_None. rewrite length_update.
      now apply nth_error_None.
  - apply Nat.eqb_neq in E. now apply nth_error_update_ne.
Qed.

(** How many goroutines of a pool satisfy [P]. *)
Fixpoint count (P : A -> bool) (l : list A) : nat :=
  match l with
  | [] => 0
  | x :: r => (if P x then 1 else 0) + count P r
  end.

Lemma count_app P l1 l2 : count P (l1 ++ l2) = count P l1 + count P l2.
Proof. induction l1 as [|x r IH]; simpl; [reflexivity|]. rewrite IH. lia. Qed.

Lemma count_le_length P l : count P l <= length l.
Proof. induction l as [|x r IH]; simpl; [lia|]. destruct (P x); lia. Qed.

Lemma count_update P i x old l :
  nth_error l i = Some old ->
  count P (update i x l) + (if P old then 1 else 0)
  = count P l + (if P x then 1 else 0).
Proof.
  revert i. induction l as [|y r IH]; intros [|i] H; simpl in *; try discriminate.
  - injection H as ->. lia.
  - specialize (IH _ H). lia.
Qed.

Lemma count_all P l :
  length l <= count P l -> forall x, In x l -> P x = true.
Proof.
  induction l as [|y r IH]; simpl; intros H x Hin; [contradiction|].
  pose proof (count_le_length P r).
  destruct (P y) eqn:E; [|lia].
  destruct Hin as [->|Hin]; [exact E|]. apply IH; [lia|exact Hin].
Qed.

Lemma In_update i x l y : In y (update i x l) -> y = x \/ In y l.
Proof.
  revert i. induction l as [|z r IH]; intros [|i]; simpl; auto.
  - intros [<-|H]; auto.
  - intros [<-|H]; auto. destruct (IH _ H); auto.
Qed.

Lemma In_update_new i x l : i < length l -> In x (update i x l).
Proof.
  intros H. apply nth_error_In with (n := i). now apply nth_error_update_eq.
Qed.

Lemma In_update_other i x old l y :
  nth_error l i = Some old -> In y l -> y <> old -> In y (update i x l).
Proof.
  revert i. induction l as [|z r IH]; intros [|i] N Hin Hne; simpl in *;
    try contradiction.
  - injection N as ->. destruct Hin as [->|Hin]; [congruence|auto].
  - destruct Hin as [->|Hin]; eauto.
Qed.

Lemma update_nil i x l : update i x l = [] <-> l = [].
Proof. destruct l, i; simpl; split; congruence. Qed.

(** The sum of a weight over the goroutines of a pool. *)
Fixpoint total (w : A -> nat) (l : list A) : nat :=
  match l with
  | [] => 0
  | x :: r => w x + total w r
  end.

Lemma total_update w i x old l :
  nth_error l i = Some old ->
  total w (update i x l) + w old = total w l + w x.
Proof.
  revert i. induction l as [|y r IH]; intros [|i] H; simpl in *; try discriminate.
  - injection H as ->. lia.
  - specialize (IH _ H). lia.
Qed.

Lemma count_eq_length P l :
  (forall x, In x l -> P x = true) -> count P l = length l.
Proof.
  induction l as [|y r IH]; simpl; intros H; [reflexivity|].
  rewrite (H y) by now left. rewrite IH; auto.
Qed.

Lemma count_le_mono P Q l :
  (forall x, P x = true -> Q x = true) -> count P l <= count Q l.
Proof.
  intros H. induction l as [|y r IH]; simpl; [lia|].
  destruct (P y) eqn:E; [rewrite (H _ E); lia|]. destruct (Q y); lia.
Qed.

End Update.

End Pool.

(* ================================================================== *)
(** * The network store: fetchers and the remote fetch loop
      ([storage/netstore.go]) *)
(* ================================================================== *)

Module NetStore.

Definition Address := bytes.
Definition peer := nat.

(** A chunk: its address and its data. *)
Record Chunk : Type := mkChunk { chunk_address : Address; chunk_data : bytes }.

(** ** [RemoteFetch] and [Get] *)

(** What the [RemoteGet] collaborator hands back: an error, or, with a nil
    error, a peer and a cleanup handle.  Nothing in [RemoteFetch] checks
    that these two are not nil. *)
Inductive remote_reply : Type :=
| Peer (p : peer)             (* a peer and its cleanup handle *)
| Fail (e : error)
| NilPeer (cleanup : bool)    (* a nil peer; [cleanup]: the handle is not nil *)
| NilCleanup (p : peer).      (* a peer and a nil handle *)

(** The branch the [select] of one attempt takes: the fetcher's [Delivered]
    channel is closed (and [fi.Chunk] read), the search timeout fires, or
    the context is done. *)
Inductive select_event : Type :=
| EvDelivered (ch : Chunk)
| EvSearchTimeout
| EvCtxDone (e : error).

(** What a call of [RemoteFetch] leaves behind: the returned pair, the
    peers stored in [req.PeersToSkip], and how many deferred [cleanup]
    handles ran at the return. *)
Record fetch_result : Type := mkFetchResult {
  fr_value : outcome Chunk;
  fr_skip : list peer;
  fr_cleanups : nat
}.

(** The return of [RemoteFetch]: the deferred calls run, the latest first.
    [doomed]: one of the deferred handles is nil; calling it panics, so the
    caller gets the panic instead of the value, and the handles deferred
    before it still run. *)
Definition at_return (doomed : bool) (v : outcome Chunk) (skip : list peer)
    (deferred : nat) : fetch_result :=
  {| fr_value := if doomed then Panic else v;
     fr_skip := skip; fr_cleanups := deferred |}.

(** The loop of [RemoteFetch]: [RemoteGet] is asked with the attempt number
    and the peers to skip; [events] lists the [select] branch of each
    attempt; [deferred] counts the handles deferred so far that are not
    nil.  [defer cleanup()] with a nil handle panics only when the deferred
    call is made, at the return; [currentPeer.String()] panics at once on a
    nil peer, before the peer is stored and before the [select].
    [None]: the loop is still waiting when the events are used up. *)
Fixpoint fetch_loop (RemoteGet : nat -> list peer -> remote_reply)
    (events : list select_event) (attempt deferred : nat) (doomed : bool)
    (skip : list peer) : option fetch_result :=
  match RemoteGet attempt skip with
  | Fail _ => Some (at_return doomed (Err ErrNoSuitablePeer) skip deferred)
  | NilPeer cleanup =>
      Some {| fr_value := Panic; fr_skip := skip;
              fr_cleanups := if cleanup then S deferred else deferred |}
  | Peer currentPeer =>
      let skip' := currentPeer :: skip in
      match events with
      | [] => None
      | EvDelivered ch :: _ =>
          Some (at_return doomed (Ok ch) skip' (S deferred))
      | EvSearchTimeout :: rest =>
          fetch_loop RemoteGet rest (S attempt) (S deferred) doomed skip'
      | EvCtxDone e :: _ =>
          Some (at_return doomed (Err e) skip' (S deferred))
      end
  | NilCleanup currentPeer =>
      let skip' := currentPeer :: skip in
      match events with
      | [] => None
      | EvDelivered ch :: _ => Some (at_return true (Ok ch) skip' deferred)
      | EvSearchTimeout :: rest =>
          fetch_loop RemoteGet rest (S attempt) deferred true skip'
      | EvCtxDone e :: _ => Some (at_return true (Err e) skip' deferred)
      end
  end.

(** [RemoteFetch] at the head of its loop when [attempt] peers have been
    tried, each with a handle that was deferred (a call of [RemoteFetch]
    starts with [attempt = 0]). *)
Definition RemoteFetch (RemoteGet : nat -> list peer -> remote_reply)
    (events : list select_event) (attempt : nat) (skip : list peer)
  : option fetch_result :=
  fetch_loop RemoteGet events attempt attempt false skip.

(** [Get]: the local store first; on any error of the local store the
    request group runs [GetOrCreateFetcher] (whose [ok] is always true) and
    [RemoteFetch], and an error of [RemoteFetch] is returned as it is. *)
Definition Get (localGet : outcome Chunk)
    (RemoteGet : nat -> list peer -> remote_reply)
    (events : list select_event) (skip : list peer)
  : option (outcome Chunk) :=
  match localGet with
  | Ok ch => Some (Ok ch)
  | Panic => Some Panic
  | Err _ =>
      match RemoteFetch RemoteGet events 0 skip with
      | None => None
      | Some r => Some (fr_value r)
      end
  end.

(** C10. Whenever [RemoteGet] answers with an error, whatever the error,
    [RemoteFetch] returns at once (no [select] is entered) with
    [ErrNoSuitablePeer]; the collaborator's error is not in the result, so
    [Get] returns [ErrNoSuitablePeer] too and a caller sees the same result
    for every error of [RemoteGet]. *)
Theorem RemoteFetch_masks_RemoteGet_error :
  forall RemoteGet events attempt skip e,
    RemoteGet attempt skip = Fail e ->
    RemoteFetch RemoteGet events attempt skip
    = Some {| fr_value := Err ErrNoSuitablePeer;
              fr_skip := skip; fr_cleanups := attempt |} /\
    (attempt = 0 ->
     forall e_local,
       Get (Err e_local) RemoteGet events skip = Some (Err ErrNoSuitablePeer)).
Proof.
  intros RG events attempt skip e H. split.
  - unfold RemoteFetch. destruct events; simpl; rewrite H; reflexivity.
  - intros -> e_local. unfold Get, RemoteFetch.
    destruct events; simpl; rewrite H; reflexivity.
Qed.

(** Two collaborators that pick the same peers and fail at the same
    attempts, with whatever errors, are indistinguishable through
    [RemoteFetch]. *)
Lemma RemoteFetch_ignores_error_value RG1 RG2 :
  (forall attempt skip,
      match RG1 attempt skip, RG2 attempt skip with
      | Peer p1, Peer p2 => p1 = p2
      | Fail _, Fail _ => True
      | NilPeer c1, NilPeer c2 => c1 = c2
      | NilCleanup p1, NilCleanup p2 => p1 = p2
      | _, _ => False
      end) ->
  forall events attempt skip,
    RemoteFetch RG1 events attempt skip = RemoteFetch RG2 events attempt skip.
Proof.
  intros Hagree events attempt skip. unfold RemoteFetch.
  generalize attempt at 2 4 as deferred. generalize false as doomed.
  revert attempt skip.
  induction events as [|ev rest IH]; intros attempt skip doomed deferred;
    simpl; specialize (Hagree attempt skip);
    destruct (RG1 attempt skip), (RG2 attempt skip);
    try contradiction; subst; try reflexivity;
    destruct ev; try reflexivity; apply IH.
Qed.

Lemma RemoteFetch_masks_RemoteGet_error_witness :
  RemoteFetch (fun _ _ => Fail (ErrCollaborator 7)) [EvSearchTimeout] 0 [3; 5]
  = Some {| fr_value := Err ErrNoSuitablePeer;
            fr_skip := [3; 5]; fr_cleanups := 0 |} /\
  Get (Err (ErrCollaborator 2)) (fun _ _ => Fail (ErrCollaborator 7))
    [EvSearchTimeout] [3; 5]
  = Some (Err ErrNoSuitablePeer).
Proof.
  destruct (@RemoteFetch_masks_RemoteGet_error
              (fun _ _ => Fail (ErrCollaborator 7)) [EvSearchTimeout] 0 [3; 5]
              (ErrCollaborator 7) eq_refl) as [H1 H2].
  split; [exact H1|]. exact (H2 eq_refl (ErrCollaborator 2)).
Defined.

(** ** Fetchers and one-shot delivery *)

(** [Fetcher.SafeClose] run by several goroutines at once.  Every deliverer
    (a [Put] on the retrieve-request path, a [Put] on the syncing path)
    calls [fi.once.Do(func() { fi.Chunk = ch; close(fi.Delivered) })].
    [sync.Once] lets the first caller in, keeps the others waiting while the
    function runs, and lets them return without running it afterwards. *)
Inductive once_state : Type :=
| OnceIdle        (* done = 0, mutex free *)
| OnceRunning     (* a caller holds the mutex and runs the function *)
| OnceDone.       (* done = 1 *)

Inductive deliverer_pc : Type :=
| CallDo          (* about to call [fi.once.Do] *)
| WriteChunk      (* in the function, before [fi.Chunk = ch] *)
| CloseChan       (* in the function, before [close(fi.Delivered)] *)
| LeaveDo         (* the function returned, [Once] not yet marked done *)
| Returned.       (* [SafeClose] returned *)

Record deliverer : Type := mkDeliverer {
  d_chunk : Chunk;
  d_pc : deliverer_pc
}.

(** The fetcher as the deliverers and the waiters see it, with the
    goroutines inside [SafeClose].  [ds_closes] counts the executions of
    [close(fi.Delivered)]; closing a closed channel panics. *)
Record delivery_state : Type := mkDeliveryState {
  ds_delivered : bool;
  ds_chunk : option Chunk;
  ds_once : once_state;
  ds_closes : nat;
  ds_panicked : bool;
  ds_threads : list deliverer
}.

(** [NewFetcher], with one deliverer per chunk about to be delivered. *)
Definition NewFetcher (chs : list Chunk) : delivery_state :=
  {| ds_delivered := false; ds_chunk := None; ds_once := OnceIdle;
     ds_closes := 0; ds_panicked := false;
     ds_threads := map (fun ch => mkDeliverer ch CallDo) chs |}.

Definition set_pc (st : delivery_state) (i : nat) (d : deliverer)
    (pc : deliverer_pc) : list deliverer :=
  Pool.update i (mkDeliverer (d_chunk d) pc) (ds_threads st).

(** One step of deliverer [i]; a deliverer that cannot move (it waits for
    the [Once], or it has returned) leaves the state as it is. *)
Definition step (i : nat) (st : delivery_state) : delivery_state :=
  match nth_error (ds_threads st) i with
  | None => st
  | Some d =>
      match d_pc d with
      | CallDo =>
          match ds_once st with
          | OnceIdle =>
              mkDeliveryState (ds_delivered st) (ds_chunk st) OnceRunning
                (ds_closes st) (ds_panicked st) (set_pc st i d WriteChunk)
          | OnceRunning => st
          | OnceDone =>
              mkDeliveryState (ds_delivered st) (ds_chunk st) OnceDone
                (ds_closes st) (ds_panicked st) (set_pc st i d Returned)
          end
      | WriteChunk =>
          mkDeliveryState (ds_delivered st) (Some (d_chunk d)) (ds_once st)
            (ds_closes st) (ds_panicked st) (set_pc st i d CloseChan)
      | CloseChan =>
          if ds_delivered st then
            mkDeliveryState true (ds_chunk st) (ds_once st)
              (ds_closes st) true (set_pc st i d Returned)
          else
            mkDeliveryState true (ds_chunk st) (ds_once st)
              (S (ds_closes st)) (ds_panicked st) (set_pc st i d LeaveDo)
      | LeaveDo =>
          mkDeliveryState (ds_delivered st) (ds_chunk st) OnceDone
            (ds_closes st) (ds_panicked st) (set_pc st i d Returned)
      | Returned => st
      end
  end.

(** A schedule names the deliverer that moves next. *)
Fixpoint run (schedule : list nat) (st : delivery_state) : delivery_state :=
  match schedule with
  | [] => st
  | i :: rest => run rest (step i st)
  end.

(** [SafeClose] as one caller sees it when nobody else is inside. *)
Definition SafeClose (st : delivery_state) (i : nat) : delivery_state :=
  run [i; i; i; i] st.

(** A waiter on the fetcher, [<-fi.Delivered] followed by the read of
    [fi.Chunk] as in [RemoteFetch]: [None] while the channel is open, and
    the content of the chunk slot once it is closed. *)
Definition await (st : delivery_state) : option (option Chunk) :=
  if ds_delivered st then Some (ds_chunk st) else None.

(** What holds of the fetcher in every state the deliverers can reach. *)
Definition once_inv (chs : list Chunk) (st : delivery_state) : Prop :=
  ds_panicked st = false /\
  (forall i d, nth_error (ds_threads st) i = Some d ->
               nth_error chs i = Some (d_chunk d)) /\
  length (ds_threads st) = length chs /\
  match ds_once st with
  | OnceIdle =>
      ds_delivered st = false /\ ds_closes st = 0 /\ ds_chunk st = None /\
      forall j d, nth_error (ds_threads st) j = Some d -> d_pc d = CallDo
  | OnceRunning =>
      exists i d,
        nth_error (ds_threads st) i = Some d /\
        (forall j d', j <> i -> nth_error (ds_threads st) j = Some d' ->
                      d_pc d' = CallDo) /\
        match d_pc d with
        | WriteChunk =>
            ds_delivered st = false /\ ds_closes st = 0 /\ ds_chunk st = None
        | CloseChan =>
            ds_delivered st = false /\ ds_closes st = 0 /\
            ds_chunk st = Some (d_chunk d)
        | LeaveDo =>
            ds_delivered st = true /\ ds_closes st = 1 /\
            ds_chunk st = Some (d_chunk d)
        | _ => False
        end
  | OnceDone =>
      ds_delivered st = true /\ ds_closes st = 1 /\
      (exists ch, In ch chs /\ ds_chunk st = Some ch) /\
      forall j d, nth_error (ds_threads st) j = Some d ->
                  d_pc d = CallDo \/ d_pc d = Returned
  end.

Ltac upd_cases H :=
  unfold set_pc in H; rewrite Pool.nth_error_update in H;
  let E := fresh "E" in
  match type of H with
  | context [Nat.eqb ?i ?j] =>
      destruct (Nat.eqb i j) eqn:E;
      [ apply Nat.eqb_eq in E; subst
      | apply Nat.eqb_neq in E ]
  end.

Lemma once_inv_init chs : once_inv chs (NewFetcher chs).
Proof.
  unfold once_inv, NewFetcher; simpl. repeat split.
  - intros i d H. rewrite nth_error_map in H.
    destruct (nth_error chs i); simpl in H; [|discriminate].
    now injection H as <-.
  - apply length_map.
  - intros j d H. rewrite nth_error_map in H.
    destruct (nth_error chs j); simpl in H; [|discriminate].
    now injection H as <-.
Qed.

Lemma once_inv_step chs i st : once_inv chs st -> once_inv chs (step i st).
Proof.
  intros (Hp & Hch & Hlen & Ho). unfold step.
  destruct (nth_error (ds_threads st) i) as [[ch pc]|] eqn:N;
    [|repeat split; assumption].
  assert (Hch' : forall pc' j d,
             nth_error (set_pc st i (mkDeliverer ch pc) pc') j = Some d ->
             nth_error chs j = Some (d_chunk d)).
  { intros pc' j d H. upd_cases H.
    - rewrite N in H. injection H as <-. apply (Hch _ _ N).
    - apply (Hch _ _ H). }
  assert (Hlen' : forall pc',
             length (set_pc st i (mkDeliverer ch pc) pc') = length chs).
  { intros pc'. unfold set_pc. now rewrite Pool.length_update. }
  destruct pc; simpl.
  - (* CallDo *)
    destruct (ds_once st) eqn:O.
    + destruct Ho as (Hd & Hc & Hk & Hall).
      unfold once_inv; simpl. repeat split; eauto.
      exists i, (mkDeliverer ch WriteChunk). simpl. repeat split; auto.
      * unfold set_pc. rewrite Pool.nth_error_update_eq; [reflexivity|].
        apply nth_error_Some. congruence.
      * intros j d' Hj H. upd_cases H; [congruence|]. eauto.
    + unfold once_inv. rewrite O. repeat split; assumption.
    + destruct Ho as (Hd & Hc & Hk & Hall).
      unfold once_inv; simpl. repeat split; eauto.
      intros j d H. upd_cases H.
      * rewrite N in H. injection H as <-. now right.
      * eauto.
  - (* WriteChunk *)
    destruct (ds_once st) eqn:O.
    + destruct Ho as (_ & _ & _ & Hall). specialize (Hall _ _ N). discriminate.
    + destruct Ho as (i0 & d0 & N0 & Hoth & Hst).
      destruct (Nat.eq_dec i i0) as [->|Hne].
      2:{ specialize (Hoth _ _ Hne N). discriminate. }
      rewrite N in N0. injection N0 as <-. simpl in Hst.
      destruct Hst as (Hd & Hc & Hk).
      unfold once_inv; simpl. repeat split; eauto.
      exists i0, (mkDeliverer ch CloseChan). simpl. repeat split; auto.
      * unfold set_pc. rewrite Pool.nth_error_update_eq; [reflexivity|].
        apply nth_error_Some. congruence.
      * intros j d' Hj H. upd_cases H; [congruence|]. eauto.
    + destruct Ho as (_ & _ & _ & Hall).
      destruct (Hall _ _ N); discriminate.
  - (* CloseChan *)
    destruct (ds_once st) eqn:O.
    + destruct Ho as (_ & _ & _ & Hall). specialize (Hall _ _ N). discriminate.
    + destruct Ho as (i0 & d0 & N0 & Hoth & Hst).
      destruct (Nat.eq_dec i i0) as [->|Hne].
      2:{ specialize (Hoth _ _ Hne N). discriminate. }
      rewrite N in N0. injection N0 as <-. simpl in Hst.
      destruct Hst as (Hd & Hc & Hk). rewrite Hd.
      unfold once_inv; simpl. repeat split; eauto.
      exists i0, (mkDeliverer ch LeaveDo). simpl. repeat split; auto.
      * unfold set_pc. rewrite Pool.nth_error_update_eq; [reflexivity|].
        apply nth_error_Some. congruence.
      * intros j d' Hj H. upd_cases H; [congruence|]. eauto.
    + destruct Ho as (_ & _ & _ & Hall).
      destruct (Hall _ _ N); discriminate.
  - (* LeaveDo *)
    destruct (ds_once st) eqn:O.
    + destruct Ho as (_ & _ & _ & Hall). specialize (Hall _ _ N). discriminate.
    + destruct Ho as (i0 & d0 & N0 & Hoth & Hst).
      destruct (Nat.eq_dec i i0) as [->|Hne].
      2:{ specialize (Hoth _ _ Hne N). discriminate. }
      rewrite N in N0. injection N0 as <-. simpl in Hst.
      destruct Hst as (Hd & Hc & Hk).
      unfold once_inv; simpl. repeat split; eauto.
      * exists ch. split; [|assumption].
        apply nth_error_In with (n := i0). apply (Hch _ _ N).
      * intros j d H. upd_cases H.
        -- rewrite N in H. injection H as <-. now right.
        -- left. eauto.
    + destruct Ho as (_ & _ & _ & Hall).
      destruct (Hall _ _ N); discriminate.
  - (* Returned *)
    repeat split; assumption.
Qed.

Lemma once_inv_run chs schedule st :
  once_inv chs st -> once_inv chs (run schedule st).
Proof.
  revert st. induction schedule as [|i rest IH]; intros st H; simpl; auto.
  apply IH. now apply once_inv_step.
Qed.

(** Once the channel is closed no step writes the chunk slot again. *)
Lemma delivered_chunk_stable chs schedule st ch :
  once_inv chs st -> ds_delivered st = true -> ds_chunk st = Some ch ->
  ds_delivered (run schedule st) = true /\ ds_chunk (run schedule st) = Some ch.
Proof.
  revert st. induction schedule as [|i rest IH]; intros st Hinv Hd Hc; simpl; auto.
  apply IH; [now apply once_inv_step| |].
  - unfold step. destruct (nth_error (ds_threads st) i) as [[c pc]|]; auto.
    destruct pc; simpl; auto.
    + destruct (ds_once st); auto.
    + rewrite Hd. reflexivity.
  - destruct Hinv as (Hp & Hch & Hlen & Ho). unfold step.
    destruct (nth_error (ds_threads st) i) as [[c pc]|] eqn:N; auto.
    destruct pc; simpl; auto.
    + destruct (ds_once st); auto.
    + (* a deliverer before its write: the channel cannot be closed yet *)
      destruct (ds_once st) eqn:O.
      * destruct Ho as (Hd' & _). congruence.
      * destruct Ho as (i0 & d0 & N0 & Hoth & Hst).
        destruct (Nat.eq_dec i i0) as [->|Hne].
        2:{ specialize (Hoth _ _ Hne N). discriminate. }
        rewrite N in N0. injection N0 as <-. simpl in Hst.
        destruct Hst as (Hd' & _). congruence.
      * destruct Ho as (_ & _ & _ & Hall).
        destruct (Hall _ _ N); discriminate.
    + rewrite Hd. exact Hc.
Qed.

Lemma run_deliverers_app s1 s2 st : run (s1 ++ s2) st = run s2 (run s1 st).
Proof.
  revert st. induction s1 as [|i r IH]; intros st; simpl; [reflexivity|].
  apply IH.
Qed.

(** The steps a deliverer has before it at most. *)
Definition togo (d : deliverer) : nat :=
  match d_pc d with
  | CallDo => 4
  | WriteChunk => 3
  | CloseChan => 2
  | LeaveDo => 1
  | Returned => 0
  end.

Definition remaining (st : delivery_state) : nat :=
  Pool.total togo (ds_threads st).

Lemma remaining_set_pc st i d pc :
  nth_error (ds_threads st) i = Some d ->
  Pool.total togo (set_pc st i d pc) + togo d
  = remaining st + togo (mkDeliverer (d_chunk d) pc).
Proof. intros N. unfold set_pc, remaining. now apply Pool.total_update. Qed.

Lemma total_pos (l : list deliverer) :
  0 < Pool.total togo l -> exists i d, nth_error l i = Some d /\ 0 < togo d.
Proof.
  induction l as [|x r IH]; simpl; [lia|]. intros H.
  destruct (togo x) as [|n] eqn:E.
  - destruct (IH H) as (i & d & N & Hd). exists (S i), d. auto.
  - exists 0, x. simpl. split; [reflexivity|lia].
Qed.

Lemma total_zero (l : list deliverer) :
  Pool.total togo l = 0 -> forall d, In d l -> d_pc d = Returned.
Proof.
  induction l as [|x r IH]; simpl; intros H d Hin; [contradiction|].
  destruct Hin as [<-|Hin]; [|apply IH; [lia|exact Hin]].
  unfold togo in H. destruct (d_pc x); try reflexivity; lia.
Qed.

(** While a deliverer has not returned, some deliverer can move: the one
    inside the [Once] if there is one, any other if not. *)
Lemma step_progress chs st :
  once_inv chs st -> 0 < remaining st ->
  exists i, remaining (step i st) < remaining st.
Proof.
  intros (Hp & Hch & Hlen & Ho) Hpos.
  destruct (total_pos _ Hpos) as (i0 & d0 & N0 & Hd0).
  destruct (ds_once st) eqn:O.
  - (* nobody is inside: the deliverer found enters *)
    destruct Ho as (_ & _ & _ & Hall). pose proof (Hall _ _ N0) as Hpc.
    exists i0. unfold step. rewrite N0, Hpc, O. unfold remaining at 1.
    cbn [ds_threads].
    pose proof (remaining_set_pc st i0 WriteChunk N0) as E.
    unfold togo in E at 2 3. rewrite Hpc in E. cbn [d_pc] in E. lia.
  - (* the deliverer inside moves on *)
    destruct Ho as (i & d & N & _ & Hst).
    exists i. unfold step. rewrite N.
    destruct (d_pc d) eqn:Hpc; try contradiction.
    + unfold remaining at 1. cbn [ds_threads].
      pose proof (remaining_set_pc st i CloseChan N) as E.
      unfold togo in E at 2 3. rewrite Hpc in E. cbn [d_pc] in E. lia.
    + destruct Hst as (Hd & _). rewrite Hd.
      unfold remaining at 1. cbn [ds_threads].
      pose proof (remaining_set_pc st i LeaveDo N) as E.
      unfold togo in E at 2 3. rewrite Hpc in E. cbn [d_pc] in E. lia.
    + unfold remaining at 1. cbn [ds_threads].
      pose proof (remaining_set_pc st i Returned N) as E.
      unfold togo in E at 2 3. rewrite Hpc in E. cbn [d_pc] in E. lia.
  - (* the function has run: a deliverer that calls [Do] returns *)
    destruct Ho as (_ & _ & _ & Hall).
    destruct (Hall _ _ N0) as [Hpc|Hpc];
      [|unfold togo in Hd0; rewrite Hpc in Hd0; lia].
    exists i0. unfold step. rewrite N0, Hpc, O. unfold remaining at 1.
    cbn [ds_threads].
    pose proof (remaining_set_pc st i0 Returned N0) as E.
    unfold togo in E at 2 3. rewrite Hpc in E. cbn [d_pc] in E. lia.
Qed.

(** Every run of the deliverers can be continued until all have returned. *)
Lemma run_to_return chs : forall n st,
  once_inv chs st -> remaining st <= n ->
  exists rest, remaining (run rest st) = 0.
Proof.
  induction n as [|n IH]; intros st Hinv Hn.
  - exists []. simpl. lia.
  - destruct (Nat.eq_dec (remaining st) 0) as [Z|Z].
    + exists []. exact Z.
    + destruct (@step_progress chs st Hinv) as (i & Hi); [lia|].
      destruct (IH (step i st)) as (rest & Hr);
        [now apply once_inv_step|lia|].
      exists (i :: rest). exact Hr.
Qed.

(** Everybody has returned: the function of the [Once] has run. *)
Lemma returned_delivered chs st :
  once_inv chs st -> chs <> [] ->
  (forall d, In d (ds_threads st) -> d_pc d = Returned) ->
  ds_delivered st = true /\ ds_closes st = 1 /\
  exists ch, In ch chs /\ ds_chunk st = Some ch.
Proof.
  intros (Hp & Hch & Hlen & Ho) Hne Hall.
  destruct (ds_threads st) as [|d0 rest] eqn:T.
  { destruct chs; [congruence|]. simpl in Hlen. discriminate. }
  assert (H0 : d_pc d0 = Returned) by (apply Hall; now left).
  destruct (ds_once st).
  - destruct Ho as (_ & _ & _ & Hall').
    specialize (Hall' 0 d0 eq_refl). congruence.
  - destruct Ho as (i & d & N & _ & Hst).
    assert (d_pc d = Returned) by (apply Hall; eapply nth_error_In; eauto).
    rewrite H in Hst. contradiction.
  - destruct Ho as (Hd & Hk & Hc & _). auto.
Qed.

Lemma nth_error_set_pc st i d pc :
  nth_error (ds_threads st) i = Some d ->
  nth_error (set_pc st i d pc) i = Some (mkDeliverer (d_chunk d) pc).
Proof.
  intros N. unfold set_pc. apply Pool.nth_error_update_eq.
  apply nth_error_Some. congruence.
Qed.

(** [SafeClose] by a deliverer that finds the [Once] untouched and is not
    interrupted: it writes its chunk, closes the channel and returns. *)
Lemma SafeClose_alone st i ch :
  ds_once st = OnceIdle -> ds_delivered st = false ->
  nth_error (ds_threads st) i = Some (mkDeliverer ch CallDo) ->
  ds_delivered (SafeClose st i) = true /\
  ds_chunk (SafeClose st i) = Some ch /\
  ds_closes (SafeClose st i) = S (ds_closes st) /\
  ds_panicked (SafeClose st i) = ds_panicked st /\
  ds_once (SafeClose st i) = OnceDone /\
  nth_error (ds_threads (SafeClose st i)) i = Some (mkDeliverer ch Returned).
Proof.
  intros O Hd N. unfold SafeClose. cbn [run].
  set (s1 := step i st).
  assert (E1 : s1 = mkDeliveryState (ds_delivered st) (ds_chunk st)
                      OnceRunning (ds_closes st) (ds_panicked st)
                      (set_pc st i (mkDeliverer ch CallDo) WriteChunk)).
  { unfold s1, step. rewrite N. cbn [d_pc]. rewrite O. reflexivity. }
  assert (N1 : nth_error (ds_threads s1) i = Some (mkDeliverer ch WriteChunk)).
  { rewrite E1. cbn [ds_threads]. now apply nth_error_set_pc. }
  set (s2 := step i s1).
  assert (E2 : s2 = mkDeliveryState (ds_delivered s1) (Some ch) (ds_once s1)
                      (ds_closes s1) (ds_panicked s1)
                      (set_pc s1 i (mkDeliverer ch WriteChunk) CloseChan)).
  { unfold s2, step. rewrite N1. reflexivity. }
  assert (N2 : nth_error (ds_threads s2) i = Some (mkDeliverer ch CloseChan)).
  { rewrite E2. cbn [ds_threads]. now apply nth_error_set_pc. }
  assert (D2 : ds_delivered s2 = false).
  { rewrite E2. cbn [ds_delivered]. rewrite E1. exact Hd. }
  set (s3 := step i s2).
  assert (E3 : s3 = mkDeliveryState true (ds_chunk s2) (ds_once s2)
                      (S (ds_closes s2)) (ds_panicked s2)
                      (set_pc s2 i (mkDeliverer ch CloseChan) LeaveDo)).
  { unfold s3, step. rewrite N2. cbn [d_pc]. rewrite D2. reflexivity. }
  assert (N3 : nth_error (ds_threads s3) i = Some (mkDeliverer ch LeaveDo)).
  { rewrite E3. cbn [ds_threads]. now apply nth_error_set_pc. }
  assert (E4 : step i s3
               = mkDeliveryState (ds_delivered s3) (ds_chunk s3) OnceDone
                   (ds_closes s3) (ds_panicked s3)
                   (set_pc s3 i (mkDeliverer ch LeaveDo) Returned)).
  { unfold step. rewrite N3. reflexivity. }
  rewrite E4. cbn [ds_delivered ds_chunk ds_closes ds_panicked ds_once
                   ds_threads].
  split; [rewrite E3; reflexivity|].
  split; [rewrite E3; cbn [ds_chunk]; rewrite E2; reflexivity|].
  split; [rewrite E3; cbn [ds_closes]; rewrite E2; cbn [ds_closes];
          rewrite E1; reflexivity|].
  split; [rewrite E3; cbn [ds_panicked]; rewrite E2; cbn [ds_panicked];
          rewrite E1; reflexivity|].
  split; [reflexivity|]. now apply nth_error_set_pc.
Qed.

(** C9. For every fetcher and every set of deliverers running [SafeClose]
    on it at the same time, under every schedule: the [Delivered] channel
    is never closed twice (no close panics, at most one close ran); when the
    channel is closed, exactly one close ran, the chunk slot already holds a
    chunk one of the deliverers brought, and the slot keeps that chunk from
    then on, so a waiter woken by the close reads it (and a waiter reads
    nothing while the channel is open); once every deliverer
    (there being at least one) has returned, the channel is closed; and
    the deliverers do return: whatever has happened so far, the run can be
    continued until every deliverer has returned, and then the channel has
    been closed exactly once, without a panic, with a delivered chunk in the
    slot.  A deliverer that runs [SafeClose] on a new fetcher without being
    interrupted closes the channel itself, with its own chunk in the
    slot. *)
Theorem delivered_closed_exactly_once :
  forall (chs : list Chunk) (schedule : list nat),
    let st := run schedule (NewFetcher chs) in
    ds_panicked st = false /\
    ds_closes st <= 1 /\
    (ds_delivered st = false -> await st = None) /\
    (ds_delivered st = true ->
       ds_closes st = 1 /\
       exists ch, In ch chs /\ ds_chunk st = Some ch /\
                  forall later, await (run later st) = Some (Some ch)) /\
    (chs <> [] ->
     (forall d, In d (ds_threads st) -> d_pc d = Returned) ->
     ds_delivered st = true /\ ds_closes st = 1) /\
    (chs <> [] ->
     exists rest,
       let st' := run (schedule ++ rest) (NewFetcher chs) in
       (forall d, In d (ds_threads st') -> d_pc d = Returned) /\
       length (ds_threads st') = length chs /\
       ds_panicked st' = false /\
       ds_delivered st' = true /\ ds_closes st' = 1 /\
       exists ch, In ch chs /\ await st' = Some (Some ch)) /\
    (forall i ch, nth_error chs i = Some ch ->
       let st1 := SafeClose (NewFetcher chs) i in
       ds_delivered st1 = true /\ await st1 = Some (Some ch) /\
       ds_closes st1 = 1 /\ ds_panicked st1 = false /\
       nth_error (ds_threads st1) i = Some (mkDeliverer ch Returned)).
Proof.
  intros chs schedule st.
  assert (Hinv : once_inv chs st) by (apply once_inv_run, once_inv_init).
  pose proof Hinv as (Hp & Hch & Hlen & Ho).
  split; [exact Hp|]. split; [|split; [|split; [|split; [|split]]]].
  - destruct (ds_once st).
    + destruct Ho as (_ & -> & _). lia.
    + destruct Ho as (i & d & _ & _ & Hst).
      destruct (d_pc d); try contradiction;
        destruct Hst as (_ & -> & _); lia.
    + destruct Ho as (_ & -> & _). lia.
  - intros Hd. unfold await. now rewrite Hd.
  - intros Hd.
    assert (Hc : ds_closes st = 1 /\ exists ch, In ch chs /\ ds_chunk st = Some ch).
    { destruct (ds_once st).
      - destruct Ho as (Hd' & _). congruence.
      - destruct Ho as (i & d & N & _ & Hst).
        destruct (d_pc d); try contradiction;
          destruct Hst as (Hd' & Hk & Hc); try congruence.
        split; [exact Hk|]. exists (d_chunk d). split; [|exact Hc].
        apply nth_error_In with (n := i). apply (Hch _ _ N).
      - destruct Ho as (_ & Hk & Hc & _). auto. }
    destruct Hc as (Hk & ch & Hin & Hc). split; [exact Hk|].
    exists ch. repeat split; auto.
    intros later. unfold await.
    destruct (delivered_chunk_stable later Hinv Hd Hc) as (-> & ->).
    reflexivity.
  - intros Hne Hall.
    destruct (returned_delivered Hinv Hne Hall) as (Hd & Hk & _). auto.
  - intros Hne.
    destruct (@run_to_return chs (remaining st) st Hinv (le_n _))
      as (rest & Hr).
    exists rest. cbv zeta. rewrite run_deliverers_app. fold st.
    assert (Hinv' : once_inv chs (run rest st)) by now apply once_inv_run.
    pose proof (total_zero _ Hr) as Hall.
    destruct (returned_delivered Hinv' Hne Hall) as (Hd & Hk & ch & Hin & Hc).
    destruct Hinv' as (Hp' & _ & Hlen' & _).
    repeat split; auto.
    exists ch. split; [exact Hin|]. unfold await. now rewrite Hd, Hc.
  - intros i ch N. cbv zeta.
    assert (N0 : nth_error (ds_threads (NewFetcher chs)) i
                 = Some (mkDeliverer ch CallDo)).
    { cbn [NewFetcher ds_threads]. rewrite nth_error_map, N. reflexivity. }
    destruct (@SafeClose_alone (NewFetcher chs) i ch eq_refl eq_refl N0)
      as (H1 & H2 & H3 & H4 & _ & H6).
    unfold await. rewrite H1, H2. repeat split; assumption.
Qed.

(** Two deliverers, the retrieve-request path and the syncing path, bring
    the same chunk at the same time. *)
Definition demo_chunk : Chunk := mkChunk [x01; x02] [x0a; x0b; x0c].

Lemma delivered_closed_exactly_once_witness :
  let st := run [0; 1; 0; 1; 0; 0; 1] (NewFetcher [demo_chunk; demo_chunk]) in
  ds_panicked st = false /\
  ds_delivered st = true /\ ds_closes st = 1 /\
  ds_chunk st = Some demo_chunk /\
  map d_pc (ds_threads st) = [Returned; Returned] /\
  (forall later, await (run later st) = Some (Some demo_chunk)).
Proof.
  cbv zeta.
  destruct (delivered_closed_exactly_once [demo_chunk; demo_chunk]
              [0; 1; 0; 1; 0; 0; 1]) as (H1 & _ & _ & H3 & _).
  split; [exact H1|].
  split; [reflexivity|]. split; [reflexivity|]. split; [reflexivity|].
  split; [reflexivity|].
  destruct (H3 eq_refl) as (_ & ch & _ & Hc & Hl).
  intros later. rewrite (Hl later). rewrite <- Hc. reflexivity.
Defined.

(** ** The retry loop of [RemoteFetch] *)

(** Once a nil handle has been deferred, every return is a panic. *)
Lemma fetch_loop_doomed RG : forall events attempt deferred skip r,
  fetch_loop RG events attempt deferred true skip = Some r ->
  fr_value r = Panic.
Proof.
  induction events as [|ev rest IH]; intros attempt deferred skip r E;
    cbn [fetch_loop] in E;
    destruct (RG attempt skip) as [p|e|c|p];
    try discriminate; try (injection E as <-; reflexivity);
    destruct ev; try (injection E as <-; reflexivity); eauto.
Qed.

(** X15 ([NetStore.RemoteFetch]): what a return of [RemoteFetch] says
    about the loop.  As long as [RemoteGet] hands back, with a nil error, a
    peer and a cleanup handle that are not nil: the loop went through some
    number [n] of search timeouts, every one after a peer [RemoteGet] had
    picked; it ended with a delivery (the chunk of the fetcher is
    returned), with the context's error, or with [ErrNoSuitablePeer]
    because [RemoteGet] found no peer for attempt [n]; it does not panic;
    [PeersToSkip] holds at the return the peers that were picked, the
    latest first, on top of the peers skipped before; each of them was
    picked by [RemoteGet] asked to skip the peers picked before it; and the
    deferred cleanups that run at the return are as many as the peers
    picked.  [RemoteFetch] does not check what [RemoteGet] hands back: on a
    nil peer it panics at once ([currentPeer.String()]), the peers to skip
    unchanged; after a nil cleanup handle ([defer cleanup()]) the loop goes
    on, and every return, a delivery included, ends in a panic. *)
Theorem RemoteFetch_accounts_for_every_peer :
  (forall RemoteGet events attempt skip r,
    (forall a s, match RemoteGet a s with
                 | Peer _ | Fail _ => True
                 | NilPeer _ | NilCleanup _ => False
                 end) ->
    RemoteFetch RemoteGet events attempt skip = Some r ->
    exists n tried,
      firstn n events = repeat EvSearchTimeout n /\
      fr_skip r = tried ++ skip /\
      fr_cleanups r = attempt + length tried /\
      (forall k, k < length tried ->
         RemoteGet (attempt + k) (skipn (length tried - k) tried ++ skip)
         = Peer (nth (length tried - 1 - k) tried 0)) /\
      match fr_value r with
      | Ok ch =>
          nth_error events n = Some (EvDelivered ch) /\ length tried = S n
      | Err e =>
          (e = ErrNoSuitablePeer /\ length tried = n /\
           exists e', RemoteGet (attempt + n) (tried ++ skip) = Fail e') \/
          (nth_error events n = Some (EvCtxDone e) /\ length tried = S n)
      | Panic => False
      end) /\
  (forall RemoteGet events attempt skip cleanup,
    RemoteGet attempt skip = NilPeer cleanup ->
    RemoteFetch RemoteGet events attempt skip
    = Some {| fr_value := Panic; fr_skip := skip;
              fr_cleanups := if cleanup then S attempt else attempt |}) /\
  (forall RemoteGet events attempt skip p,
    RemoteGet attempt skip = NilCleanup p ->
    (forall r, RemoteFetch RemoteGet events attempt skip = Some r ->
               fr_value r = Panic) /\
    (forall ch rest, events = EvDelivered ch :: rest ->
       RemoteFetch RemoteGet events attempt skip
       = Some {| fr_value := Panic; fr_skip := p :: skip;
                 fr_cleanups := attempt |})).
Proof.
  split; [|split].
  2:{ intros RG events attempt skip c G. unfold RemoteFetch.
      destruct events; cbn [fetch_loop]; rewrite G; reflexivity. }
  2:{ intros RG events attempt skip p G. split.
      - intros r E. unfold RemoteFetch in E.
        destruct events as [|ev rest]; cbn [fetch_loop] in E; rewrite G in E;
          [discriminate|].
        destruct ev; try (injection E as <-; reflexivity).
        exact (fetch_loop_doomed _ _ _ _ _ E).
      - intros ch rest ->. unfold RemoteFetch. cbn [fetch_loop].
        rewrite G. reflexivity. }
  intros RG events attempt skip r HC. revert attempt skip r.
  unfold RemoteFetch.
  induction events as [|ev rest IH]; intros attempt skip r E.
  - cbn [fetch_loop] in E. pose proof (HC attempt skip) as C.
    destruct (RG attempt skip) as [p|e|c|p] eqn:G;
      try contradiction; [discriminate|].
    injection E as <-. cbn [at_return fr_value fr_skip fr_cleanups].
    exists 0, []. split; [reflexivity|]. split; [reflexivity|].
    split; [simpl; lia|]. split; [simpl; lia|]. left. split; [reflexivity|].
    split; [reflexivity|]. exists e. now rewrite Nat.add_0_r.
  - cbn [fetch_loop] in E. pose proof (HC attempt skip) as C.
    destruct (RG attempt skip) as [p|e|c|p] eqn:G; try contradiction.
    + assert (One : forall k, k < length [p] ->
                RG (attempt + k) (skipn (length [p] - k) [p] ++ skip)
                = Peer (nth (length [p] - 1 - k) [p] 0)).
      { intros k Hk. simpl in Hk. replace k with 0 by lia.
        now rewrite Nat.add_0_r. }
      destruct ev as [ch| |e].
      * injection E as <-. cbn [at_return fr_value fr_skip fr_cleanups].
        exists 0, [p]. split; [reflexivity|]. split; [reflexivity|].
        split; [simpl; lia|]. split; [exact One|]. split; reflexivity.
      * destruct (IH _ _ _ E) as (n & tried & Hev & Hs & Hc & Hp & Hv).
        exists (S n), (tried ++ [p]).
        split; [cbn [firstn repeat]; now rewrite Hev|].
        split; [now rewrite <- app_assoc|].
        rewrite length_app. cbn [length].
        split; [lia|]. split.
        -- intros [|k] Hk.
           ++ rewrite Nat.add_0_r, Nat.sub_0_r.
              replace (length tried + 1) with (length (tried ++ [p]))
                by (rewrite length_app; reflexivity).
              rewrite skipn_all. cbn [app].
              rewrite length_app. cbn [length].
              replace (length tried + 1 - 1 - 0) with (length tried) by lia.
              rewrite ?Nat.sub_0_r.
              rewrite app_nth2, Nat.sub_diag by lia. exact G.
           ++ assert (Hk' : k < length tried) by lia.
              specialize (Hp k Hk').
              replace (attempt + S k) with (S attempt + k) by lia.
              replace (length tried + 1 - S k) with (length tried - k) by lia.
              replace (length tried + 1 - 1 - S k)
                with (length tried - 1 - k) by lia.
              rewrite skipn_app.
              replace (length tried - k - length tried) with 0 by lia.
              cbn [skipn]. rewrite <- app_assoc. cbn [app].
              rewrite app_nth1 by lia. exact Hp.
        -- destruct (fr_value r) as [ch|e|]; [| |exact Hv].
           ++ destruct Hv as (Hn & Hl). split; [exact Hn|lia].
           ++ destruct Hv as [(-> & Hl & e' & Hg)|(Hn & Hl)].
              ** left. split; [reflexivity|]. split; [lia|]. exists e'.
                 rewrite <- app_assoc. cbn [app].
                 replace (attempt + S n) with (S attempt + n) by lia.
                 exact Hg.
              ** right. split; [exact Hn|lia].
      * injection E as <-. cbn [at_return fr_value fr_skip fr_cleanups].
        exists 0, [p]. split; [reflexivity|]. split; [reflexivity|].
        split; [simpl; lia|]. split; [exact One|]. right. split; reflexivity.
    + injection E as <-. cbn [at_return fr_value fr_skip fr_cleanups].
      exists 0, []. split; [reflexivity|]. split; [reflexivity|].
      split; [simpl; lia|]. split; [simpl; lia|]. left. split; [reflexivity|].
      split; [reflexivity|]. exists e. now rewrite Nat.add_0_r.
Qed.

(** Two search timeouts, then the delivery: three peers were picked.  With
    a nil handle at the second attempt the delivery ends in a panic; a nil
    peer at the first attempt is a panic at once. *)
Lemma RemoteFetch_accounts_for_every_peer_witness :
  (exists r n tried,
    RemoteFetch (fun attempt _ => Peer (10 + attempt))
      [EvSearchTimeout; EvSearchTimeout; EvDelivered (mkChunk [x01] [x02])]
      0 [7] = Some r /\
    fr_value r = Ok (mkChunk [x01] [x02]) /\
    n = 2 /\
    fr_skip r = tried ++ [7] /\
    fr_cleanups r = 0 + length tried /\
    length tried = S n) /\
  RemoteFetch (fun _ _ => NilPeer true)
    [EvDelivered (mkChunk [x01] [x02])] 0 [7]
  = Some {| fr_value := Panic; fr_skip := [7]; fr_cleanups := 1 |} /\
  RemoteFetch (fun attempt _ =>
                 if attempt =? 1 then NilCleanup 11 else Peer (10 + attempt))
    [EvSearchTimeout; EvDelivered (mkChunk [x01] [x02])] 0 [7]
  = Some {| fr_value := Panic; fr_skip := [11; 10; 7]; fr_cleanups := 1 |}.
Proof.
  destruct RemoteFetch_accounts_for_every_peer as (A & B & C).
  split; [|split].
  - destruct (A (fun attempt _ => Peer (10 + attempt))
                [EvSearchTimeout; EvSearchTimeout;
                 EvDelivered (mkChunk [x01] [x02])]
                0 [7] _ (fun _ _ => I) eq_refl)
      as (n & tried & Hev & Hs & Hc & _ & Hv).
    cbn [fr_value] in Hv. destruct Hv as (Hn & Hl).
    assert (En : n = 2).
    { destruct n as [|[|[|n]]]; simpl in Hn; try discriminate Hn;
        [reflexivity|destruct n; discriminate Hn]. }
    eexists. exists n, tried. split; [reflexivity|].
    split; [reflexivity|]. split; [exact En|]. auto.
  - exact (B (fun _ _ => NilPeer true) [EvDelivered (mkChunk [x01] [x02])]
             0 [7] true eq_refl).
  - exact (proj2 (C (fun attempt _ =>
                       if attempt =? 1 then NilCleanup 11
                       else Peer (10 + attempt))
                    [EvDelivered (mkChunk [x01] [x02])] 1 [10; 7] 11 eq_refl)
             (mkChunk [x01] [x02]) [] eq_refl).
Defined.

End NetStore.

(* ================================================================== *)
(** * The network store: the cache of fetchers
      ([storage/netstore.go]) *)
(* ================================================================== *)

(** The fetchers as one goroutine at a time sees them, under [putMu]:
    [GetOrCreateFetcher] and the two loops of [Put].  The cache
    [n.fetchers] is read with [Get] and changed with [Add] and [Remove]; it
    holds pointers, so a fetcher a caller was given stays what it is when
    the cache forgets it.  The cache is taken to have room (it holds
    [fetchersCapacity = 500000] entries before [Add] evicts one). *)
Module Fetchers.

(** A fetcher: [Delivered] is closed, the chunk slot, and the two fields
    [GetOrCreateFetcher] reads. *)
Record Fetcher : Type := mkFetcher {
  Delivered : bool;
  Chunk : option NetStore.Chunk;
  CreatedBy : String.string;
  RequestedBySyncer : bool
}.

(** [NewFetcher] *)
Definition NewFetcher : Fetcher :=
  {| Delivered := false; Chunk := None; CreatedBy := String.EmptyString;
     RequestedBySyncer := false |}.

(** [SafeClose], called by one goroutine after the other: the function
    under [once.Do] runs in the first call only. *)
Definition SafeClose (fi : Fetcher) (ch : NetStore.Chunk) : Fetcher :=
  if Delivered fi then fi
  else mkFetcher true (Some ch) (CreatedBy fi) (RequestedBySyncer fi).

Section WithKeys.

(** [Address.String()], the key of the cache; package [chunk] is outside
    the sources at hand. *)
Variable key : Type.
Variable key_eqb : key -> key -> bool.
Hypothesis key_eqb_eq : forall a b, key_eqb a b = true <-> a = b.
Variable AddressString : NetStore.Address -> key.

(** The cache (a key leads to a pointer), the fetchers the pointers lead
    to, and the number of fetchers allocated so far. *)
Record NetStore : Type := mkNetStore {
  fetchers : key -> option nat;
  heap : nat -> Fetcher;
  allocated : nat
}.

Definition set_fetcher (n : NetStore) (v : nat) (f : Fetcher) : NetStore :=
  mkNetStore (fetchers n) (fun w => if w =? v then f else heap n w)
    (allocated n).

(** [n.fetchers.Add(k, v)] *)
Definition cache_add (n : NetStore) (k : key) (v : nat) : NetStore :=
  mkNetStore (fun k' => if key_eqb k' k then Some v else fetchers n k')
    (heap n) (allocated n).

(** [n.fetchers.Remove(k)] *)
Definition cache_remove (n : NetStore) (k : key) : NetStore :=
  mkNetStore (fun k' => if key_eqb k' k then None else fetchers n k')
    (heap n) (allocated n).

(** [GetOrCreateFetcher]: the store afterwards and the triple
    [(f, loaded, ok)] it returns. *)
Definition GetOrCreateFetcher (n : NetStore) (ref : NetStore.Address)
    (interestedParty : String.string) : NetStore * (nat * bool * bool) :=
  let k := AddressString ref in
  let '(n1, f, loaded) :=
    match fetchers n k with
    | Some v => (n, v, true)
    | None =>
        let v := allocated n in
        let fi := mkFetcher (Delivered NewFetcher) (Chunk NewFetcher)
                    interestedParty (RequestedBySyncer NewFetcher) in
        (cache_add
           (mkNetStore (fetchers n) (fun w => if w =? v then fi else heap n w)
              (S v)) k v,
         v, false)
    end in
  let fi := heap n1 f in
  if negb (String.eqb (CreatedBy fi) interestedParty)
     && negb (RequestedBySyncer fi)
  then
    (set_fetcher n1 f
       (mkFetcher (Delivered fi) (Chunk fi) (CreatedBy fi) true),
     (f, false, true))
  else (n1, (f, loaded, true)).

(** The first loop of [Put], for one chunk. *)
Definition deliver (n : NetStore) (ch : NetStore.Chunk) : NetStore :=
  match fetchers n (AddressString (NetStore.chunk_address ch)) with
  | Some v => set_fetcher n v (SafeClose (heap n v) ch)
  | None => n
  end.

(** The second loop of [Put], for one chunk. *)
Definition forget (n : NetStore) (ch : NetStore.Chunk) : NetStore :=
  match fetchers n (AddressString (NetStore.chunk_address ch)) with
  | Some _ => cache_remove n (AddressString (NetStore.chunk_address ch))
  | None => n
  end.

(** [Put]; [storePut chs] is what [n.Store.Put] answers. *)
Definition Put (storePut : list NetStore.Chunk -> outcome (list bool))
    (n : NetStore) (chs : list NetStore.Chunk)
  : NetStore * outcome (list bool) :=
  let n1 := fold_left deliver chs n in
  match storePut chs with
  | Ok exists_ => (fold_left forget chs n1, Ok exists_)
  | Err e => (n1, Err e)
  | Panic => (n1, Panic)
  end.

(** The chunks of a [Put] that are for the fetcher [v]. *)
Definition is_for (n : NetStore) (v : nat) (ch : NetStore.Chunk) : bool :=
  match fetchers n (AddressString (NetStore.chunk_address ch)) with
  | Some w => w =? v
  | None => false
  end.

Lemma SafeClose_twice fi c c' : SafeClose (SafeClose fi c) c' = SafeClose fi c.
Proof. unfold SafeClose. destruct (Delivered fi) eqn:E; simpl; now rewrite ?E. Qed.

Lemma find_same (A : Type) (f g : A -> bool) (l : list A) :
  (forall a, f a = g a) -> find f l = find g l.
Proof.
  intros E. induction l as [|x r IH]; [reflexivity|].
  simpl. rewrite E, IH. reflexivity.
Qed.

Lemma deliver_fetchers chs : forall n,
  fetchers (fold_left deliver chs n) = fetchers n /\
  allocated (fold_left deliver chs n) = allocated n.
Proof.
  induction chs as [|ch rest IH]; intros n; [split; reflexivity|].
  cbn [fold_left]. destruct (IH (deliver n ch)) as (E1 & E2).
  rewrite E1, E2. unfold deliver.
  destruct (fetchers n (AddressString (NetStore.chunk_address ch)));
    split; reflexivity.
Qed.

Lemma deliver_heap chs : forall n v,
  heap (fold_left deliver chs n) v
  = match find (is_for n v) chs with
    | Some c => SafeClose (heap n v) c
    | None => heap n v
    end.
Proof.
  induction chs as [|ch rest IH]; intros n v; [reflexivity|].
  cbn [fold_left find]. rewrite IH.
  assert (Ef : forall c, is_for (deliver n ch) v c = is_for n v c).
  { intros c. unfold is_for, deliver.
    destruct (fetchers n (AddressString (NetStore.chunk_address ch)));
      reflexivity. }
  rewrite (find_same _ _ rest Ef).
  unfold is_for at 2, deliver.
  destruct (fetchers n (AddressString (NetStore.chunk_address ch)))
    as [w|] eqn:Ew.
  - cbn [heap set_fetcher]. rewrite (Nat.eqb_sym v w).
    destruct (w =? v) eqn:Ev.
    + apply Nat.eqb_eq in Ev. subst w.
      destruct (find (is_for n v) rest); [apply SafeClose_twice|reflexivity].
    + reflexivity.
  - reflexivity.
Qed.

Lemma forget_fetchers chs : forall n k,
  fetchers (fold_left forget chs n) k
  = (if existsb (fun c => key_eqb k (AddressString (NetStore.chunk_address c)))
          chs
     then None else fetchers n k) /\
  heap (fold_left forget chs n) = heap n.
Proof.
  induction chs as [|ch rest IH]; intros n k; [split; reflexivity|].
  cbn [fold_left existsb]. destruct (IH (forget n ch) k) as (E1 & E2).
  rewrite E1, E2. unfold forget.
  set (kc := AddressString (NetStore.chunk_address ch)).
  destruct (fetchers n kc) as [w|] eqn:Ew; cbn [fetchers heap cache_remove].
  - split; [|reflexivity].
    destruct (key_eqb k kc) eqn:Ek; cbn [orb]; [|reflexivity].
    now destruct (existsb _ rest).
  - split; [|reflexivity].
    destruct (key_eqb k kc) eqn:Ek; cbn [orb]; [|reflexivity].
    apply key_eqb_eq in Ek. subst k. rewrite Ew.
    now destruct (existsb _ rest).
Qed.

(** X16 ([NetStore.Put], [Fetcher.SafeClose]): [Put] delivers before it
    stores, and the delivery does not depend on the local store.  Whatever
    [n.Store.Put] answers, every fetcher the cache holds for one of the
    chunks has been closed with the first chunk of the call that is for it
    (a fetcher closed before keeps the chunk it had), and no other fetcher
    is touched.  [Put] returns what the local store answered; when that is
    an error the fetchers stay in the cache, otherwise the keys of all the
    chunks are removed from it. *)
Theorem Put_delivers_before_it_stores storePut n chs :
  snd (Put storePut n chs) = storePut chs /\
  (forall v,
      heap (fst (Put storePut n chs)) v
      = match find (is_for n v) chs with
        | Some c => SafeClose (heap n v) c
        | None => heap n v
        end) /\
  (forall k,
      fetchers (fst (Put storePut n chs)) k
      = match storePut chs with
        | Ok _ =>
            if existsb
                 (fun c => key_eqb k (AddressString (NetStore.chunk_address c)))
                 chs
            then None else fetchers n k
        | _ => fetchers n k
        end).
Proof.
  unfold Put.
  destruct (deliver_fetchers chs n) as (Ef & _).
  destruct (storePut chs) as [ex|e|]; cbn [fst snd].
  - split; [reflexivity|]. split.
    + intros v.
      rewrite (proj2 (forget_fetchers chs (fold_left deliver chs n)
                        (AddressString []))).
      apply deliver_heap.
    + intros k. rewrite (proj1 (forget_fetchers chs _ k)). now rewrite Ef.
  - split; [reflexivity|]. split; [apply deliver_heap|].
    intros k. now rewrite Ef.
  - split; [reflexivity|]. split; [apply deliver_heap|].
    intros k. now rewrite Ef.
Qed.

(** [GetOrCreateFetcher] called for the same reference by one party after
    the other. *)
Fixpoint requests (n : NetStore) (ref : NetStore.Address)
    (parties : list String.string) : NetStore * list (nat * bool * bool) :=
  match parties with
  | [] => (n, [])
  | party :: rest =>
      let '(n1, r) := GetOrCreateFetcher n ref party in
      let '(n2, rs) := requests n1 ref rest in
      (n2, r :: rs)
  end.

Definition loaded_of (r : nat * bool * bool) : bool := snd (fst r).

(** The calls for a reference that is in the cache. *)
Lemma requests_cached ref parties : forall n v,
  fetchers n (AddressString ref) = Some v ->
  fetchers (fst (requests n ref parties)) (AddressString ref) = Some v /\
  CreatedBy (heap (fst (requests n ref parties)) v) = CreatedBy (heap n v) /\
  Delivered (heap (fst (requests n ref parties)) v) = Delivered (heap n v) /\
  Chunk (heap (fst (requests n ref parties)) v) = Chunk (heap n v) /\
  (forall r, In r (snd (requests n ref parties)) ->
             fst (fst r) = v /\ snd r = true) /\
  (forall i party r,
      nth_error parties i = Some party ->
      nth_error (snd (requests n ref parties)) i = Some r ->
      party = CreatedBy (heap n v) -> loaded_of r = true) /\
  Pool.count (fun r => negb (loaded_of r)) (snd (requests n ref parties))
  <= (if RequestedBySyncer (heap n v) then 0 else 1).
Proof.
  induction parties as [|party rest IH]; intros n v Hc.
  - cbn [requests fst snd]. repeat split; auto; try contradiction.
    + intros [|i] party r; discriminate.
    + simpl. lia.
  - cbn [requests].
    destruct (negb (String.eqb (CreatedBy (heap n v)) party)
              && negb (RequestedBySyncer (heap n v))) eqn:Ec.
    + set (n1 := set_fetcher n v
                   (mkFetcher (Delivered (heap n v)) (Chunk (heap n v))
                      (CreatedBy (heap n v)) true)).
      assert (G : GetOrCreateFetcher n ref party = (n1, (v, false, true))).
      { unfold GetOrCreateFetcher. rewrite Hc. cbv beta iota zeta.
        now rewrite Ec. }
      rewrite G. clear G.
      apply andb_prop in Ec as (Ep & Er).
      apply negb_true_iff in Ep, Er.
      assert (Hc1 : fetchers n1 (AddressString ref) = Some v) by exact Hc.
      assert (Hh1 : heap n1 v
                    = mkFetcher (Delivered (heap n v)) (Chunk (heap n v))
                        (CreatedBy (heap n v)) true).
      { unfold n1. cbn [heap set_fetcher]. now rewrite Nat.eqb_refl. }
      destruct (IH n1 v Hc1) as (I1 & I2 & I3 & I4 & I5 & I6 & I7).
      rewrite Hh1 in I2, I3, I4, I6, I7. cbn in I2, I3, I4, I6, I7.
      destruct (requests n1 ref rest) as [n2 rs]. cbn [fst snd] in *.
      split; [exact I1|]. split; [exact I2|]. split; [exact I3|].
      split; [exact I4|]. split; [|split].
      * intros r [<-|Hr]; [split; reflexivity|auto].
      * intros [|i] q r Hq Hr Hq'; cbn [nth_error] in Hq, Hr.
        -- injection Hq as <-. subst party.
           rewrite String.eqb_refl in Ep. discriminate.
        -- eapply I6; eauto.
      * cbn [Pool.count loaded_of fst snd negb]. rewrite Er. lia.
    + assert (G : GetOrCreateFetcher n ref party = (n, (v, true, true))).
      { unfold GetOrCreateFetcher. rewrite Hc. cbv beta iota zeta.
        now rewrite Ec. }
      rewrite G. clear G.
      destruct (IH n v Hc) as (I1 & I2 & I3 & I4 & I5 & I6 & I7).
      destruct (requests n ref rest) as [n2 rs]. cbn [fst snd] in *.
      split; [exact I1|]. split; [exact I2|]. split; [exact I3|].
      split; [exact I4|]. split; [|split].
      * intros r [<-|Hr]; [split; reflexivity|auto].
      * intros [|i] q r Hq Hr Hq'; cbn [nth_error] in Hq, Hr.
        -- injection Hr as <-. reflexivity.
        -- eapply I6; eauto.
      * cbn [Pool.count loaded_of fst snd negb]. exact I7.
Qed.

(** X17 ([NetStore.GetOrCreateFetcher]): the callers for one reference
    share one fetcher.  When the cache has no fetcher for the reference,
    the first call makes one and reports [loaded = false]; every later
    call for the reference returns the same fetcher; [ok] is [true] in
    every call (no call returns the nil fetcher); a later call of the
    party that made the fetcher reports [loaded = true], and among all
    later calls at most one (the first of another party) reports
    [loaded = false].  The calls do not close [Delivered]. *)
Theorem callers_share_one_fetcher n ref party rest :
  fetchers n (AddressString ref) = None ->
  exists v n1 rs,
    v = allocated n /\
    GetOrCreateFetcher n ref party = (n1, (v, false, true)) /\
    snd (requests n ref (party :: rest)) = (v, false, true) :: rs /\
    fetchers (fst (requests n ref (party :: rest))) (AddressString ref)
    = Some v /\
    CreatedBy (heap (fst (requests n ref (party :: rest))) v) = party /\
    Delivered (heap (fst (requests n ref (party :: rest))) v) = false /\
    (forall r, In r rs -> fst (fst r) = v /\ snd r = true) /\
    (forall i r, nth_error rest i = Some party -> nth_error rs i = Some r ->
                 loaded_of r = true) /\
    Pool.count (fun r => negb (loaded_of r)) rs <= 1.
Proof.
  intros Hc.
  set (v := allocated n).
  set (fi := mkFetcher false None party false).
  set (n1 := cache_add
               (mkNetStore (fetchers n)
                  (fun w => if w =? v then fi else heap n w) (S v))
               (AddressString ref) v).
  assert (G : GetOrCreateFetcher n ref party = (n1, (v, false, true))).
  { unfold GetOrCreateFetcher. rewrite Hc. cbv beta iota zeta.
    fold v. cbn [NewFetcher Delivered Chunk RequestedBySyncer]. fold fi.
    fold n1.
    assert (Hh : heap n1 v = fi).
    { unfold n1. cbn [heap cache_add]. now rewrite Nat.eqb_refl. }
    rewrite Hh. cbn [CreatedBy fi]. unfold fi at 1. cbn [CreatedBy].
    now rewrite String.eqb_refl. }
  assert (Hc1 : fetchers n1 (AddressString ref) = Some v).
  { unfold n1. cbn [fetchers cache_add].
    now rewrite (proj2 (key_eqb_eq _ _) eq_refl). }
  assert (Hh1 : heap n1 v = fi).
  { unfold n1. cbn [heap cache_add]. now rewrite Nat.eqb_refl. }
  destruct (requests_cached ref rest n1 Hc1)
    as (I1 & I2 & I3 & I4 & I5 & I6 & I7).
  rewrite Hh1 in I2, I3, I6, I7. cbn in I2, I3, I6, I7.
  exists v, n1, (snd (requests n1 ref rest)).
  split; [reflexivity|]. split; [exact G|].
  cbn [requests]. rewrite G.
  destruct (requests n1 ref rest) as [n2 rs]. cbn [fst snd] in *.
  split; [reflexivity|]. split; [exact I1|]. split; [exact I2|].
  split; [exact I3|]. split; [exact I5|]. split; [|exact I7].
  intros i r Hp Hr. eapply I6; eauto.
Qed.

End WithKeys.

(** The cache keyed by the address itself. *)
Definition bytes_eqb (a b : bytes) : bool :=
  if list_eq_dec Byte.byte_eq_dec a b then true else false.

Lemma bytes_eqb_eq a b : bytes_eqb a b = true <-> a = b.
Proof.
  unfold bytes_eqb. destruct (list_eq_dec Byte.byte_eq_dec a b);
    split; congruence.
Qed.

Definition empty : NetStore bytes :=
  mkNetStore (fun _ => None) (fun _ => NewFetcher) 0.

(** The parties: [Get] asks as "request", the syncer as "syncing". *)
Module Parties.
Import String.
Definition request : string := "request"%string.
Definition syncing : string := "syncing"%string.
End Parties.

(** A fetcher is waited for, then [Put] brings its chunk while the local
    store fails: the fetcher is closed with the chunk and stays in the
    cache. *)
Lemma Put_delivers_before_it_stores_witness :
  let n := fst (GetOrCreateFetcher bytes_eqb (fun a => a) empty [x01; x02]
                  Parties.request) in
  let ch := NetStore.mkChunk [x01; x02] [xaa] in
  let r := Put bytes_eqb (fun a => a) (fun _ => Err (ErrCollaborator 3)) n
             [ch] in
  snd r = Err (ErrCollaborator 3) /\
  heap (fst r) 0 = mkFetcher true (Some ch) Parties.request false /\
  fetchers (fst r) [x01; x02] = Some 0.
Proof.
  cbv zeta.
  destruct (@Put_delivers_before_it_stores bytes bytes_eqb bytes_eqb_eq
              (fun a => a) (fun _ => Err (ErrCollaborator 3))
              (fst (GetOrCreateFetcher bytes_eqb (fun a => a) empty
                      [x01; x02] Parties.request))
              [NetStore.mkChunk [x01; x02] [xaa]]) as (A & B & C).
  split; [exact A|]. split; [rewrite B|rewrite C]; reflexivity.
Defined.

Lemma callers_share_one_fetcher_witness :
  exists n1 rs,
    snd (requests bytes_eqb (fun a => a) empty [x01; x02]
           [Parties.request; Parties.syncing; Parties.request;
            Parties.syncing])
    = (0, false, true) :: rs /\
    GetOrCreateFetcher bytes_eqb (fun a => a) empty [x01; x02]
      Parties.request = (n1, (0, false, true)) /\
    Pool.count (fun r => negb (loaded_of r)) rs <= 1.
Proof.
  destruct (@callers_share_one_fetcher bytes bytes_eqb bytes_eqb_eq
              (fun a => a) empty [x01; x02] Parties.request
              [Parties.syncing; Parties.request; Parties.syncing]
              eq_refl)
    as (v & n1 & rs & Ev & G & R & _ & _ & _ & _ & _ & C).
  subst v. exists n1, rs. split; [exact R|]. split; [exact G|exact C].
Defined.

End Fetchers.

(* ================================================================== *)
(** * The chunk store in memory ([storage/common_test.go]) *)
(* ================================================================== *)

(** [MapChunkStore], the chunk store the tests put under the hasher store
    and the network store: a Go map from [Address.Hex()] to the chunk,
    under a mutex, so that every method runs alone. *)
Module MapStore.

Lemma find_over_app (A : Type) (f : A -> bool) (l1 l2 : list A) :
  find f (l1 ++ l2)
  = match find f l1 with
    | Some x => Some x
    | None => find f l2
    end.
Proof.
  induction l1 as [|x r IH]; [reflexivity|].
  simpl. destruct (f x); [reflexivity|exact IH].
Qed.

Section WithKeys.

(** [Address.Hex()], the key of the map; package [chunk] is outside the
    sources at hand. *)
Variable key : Type.
Variable key_eqb : key -> key -> bool.
Hypothesis key_eqb_eq : forall a b, key_eqb a b = true <-> a = b.
Variable Hex : NetStore.Address -> key.

Record MapChunkStore : Type := mkMapChunkStore {
  chunks : key -> option NetStore.Chunk
}.

Definition NewMapChunkStore : MapChunkStore :=
  {| chunks := fun _ => None |}.

Definition present (o : option NetStore.Chunk) : bool :=
  match o with Some _ => true | None => false end.

(** The loop of [Put]: [_, exist[i] = m.chunks[addr]; m.chunks[addr] = ch]. *)
Fixpoint put_loop (m : MapChunkStore) (chs : list NetStore.Chunk)
  : MapChunkStore * list bool :=
  match chs with
  | [] => (m, [])
  | ch :: rest =>
      let addr := Hex (NetStore.chunk_address ch) in
      let e := present (chunks m addr) in
      let m1 := mkMapChunkStore
                  (fun k => if key_eqb k addr then Some ch else chunks m k) in
      let '(m2, es) := put_loop m1 rest in
      (m2, e :: es)
  end.

(** [Put]: the store afterwards and [exist]; the error is always [nil]. *)
Definition Put (m : MapChunkStore) (chs : list NetStore.Chunk)
  : MapChunkStore * list bool :=
  put_loop m chs.

(** [Get]; [None] is [(nil, ErrChunkNotFound)]. *)
Definition Get (m : MapChunkStore) (ref : NetStore.Address)
  : option NetStore.Chunk :=
  chunks m (Hex ref).

(** [GetMulti]; [None] is [(nil, ErrChunkNotFound)]. *)
Fixpoint GetMulti (m : MapChunkStore) (refs : list NetStore.Address)
    (found : list NetStore.Chunk) : option (list NetStore.Chunk) :=
  match refs with
  | [] => Some found
  | ref :: rest =>
      match chunks m (Hex ref) with
      | None => None
      | Some chunk => GetMulti m rest (found ++ [chunk])
      end
  end.

(** [Has] *)
Definition Has (m : MapChunkStore) (ref : NetStore.Address) : bool :=
  present (chunks m (Hex ref)).

(** [HasMulti] *)
Fixpoint HasMulti (m : MapChunkStore) (refs : list NetStore.Address)
  : list bool :=
  match refs with
  | [] => []
  | ref :: rest => present (chunks m (Hex ref)) :: HasMulti m rest
  end.

Definition same_key (ref : NetStore.Address) (c : NetStore.Chunk) : bool :=
  key_eqb (Hex (NetStore.chunk_address c)) (Hex ref).

(** X18 ([MapChunkStore.Put], [MapChunkStore.Get]): what is put can be
    got.  After [Put] of some chunks, [Get] of a reference returns the last
    chunk of the call whose address has the key of the reference, and what
    it returned before when the call had no such chunk.  [Put] answers one
    flag for each chunk, in order: whether the store held a chunk under
    that key before the call, or an earlier chunk of the same call has the
    same key. *)
Theorem Put_then_Get m chs :
  length (snd (Put m chs)) = length chs /\
  (forall i ch,
      nth_error chs i = Some ch ->
      nth_error (snd (Put m chs)) i
      = Some (Has m (NetStore.chunk_address ch)
              || existsb (same_key (NetStore.chunk_address ch))
                   (firstn i chs))) /\
  (forall ref,
      Get (fst (Put m chs)) ref
      = match find (same_key ref) (rev chs) with
        | Some c => Some c
        | None => Get m ref
        end).
Proof.
  unfold Put. revert m.
  induction chs as [|c rest IH]; intros m.
  - cbn [put_loop fst snd]. split; [reflexivity|]. split; [|reflexivity].
    intros [|i] ch; discriminate.
  - cbn [put_loop].
    set (m1 := mkMapChunkStore
                 (fun k => if key_eqb k (Hex (NetStore.chunk_address c))
                           then Some c else chunks m k)).
    destruct (IH m1) as (L & E & G).
    destruct (put_loop m1 rest) as [m2 es]. cbn [fst snd] in *.
    split; [simpl; now rewrite L|]. split.
    + intros [|i] ch Hi; cbn [nth_error] in *.
      * injection Hi as <-. cbn [firstn existsb]. now rewrite orb_false_r.
      * rewrite (E _ _ Hi). f_equal. cbn [firstn existsb].
        unfold Has, m1, same_key. cbn [chunks].
        rewrite orb_assoc. f_equal.
        destruct (key_eqb (Hex (NetStore.chunk_address ch))
                    (Hex (NetStore.chunk_address c))) eqn:Ek.
        -- apply key_eqb_eq in Ek. rewrite Ek.
           rewrite (proj2 (key_eqb_eq _ _) eq_refl).
           now rewrite orb_true_r.
        -- destruct (key_eqb (Hex (NetStore.chunk_address c))
                       (Hex (NetStore.chunk_address ch))) eqn:Ek'.
           ++ apply key_eqb_eq in Ek'. rewrite Ek' in Ek.
              rewrite (proj2 (key_eqb_eq _ _) eq_refl) in Ek. discriminate.
           ++ now rewrite orb_false_r.
    + intros ref. rewrite G. cbn [rev]. rewrite find_over_app.
      destruct (find (same_key ref) (rev rest)); [reflexivity|].
      cbn [find]. unfold Get, m1, same_key. cbn [chunks].
      destruct (key_eqb (Hex ref) (Hex (NetStore.chunk_address c))) eqn:Ek.
      * apply key_eqb_eq in Ek. rewrite Ek.
        now rewrite (proj2 (key_eqb_eq _ _) eq_refl).
      * destruct (key_eqb (Hex (NetStore.chunk_address c)) (Hex ref)) eqn:Ek';
          [|reflexivity].
        apply key_eqb_eq in Ek'. rewrite Ek' in Ek.
        rewrite (proj2 (key_eqb_eq _ _) eq_refl) in Ek. discriminate.
Qed.

Lemma GetMulti_spec m refs : forall found,
  GetMulti m refs found
  = if forallb (Has m) refs
    then Some (found ++ flat_map
                          (fun ref => match Get m ref with
                                      | Some c => [c]
                                      | None => []
                                      end) refs)
    else None.
Proof.
  induction refs as [|ref rest IH]; intros found.
  - cbn. now rewrite app_nil_r.
  - cbn [GetMulti forallb flat_map]. unfold Has at 1, Get at 1.
    destruct (chunks m (Hex ref)) as [c|]; cbn [present andb]; [|reflexivity].
    rewrite IH. destruct (forallb (Has m) rest); [|reflexivity].
    now rewrite <- app_assoc.
Qed.

(** X19 ([MapChunkStore.GetMulti], [MapChunkStore.Has],
    [MapChunkStore.HasMulti]): the reads agree with [Get].  [GetMulti]
    returns chunks only when the store holds every reference asked for,
    and then the chunk [Get] returns for each reference, in order; when one
    reference is missing it returns [ErrChunkNotFound] and no chunk at
    all.  [Has] is true exactly for the references [Get] finds, and
    [HasMulti] answers [Has] for every reference, in order. *)
Theorem reads_agree_with_Get m refs :
  (forallb (Has m) refs = true ->
   exists cs,
     GetMulti m refs [] = Some cs /\
     map Some cs = map (Get m) refs) /\
  (forallb (Has m) refs = false -> GetMulti m refs [] = None) /\
  HasMulti m refs = map (Has m) refs /\
  (forall ref, Has m ref = true <-> Get m ref <> None).
Proof.
  rewrite GetMulti_spec. split; [|split; [|split]].
  - intros Hall. rewrite Hall. eexists. split; [reflexivity|].
    cbn [app]. induction refs as [|ref rest IH]; [reflexivity|].
    cbn [forallb] in Hall. apply andb_prop in Hall as (H1 & H2).
    cbn [flat_map map]. unfold Has, Get in *.
    destruct (chunks m (Hex ref)) as [c|]; [|discriminate].
    cbn [app map]. f_equal. now apply IH.
  - now intros ->.
  - induction refs as [|ref rest IH]; [reflexivity|].
    cbn [HasMulti map]. now rewrite IH.
  - intros ref. unfold Has, Get.
    destruct (chunks m (Hex ref)); cbn [present]; split; congruence.
Qed.

End WithKeys.

(** Two chunks under one address and one under another, put into a store
    that held nothing. *)
Lemma Put_then_Get_witness :
  let c1 := NetStore.mkChunk [x01] [xaa] in
  let c2 := NetStore.mkChunk [x02] [xbb] in
  let c3 := NetStore.mkChunk [x01] [xcc] in
  let r := Put Fetchers.bytes_eqb (fun a => a)
             (NewMapChunkStore bytes) [c1; c2; c3] in
  snd r = [false; false; true] /\
  Get (fun a => a) (fst r) [x01] = Some c3 /\
  Get (fun a => a) (fst r) [x02] = Some c2 /\
  Get (fun a => a) (fst r) [x03] = None.
Proof.
  cbv zeta.
  destruct (@Put_then_Get bytes Fetchers.bytes_eqb Fetchers.bytes_eqb_eq
              (fun a => a) (NewMapChunkStore bytes)
              [NetStore.mkChunk [x01] [xaa]; NetStore.mkChunk [x02] [xbb];
               NetStore.mkChunk [x01] [xcc]]) as (_ & _ & G).
  split; [reflexivity|].
  split; [rewrite G; reflexivity|].
  split; [rewrite G; reflexivity|rewrite G; reflexivity].
Defined.

End MapStore.

(* ================================================================== *)
(** * The hasher store: the storing goroutines and [Wait]
      ([storage/hasherstore.go]: [storeChunk], [startWait], [Close],
       [Wait]) *)
(* ================================================================== *)

Module StorePipeline.

(** [noOfStorageWorkers]: the capacity of the channel [h.workers]. *)
Definition noOfStorageWorkers : nat := 150.

(** A goroutine spawned by [storeChunk]. *)
Inductive task : Type :=
| TStoring
    (* inside [h.store.Put] *)
| TSelect (err : option error)
    (* [h.store.Put] returned [err]; at [select { errC <- err | <-quitC }] *)
| TRelease (err : option error) (sent : bool)
    (* the select is over ([sent]: through [errC]); the deferred
       [<-h.workers] is still to run *)
| TDone (err : option error) (sent : bool).

(** The goroutine [startWait]. *)
Inductive waiter : Type :=
| WNotStarted
    (* [doWait.Do] has not run: no [Put] so far *)
| WLoop (nrStoredChunks : Z) (done : bool)
    (* at the [select] of the loop *)
| WSend (r : option error) (quittable : bool)
    (* sending [r] on [waitC]; [quittable]: the send is in a [select]
       with [<-h.quitC] *)
| WExited.

Record state : Type := mkState {
  nrChunks : Z;                          (* atomic uint64 *)
  workers : nat;                         (* chunks held in [h.workers] *)
  tasks : list task;
  wait_routine : waiter;
  doneC_closed : bool;                   (* [Close] was called *)
  quitC_closed : bool;
  wait_called : bool;                    (* a caller is inside [Wait] *)
  wait_returned : option (option error); (* what [Wait] returned *)
  ctx_err : option error;                (* the context [startWait] was
                                            started with, that of the first
                                            [Put], is done; the [ctx] given
                                            to [Wait] is never read *)
  errC_log : list (option error)         (* the values received on [errC] *)
}.

(** [NewHasherStore] *)
Definition init : state :=
  {| nrChunks := 0; workers := 0; tasks := []; wait_routine := WNotStarted;
     doneC_closed := false; quitC_closed := false; wait_called := false;
     wait_returned := None; ctx_err := None; errC_log := [] |}.

Inductive label : Type :=
(* the caller and the collaborators *)
| LPut                                   (* [Put], up to its return *)
| LClose
| LWait
| LCancel (e : error)                    (* the context of the first [Put]
                                            is cancelled *)
| LStoreReturns (i : nat) (err : option error)
(* the goroutines of the store *)
| LTaskSend (i : nat)                    (* [errC <- err] meets [<-h.errC] *)
| LTaskQuit (i : nat)                    (* [<-h.quitC] in the task *)
| LTaskRelease (i : nat)                 (* deferred [<-h.workers] *)
| LWaiterDone                            (* [<-doneC] *)
| LWaiterCtx                             (* [<-ctx.Done()] in [startWait] *)
| LWaitReceive                           (* [h.waitC <- r] meets [<-h.waitC] *)
| LWaiterQuit.                           (* [<-h.quitC] in [startWait] *)

Definition is_internal (l : label) : bool :=
  match l with
  | LPut | LClose | LWait | LCancel _ | LStoreReturns _ _ => false
  | _ => true
  end.

(** The test at the end of the loop body of [startWait]. *)
Definition after_select (st : state) (nrStoredChunks : Z) (done : bool) : waiter :=
  if done && (nrStoredChunks >=? nrChunks st)%Z
  then WSend None false
  else WLoop nrStoredChunks done.

Definition set_task (st : state) (i : nat) (t : task) : state :=
  mkState (nrChunks st) (workers st) (Pool.update i t (tasks st))
    (wait_routine st) (doneC_closed st) (quitC_closed st) (wait_called st)
    (wait_returned st) (ctx_err st) (errC_log st).

Definition set_waiter (st : state) (w : waiter) : state :=
  mkState (nrChunks st) (workers st) (tasks st) w
    (doneC_closed st) (quitC_closed st) (wait_called st)
    (wait_returned st) (ctx_err st) (errC_log st).

(** One step; [None] when the step cannot be taken in [st] (the goroutine
    is blocked, or is not at that point). *)
Definition exec (l : label) (st : state) : option state :=
  match l with
  | LPut =>
      (* [h.workers <- ch] blocks while the channel is full; a [Put] after
         [Close] is outside the protocol of the store *)
      if (workers st <? noOfStorageWorkers) && negb (doneC_closed st) then
        Some (mkState (UInt64.add (nrChunks st) 1) (S (workers st))
                (tasks st ++ [TStoring])
                (match wait_routine st with
                 | WNotStarted => WLoop 0 false
                 | w => w
                 end)
                (doneC_closed st) (quitC_closed st) (wait_called st)
                (wait_returned st) (ctx_err st) (errC_log st))
      else None
  | LClose =>
      if doneC_closed st then None
      else Some (mkState (nrChunks st) (workers st) (tasks st)
                   (wait_routine st) true (quitC_closed st) (wait_called st)
                   (wait_returned st) (ctx_err st) (errC_log st))
  | LWait =>
      if wait_called st then None
      else Some (mkState (nrChunks st) (workers st) (tasks st)
                   (wait_routine st) (doneC_closed st) (quitC_closed st) true
                   (wait_returned st) (ctx_err st) (errC_log st))
  | LCancel e =>
      match ctx_err st with
      | Some _ => None
      | None => Some (mkState (nrChunks st) (workers st) (tasks st)
                        (wait_routine st) (doneC_closed st) (quitC_closed st)
                        (wait_called st) (wait_returned st) (Some e)
                        (errC_log st))
      end
  | LStoreReturns i err =>
      match nth_error (tasks st) i with
      | Some TStoring => Some (set_task st i (TSelect err))
      | _ => None
      end
  | LTaskSend i =>
      match nth_error (tasks st) i, wait_routine st with
      | Some (TSelect err), WLoop n done =>
          let st1 := set_task st i (TRelease err true) in
          let st2 := mkState (nrChunks st1) (workers st1) (tasks st1)
                       (wait_routine st1) (doneC_closed st1) (quitC_closed st1)
                       (wait_called st1) (wait_returned st1) (ctx_err st1)
                       (errC_log st1 ++ [err]) in
          Some (set_waiter st2
                  match err with
                  | Some e => WSend (Some e) true
                  | None => after_select st (UInt64.add n 1) done
                  end)
      | _, _ => None
      end
  | LTaskQuit i =>
      match nth_error (tasks st) i with
      | Some (TSelect err) =>
          if quitC_closed st then Some (set_task st i (TRelease err false))
          else None
      | _ => None
      end
  | LTaskRelease i =>
      match nth_error (tasks st) i with
      | Some (TRelease err sent) =>
          let st1 := set_task st i (TDone err sent) in
          Some (mkState (nrChunks st1) (Nat.pred (workers st1)) (tasks st1)
                  (wait_routine st1) (doneC_closed st1) (quitC_closed st1)
                  (wait_called st1) (wait_returned st1) (ctx_err st1)
                  (errC_log st1))
      | _ => None
      end
  | LWaiterDone =>
      match wait_routine st with
      | WLoop n false =>
          if doneC_closed st then Some (set_waiter st (after_select st n true))
          else None
      | _ => None
      end
  | LWaiterCtx =>
      match wait_routine st, ctx_err st with
      | WLoop n done, Some e => Some (set_waiter st (WSend (Some e) true))
      | _, _ => None
      end
  | LWaitReceive =>
      match wait_routine st, wait_returned st with
      | WSend r _, None =>
          if wait_called st then
            Some (mkState (nrChunks st) (workers st) (tasks st) WExited
                    (doneC_closed st) true (wait_called st) (Some r)
                    (ctx_err st) (errC_log st))
          else None
      | _, _ => None
      end
  | LWaiterQuit =>
      match wait_routine st with
      | WSend r true =>
          if quitC_closed st then Some (set_waiter st WExited) else None
      | _ => None
      end
  end.

(** Runs of the store: any sequence of steps from [NewHasherStore]. *)
Inductive steps : state -> state -> Prop :=
| steps_refl st : steps st st
| steps_next st l st1 st2 :
    steps st st1 -> exec l st1 = Some st2 -> steps st st2.

Definition reachable (st : state) : Prop := steps init st.

Fixpoint run (ls : list label) (st : state) : option state :=
  match ls with
  | [] => Some st
  | l :: rest =>
      match exec l st with
      | Some st' => run rest st'
      | None => None
      end
  end.

(** ** The worker bound *)

Definition is_active (t : task) : bool :=
  match t with TDone _ _ => false | _ => true end.

Definition is_storing (t : task) : bool :=
  match t with TStoring => true | _ => false end.

Ltac exec_inv H :=
  unfold exec in H;
  repeat match type of H with
  | context [match ?x with _ => _ end] =>
      let E := fresh "E" in destruct x eqn:E; try discriminate
  end;
  injection H as H; subst.

Lemma steps_ind_inv (P : state -> Prop) :
  P init ->
  (forall l st st', P st -> exec l st = Some st' -> P st') ->
  forall st, reachable st -> P st.
Proof.
  intros H0 Hstep st Hr. unfold reachable in Hr.
  remember init as st0 eqn:E0.
  induction Hr as [|st0 l st1 st2 H1 IH H2]; subst; [exact H0|].
  eapply Hstep; [apply IH; auto|exact H2].
Qed.

Ltac count_upd P :=
  match goal with
  | E : nth_error (tasks ?st) ?i = Some ?old
    |- context [Pool.update ?i ?x (tasks ?st)] =>
      let C := fresh "C" in
      pose proof (@Pool.count_update _ P i x old (tasks st) E) as C;
      simpl in C
  end.

Definition workers_inv (st : state) : Prop :=
  workers st = Pool.count is_active (tasks st) /\
  workers st <= noOfStorageWorkers.

Lemma workers_inv_exec l st st' :
  workers_inv st -> exec l st = Some st' -> workers_inv st'.
Proof.
  unfold workers_inv. intros [Hw Hb] H.
  destruct l; exec_inv H; simpl; auto; try count_upd is_active; try lia.
  (* LPut *)
  all: apply andb_prop in E as [E1 E2]; apply Nat.ltb_lt in E1;
    rewrite Pool.count_app; simpl; unfold noOfStorageWorkers in *; lia.
Qed.

(** C8. In every state the store can reach, the goroutines spawned by
    [storeChunk] that have not yet given their slot back are as many as the
    chunks held in the channel [h.workers], at most [noOfStorageWorkers =
    150]; the goroutines inside the local store's [Put] are among them, so
    never more than 150 local-store writes are in flight. *)
Theorem storage_workers_bounded :
  forall st, reachable st ->
    noOfStorageWorkers = 150 /\
    workers st = Pool.count is_active (tasks st) /\
    Pool.count is_storing (tasks st) <= workers st /\
    workers st <= noOfStorageWorkers.
Proof.
  intros st Hr.
  assert (H : workers_inv st).
  { revert st Hr. apply steps_ind_inv.
    - split; simpl; [reflexivity|unfold noOfStorageWorkers; lia].
    - intros l st st' Hi He. exact (workers_inv_exec _ Hi He). }
  destruct H as [Hw Hb]. repeat split; auto.
  rewrite Hw. apply Pool.count_le_mono. intros [] E; simpl in *; congruence.
Qed.

(** ** [Put], [Close] and [Wait] *)

Lemma task_eq_release (t : task) err sent :
  t = TRelease err sent \/ t <> TRelease err sent.
Proof.
  destruct t as [|e|e b|e b]; try (right; discriminate).
  destruct (Bool.bool_dec b sent) as [->|Hb]; [|right; congruence].
  destruct e as [e|], err as [e'|]; try (right; congruence); [|now left].
  destruct e, e'; try (right; congruence); try (now left).
  - destruct (Nat.eq_dec got got0) as [->|]; [now left|right; congruence].
  - destruct (Nat.eq_dec hashSize hashSize0) as [->|]; [|right; congruence].
    destruct (Nat.eq_dec encryptedRefLength encryptedRefLength0) as [->|];
      [|right; congruence].
    destruct (Nat.eq_dec got got0) as [->|]; [now left|right; congruence].
  - destruct (Nat.eq_dec code code0) as [->|]; [now left|right; congruence].
Qed.


(** What the local store answered for the chunk of a task, once it has. *)
Definition store_result (t : task) : option (option error) :=
  match t with
  | TStoring => None
  | TSelect err | TRelease err _ | TDone err _ => Some err
  end.

(** The local store acknowledged the chunk of the task. *)
Definition acknowledged (t : task) : Prop := store_result t = Some None.

(** The value the task handed over on [errC], when it did. *)
Definition sent_err (t : task) : option (option error) :=
  match t with
  | TRelease err true | TDone err true => Some err
  | _ => None
  end.

Definition is_sent (t : task) : bool :=
  match sent_err t with Some _ => true | None => false end.

(** The values received on [errC] are the values the tasks sent. *)
Definition log_inv (st : state) : Prop :=
  length (errC_log st) = Pool.count is_sent (tasks st) /\
  (forall t e, In t (tasks st) -> sent_err t = Some e -> In e (errC_log st)) /\
  (forall e, In e (errC_log st) ->
             exists t, In t (tasks st) /\ sent_err t = Some e).

Lemma log_inv_update st i old new log' :
  log_inv st ->
  nth_error (tasks st) i = Some old ->
  sent_err old = None ->
  (match sent_err new with
   | Some e => log' = errC_log st ++ [e]
   | None => log' = errC_log st
   end) ->
  length log' = Pool.count is_sent (Pool.update i new (tasks st)) /\
  (forall t e, In t (Pool.update i new (tasks st)) -> sent_err t = Some e ->
               In e log') /\
  (forall e, In e log' ->
             exists t, In t (Pool.update i new (tasks st)) /\ sent_err t = Some e).
Proof.
  intros (H1 & H2 & H3) N Hold Hnew.
  assert (Hlt : i < length (tasks st)) by (apply nth_error_Some; congruence).
  pose proof (@Pool.count_update _ is_sent i new old (tasks st) N) as C.
  assert (Eo : is_sent old = false) by (unfold is_sent; now rewrite Hold).
  assert (En : is_sent new = match sent_err new with Some _ => true | None => false end)
    by reflexivity.
  rewrite Eo, En in C.
  assert (Hkeep : forall e, In e (errC_log st) ->
            exists t, In t (Pool.update i new (tasks st)) /\ sent_err t = Some e).
  { intros e He. destruct (H3 _ He) as (t & Ht & Hs).
    exists t. split; [|exact Hs].
    apply Pool.In_update_other with (old := old); auto. congruence. }
  clear En. destruct (sent_err new) as [e0|] eqn:Hn; subst log'.
  - repeat split.
    + rewrite length_app. simpl. lia.
    + intros t e Ht Hs. apply in_or_app.
      destruct (Pool.In_update _ _ _ _ Ht) as [->|Hin].
      * right. left. congruence.
      * left. eauto.
    + intros e He. apply in_app_or in He. destruct He as [He|[<-|[]]]; auto.
      exists new. split; [now apply Pool.In_update_new|exact Hn].
  - repeat split; auto.
    + lia.
    + intros t e Ht Hs.
      destruct (Pool.In_update _ _ _ _ Ht) as [->|Hin]; [congruence|eauto].
Qed.

Lemma log_inv_exec l st st' :
  log_inv st -> exec l st = Some st' -> log_inv st'.
Proof.
  intros Hinv H. pose proof Hinv as (H1 & H2 & H3).
  destruct l; exec_inv H; unfold log_inv; simpl; auto;
    try (eapply log_inv_update; eauto; reflexivity).
  (* LPut *)
  1-4: rewrite Pool.count_app; simpl; repeat split;
    [ lia
    | intros t e Ht Hs; apply in_app_or in Ht;
      destruct Ht as [Ht|[<-|[]]]; [eauto|discriminate]
    | intros e He; destruct (H3 _ He) as (t & Ht & Hs);
      exists t; split; [apply in_or_app; auto|exact Hs] ].
  (* LTaskRelease *)
  assert (Hlt : i < length (tasks st)) by (apply nth_error_Some; congruence).
  pose proof (@Pool.count_update _ is_sent i (TDone err sent) _ (tasks st) E) as C.
  assert (Es : is_sent (TDone err sent) = is_sent (TRelease err sent))
    by reflexivity.
  rewrite Es in C.
  repeat split.
  - destruct (is_sent (TRelease err sent)); lia.
  - intros t e Ht Hs.
    destruct (Pool.In_update _ _ _ _ Ht) as [->|Hin]; [|eauto].
    apply (H2 (TRelease err sent)); [eapply nth_error_In; eauto|].
    destruct sent; exact Hs.
  - intros e He. destruct (H3 _ He) as (t & Ht & Hs).
    destruct (task_eq_release t err sent) as [->|Hne].
    + exists (TDone err sent). split; [now apply Pool.In_update_new|].
      destruct sent; exact Hs.
    + exists t. split; [|exact Hs].
      eapply Pool.In_update_other; eauto.
Qed.

Definition all_nil (log : list (option error)) : Prop :=
  forall x, In x log -> x = None.

(** What a value sent on [waitC] says about the run so far: [nil] is sent
    only after [Close], when [errC] delivered nothing but [nil] and at least
    [nrChunks] of them; an error is the context's error or the first
    non-nil value of [errC], which is then the last value received. *)
Definition result_ok (st : state) (r : option error) : Prop :=
  match r with
  | None =>
      doneC_closed st = true /\ all_nil (errC_log st) /\
      (nrChunks st <= UInt64.wrap (Z.of_nat (length (errC_log st))))%Z
  | Some e =>
      ctx_err st = Some e \/
      exists k, errC_log st = repeat None k ++ [Some e]
  end.

Definition wait_inv (st : state) : Prop :=
  nrChunks st = UInt64.wrap (Z.of_nat (length (tasks st))) /\
  (wait_routine st = WNotStarted <-> tasks st = []) /\
  match wait_routine st with
  | WNotStarted => wait_returned st = None /\ quitC_closed st = false
  | WLoop n done =>
      n = UInt64.wrap (Z.of_nat (length (errC_log st))) /\
      all_nil (errC_log st) /\
      (done = true -> doneC_closed st = true /\ (n < nrChunks st)%Z) /\
      wait_returned st = None /\ quitC_closed st = false
  | WSend r _ =>
      wait_returned st = None /\ quitC_closed st = false /\ result_ok st r
  | WExited => exists r, wait_returned st = Some r /\ result_ok st r
  end.

Lemma wrap_succ a : UInt64.add (UInt64.wrap a) 1 = UInt64.wrap (a + 1).
Proof.
  unfold UInt64.add, UInt64.wrap, UInt64.modulus.
  now rewrite Z.add_mod_idemp_l by lia.
Qed.

Lemma length_snoc_Z (A : Type) (l : list A) (x : A) :
  Z.of_nat (length (l ++ [x])) = (Z.of_nat (length l) + 1)%Z.
Proof. rewrite length_app. simpl. lia. Qed.

Lemma all_nil_repeat log : all_nil log -> log = repeat None (length log).
Proof.
  induction log as [|x r IH]; intros H; simpl; [reflexivity|].
  rewrite (H x) by now left. f_equal. apply IH.
  intros y Hy. apply H. now right.
Qed.

Lemma all_nil_snoc log : all_nil log -> all_nil (log ++ [None]).
Proof.
  intros H x Hx. apply in_app_or in Hx.
  destruct Hx as [Hx|[<-|[]]]; auto.
Qed.

Lemma after_select_inv st st' n done :
  nrChunks st' = nrChunks st ->
  doneC_closed st' = doneC_closed st ->
  (done = true -> doneC_closed st = true) ->
  all_nil (errC_log st') ->
  n = UInt64.wrap (Z.of_nat (length (errC_log st'))) ->
  wait_returned st' = None -> quitC_closed st' = false ->
  match after_select st n done with
  | WNotStarted => False
  | WLoop n' done' =>
      n' = UInt64.wrap (Z.of_nat (length (errC_log st'))) /\
      all_nil (errC_log st') /\
      (done' = true -> doneC_closed st' = true /\ (n' < nrChunks st')%Z) /\
      wait_returned st' = None /\ quitC_closed st' = false
  | WSend r _ =>
      wait_returned st' = None /\ quitC_closed st' = false /\ result_ok st' r
  | WExited => False
  end.
Proof.
  intros Hn Hc Hd Hall Hlen Hr Hq. unfold after_select.
  destruct (done && (n >=? nrChunks st)%Z) eqn:E.
  - apply andb_prop in E as [-> E]. rewrite Z.geb_leb in E.
    apply Z.leb_le in E. simpl. repeat split; auto.
    + rewrite Hc. auto.
    + rewrite Hn. lia.
  - repeat split; auto.
    + rewrite Hc. exact (Hd H).
    + subst done. simpl in E. rewrite Z.geb_leb in E.
      apply Z.leb_gt in E. rewrite Hn. exact E.
Qed.

Lemma wait_inv_exec l st st' :
  log_inv st -> wait_inv st -> exec l st = Some st' -> wait_inv st'.
Proof.
  intros (L1 & L2 & L3) (K1 & K2 & K6) H.
  destruct l; simpl in H.
  - (* LPut *)
    destruct ((workers st <? noOfStorageWorkers) && negb (doneC_closed st)) eqn:G;
      [|discriminate].
    injection H as <-.
    apply andb_prop in G as [_ G]. apply negb_true_iff in G.
    unfold wait_inv; simpl. split; [|split].
    + rewrite K1, wrap_succ, length_snoc_Z. reflexivity.
    + split; intros X.
      * destruct (wait_routine st); discriminate.
      * destruct (tasks st); discriminate.
    + destruct (wait_routine st) eqn:W; simpl.
      * assert (T : tasks st = []) by (apply K2; reflexivity).
        rewrite T in L1. simpl in L1.
        destruct (errC_log st); [|discriminate].
        destruct K6 as (Kr & Kq). repeat split; auto; try discriminate.
        intros x [].
      * destruct K6 as (Kn & Ka & Kd & Kr & Kq).
        split; [exact Kn|]. split; [exact Ka|]. split; [|auto].
        intros D. destruct (Kd D). congruence.
      * destruct K6 as (Kr & Kq & Kok). repeat split; auto.
        destruct r; [exact Kok|]. destruct Kok as (Kc & _). congruence.
      * destruct K6 as (r & Kr & Kok). exists r. split; [exact Kr|].
        destruct r; [exact Kok|]. destruct Kok as (Kc & _). congruence.
  - (* LClose *)
    destruct (doneC_closed st) eqn:G; [discriminate|]. injection H as <-.
    unfold wait_inv; simpl. split; [exact K1|]. split; [exact K2|].
    destruct (wait_routine st) eqn:W; simpl; auto.
    + destruct K6 as (Kn & Ka & Kd & Kr & Kq).
      split; [exact Kn|]. split; [exact Ka|]. split; [|auto].
      intros D. destruct (Kd D). congruence.
    + destruct K6 as (Kr & Kq & Kok). repeat split; auto.
      destruct r; [exact Kok|]. destruct Kok as (Kc & _). congruence.
    + destruct K6 as (r & Kr & Kok). exists r. split; [exact Kr|].
      destruct r; [exact Kok|]. destruct Kok as (Kc & _). congruence.
  - (* LWait *)
    destruct (wait_called st); [discriminate|]. injection H as <-.
    unfold wait_inv; simpl. auto.
  - (* LCancel *)
    destruct (ctx_err st) eqn:G; [discriminate|]. injection H as <-.
    unfold wait_inv; simpl. split; [exact K1|]. split; [exact K2|].
    destruct (wait_routine st) eqn:W; simpl; auto.
    + destruct K6 as (Kr & Kq & Kok). repeat split; auto.
      destruct r as [e0|]; [|exact Kok]. right.
      destruct Kok as [Kc|Kc]; [congruence|exact Kc].
    + destruct K6 as (r & Kr & Kok). exists r. split; [exact Kr|].
      destruct r as [e0|]; [|exact Kok]. right.
      destruct Kok as [Kc|Kc]; [congruence|exact Kc].
  - (* LStoreReturns *)
    destruct (nth_error (tasks st) i) as [[| | |]|] eqn:N; try discriminate.
    injection H as <-. unfold wait_inv; simpl.
    rewrite Pool.length_update, Pool.update_nil. auto.
  - (* LTaskSend *)
    destruct (nth_error (tasks st) i) as [[|err| |]|] eqn:N; try discriminate.
    destruct (wait_routine st) as [|n done| |] eqn:W; try discriminate.
    injection H as <-.
    destruct K6 as (Kn & Ka & Kd & Kr & Kq).
    unfold wait_inv; simpl.
    rewrite Pool.length_update, Pool.update_nil.
    split; [exact K1|]. split.
    { rewrite <- K2.
      destruct err; [|unfold after_select; destruct (_ && _)];
        split; discriminate. }
    destruct err as [e|].
    + simpl. repeat split; auto. right.
      exists (length (errC_log st)). f_equal. now apply all_nil_repeat.
    + remember (after_select st (UInt64.add n 1) done) as w eqn:Ew.
      pose proof (@after_select_inv st
        (mkState (nrChunks st) (workers st)
           (Pool.update i (TRelease None true) (tasks st)) w
           (doneC_closed st) (quitC_closed st) (wait_called st)
           (wait_returned st) (ctx_err st) (errC_log st ++ [None]))
        (UInt64.add n 1) done) as X.
      simpl in X. rewrite <- Ew in X.
      assert (Y : match w with
                  | WNotStarted | WExited => False
                  | _ => True end).
      { subst w. unfold after_select. destruct (_ && _); exact I. }
      assert (Hn : UInt64.add n 1
                   = UInt64.wrap (Z.of_nat (length (errC_log st ++ [None]))))
        by (rewrite Kn, wrap_succ, length_snoc_Z; reflexivity).
      pose proof (X eq_refl eq_refl (fun D => proj1 (Kd D))
                    (all_nil_snoc Ka) Hn Kr Kq) as X'.
      destruct w; try contradiction; exact X'.
  - (* LTaskQuit *)
    destruct (nth_error (tasks st) i) as [[|err| |]|] eqn:N; try discriminate.
    destruct (quitC_closed st) eqn:G; [|discriminate].
    injection H as <-. unfold wait_inv; simpl.
    rewrite Pool.length_update, Pool.update_nil.
    split; [exact K1|]. split; [exact K2|].
    destruct (wait_routine st).
    + destruct K6 as (_ & X). discriminate.
    + destruct K6 as (_ & _ & _ & _ & X). discriminate.
    + destruct K6 as (_ & X & _). discriminate.
    + exact K6.
  - (* LTaskRelease *)
    destruct (nth_error (tasks st) i) as [[| |err sent|]|] eqn:N; try discriminate.
    injection H as <-. unfold wait_inv; simpl.
    rewrite Pool.length_update, Pool.update_nil. auto.
  - (* LWaiterDone *)
    destruct (wait_routine st) as [|n [|]| |] eqn:W; try discriminate.
    destruct (doneC_closed st) eqn:G; [|discriminate].
    injection H as <-.
    destruct K6 as (Kn & Ka & Kd & Kr & Kq).
    unfold wait_inv; simpl. split; [exact K1|]. split.
    { rewrite <- K2. unfold after_select.
      destruct (_ && _); split; discriminate. }
    remember (after_select st n true) as w eqn:Ew.
    pose proof (@after_select_inv st
      (mkState (nrChunks st) (workers st) (tasks st) w
         (doneC_closed st) (quitC_closed st) (wait_called st)
         (wait_returned st) (ctx_err st) (errC_log st))
      n true) as X.
    simpl in X. rewrite <- Ew in X.
    assert (Y : match w with
                | WNotStarted | WExited => False
                | _ => True end).
    { subst w. unfold after_select. destruct (_ && _); exact I. }
    pose proof (X eq_refl eq_refl (fun _ => G) Ka Kn Kr Kq) as X'.
    destruct w; try contradiction; exact X'.
  - (* LWaiterCtx *)
    destruct (wait_routine st) as [|n done| |] eqn:W; try discriminate.
    destruct (ctx_err st) as [e|] eqn:G; [|discriminate].
    injection H as <-.
    destruct K6 as (Kn & Ka & Kd & Kr & Kq).
    unfold wait_inv; simpl. split; [exact K1|]. split.
    { rewrite <- K2. split; discriminate. }
    repeat split; auto.
  - (* LWaitReceive *)
    destruct (wait_routine st) as [| |r q|] eqn:W; try discriminate.
    destruct (wait_returned st) eqn:G; [discriminate|].
    destruct (wait_called st); [|discriminate].
    injection H as <-.
    destruct K6 as (Kr & Kq & Kok).
    unfold wait_inv; simpl. split; [exact K1|]. split.
    { rewrite <- K2. split; discriminate. }
    exists r. split; [reflexivity|]. destruct r; exact Kok.
  - (* LWaiterQuit *)
    destruct (wait_routine st) as [| |r [|]|] eqn:W; try discriminate.
    destruct (quitC_closed st) eqn:G; [|discriminate].
    destruct K6 as (_ & Kq & _). congruence.
Qed.

(** While [quitC] is open, a task gets past its [select] only by sending
    on [errC]. *)
Definition before_release (t : task) : bool :=
  match t with TStoring | TSelect _ => true | _ => false end.

Definition quit_inv (st : state) : Prop :=
  quitC_closed st = false ->
  forall t, In t (tasks st) -> sent_err t = None -> before_release t = true.

Lemma quit_inv_exec l st st' :
  quit_inv st -> exec l st = Some st' -> quit_inv st'.
Proof.
  unfold quit_inv. intros Hq H.
  destruct l; exec_inv H; simpl; auto; intros Q t Ht Hs; try discriminate;
    try (apply in_app_or in Ht;
         destruct Ht as [Ht|[<-|[]]]; [eauto|reflexivity]);
    try (apply Pool.In_update in Ht; destruct Ht as [->|Ht]; eauto;
         try discriminate; try reflexivity);
    eauto.
  (* LTaskRelease *)
  apply nth_error_In in E. specialize (Hq Q _ E).
  destruct sent; [discriminate|]. specialize (Hq eq_refl). discriminate.
Qed.

Lemma reachable_inv st :
  reachable st -> log_inv st /\ wait_inv st /\ quit_inv st.
Proof.
  revert st. apply steps_ind_inv.
  - split; [|split].
    + unfold log_inv; simpl. repeat split; try contradiction.
    + unfold wait_inv; simpl. repeat split; auto.
    + intros _ t [].
  - intros l st st' (H1 & H2 & H3) He.
    split; [|split].
    + eapply log_inv_exec; eauto.
    + eapply wait_inv_exec; eauto.
    + eapply quit_inv_exec; eauto.
Qed.

(** After [Wait] has returned nothing is received on [errC] any more, and
    what [Wait] returned stays. *)
Lemma returned_exec l st st' r :
  wait_inv st -> wait_returned st = Some r -> exec l st = Some st' ->
  wait_returned st' = Some r /\ errC_log st' = errC_log st.
Proof.
  intros (_ & _ & K6) Hr H.
  destruct l; exec_inv H; simpl; auto;
    rewrite ?E, ?E0 in K6; simpl in K6;
    repeat match goal with
    | K : _ /\ _ |- _ => destruct K
    end; congruence.
Qed.

Lemma steps_trans st1 st2 st3 : steps st1 st2 -> steps st2 st3 -> steps st1 st3.
Proof.
  intros H12 H23. induction H23 as [|st2 l sta stb Ha IH Hb]; [assumption|].
  eapply steps_next; [apply IH; assumption|exact Hb].
Qed.

Lemma returned_steps st st' r :
  reachable st -> wait_returned st = Some r -> steps st st' ->
  wait_returned st' = Some r /\ errC_log st' = errC_log st.
Proof.
  intros Hreach Hr Hs.
  induction Hs as [|st l st1 st2 H1 IH H2]; [auto|].
  destruct (IH Hreach Hr) as [R1 R2].
  assert (Hreach1 : reachable st1) by exact (steps_trans Hreach H1).
  destruct (reachable_inv Hreach1) as (_ & Hw & _).
  destruct (returned_exec _ Hw R1 H2) as [R3 R4].
  split; congruence.
Qed.

(** How far the goroutines of the store are from their end. *)
Definition task_weight (t : task) : nat :=
  match t with
  | TStoring => 3
  | TSelect _ => 2
  | TRelease _ _ => 1
  | TDone _ _ => 0
  end.

Definition waiter_weight (w : waiter) : nat :=
  match w with
  | WNotStarted => 0
  | WLoop _ false => 3
  | WLoop _ true => 2
  | WSend _ _ => 1
  | WExited => 0
  end.

Definition measure (st : state) : nat :=
  Pool.total task_weight (tasks st) + waiter_weight (wait_routine st).

Lemma internal_step_decreases l st st' :
  is_internal l = true -> exec l st = Some st' -> measure st' < measure st.
Proof.
  intros Hi H. unfold measure.
  destruct l; try discriminate; exec_inv H; simpl;
    try match goal with
    | E : nth_error (tasks ?st) ?i = Some ?old
      |- context [Pool.update ?i ?x (tasks ?st)] =>
        pose proof (@Pool.total_update _ task_weight i x old (tasks st) E) as C;
        simpl in C
    end;
    rewrite ?E, ?E0, ?E1; simpl;
    try (unfold after_select;
         match goal with
         | |- context [if ?c then _ else _] => destruct c
         end; simpl);
    try lia.
  all: destruct done; simpl; lia.
Qed.

Lemma run_steps ls st st' : run ls st = Some st' -> steps st st'.
Proof.
  revert st. induction ls as [|l rest IH]; intros st H; simpl in H.
  - injection H as <-. apply steps_refl.
  - destruct (exec l st) as [st1|] eqn:E; [|discriminate].
    eapply steps_trans; [|apply IH; exact H].
    eapply steps_next; [apply steps_refl|exact E].
Qed.

Lemma tasks_survey (ts : list task) :
  (exists i e, nth_error ts i = Some (TSelect e)) \/
  (exists i e s, nth_error ts i = Some (TRelease e s)) \/
  (forall t, In t ts -> t = TStoring \/ exists e s, t = TDone e s).
Proof.
  induction ts as [|t r IH].
  - right. right. intros t [].
  - destruct t as [|e|e s|e s].
    + destruct IH as [(i & e & H)|[(i & e & s & H)|H]].
      * left. exists (S i), e. exact H.
      * right. left. exists (S i), e, s. exact H.
      * right. right. intros t [<-|Ht]; [now left|auto].
    + left. exists 0, e. reflexivity.
    + right. left. exists 0, e, s. reflexivity.
    + destruct IH as [(i & e' & H)|[(i & e' & s' & H)|H]].
      * left. exists (S i), e'. exact H.
      * right. left. exists (S i), e', s'. exact H.
      * right. right. intros t [<-|Ht]; [right; eauto|auto].
Qed.

(** After [Close] and the call of [Wait], once at least one chunk was put
    and the local store has answered for every chunk, some goroutine of the
    store can move as long as [Wait] has not returned. *)
Lemma wait_progress st :
  reachable st ->
  tasks st <> [] -> doneC_closed st = true -> wait_called st = true ->
  (forall t, In t (tasks st) -> t <> TStoring) ->
  wait_returned st = None ->
  exists l st', is_internal l = true /\ exec l st = Some st'.
Proof.
  intros Hr Hne Hc Hw Hst Hret.
  destruct (reachable_inv Hr) as ((L1 & L2 & L3) & (K1 & K2 & K6) & Q).
  destruct (wait_routine st) as [|n [|]|r q|] eqn:W.
  - destruct Hne. apply K2. reflexivity.
  - destruct K6 as (Kn & Ka & Kd & Kr & Kq).
    destruct (tasks_survey (tasks st)) as [(i & e & H)|[(i & e & s & H)|H]].
    + exists (LTaskSend i). simpl. rewrite H, W. eauto.
    + exists (LTaskRelease i). simpl. rewrite H. eauto.
    + exfalso.
      assert (Hall : forall t, In t (tasks st) -> is_sent t = true).
      { intros t Ht. destruct (H _ Ht) as [->|(e & s & ->)].
        - destruct (Hst _ Ht). reflexivity.
        - destruct s; [reflexivity|].
          specialize (Q Kq _ Ht eq_refl). discriminate. }
      apply Pool.count_eq_length in Hall.
      destruct (Kd eq_refl) as (_ & Hlt).
      rewrite Kn, K1, L1, Hall in Hlt. lia.
  - exists LWaiterDone. simpl. rewrite W, Hc. eauto.
  - exists LWaitReceive. simpl. rewrite W, Hret, Hw. eauto.
  - destruct K6 as (r & Kr & _). congruence.
Qed.

(** X13 ([hasherStore.Wait], [hasherStore.startWait],
    [hasherStore.storeChunk]): with at least one [Put], in every state the
    store can reach
    while the context is not cancelled and fewer than [2^64] chunks were
    put: what [Wait] returned is [nil] exactly when the local store
    acknowledged every chunk put (and then [Close] had been called); an
    error [Wait] returned is the first non-nil value received on [errC],
    the last value received at all, and nothing is received after the
    return; and with at least one chunk put, after [Close], [Wait] does
    return: the goroutines of the store can always move until it has, and
    each of their steps brings the store closer to its end. *)
Lemma put_wait_completeness st :
  reachable st ->
  (Z.of_nat (length (tasks st)) < UInt64.modulus)%Z ->
  ctx_err st = None ->
  (forall r, wait_returned st = Some r ->
     (r = None <-> forall t, In t (tasks st) -> acknowledged t) /\
     (r = None -> doneC_closed st = true) /\
     (forall e, r = Some e ->
        exists k, errC_log st = repeat None k ++ [Some e]) /\
     (forall st', steps st st' ->
        wait_returned st' = Some r /\ errC_log st' = errC_log st)) /\
  (tasks st <> [] -> doneC_closed st = true -> wait_called st = true ->
   (forall t, In t (tasks st) -> t <> TStoring) ->
   wait_returned st = None ->
   exists l st', is_internal l = true /\ exec l st = Some st') /\
  (forall l st', is_internal l = true -> exec l st = Some st' ->
     measure st' < measure st).
Proof.
  intros Hr Hn Hctx.
  destruct (reachable_inv Hr) as ((L1 & L2 & L3) & (K1 & K2 & K6) & Q).
  split; [|split].
  - intros r Hret.
    assert (Hok : result_ok st r).
    { destruct (wait_routine st);
        repeat match goal with K : _ /\ _ |- _ => destruct K end;
        try congruence.
      destruct K6 as (r' & Kr & Kok). congruence. }
    assert (Herr : forall e, r = Some e ->
              exists k, errC_log st = repeat None k ++ [Some e]).
    { intros e ->. destruct Hok as [Hok|Hok]; [congruence|exact Hok]. }
    repeat split.
    + intros -> t Ht. destruct Hok as (Hc & Ha & Hge).
      pose proof (Pool.count_le_length is_sent (tasks st)) as Hle.
      unfold UInt64.wrap in *.
      rewrite K1 in Hge. rewrite !Z.mod_small in Hge by lia.
      assert (Hs : is_sent t = true).
      { apply (@Pool.count_all _ is_sent (tasks st)); [lia|exact Ht]. }
      unfold is_sent in Hs. destruct (sent_err t) as [e|] eqn:Es; [|discriminate].
      pose proof (Ha _ (L2 _ _ Ht Es)) as ->.
      destruct t as [| |e [|]|e [|]]; simpl in Es; try discriminate;
        injection Es as ->; reflexivity.
    + intros Hall. destruct r as [e|]; [|reflexivity].
      destruct (Herr e eq_refl) as (k & Hlog).
      assert (Hin : In (Some e) (errC_log st))
        by (rewrite Hlog; apply in_or_app; right; now left).
      destruct (L3 _ Hin) as (t & Ht & Hs).
      specialize (Hall _ Ht). unfold acknowledged in Hall.
      destruct t as [| |e' [|]|e' [|]]; simpl in *; congruence.
    + intros ->. apply Hok.
    + exact Herr.
    + eapply returned_steps; eauto.
    + eapply returned_steps; eauto.
  - apply wait_progress. exact Hr.
  - intros l st'. apply internal_step_decreases.
Qed.

(** The store after [Close] and a call of [Wait], no chunk having been
    put. *)
Definition closed_without_put (st : state) : Prop :=
  tasks st = [] /\ doneC_closed st = true /\
  wait_routine st = WNotStarted /\ wait_returned st = None.

Lemma closed_without_put_exec l st st' :
  closed_without_put st -> exec l st = Some st' -> closed_without_put st'.
Proof.
  unfold closed_without_put. intros (T & C & W & R) H.
  destruct l; simpl in H; rewrite ?T, ?C, ?W, ?R in H; simpl in H;
    try discriminate;
    try (rewrite andb_false_r in H; discriminate);
    try (destruct i; discriminate).
  - destruct (wait_called st); [discriminate|]. injection H as <-. simpl. auto.
  - destruct (ctx_err st); [discriminate|]. injection H as <-. simpl. auto.
Qed.

Lemma closed_without_put_steps st st' :
  closed_without_put st -> steps st st' -> closed_without_put st'.
Proof.
  intros H Hs. induction Hs as [|st l st1 st2 H1 IH H2]; [exact H|].
  eapply closed_without_put_exec; [apply IH; exact H|exact H2].
Qed.

(** C7. With no [Put] at all the claim fails on the code: after [Close]
    and a call of [Wait], every chunk put (there is none) is acknowledged,
    yet [Wait] has not returned and never returns, because only
    [startWait] sends on [waitC] and only the first [Put] starts it. *)
Theorem wait_blocks_when_nothing_was_put :
  exists st,
    run [LClose; LWait] init = Some st /\
    tasks st = [] /\ doneC_closed st = true /\ wait_called st = true /\
    (forall t, In t (tasks st) -> acknowledged t) /\
    forall st', steps st st' -> wait_returned st' = None.
Proof.
  eexists. split; [reflexivity|]. simpl. repeat split; auto.
  - intros t [].
  - intros st' Hs.
    refine (proj2 (proj2 (proj2 (closed_without_put_steps _ Hs)))).
    repeat split.
Qed.

(** ** After [Wait] *)

Lemma reachable_workers_inv st : reachable st -> workers_inv st.
Proof.
  revert st. apply steps_ind_inv.
  - split; simpl; [reflexivity|unfold noOfStorageWorkers; lia].
  - intros l st st' Hi He. exact (workers_inv_exec _ Hi He).
Qed.

(** [Wait] closes [quitC] when it returns, and nothing opens it again. *)
Lemma returned_closes_quitC st :
  reachable st -> wait_returned st <> None -> quitC_closed st = true.
Proof.
  revert st.
  apply (@steps_ind_inv
           (fun st => wait_returned st <> None -> quitC_closed st = true)).
  - simpl. congruence.
  - intros l st st' IH H.
    destruct l; exec_inv H; simpl in *; auto.
Qed.

Lemma count_inactive (ts : list task) :
  (forall t, In t ts -> is_active t = false) -> Pool.count is_active ts = 0.
Proof.
  induction ts as [|t r IH]; intros Hall; [reflexivity|].
  simpl. rewrite (Hall t) by now left. apply IH.
  intros x Hx. apply Hall. now right.
Qed.

Lemma total_weightless (ts : list task) :
  Pool.total task_weight ts = 0 -> forall t, In t ts -> is_active t = false.
Proof.
  induction ts as [|t r IH]; intros Hw x Hx; [contradiction|].
  simpl in Hw. destruct Hx as [<-|Hx].
  - destruct t; simpl in *; solve [lia|reflexivity].
  - apply IH; [lia|exact Hx].
Qed.

(** X14 ([hasherStore.Wait], [hasherStore.storeChunk]): no goroutine of
    the store is left behind once [Wait] has returned.  When the local
    store has answered for every chunk, the goroutines started by
    [storeChunk] can all run to their end without anyone receiving on
    [errC] any more (they leave their [select] through the closed [quitC]),
    every one of them gives its slot in [h.workers] back, and what [Wait]
    returned stays as it is. *)
Theorem workers_released_after_Wait st r :
  reachable st ->
  wait_returned st = Some r ->
  (forall t, In t (tasks st) -> t <> TStoring) ->
  exists ls st',
    run ls st = Some st' /\
    Forall (fun l => is_internal l = true) ls /\
    (forall t, In t (tasks st') -> is_active t = false) /\
    workers st' = 0 /\
    wait_returned st' = Some r.
Proof.
  remember (Pool.total task_weight (tasks st)) as n eqn:Hn.
  revert st Hn. induction n as [n IH] using lt_wf_ind.
  intros st Hn Hr Hret Hst.
  assert (Hq : quitC_closed st = true)
    by (apply returned_closes_quitC; [exact Hr|congruence]).
  assert (Hend : (forall t, In t (tasks st) -> is_active t = false) ->
                 exists ls st',
                   run ls st = Some st' /\
                   Forall (fun l => is_internal l = true) ls /\
                   (forall t, In t (tasks st') -> is_active t = false) /\
                   workers st' = 0 /\ wait_returned st' = Some r).
  { intros Hall. exists [], st. split; [reflexivity|]. split; [constructor|].
    split; [exact Hall|]. split; [|exact Hret].
    destruct (reachable_workers_inv Hr) as (-> & _).
    now apply count_inactive. }
  assert (Hgo : forall l st1,
             is_internal l = true -> exec l st = Some st1 ->
             (forall t, In t (tasks st1) -> t <> TStoring) ->
             exists ls st',
               run ls st = Some st' /\
               Forall (fun l => is_internal l = true) ls /\
               (forall t, In t (tasks st') -> is_active t = false) /\
               workers st' = 0 /\ wait_returned st' = Some r).
  { intros l st1 Hl He Hst1.
    assert (Hr1 : reachable st1) by (eapply steps_next; eauto).
    destruct (reachable_inv Hr) as (_ & Hw & _).
    destruct (returned_exec _ Hw Hret He) as (Hret1 & _).
    assert (Hlt : Pool.total task_weight (tasks st1) < n).
    { pose proof (@internal_step_decreases l st st1 Hl He) as M.
      unfold measure in M.
      assert (Ew : wait_routine st1 = wait_routine st).
      { destruct (wait_routine st) eqn:W;
          destruct Hw as (_ & _ & K); rewrite W in K;
          repeat match goal with K : _ /\ _ |- _ => destruct K end;
          try congruence.
        destruct l; try discriminate; exec_inv He; simpl; congruence. }
      rewrite Ew in M. lia. }
    destruct (IH _ Hlt st1 eq_refl Hr1 Hret1 Hst1)
      as (ls & st' & R & F & A & W0 & Rt).
    exists (l :: ls), st'. split; [simpl; now rewrite He|].
    split; [now constructor|]. auto. }
  destruct (tasks_survey (tasks st)) as [(i & e & H)|[(i & e & s & H)|H]].
  - apply (Hgo (LTaskQuit i) (set_task st i (TRelease e false)));
      [reflexivity|simpl; now rewrite H, Hq|].
    intros t Ht. simpl in Ht. apply Pool.In_update in Ht.
    destruct Ht as [->|Ht]; [discriminate|auto].
  - eapply (Hgo (LTaskRelease i)); [reflexivity|simpl; rewrite H; reflexivity|].
    intros t Ht. simpl in Ht. apply Pool.In_update in Ht.
    destruct Ht as [->|Ht]; [discriminate|auto].
  - apply Hend. intros t Ht. destruct (H _ Ht) as [->|(e & s & ->)];
      [now destruct (Hst _ Ht)|reflexivity].
Qed.

(** X22 ([hasherStore.Put], [hasherStore.startWait], [hasherStore.Wait]):
    cancelling the context of the first [Put] lets [Wait] return without
    the local store.  The first [Put] starts [startWait] with its own
    context, and that is the only context [startWait] watches; [Wait] does
    not read the context it is given, so this is not about the argument of
    [Wait].  Once the context of the first [Put] is done, a caller inside
    [Wait] (at least one chunk having been put) is at most two steps of
    [startWait] away from its return, whether or not the local store has
    answered for any chunk and whether or not [Close] was called; when
    [startWait] was still in its loop, [Wait] then returns the error of
    that context. *)
Theorem cancelled_Put_context_ends_Wait st e :
  reachable st ->
  ctx_err st = Some e ->
  wait_called st = true ->
  wait_returned st = None ->
  tasks st <> [] ->
  exists ls st' r,
    run ls st = Some st' /\
    length ls <= 2 /\
    Forall (fun l => is_internal l = true) ls /\
    wait_returned st' = Some r /\
    tasks st' = tasks st /\
    (forall n done, wait_routine st = WLoop n done -> r = Some e).
Proof.
  intros Hr Hctx Hw Hret Hne.
  destruct (reachable_inv Hr) as (_ & (K1 & K2 & K6) & _).
  destruct (wait_routine st) as [|n d|r q|] eqn:W.
  - destruct Hne. now apply K2.
  - exists [LWaiterCtx; LWaitReceive]. eexists. exists (Some e).
    split; [cbn [run exec]; rewrite W, Hctx; cbn; rewrite Hret, Hw;
            reflexivity|].
    split; [simpl; lia|]. split; [repeat constructor|].
    split; [reflexivity|]. split; [reflexivity|]. reflexivity.
  - exists [LWaitReceive]. eexists. exists r.
    split; [cbn [run exec]; rewrite W, Hret, Hw; reflexivity|].
    split; [simpl; lia|]. split; [repeat constructor|].
    split; [reflexivity|]. split; [reflexivity|]. discriminate.
  - destruct K6 as (r & Kr & _). congruence.
Qed.

(** One chunk is put, the local store does not answer, the context of
    that [Put] is cancelled: [Wait] returns the context's error. *)
Lemma cancelled_Put_context_ends_Wait_witness :
  exists st ls st',
    run [LPut; LWait; LCancel (ErrCollaborator 9)] init = Some st /\
    run ls st = Some st' /\
    wait_returned st' = Some (Some (ErrCollaborator 9)) /\
    tasks st' = [TStoring].
Proof.
  destruct (run [LPut; LWait; LCancel (ErrCollaborator 9)] init)
    as [st|] eqn:E; [|vm_compute in E; discriminate].
  pose proof (run_steps _ _ E) as Hr.
  vm_compute in E. injection E as E. subst st.
  match type of Hr with
  | steps _ ?s =>
      destruct (@cancelled_Put_context_ends_Wait s (ErrCollaborator 9)
                  Hr eq_refl eq_refl eq_refl)
        as (ls & st' & r & R & _ & _ & Rt & T & L)
  end.
  - discriminate.
  - eexists. exists ls, st'. split; [reflexivity|]. split; [exact R|].
    split; [|exact T]. rewrite Rt. f_equal. exact (L _ _ eq_refl).
Defined.

(** A run with one chunk: put, stored, acknowledged, [Close], [Wait]. *)
Lemma put_wait_completeness_witness :
  exists st,
    run [LPut; LStoreReturns 0 None; LTaskSend 0; LClose; LWaiterDone;
         LWait; LWaitReceive] init = Some st /\
    wait_returned st = Some None /\
    ((None : option error) = None <-> forall t, In t (tasks st) -> acknowledged t).
Proof.
  eexists. split; [vm_compute; reflexivity|]. split; [reflexivity|].
  refine (proj1 (proj1 (@put_wait_completeness _ _ _ _) None _)).
  - apply (@run_steps [LPut; LStoreReturns 0 None; LTaskSend 0; LClose;
                       LWaiterDone; LWait; LWaitReceive]).
    vm_compute. reflexivity.
  - vm_compute. reflexivity.
  - reflexivity.
  - reflexivity.
Defined.

(** Two chunks, the store refuses the first: [Wait] returns the error, and
    the goroutine of the second chunk, which nobody listens to any more,
    still comes to its end. *)
Lemma workers_released_after_Wait_witness :
  exists st ls st',
    run [LPut; LPut; LStoreReturns 0 (Some (ErrCollaborator 1));
         LStoreReturns 1 None; LTaskSend 0; LWait; LWaitReceive] init
    = Some st /\
    workers st = 2 /\
    run ls st = Some st' /\
    workers st' = 0 /\
    wait_returned st' = Some (Some (ErrCollaborator 1)).
Proof.
  destruct (run [LPut; LPut; LStoreReturns 0 (Some (ErrCollaborator 1));
                 LStoreReturns 1 None; LTaskSend 0; LWait; LWaitReceive] init)
    as [st|] eqn:E; [|vm_compute in E; discriminate].
  pose proof (run_steps _ _ E) as Hr.
  vm_compute in E. injection E as E. subst st.
  match type of Hr with
  | steps _ ?s =>
      destruct (@workers_released_after_Wait s (Some (ErrCollaborator 1))
                  Hr eq_refl)
        as (ls & st' & R & _ & _ & W & Rt)
  end.
  - intros t Ht. simpl in Ht. destruct Ht as [<-|[<-|[]]]; discriminate.
  - eexists. exists ls, st'. split; [reflexivity|].
    split; [reflexivity|]. auto.
Defined.

Lemma storage_workers_bounded_witness :
  exists st,
    run [LPut; LPut; LStoreReturns 0 None] init = Some st /\
    Pool.count is_storing (tasks st) <= workers st /\
    workers st <= noOfStorageWorkers.
Proof.
  eexists. split; [vm_compute; reflexivity|].
  refine (proj2 (proj2 (@storage_workers_bounded _ _))).
  apply (@run_steps [LPut; LPut; LStoreReturns 0 None]).
  vm_compute. reflexivity.
Defined.

End StorePipeline.

(* ================================================================== *)
(** * The BMT hasher and its tree pool ([bmt/bmt.go]) *)
(* ================================================================== *)

Module BMT.

(** A Go byte slice that may be [nil]. *)
Definition slice := option bytes.

Definition contents (s : slice) : bytes :=
  match s with Some b => b | None => [] end.

(** [n.state] is an [int32]; [atomic.AddInt32] wraps around. *)
Definition int32_wrap (z : Z) : Z := ((z + 2 ^ 31) mod 2 ^ 32 - 2 ^ 31)%Z.

(** [calculateDepthFor]: [c := 2; for ; c < n; c *= 2 { d++ }; return d + 1].
    The loop runs at most [n] times. *)
Fixpoint depth_loop (fuel c n d : nat) : nat :=
  match fuel with
  | O => d
  | S fuel' => if c <? n then depth_loop fuel' (2 * c) n (S d) else d
  end.

Definition calculateDepthFor (n : nat) : nat := depth_loop n 2 n 0 + 1.

(** A node of a tree: the two child slots and the toggle. *)
Record node : Type := mkNode {
  left : slice;
  right : slice;
  state : Z
}.

Definition newNode : node := {| left := None; right := None; state := 0 |}.

(** [n.toggle()]: the node after the atomic increment, and whether the
    caller is the first of the two to arrive. *)
Definition toggle (n : node) : node * bool :=
  let s := int32_wrap (state n + 1) in
  (mkNode (left n) (right n) s, (Z.rem s 2 =? 1)%Z).

(** A pointer to a node: the nodes of a tree are named by their level (the
    leaves are at level 0, the root at level [depth - 1]) and their index in
    the level; [None] is the nil parent of the root. *)
Definition node_ptr := option (nat * nat).

Section WithBaseHash.

(** The base hash, on the concatenation of what was written to it, and its
    [Size()]. *)
Variable H : bytes -> bytes.
Variable segmentSize : nat.

(** [doSum(h, b, data...)]: [h.Reset()], write every piece, [h.Sum(b)].
    [Sum] appends the digest to [b]; appending nothing to [nil] is [nil]. *)
Definition doSum (b : slice) (data : list slice) : slice :=
  match contents b ++ H (concat (map contents data)) with
  | [] => match b with Some _ => Some [] | None => None end
  | r => Some r
  end.

(** The lookup table [zerohashes] of [NewTreePool]: [depth + 1] entries. *)
Fixpoint zerohashes_from (zeros : bytes) (n : nat) : list bytes :=
  match n with
  | O => []
  | S n' =>
      let zeros' := contents (doSum None [Some zeros; Some zeros]) in
      zeros' :: zerohashes_from zeros' n'
  end.

Definition make_zerohashes (depth : nat) : list bytes :=
  let zeros := GoSlice.make segmentSize in
  zeros :: zerohashes_from zeros depth.

(** A goroutine of the hasher. *)
Inductive thread : Type :=
| GoWriteSection (i : nat) (sec : bytes) (final : bool)
    (* [go h.WriteSection(i, sec, true, final)], not yet started *)
| InWriteNode (n : node_ptr) (isLeft : bool) (s : slice)
    (* at the head of the loop of [writeNode] *)
| InWriteFinalNode (level : nat) (n : node_ptr) (isLeft : bool) (s : slice)
    (* at the head of the loop of [writeFinalNode] *)
| Finished
| Panicked.
    (* stopped by a run-time panic (an index out of range) *)

(** A tree: its nodes, the writer's fields, and what was sent on its
    result channel and not yet received. *)
Record tree : Type := mkTree {
  t_nodes : nat -> nat -> node;
  cursor : nat;
  offset : nat;
  section : bytes;
  result : list slice;
  span : slice
}.

Record TreePool : Type := mkTreePool {
  pool_c : list tree;         (* the trees waiting in the channel *)
  SegmentSize : nat;
  SegmentCount : nat;
  Capacity : nat;
  Depth : nat;
  Size : nat;
  count : nat;
  zerohashes : list bytes;
  releasing : list tree       (* the trees held by the goroutines that
                                 [releaseTree] started and that have not
                                 run yet *)
}.

Definition NewTreePool (segmentCount capacity : nat) : TreePool :=
  let depth := calculateDepthFor segmentCount in
  {| pool_c := [];
     SegmentSize := segmentSize;
     SegmentCount := segmentCount;
     Capacity := capacity;
     Depth := depth;
     Size := segmentCount * segmentSize;
     count := 0;
     zerohashes := make_zerohashes depth;
     releasing := [] |}.

(** [newTree] *)
Definition newTree (segment_size : nat) : tree :=
  {| t_nodes := fun _ _ => newNode; cursor := 0; offset := 0;
     section := GoSlice.make (2 * segment_size); result := []; span := None |}.

Definition set_pool_c (p : TreePool) (c : list tree) (n : nat) : TreePool :=
  mkTreePool c (SegmentSize p) (SegmentCount p) (Capacity p)
    (Depth p) (Size p) n (zerohashes p) (releasing p).

Definition set_releasing (p : TreePool) (l : list tree) : TreePool :=
  mkTreePool (pool_c p) (SegmentSize p) (SegmentCount p) (Capacity p)
    (Depth p) (Size p) (count p) (zerohashes p) l.

(** [reserve]: [None] when the call blocks (every tree is checked out). *)
Definition reserve (p : TreePool) : option (tree * TreePool) :=
  if count p =? Capacity p then
    match pool_c p with
    | t :: rest => Some (t, set_pool_c p rest (count p))
    | [] => None
    end
  else
    match pool_c p with
    | t :: rest => Some (t, set_pool_c p rest (count p))
    | [] => Some (newTree (SegmentSize p), set_pool_c p [] (S (count p)))
    end.

(** [release] *)
Definition release (p : TreePool) (t : tree) : TreePool :=
  set_pool_c p (pool_c p ++ [t]) (count p).

Record Hasher : Type := mkHasher {
  pool : TreePool;
  bmt : option tree;
  size : nat;
  h_cursor : nat;
  routines : list thread          (* the goroutines of [WriteSection]
                                     spawned so far *)
}.

(** [New] *)
Definition New (p : TreePool) : Hasher :=
  {| pool := p; bmt := None; size := 0; h_cursor := 0; routines := [] |}.

(** [getTree]; [None] when [reserve] blocks. *)
Definition getTree (h : Hasher) : option (tree * Hasher) :=
  match bmt h with
  | Some t => Some (t, h)
  | None =>
      match reserve (pool h) with
      | None => None
      | Some (t, p') =>
          Some (t, mkHasher p' (Some t) (size h) (h_cursor h) (routines h))
      end
  end.

Definition set_tree (h : Hasher) (t : tree) : Hasher :=
  mkHasher (pool h) (Some t) (size h) (h_cursor h) (routines h).

(** [releaseTree]: the hasher lets go of its tree ([h.bmt = nil]) and
    starts a goroutine that will reset the tree and send it to the pool;
    it does not wait for it.  The goroutine is left to run later
    ([run_release]): until it has, the tree is neither the hasher's nor in
    the pool's channel.  (The callers of [releaseTree] touch neither the
    tree nor the channel before they return, so a goroutine that runs
    before they do is one that runs right after.) *)
Definition releaseTree (h : Hasher) : Hasher :=
  match bmt h with
  | None => h
  | Some t =>
      mkHasher (set_releasing (pool h) (releasing (pool h) ++ [t]))
        None (size h) (h_cursor h) (routines h)
  end.

(** What the goroutine of [releaseTree] makes of the tree: cursor, offset,
    span and section are reset and one value is taken from the result
    channel if one is there ([select] with a [default]); the nodes stay as
    they are. *)
Definition reset_tree (p : TreePool) (t : tree) : tree :=
  mkTree (t_nodes t) 0 0 (GoSlice.make (SegmentSize p * 2))
    (tl (result t)) None.

(** The [i]-th of the goroutines [releaseTree] started, run from its first
    statement to [h.pool.release(t)]; the hasher has let go of the tree, so
    nothing of it is seen before it is in the channel.  Nothing changes
    when there is no such goroutine. *)
Definition run_release (i : nat) (p : TreePool) : TreePool :=
  match nth_error (releasing p) i with
  | None => p
  | Some t =>
      release
        (set_releasing p (firstn i (releasing p) ++ skipn (S i) (releasing p)))
        (reset_tree p t)
  end.

(** [Reset] *)
Definition Reset (h : Hasher) : Hasher :=
  releaseTree (mkHasher (pool h) (bmt h) 0 0 (routines h)).

(** [SetSpanBytes]: [t.span = make([]byte, 8); copy(t.span, b)]. *)
Definition SetSpanBytes (h : Hasher) (b : bytes) : option Hasher :=
  match getTree h with
  | None => None
  | Some (t, h') =>
      Some (set_tree h' (mkTree (t_nodes t) (cursor t) (offset t) (section t)
                           (result t)
                           (Some (GoSlice.copy (GoSlice.make 8) b))))
  end.

(** [LengthToSpan] *)
Definition LengthToSpan (length : nat) : bytes :=
  UInt64.PutUint64 (Z.of_nat length).

(** [GetZeroHash]: [h.pool.zerohashes[h.pool.Depth]]. *)
Definition GetZeroHash (h : Hasher) : outcome bytes :=
  match nth_error (zerohashes (pool h)) (Depth (pool h)) with
  | Some z => Ok z
  | None => Panic
  end.

(** [copy(t.section[from:], b)] *)
Definition fill (sec : bytes) (from : nat) (b : bytes) : bytes :=
  firstn from sec ++ GoSlice.copy (skipn from sec) b.

Definition set_section (t : tree) (c : nat) (sec : bytes) : tree :=
  mkTree (t_nodes t) c (offset t) sec (result t) (span t).

Definition set_offset (t : tree) (o : nat) : tree :=
  mkTree (t_nodes t) (cursor t) o (section t) (result t) (span t).

(** The loop of [Write]: [for smax < l { go h.WriteSection(...); ... }].
    It runs at most [l] times. *)
Fixpoint write_loop (fuel : nat) (secsize : nat) (b : bytes)
    (smax : nat) (t : tree) (spawned : list thread) : tree * nat * list thread :=
  match fuel with
  | O => (t, smax, spawned)
  | S fuel' =>
      if smax <? length b then
        let spawned' := spawned ++ [GoWriteSection (cursor t) (section t) false] in
        let sec' := GoSlice.copy (GoSlice.make secsize) (skipn smax b) in
        write_loop fuel' secsize b (smax + secsize)
          (set_section t (S (cursor t)) sec') spawned'
      else (t, smax, spawned)
  end.

(** The part of [Write] from the loop on. *)
Definition write_sections (h : Hasher) (b : bytes) (t : tree) (smax : nat)
  : Hasher * nat :=
  let l := length b in
  let secsize := 2 * SegmentSize (pool h) in
  let '(t', smax', spawned) := write_loop l secsize b smax t [] in
  (mkHasher (pool h) (Some (set_offset t' (l + secsize - smax')))
     (size h) (h_cursor h) (routines h ++ spawned), l).

(** [Write]: the hasher afterwards and the number of bytes taken; [None]
    when [getTree] blocks. *)
Definition Write (h : Hasher) (b : bytes) : option (Hasher * nat) :=
  let l := length b in
  if (l =? 0) || (Size (pool h) <? l) then Some (h, 0)
  else
    let h1 := mkHasher (pool h) (bmt h) (size h + l) (h_cursor h)
                (routines h) in
    match getTree h1 with
    | None => None
    | Some (t, h2) =>
        let secsize := 2 * SegmentSize (pool h2) in
        let smax := secsize - offset t in
        if offset t <? secsize then
          let t1 := set_section t (cursor t) (fill (section t) (offset t) b) in
          let smax1 := if smax =? 0 then secsize else smax in
          if l <=? smax1 then Some (set_tree h2 (set_offset t1 (offset t1 + l)), l)
          else Some (write_sections h2 b t1 smax1)
        else
          if cursor t =? SegmentCount (pool h2) * 2 then Some (h2, 0)
          else Some (write_sections h2 b t smax)
    end.

(** ** The goroutines *)

(** The parent of the node at [(level, idx)] in a tree of [depth] levels,
    as [newTree] links them; the root has none. *)
Definition parent (depth level idx : nat) : node_ptr :=
  if S level <? depth then Some (S level, idx / 2) else None.

(** [n.isLeft] *)
Definition isLeftNode (idx : nat) : bool := Nat.even idx.

Definition set_node (t : tree) (level idx : nat) (n : node) : tree :=
  mkTree (fun l k => if (l =? level) && (k =? idx) then n else t_nodes t l k)
    (cursor t) (offset t) (section t) (result t) (span t).

Definition send_result (t : tree) (s : slice) : tree :=
  mkTree (t_nodes t) (cursor t) (offset t) (section t) (result t ++ [s])
    (span t).

(** One critical section of a goroutine on the tree [t] of a pool of the
    given depth and zero hashes: the tree afterwards, what the goroutine
    added to [h.size], and where the goroutine stands then. *)
Definition thread_step (depth : nat) (zh : list bytes) (t : tree) (th : thread)
  : tree * nat * thread :=
  match th with
  | GoWriteSection i sec final =>
      (* [WriteSection] and [writeSection], with [double] true *)
      if i <? 2 ^ (depth - 1) then
        let n := parent depth 0 i in
        let s := doSum None [Some sec] in
        (t, length sec,
         if final then InWriteFinalNode 1 n (isLeftNode i) s
         else InWriteNode n (isLeftNode i) s)
      else (t, length sec, Panicked)
  | InWriteNode None _ s => (send_result t s, 0, Finished)
  | InWriteNode (Some (lv, idx)) isLeft s =>
      let n := t_nodes t lv idx in
      let n1 := if isLeft then mkNode s (right n) (state n)
                else mkNode (left n) s (state n) in
      let '(n2, first) := toggle n1 in
      if first then (set_node t lv idx n2, 0, Finished)
      else
        (set_node t lv idx n2, 0,
         InWriteNode (parent depth lv idx) (isLeftNode idx)
           (doSum None [left n2; right n2]))
  | InWriteFinalNode level None _ s =>
      match s with
      | Some _ => (send_result t s, 0, Finished)
      | None => (t, 0, Finished)
      end
  | InWriteFinalNode level (Some (lv, idx)) isLeft s =>
      let n := t_nodes t lv idx in
      let up (n' : node) (noHash : bool) :=
        (set_node t lv idx n', 0,
         InWriteFinalNode (S level) (parent depth lv idx) (isLeftNode idx)
           (if noHash then None else doSum None [left n'; right n'])) in
      if isLeft then
        match nth_error zh level with
        | None => (t, 0, Panicked)
        | Some z =>
            let n1 := mkNode (left n) (Some z) (state n) in
            match s with
            | Some _ => up (mkNode s (right n1) (state n1)) false
            | None => let '(n2, first) := toggle n1 in up n2 first
            end
        end
      else
        match s with
        | Some _ =>
            let '(n2, first) := toggle (mkNode (left n) s (state n)) in
            up n2 first
        | None => up n true
        end
  | Finished => (t, 0, Finished)
  | Panicked => (t, 0, Panicked)
  end.

Definition is_running (th : thread) : bool :=
  match th with Finished | Panicked => false | _ => true end.

(** One step of goroutine [i] of the hasher, on the tree the hasher holds
    ([writeSection] and the send at the root reach it through
    [h.getTree()], the nodes are reached through the parent pointers). *)
Definition step (i : nat) (h : Hasher) : Hasher :=
  match nth_error (routines h) i with
  | None => h
  | Some th =>
      if is_running th then
        match getTree h with
        | None => h
        | Some (t, h1) =>
            let '(t', added, th') :=
              thread_step (Depth (pool h1)) (zerohashes (pool h1)) t th in
            mkHasher (pool h1) (Some t') (size h1 + added) (h_cursor h1)
              (Pool.update i th' (routines h1))
        end
      else h
  end.

(** A schedule names the goroutine that moves next. *)
Fixpoint run (schedule : list nat) (h : Hasher) : Hasher :=
  match schedule with
  | [] => h
  | i :: rest => run rest (step i h)
  end.

(** ** [Sum] *)

(** [Sum] up to the point where it waits for the result: either it returns
    at once (nothing was written), or the last section has been
    dispatched. *)
Inductive sum_start : Type :=
| SumReturns (r : outcome bytes) (h : Hasher)
| SumWaits (h : Hasher).

Definition Sum_start (h : Hasher) : option sum_start :=
  match getTree h with
  | None => None
  | Some (t, h1) =>
      if (size h1 =? 0) && (offset t =? 0) then
        let h2 := releaseTree h1 in
        Some (SumReturns (GetZeroHash h2) h2)
      else
        Some (SumWaits
                (mkHasher (pool h1) (bmt h1) (size h1) (h_cursor h1)
                   (routines h1 ++ [GoWriteSection (cursor t) (section t) true])))
  end.

(** [Sum] from the receive [s = <-t.result] on; [None] while nothing has
    been sent. *)
Definition Sum_finish (h : Hasher) (b : slice) : option (slice * Hasher) :=
  match bmt h with
  | None => None
  | Some t =>
      match result t with
      | [] => None
      | s :: rest =>
          let sp := match span t with
                    | None => Some (LengthToSpan (size h))
                    | Some x => Some x
                    end in
          let t' := mkTree (t_nodes t) (cursor t) (offset t) (section t)
                      rest sp in
          Some (doSum b [sp; s], releaseTree (set_tree h t'))
      end
  end.

(** [Sum] with the goroutines scheduled as [schedule] says while it waits.
    [None]: [getTree] blocks, or nothing was sent on the result channel
    during the schedule. *)
Definition Sum (schedule : list nat) (h : Hasher) (b : slice)
  : option (outcome slice * Hasher) :=
  match Sum_start h with
  | None => None
  | Some (SumReturns r h') =>
      Some (match r with
            | Ok z => Ok (Some z)
            | Err e => Err e
            | Panic => Panic
            end, h')
  | Some (SumWaits h1) =>
      match Sum_finish (run schedule h1) b with
      | None => None
      | Some (s, h2) => Some (Ok s, h2)
      end
  end.

(** ** The zero hashes *)

(** The zero hash of level [j]. *)
Fixpoint zseq (j : nat) : bytes :=
  match j with
  | O => GoSlice.make segmentSize
  | S j' => H (zseq j' ++ zseq j')
  end.

Lemma contents_doSum_pair a b :
  contents (doSum None [Some a; Some b]) = H (a ++ b).
Proof.
  unfold doSum. simpl. rewrite app_nil_r. now destruct (H (a ++ b)).
Qed.

Lemma zerohashes_from_nth j n z i :
  z = zseq j -> i < n ->
  nth_error (zerohashes_from z n) i = Some (zseq (S (j + i))).
Proof.
  revert j z i. induction n as [|n IH]; intros j z i Hz Hi; [lia|].
  simpl zerohashes_from. rewrite contents_doSum_pair.
  destruct i as [|i].
  - simpl. rewrite Nat.add_0_r. now subst z.
  - simpl nth_error. rewrite (IH (S j)); [|now subst z|lia].
    do 2 f_equal. lia.
Qed.

Lemma zerohashes_nth d j :
  j <= d -> nth_error (make_zerohashes d) j = Some (zseq j).
Proof.
  intros Hj. unfold make_zerohashes. destruct j as [|j]; [reflexivity|].
  simpl nth_error. rewrite (@zerohashes_from_nth 0); auto.
Qed.

(** ** The tree the goroutines build *)

Section Run.

(** The tree has [D] levels; the sections [0 .. k] were written, [k] being
    the final one; [secs c] is section [c] of the data, and beyond [k] the
    all-zero section. *)
Variable D : nat.
Variable k : nat.
Variable secs : nat -> bytes.

Hypothesis D_pos : 1 <= D.
Hypothesis k_fits : k < 2 ^ (D - 1).
Hypothesis secs_zero : forall c, k < c -> secs c = GoSlice.make (2 * segmentSize).
Hypothesis H_nonempty : forall x, H x <> [].

(** The hash the tree has at digest level [j + 1] (the value a goroutine
    carries into a node of level [j + 1]) for the subtree [c] of that
    level: level 1 is the hash of a section. *)
Fixpoint dg (j c : nat) : bytes :=
  match j with
  | O => H (secs c)
  | S j' => H (dg j' (2 * c) ++ dg j' (2 * c + 1))
  end.

(** The BMT root of the data. *)
Definition root : bytes := dg (D - 1) 0.

Definition zh : list bytes := make_zerohashes D.

Definition isSome (A : Type) (o : option A) : bool :=
  match o with Some _ => true | None => false end.

Definition slot (nd : node) (c : nat) : slice :=
  if Nat.even c then left nd else right nd.

(** Where the goroutine of section [i] stands when it carries the digest of
    level [j + 1]. *)
Definition at_ptr (j i : nat) : node_ptr :=
  if S j <? D then Some (S j, i / 2 ^ (S j)) else None.

(** The digest of level [j + 1] above section [i] has been handed over: it
    is in its slot of the parent node, or, at the top, on the result
    channel. *)
Definition arrived (t : tree) (j i : nat) : bool :=
  if S j <? D then isSome (slot (t_nodes t (S j) (i / 2 ^ (S j))) (i / 2 ^ j))
  else match result t with [] => false | _ => true end.

Definition complete (nd : node) : bool :=
  isSome (left nd) && isSome (right nd).

(** The digest of level [j + 1] above section [i] exists: the node below it
    has both its slots filled. *)
Definition computed (t : tree) (j i : nat) : bool :=
  match j with
  | O => true
  | S j' => complete (t_nodes t (S j') (i / 2 ^ (S j')))
  end.

(** The digest level a goroutine carries a hash of, if it carries one. *)
Definition carried (th : thread) : option nat :=
  match th with
  | GoWriteSection _ _ _ => Some 0
  | InWriteNode (Some (lv, _)) _ _ => Some (lv - 1)
  | InWriteNode None _ _ => Some (D - 1)
  | InWriteFinalNode level _ _ (Some _) => Some (level - 1)
  | _ => None
  end.

Definition carries (ths : list thread) (i j : nat) : Prop :=
  exists th, nth_error ths i = Some th /\ carried th = Some j.

(** The final goroutine has gone past the nodes of level [j + 1]. *)
Definition fpassed (ths : list thread) (j : nat) : bool :=
  match nth_error ths k with
  | Some (InWriteFinalNode level _ _ _) => S j <? level
  | Some Finished => true
  | _ => false
  end.

Definition b2z (b : bool) : Z := if b then 1%Z else 0%Z.

Definition filled (nd : node) : Z :=
  (b2z (isSome (left nd)) + b2z (isSome (right nd)))%Z.

(** A node of level [j + 1] on or left of the path of the final section. *)
Definition node_ok (t : tree) (ths : list thread) (j m : nat) : Prop :=
  let nd := t_nodes t (S j) m in
  (left nd = None \/ left nd = Some (dg j (2 * m))) /\
  (right nd = None \/ right nd = Some (dg j (2 * m + 1))) /\
  if 2 * m + 1 <=? k / 2 ^ j then state nd = filled nd
  else
    isSome (right nd) = fpassed ths j /\
    (state nd = filled nd \/ (complete nd = true /\ state nd = 0%Z)).

Definition thread_ok (t : tree) (i : nat) (th : thread) : Prop :=
  match th with
  | GoWriteSection i' sec final =>
      i' = i /\ sec = secs i /\ final = (i =? k) /\ arrived t 0 i = false
  | InWriteNode n isLeft s =>
      i <> k /\
      exists j, j < D /\ n = at_ptr j i /\ isLeft = Nat.even (i / 2 ^ j) /\
                s = Some (dg j (i / 2 ^ j)) /\
                computed t j i = true /\ arrived t j i = false
  | InWriteFinalNode level n isLeft s =>
      i = k /\
      exists j, j < D /\ level = S j /\ n = at_ptr j i /\
                isLeft = Nat.even (i / 2 ^ j) /\
                (s = None \/
                 (s = Some (dg j (i / 2 ^ j)) /\
                  computed t j i = true /\ arrived t j i = false))
  | Finished => True
  | Panicked => False
  end.

(** What holds of the tree and the goroutines in every state of a run. *)
Record inv (t : tree) (ths : list thread) : Prop := mkInv {
  inv_length : length ths = S k;
  inv_result : result t = [] \/ result t = [Some root];
  inv_nodes : forall j m, S j < D -> m <= k / 2 ^ (S j) -> node_ok t ths j m;
  inv_threads : forall i th, nth_error ths i = Some th -> thread_ok t i th;
  inv_unique : forall i i' j, i <> i' -> carries ths i j -> carries ths i' j ->
                              i / 2 ^ j <> i' / 2 ^ j;
  inv_arrived : forall i j, i <= k -> j < D ->
                            arrived t j i = true -> computed t j i = true;
  inv_carrier : forall i j, i <= k -> j < D ->
                            computed t j i = true -> arrived t j i = false ->
                            exists i', i' / 2 ^ j = i / 2 ^ j /\ carries ths i' j
}.

(** *** Arithmetic of subtree indices *)

Lemma pow2_pos j : 0 < 2 ^ j.
Proof. apply Nat.neq_0_lt_0, Nat.pow_nonzero. discriminate. Qed.

Lemma div_pow_succ i j : i / 2 ^ (S j) = i / 2 ^ j / 2.
Proof.
  rewrite Nat.pow_succ_r', Nat.mul_comm. symmetry. apply Nat.Div0.div_div.
Qed.

Lemma div_pow_le i i' j : i <= i' -> i / 2 ^ j <= i' / 2 ^ j.
Proof. intros Hle. now apply Nat.Div0.div_le_mono. Qed.

Lemma even_split c : c = 2 * (c / 2) + (if Nat.even c then 0 else 1).
Proof.
  pose proof (Nat.div_mod_eq c 2) as E.
  destruct (Nat.even c) eqn:Ev.
  - apply Nat.even_spec in Ev. destruct Ev as [x ->].
    rewrite Nat.mul_comm, Nat.div_mul by discriminate. lia.
  - assert (Od : Nat.odd c = true) by (now rewrite <- Nat.negb_even, Ev).
    apply Nat.odd_spec in Od. destruct Od as [x ->].
    replace (2 * x + 1) with (1 + x * 2) by lia.
    rewrite Nat.div_add by discriminate. simpl. lia.
Qed.

Lemma even_double m : Nat.even (2 * m) = true.
Proof. apply Nat.even_spec. now exists m. Qed.

Lemma even_double_succ m : Nat.even (2 * m + 1) = false.
Proof.
  rewrite <- Nat.negb_odd. apply negb_false_iff.
  apply Nat.odd_spec. now exists m.
Qed.

Lemma div_top i : i <= k -> i / 2 ^ (D - 1) = 0.
Proof. intros Hi. apply Nat.div_small. lia. Qed.

(** The node of level [j + 1] above section [i] has a right child that is
    all zero exactly when [i] is under the left child of the node on the
    path of the final section. *)
Lemma right_real_or_final j i :
  i <= k ->
  (2 * (i / 2 ^ (S j)) + 1 <=? k / 2 ^ j) = false ->
  i / 2 ^ j = k / 2 ^ j /\ Nat.even (k / 2 ^ j) = true /\
  i / 2 ^ (S j) = k / 2 ^ (S j).
Proof.
  intros Hi Hf. apply Nat.leb_gt in Hf.
  pose proof (div_pow_le j Hi) as Hle.
  pose proof (even_split (i / 2 ^ j)) as Ei.
  pose proof (even_split (k / 2 ^ j)) as Ek.
  rewrite !div_pow_succ in *.
  pose proof (Nat.Div0.div_le_mono _ _ 2 Hle) as Hle2.
  destruct (Nat.even (i / 2 ^ j)), (Nat.even (k / 2 ^ j)); repeat split; lia.
Qed.

(** *** The base hash and the zero hashes *)

Lemma doSum_one a : doSum None [Some a] = Some (H a).
Proof.
  unfold doSum. simpl. rewrite app_nil_r.
  destruct (H a) eqn:E; [|reflexivity]. now apply H_nonempty in E.
Qed.

Lemma doSum_pair a b : doSum None [Some a; Some b] = Some (H (a ++ b)).
Proof.
  unfold doSum. simpl. rewrite app_nil_r.
  destruct (H (a ++ b)) eqn:E; [|reflexivity]. now apply H_nonempty in E.
Qed.

Lemma zh_nth j : j <= D -> nth_error zh j = Some (zseq j).
Proof. apply zerohashes_nth. Qed.

Lemma zero_section :
  GoSlice.make (2 * segmentSize) = zseq 0 ++ zseq 0.
Proof.
  simpl. unfold GoSlice.make. rewrite <- repeat_app. f_equal. lia.
Qed.

(** A subtree to the right of the final section hashes to the zero hash of
    its level. *)
Lemma dg_zero j c : k / 2 ^ j < c -> dg j c = zseq (S j).
Proof.
  revert c. induction j as [|j IH]; intros c Hc.
  - change (2 ^ 0) with 1 in Hc. rewrite Nat.div_1_r in Hc. simpl dg.
    rewrite secs_zero by exact Hc. now rewrite zero_section.
  - rewrite div_pow_succ in Hc.
    assert (Hlt : k / 2 ^ j < 2 * c).
    { pose proof (even_split (k / 2 ^ j)).
      destruct (Nat.even (k / 2 ^ j)); lia. }
    simpl dg. rewrite !IH by lia. reflexivity.
Qed.

(** *** The toggle *)

Lemma toggle_first l r : toggle (mkNode l r 0) = (mkNode l r 1, true).
Proof. reflexivity. Qed.

Lemma toggle_second l r : toggle (mkNode l r 1) = (mkNode l r 2, false).
Proof. reflexivity. Qed.

(** *** The effect of a step on one node *)

Lemma nodes_set_node t lv idx nd l m :
  t_nodes (set_node t lv idx nd) l m
  = if (l =? lv) && (m =? idx) then nd else t_nodes t l m.
Proof. reflexivity. Qed.

Lemma nodes_set_node_same t lv idx nd :
  t_nodes (set_node t lv idx nd) lv idx = nd.
Proof. rewrite nodes_set_node, !Nat.eqb_refl. reflexivity. Qed.

Lemma arrived_set_node t j m nd j' i' :
  S j < D ->
  arrived (set_node t (S j) m nd) j' i'
  = if (j' =? j) && (i' / 2 ^ (S j) =? m)
    then isSome (slot nd (i' / 2 ^ j))
    else arrived t j' i'.
Proof.
  intros Hj. unfold arrived. simpl result.
  destruct (S j' <? D) eqn:E.
  - rewrite nodes_set_node. change (S j' =? S j) with (j' =? j).
    destruct (j' =? j) eqn:Ej; cbn [andb]; [|reflexivity].
    apply Nat.eqb_eq in Ej. subst j'.
    destruct (i' / 2 ^ (S j) =? m); reflexivity.
  - apply Nat.ltb_ge in E.
    destruct (j' =? j) eqn:Ej; [apply Nat.eqb_eq in Ej; lia|reflexivity].
Qed.

Lemma computed_set_node t j m nd j' i' :
  computed (set_node t (S j) m nd) j' i'
  = if (j' =? S j) && (i' / 2 ^ (S j) =? m)
    then complete nd
    else computed t j' i'.
Proof.
  unfold computed. destruct j' as [|j'']; [reflexivity|].
  rewrite nodes_set_node.
  change (S j'' =? S j) with (j'' =? j).
  destruct (j'' =? j) eqn:Ej; cbn [andb]; [|reflexivity].
  apply Nat.eqb_eq in Ej. subst j''.
  destruct (i' / 2 ^ (S j) =? m); reflexivity.
Qed.

Lemma carries_update_same ths i th' j :
  i < length ths ->
  carries (Pool.update i th' ths) i j <-> carried th' = Some j.
Proof.
  intros Hi. unfold carries. rewrite Pool.nth_error_update_eq by exact Hi.
  split.
  - intros (th & [= <-] & Hc). exact Hc.
  - intros Hc. eauto.
Qed.

Lemma carries_update_other ths i th' i' j :
  i <> i' ->
  carries (Pool.update i th' ths) i' j <-> carries ths i' j.
Proof.
  intros Hne. unfold carries. now rewrite Pool.nth_error_update_ne.
Qed.

Lemma fpassed_update_other ths i th' j :
  i <> k -> fpassed (Pool.update i th' ths) j = fpassed ths j.
Proof.
  intros Hne. unfold fpassed. now rewrite Pool.nth_error_update_ne.
Qed.

Lemma isSome_mono_complete nd nd' :
  (isSome (left nd) = true -> isSome (left nd') = true) ->
  (isSome (right nd) = true -> isSome (right nd') = true) ->
  complete nd = true -> complete nd' = true.
Proof.
  unfold complete. intros Hl Hr Hc. apply andb_prop in Hc as [Hc1 Hc2].
  rewrite Hl, Hr; auto.
Qed.

#[local] Arguments Nat.pow : simpl never.
#[local] Arguments Nat.div : simpl never.
#[local] Arguments Nat.mul : simpl never.

(** *** What the invariant says of a goroutine *)

Lemma inv_index t ths i th :
  inv t ths -> nth_error ths i = Some th -> i <= k.
Proof.
  intros I Hi. assert (i < length ths) by (apply nth_error_Some; congruence).
  rewrite (inv_length I) in *. lia.
Qed.

Lemma at_ptr_carried j i :
  j < D ->
  match at_ptr j i with Some (lv, _) => lv - 1 | None => D - 1 end = j.
Proof.
  intros Hj. unfold at_ptr. destruct (S j <? D) eqn:E.
  - lia.
  - apply Nat.ltb_ge in E. lia.
Qed.

Lemma carried_at_ptr j i il s :
  j < D -> carried (InWriteNode (at_ptr j i) il s) = Some j.
Proof.
  intros Hj. pose proof (at_ptr_carried i Hj) as E. simpl.
  destruct (at_ptr j i) as [[lv x]|]; now rewrite E.
Qed.

Lemma carrier_facts t ths i th j :
  inv t ths -> nth_error ths i = Some th -> carried th = Some j ->
  j < D /\ computed t j i = true /\ arrived t j i = false.
Proof.
  intros I Hi Hc. pose proof (inv_threads I _ Hi) as Hok.
  destruct th as [i0 sec fin|n il s|lv n il s| |]; simpl in Hok, Hc.
  - injection Hc as <-. destruct Hok as (_ & _ & _ & Ha). repeat split; auto; lia.
  - destruct Hok as (_ & j0 & Hj0 & Hn & _ & _ & Hcomp & Harr).
    assert (j0 = j).
    { pose proof (at_ptr_carried i Hj0) as E. rewrite <- Hn in E.
      destruct n as [[lv0 x0]|]; congruence. }
    subst j0. auto.
  - destruct Hok as (_ & j0 & Hj0 & Hlv & _ & _ & Hs).
    destruct s as [s|]; [|discriminate].
    injection Hc as <-. subst lv. replace (S j0 - 1) with j0 by lia.
    destruct Hs as [Hs|(_ & Hcomp & Harr)]; [discriminate|auto].
  - discriminate.
  - discriminate.
Qed.

(** *** A goroutine writes into a node *)

(** Where a goroutine goes after the node of level [j + 1] above section
    [i], which it found as [nd] and left as [nd']: the one that completes
    the node carries its hash upwards. *)
Definition next_thread (i j : nat) (nd nd' : node) : thread :=
  let m := i / 2 ^ (S j) in
  let completes := complete nd' && negb (complete nd) in
  let s := doSum None [left nd'; right nd'] in
  if i =? k then
    InWriteFinalNode (S (S j)) (parent D (S j) m) (isLeftNode m)
      (if completes then s else None)
  else if completes then InWriteNode (parent D (S j) m) (isLeftNode m) s
  else Finished.

(** What a goroutine does to the node: [hash] says that it carries a
    hash. *)
Definition node_update (i j : nat) (hash : bool) (nd nd' : node) : Prop :=
  let c := i / 2 ^ j in
  left nd' = (if hash && Nat.even c then Some (dg j c) else left nd) /\
  right nd' = (if hash && negb (Nat.even c) then Some (dg j c)
               else if (i =? k) && Nat.even c then Some (zseq (S j))
               else right nd) /\
  (state nd' = filled nd' \/
   ((i =? k) && Nat.even c = true /\ complete nd' = true /\ state nd' = 0%Z)).

(** The goroutine stands at the node of level [j + 1] above its section. *)
Definition at_node (i j : nat) (hash : bool) (th : thread) : Prop :=
  let c := i / 2 ^ j in
  (th = InWriteNode (at_ptr j i) (Nat.even c) (Some (dg j c)) /\
   hash = true /\ i <> k) \/
  (exists s, th = InWriteFinalNode (S j) (at_ptr j i) (Nat.even c) s /\
             hash = isSome s /\ i = k).

Lemma half_even c : Nat.even c = true -> c = 2 * (c / 2).
Proof. intros E. pose proof (even_split c) as S. rewrite E in S. lia. Qed.

Lemma half_odd c : Nat.even c = false -> c = 2 * (c / 2) + 1.
Proof. intros E. pose proof (even_split c) as S. rewrite E in S. lia. Qed.

Lemma same_half c c' :
  c / 2 = c' / 2 -> Nat.even c = Nat.even c' -> c = c'.
Proof.
  intros Hh He. pose proof (even_split c) as S. pose proof (even_split c') as S'.
  rewrite He, Hh in S. lia.
Qed.

Lemma at_node_carried i j hash th :
  S j < D -> at_node i j hash th -> hash = true -> carried th = Some j.
Proof.
  intros Hj [(-> & _ & _)|(s & -> & Hs & _)] Hh.
  - simpl. pose proof (@at_ptr_carried j i ltac:(lia)) as E.
    destruct (at_ptr j i) as [[lv x]|]; now rewrite E.
  - subst hash. destruct s; [|discriminate]. simpl. f_equal. lia.
Qed.

Lemma at_node_ghost i j th :
  at_node i j false th ->
  i = k /\ th = InWriteFinalNode (S j) (at_ptr j i) (Nat.even (i / 2 ^ j)) None.
Proof.
  intros [(_ & ? & _)|(s & -> & Hs & Hk)]; [discriminate|].
  destruct s; [discriminate|]. auto.
Qed.

Lemma parent_at_ptr j i : parent D (S j) (i / 2 ^ (S j)) = at_ptr (S j) i.
Proof.
  unfold parent, at_ptr. now rewrite <- div_pow_succ.
Qed.

Lemma parent_leaf i : parent D 0 i = at_ptr 0 i.
Proof.
  unfold parent, at_ptr. change (2 ^ 1) with 2. reflexivity.
Qed.

Lemma computed_same t j a b :
  a / 2 ^ j = b / 2 ^ j -> computed t j a = computed t j b.
Proof.
  intros E. destruct j as [|j0]; [reflexivity|]. unfold computed. now rewrite E.
Qed.

(** A goroutine that was in order stays so when nothing it waits for has
    been taken from it. *)
Lemma thread_ok_mono t t2 i th :
  thread_ok t i th ->
  (forall j, carried th = Some j -> arrived t j i = false ->
             arrived t2 j i = false) ->
  (forall j, computed t j i = true -> computed t2 j i = true) ->
  thread_ok t2 i th.
Proof.
  intros Hok Ha Hc.
  destruct th as [i0 sec fin|n il s|lv n il s| |];
    cbn [thread_ok] in Hok |- *; auto.
  - destruct Hok as (? & ? & ? & Harr). repeat split; auto.
  - destruct Hok as (Hne & j0 & Hj0 & Hn & Hil & Hs & Hcomp & Harr).
    split; [exact Hne|]. exists j0. repeat split; auto.
    apply Ha; [|exact Harr]. subst n. now apply carried_at_ptr.
  - destruct Hok as (Hk & j0 & Hj0 & Hlv & Hn & Hil & Hs).
    split; [exact Hk|]. exists j0. repeat split; auto.
    destruct Hs as [Hs|(Hs & Hcomp & Harr)]; [now left|right].
    repeat split; auto. apply Ha; [|exact Harr].
    subst s lv. simpl. f_equal. lia.
Qed.

Section NodeStep.

Variable t : tree.
Variable ths : list thread.
Variables i j : nat.
Variable th : thread.
Variable hash : bool.
Variable nd' : node.

Hypothesis I : inv t ths.
Hypothesis Hi : nth_error ths i = Some th.
Hypothesis Hj : S j < D.
Hypothesis Hat : at_node i j hash th.
Hypothesis Hup : node_update i j hash (t_nodes t (S j) (i / 2 ^ (S j))) nd'.

Local Abbreviation cI := (i / 2 ^ j).
Local Abbreviation mI := (i / 2 ^ (S j)).
Local Abbreviation ndI := (t_nodes t (S j) (i / 2 ^ (S j))).
Local Abbreviation tI := (set_node t (S j) (i / 2 ^ (S j)) nd').
Local Abbreviation thI := (next_thread i j (t_nodes t (S j) (i / 2 ^ (S j))) nd').
Local Abbreviation thsI :=
  (Pool.update i (next_thread i j (t_nodes t (S j) (i / 2 ^ (S j))) nd') ths).

Lemma ns_index : i <= k.
Proof. eapply inv_index; eauto. Qed.

Lemma ns_ltb : (S j <? D) = true.
Proof. now apply Nat.ltb_lt. Qed.

Lemma ns_carrier :
  hash = true -> computed t j i = true /\ arrived t j i = false.
Proof.
  intros Hh. pose proof (at_node_carried Hj Hat Hh) as Hc.
  destruct (carrier_facts i I Hi Hc) as (_ & ? & ?). auto.
Qed.

Lemma ns_slot_empty : hash = true -> slot ndI cI = None.
Proof.
  intros Hh. destruct (ns_carrier Hh) as (_ & Ha).
  unfold arrived in Ha. rewrite ns_ltb in Ha.
  destruct (slot ndI cI); [discriminate|reflexivity].
Qed.

Lemma ns_final_even : (i =? k) && Nat.even cI = true ->
  i = k /\ Nat.even (k / 2 ^ j) = true /\ k / 2 ^ j < 2 * mI + 1.
Proof.
  intros E. apply andb_prop in E as [E1 E2]. apply Nat.eqb_eq in E1.
  split; [exact E1|]. rewrite <- E1. split; [exact E2|].
  rewrite div_pow_succ. pose proof (half_even _ E2). lia.
Qed.

Lemma ns_slot_after i' :
  i' <= k -> i' / 2 ^ (S j) = mI ->
  isSome (slot nd' (i' / 2 ^ j))
  = isSome (slot ndI (i' / 2 ^ j)) || (hash && (i' / 2 ^ j =? cI)).
Proof.
  intros Hi' Hm. destruct Hup as (HA & HB & _).
  assert (Hh : (i' / 2 ^ j) / 2 = cI / 2) by (now rewrite <- !div_pow_succ).
  unfold slot. destruct (Nat.even (i' / 2 ^ j)) eqn:Ev.
  - rewrite HA. destruct (hash && Nat.even cI) eqn:E.
    + apply andb_prop in E as [-> E]. simpl.
      rewrite (same_half _ _ Hh) by congruence.
      now rewrite Nat.eqb_refl, orb_true_r.
    + destruct hash; simpl in *; [|now rewrite orb_false_r].
      assert (N : i' / 2 ^ j <> cI) by (intros Q; rewrite Q in Ev; congruence).
      apply Nat.eqb_neq in N. now rewrite N, orb_false_r.
  - rewrite HB. destruct (hash && negb (Nat.even cI)) eqn:E.
    + apply andb_prop in E as [-> E]. apply negb_true_iff in E. simpl.
      rewrite (same_half _ _ Hh) by congruence.
      now rewrite Nat.eqb_refl, orb_true_r.
    + destruct ((i =? k) && Nat.even cI) eqn:F.
      * exfalso. destruct (ns_final_even F) as (_ & _ & Hlt).
        pose proof (div_pow_le j Hi') as Hle.
        pose proof (half_odd _ Ev) as Ho. rewrite Hh, <- div_pow_succ in Ho. lia.
      * destruct hash; simpl in *; [|now rewrite orb_false_r].
        apply negb_false_iff in E.
        assert (N : i' / 2 ^ j <> cI) by (intros Q; rewrite Q in Ev; congruence).
        apply Nat.eqb_neq in N. now rewrite N, orb_false_r.
Qed.

Lemma ns_left_mono : isSome (left ndI) = true -> isSome (left nd') = true.
Proof.
  destruct Hup as (HA & _). rewrite HA.
  destruct (hash && Nat.even cI); auto.
Qed.

Lemma ns_right_mono : isSome (right ndI) = true -> isSome (right nd') = true.
Proof.
  destruct Hup as (_ & HB & _). rewrite HB.
  destruct (hash && negb (Nat.even cI)); auto.
  destruct ((i =? k) && Nat.even cI); auto.
Qed.

Lemma ns_complete_mono : complete ndI = true -> complete nd' = true.
Proof. apply isSome_mono_complete; [apply ns_left_mono|apply ns_right_mono]. Qed.

Lemma ns_arrived i' j' :
  i' <= k ->
  arrived tI j' i'
  = arrived t j' i' || (hash && (j' =? j) && (i' / 2 ^ j =? cI)).
Proof.
  intros Hi'. rewrite arrived_set_node by exact Hj.
  destruct (j' =? j) eqn:Ej; cbn [andb].
  - apply Nat.eqb_eq in Ej. subst j'.
    destruct (i' / 2 ^ (S j) =? mI) eqn:Em.
    + apply Nat.eqb_eq in Em. rewrite (ns_slot_after Hi' Em).
      unfold arrived. rewrite ns_ltb, Em, andb_true_r. reflexivity.
    + apply Nat.eqb_neq in Em.
      assert (N : i' / 2 ^ j <> cI).
      { intros Q. apply Em. now rewrite !div_pow_succ, Q. }
      apply Nat.eqb_neq in N. now rewrite N, andb_false_r, orb_false_r.
  - now rewrite andb_false_r, orb_false_r.
Qed.

Lemma ns_computed i' j' :
  computed tI j' i'
  = computed t j' i'
    || ((j' =? S j) && (i' / 2 ^ (S j) =? mI) && complete nd').
Proof.
  rewrite computed_set_node.
  destruct (j' =? S j) eqn:Ej; cbn [andb]; [|now rewrite orb_false_r].
  apply Nat.eqb_eq in Ej. subst j'.
  destruct (i' / 2 ^ (S j) =? mI) eqn:Em; cbn [andb]; [|now rewrite orb_false_r].
  apply Nat.eqb_eq in Em. unfold computed. rewrite Em.
  destruct (complete ndI) eqn:C; [|reflexivity].
  now rewrite ns_complete_mono.
Qed.

Lemma ns_computed_mono i' j' :
  computed t j' i' = true -> computed tI j' i' = true.
Proof. intros Hc. now rewrite ns_computed, Hc. Qed.

Lemma ns_length : i < length ths.
Proof. apply nth_error_Some. congruence. Qed.

Lemma ns_mI_le : mI <= k / 2 ^ (S j).
Proof. apply div_pow_le, ns_index. Qed.

Lemma ns_fpassed_old j' : i = k -> fpassed ths j' = (S j' <? S j).
Proof.
  intros Hk. unfold fpassed. rewrite <- Hk, Hi.
  destruct Hat as [(_ & _ & Hne)|(s & -> & _)]; [contradiction|reflexivity].
Qed.

Lemma ns_fpassed_new j' : i = k -> fpassed thsI j' = (S j' <? S (S j)).
Proof.
  intros Hk. unfold fpassed. rewrite <- Hk at 1.
  rewrite Pool.nth_error_update_eq by exact ns_length.
  unfold next_thread. apply Nat.eqb_eq in Hk. now rewrite Hk.
Qed.

Lemma ns_fpassed_other j' : i <> k -> fpassed thsI j' = fpassed ths j'.
Proof. apply fpassed_update_other. Qed.

Lemma ns_values :
  (left nd' = None \/ left nd' = Some (dg j (2 * mI))) /\
  (right nd' = None \/ right nd' = Some (dg j (2 * mI + 1))).
Proof.
  destruct (inv_nodes I Hj ns_mI_le) as (Vl & Vr & _).
  destruct Hup as (HA & HB & _). rewrite HA, HB. split.
  - destruct (hash && Nat.even cI) eqn:E; [|exact Vl].
    apply andb_prop in E as [_ E]. right. do 2 f_equal.
    rewrite div_pow_succ. now apply half_even.
  - destruct (hash && negb (Nat.even cI)) eqn:E.
    + apply andb_prop in E as [_ E]. apply negb_true_iff in E.
      right. do 2 f_equal. rewrite div_pow_succ. now apply half_odd.
    + destruct ((i =? k) && Nat.even cI) eqn:F; [|exact Vr].
      destruct (ns_final_even F) as (_ & _ & Hlt).
      right. f_equal. symmetry. now apply dg_zero.
Qed.

Lemma ns_node_ok_same : node_ok tI thsI j mI.
Proof.
  unfold node_ok. rewrite nodes_set_node_same.
  destruct ns_values as (Vl & Vr). split; [exact Vl|]. split; [exact Vr|].
  destruct (inv_nodes I Hj ns_mI_le) as (_ & _ & Hst).
  destruct Hup as (_ & HB & HC).
  destruct (2 * mI + 1 <=? k / 2 ^ j) eqn:R.
  - destruct HC as [HC|(F & _)]; [exact HC|].
    apply Nat.leb_le in R. destruct (ns_final_even F) as (_ & _ & Hlt). lia.
  - destruct (right_real_or_final j ns_index R) as (Hc & Hev & _).
    split.
    + rewrite HB, Hc, Hev, andb_true_r. cbn [negb]. rewrite andb_false_r.
      destruct (i =? k) eqn:K.
      * apply Nat.eqb_eq in K. rewrite (ns_fpassed_new _ K).
        symmetry. apply Nat.ltb_lt. lia.
      * apply Nat.eqb_neq in K. rewrite (ns_fpassed_other _ K).
        apply Hst.
    + destruct HC as [HC|(_ & HC)]; auto.
Qed.

Lemma ns_node_ok_other j' m' :
  S j' < D -> m' <= k / 2 ^ (S j') -> (j' <> j \/ m' <> mI) ->
  node_ok tI thsI j' m'.
Proof.
  intros Hj' Hm' Hne. pose proof (inv_nodes I Hj' Hm') as Hok.
  unfold node_ok in *. rewrite nodes_set_node.
  replace ((S j' =? S j) && (m' =? mI)) with false; cycle 1.
  { symmetry. apply andb_false_iff.
    destruct Hne as [N|N]; [left|right]; apply Nat.eqb_neq; congruence. }
  destruct Hok as (Vl & Vr & Hst). split; [exact Vl|]. split; [exact Vr|].
  destruct (2 * m' + 1 <=? k / 2 ^ j') eqn:R; [exact Hst|].
  destruct (Nat.eq_dec i k) as [K|K]; [|now rewrite (ns_fpassed_other _ K)].
  rewrite (ns_fpassed_new _ K). rewrite (ns_fpassed_old _ K) in Hst.
  destruct (Nat.eq_dec j' j) as [->|Nj].
  - exfalso. destruct Hne as [N|N]; [congruence|].
    apply Nat.leb_gt in R. rewrite K in N.
    pose proof (even_split (k / 2 ^ j)) as Es. rewrite div_pow_succ in *.
    destruct (Nat.even (k / 2 ^ j)); lia.
  - replace (S j' <? S (S j)) with (S j' <? S j); [exact Hst|].
    destruct (S j' <? S j) eqn:A, (S j' <? S (S j)) eqn:B; auto.
    + apply Nat.ltb_lt in A. apply Nat.ltb_ge in B. lia.
    + apply Nat.ltb_ge in A. apply Nat.ltb_lt in B. lia.
Qed.

Lemma ns_nodes j' m' :
  S j' < D -> m' <= k / 2 ^ (S j') -> node_ok tI thsI j' m'.
Proof.
  intros Hj' Hm'.
  destruct (Nat.eq_dec j' j) as [->|Nj]; [|apply ns_node_ok_other; auto].
  destruct (Nat.eq_dec m' mI) as [->|Nm]; [|apply ns_node_ok_other; auto].
  apply ns_node_ok_same.
Qed.

Lemma ns_old_carried j1 : carried th = Some j1 -> hash = true /\ j1 = j.
Proof.
  intros Hc. destruct Hat as [(E & Hh & _)|(s & E & Hh & _)].
  - split; [exact Hh|]. pose proof (at_node_carried Hj Hat Hh). congruence.
  - destruct s as [s|]; [|subst th; discriminate].
    split; [exact Hh|]. pose proof (at_node_carried Hj Hat Hh). congruence.
Qed.

Lemma ns_sum :
  complete nd' = true ->
  doSum None [left nd'; right nd'] = Some (dg (S j) mI).
Proof.
  intros C. apply andb_prop in C as [Cl Cr].
  destruct ns_values as ([Vl|Vl] & [Vr|Vr]);
    try (rewrite Vl in Cl; discriminate); try (rewrite Vr in Cr; discriminate).
  rewrite Vl, Vr, doSum_pair. reflexivity.
Qed.

Lemma ns_next_carried j1 :
  carried thI = Some j1 ->
  j1 = S j /\ complete nd' = true /\ complete ndI = false.
Proof.
  unfold next_thread.
  destruct (complete nd') eqn:C, (complete ndI) eqn:C0; cbn [andb negb];
    destruct (i =? k); cbn [carried]; try discriminate.
  - rewrite (ns_sum C). intros [= <-]. repeat split.
  - rewrite parent_at_ptr.
    pose proof (@at_ptr_carried (S j) i Hj) as E.
    destruct (at_ptr (S j) i) as [[lv x]|]; intros [= <-]; auto.
Qed.

Lemma ns_next_carries :
  complete nd' = true -> complete ndI = false -> carried thI = Some (S j).
Proof.
  intros C C0. unfold next_thread. rewrite C, C0. cbn [andb negb].
  destruct (i =? k).
  - rewrite (ns_sum C). cbn [carried]. f_equal.
  - rewrite parent_at_ptr. now apply carried_at_ptr.
Qed.

Lemma ns_not_arrived_above :
  complete ndI = false -> arrived tI (S j) i = false.
Proof.
  intros C0. rewrite (ns_arrived _ ns_index).
  replace (S j =? j) with false by (symmetry; apply Nat.eqb_neq; lia).
  rewrite andb_false_r, orb_false_r.
  destruct (arrived t (S j) i) eqn:A; [|reflexivity].
  apply (inv_arrived I ns_index Hj) in A. unfold computed in A. congruence.
Qed.

Lemma ns_computed_above : computed tI (S j) i = complete nd'.
Proof.
  rewrite ns_computed, !Nat.eqb_refl. cbn [andb]. unfold computed.
  destruct (complete ndI) eqn:C; [|reflexivity].
  now rewrite ns_complete_mono.
Qed.

Lemma ns_thread_ok_self : thread_ok tI i thI.
Proof.
  unfold next_thread.
  destruct (complete nd') eqn:C, (complete ndI) eqn:C0; cbn [andb negb];
    destruct (i =? k) eqn:K; simpl; auto;
    try (apply Nat.eqb_eq in K; split; [exact K|]; exists (S j);
         repeat split; auto using parent_at_ptr).
  - right. rewrite (ns_sum C). repeat split.
    + now rewrite ns_computed_above.
    + now apply ns_not_arrived_above.
  - apply Nat.eqb_neq in K. split; [exact K|]. exists (S j).
    rewrite (ns_sum C). repeat split; auto using parent_at_ptr.
    + now rewrite ns_computed_above.
    + now apply ns_not_arrived_above.
Qed.

Lemma ns_thread_ok_other i' th1 :
  i' <> i -> nth_error ths i' = Some th1 -> thread_ok tI i' th1.
Proof.
  intros Hne Hi'. pose proof (inv_index _ I Hi') as Hle.
  apply thread_ok_mono with (t := t).
  - exact (inv_threads I _ Hi').
  - intros j1 Hc Harr. rewrite (ns_arrived _ Hle), Harr. cbn [orb].
    destruct hash eqn:Hh; [|reflexivity].
    destruct (j1 =? j) eqn:Ej; [|reflexivity].
    destruct (i' / 2 ^ j =? cI) eqn:Ec; [|reflexivity].
    exfalso. apply Nat.eqb_eq in Ej, Ec. subst j1.
    apply (inv_unique I (i := i') (i' := i) (j := j)); auto.
    + exists th1. auto.
    + exists th. split; [exact Hi|]. now apply (at_node_carried Hj Hat).
  - intros j1. apply ns_computed_mono.
Qed.

Lemma ns_threads i' th1 :
  nth_error thsI i' = Some th1 -> thread_ok tI i' th1.
Proof.
  rewrite Pool.nth_error_update. destruct (i =? i') eqn:E.
  - apply Nat.eqb_eq in E. subst i'. rewrite Hi.
    intros [= <-]. apply ns_thread_ok_self.
  - apply Nat.eqb_neq in E. apply ns_thread_ok_other. congruence.
Qed.

Lemma ns_carries i' j1 :
  carries thsI i' j1 ->
  (i' <> i /\ carries ths i' j1) \/
  (i' = i /\ j1 = S j /\ complete nd' = true /\ complete ndI = false).
Proof.
  intros Hc. destruct (Nat.eq_dec i i') as [<-|Hne].
  - right. apply carries_update_same in Hc; [|exact ns_length].
    split; [reflexivity|]. now apply ns_next_carried.
  - left. split; [congruence|]. now apply carries_update_other in Hc.
Qed.

Lemma ns_new_apart i' :
  complete ndI = false -> carries ths i' (S j) -> mI <> i' / 2 ^ (S j).
Proof.
  intros C0 (th1 & Hi' & Hc) E.
  destruct (carrier_facts _ I Hi' Hc) as (_ & Hcomp & _).
  unfold computed in Hcomp. rewrite <- E in Hcomp. congruence.
Qed.

Lemma ns_unique i1 i2 j1 :
  i1 <> i2 -> carries thsI i1 j1 -> carries thsI i2 j1 ->
  i1 / 2 ^ j1 <> i2 / 2 ^ j1.
Proof.
  intros Hne H1 H2.
  destruct (ns_carries H1) as [(N1 & C1)|(-> & -> & _ & C1)];
    destruct (ns_carries H2) as [(N2 & C2)|(-> & E2 & _ & C2)].
  - now apply (inv_unique I Hne).
  - subst j1. intros E. now apply (ns_new_apart C2 C1).
  - now apply ns_new_apart.
  - congruence.
Qed.

Lemma ns_inv_arrived i' j' :
  i' <= k -> j' < D -> arrived tI j' i' = true -> computed tI j' i' = true.
Proof.
  intros Hi' Hj'. rewrite (ns_arrived _ Hi'). intros A.
  apply ns_computed_mono. apply orb_prop in A as [A|A].
  - now apply (inv_arrived I Hi' Hj').
  - apply andb_prop in A as [A Ec]. apply andb_prop in A as [Hh Ej].
    apply Nat.eqb_eq in Ej, Ec. subst j'.
    rewrite (computed_same t j _ _ Ec). now apply ns_carrier.
Qed.

Lemma ns_inv_carrier i' j' :
  i' <= k -> j' < D -> computed tI j' i' = true -> arrived tI j' i' = false ->
  exists i'', i'' / 2 ^ j' = i' / 2 ^ j' /\ carries thsI i'' j'.
Proof.
  intros Hi' Hj'. rewrite (ns_arrived _ Hi'), ns_computed. intros Hc Ha.
  apply orb_false_iff in Ha as [Ha Hx].
  destruct (computed t j' i') eqn:C.
  - destruct (inv_carrier I Hi' Hj' C Ha) as (i'' & E & th1 & Hth1 & Hcar).
    exists i''. split; [exact E|].
    destruct (Nat.eq_dec i i'') as [<-|Hne].
    + exfalso. rewrite Hi in Hth1. injection Hth1 as <-.
      destruct (ns_old_carried Hcar) as (Hh & ->).
      rewrite Hh, Nat.eqb_refl, <- E, Nat.eqb_refl in Hx. discriminate.
    + apply carries_update_other; [exact Hne|]. exists th1. auto.
  - cbn [orb] in Hc. apply andb_prop in Hc as [Hc C'].
    apply andb_prop in Hc as [Ej Em]. apply Nat.eqb_eq in Ej, Em. subst j'.
    exists i. split; [now rewrite Em|].
    apply carries_update_same; [exact ns_length|].
    apply ns_next_carries; [exact C'|].
    unfold computed in C. now rewrite Em in C.
Qed.

(** The invariant survives the step. *)
Lemma node_step_inv : inv tI thsI.
Proof.
  constructor.
  - rewrite Pool.length_update. exact (inv_length I).
  - exact (inv_result I).
  - apply ns_nodes.
  - apply ns_threads.
  - apply ns_unique.
  - apply ns_inv_arrived.
  - apply ns_inv_carrier.
Qed.

End NodeStep.

(** *** Trees that were used before *)

(** A tree that comes back from the pool keeps what earlier chunks left in
    its nodes: stale hashes in the slots and toggles that were moved an even
    number of times.  Such a node [n] behaves like the node [nf] of a tree
    that is used for the first time: its toggle is ahead by an even [base],
    and where [nf] has a hash, [n] has the same. *)
Definition node_sim (bound : Z) (n nf : node) : Prop :=
  (exists base, state n = (state nf + base)%Z /\ Z.even base = true /\
                (0 <= base <= bound)%Z) /\
  (isSome (left nf) = true -> left n = left nf) /\
  (isSome (right nf) = true -> right n = right nf).

Definition similar (bound : Z) (t tf : tree) : Prop :=
  result t = result tf /\
  forall l m, node_sim bound (t_nodes t l m) (t_nodes tf l m).

Lemma int32_wrap_small z :
  (- 2 ^ 31 <= z < 2 ^ 31)%Z -> int32_wrap z = z.
Proof.
  intros Hz. unfold int32_wrap. rewrite Z.mod_small; lia.
Qed.

Lemma toggle_sim_first bound l r st2 base :
  (bound + 2 < 2 ^ 31)%Z ->
  st2 = (0 + base)%Z -> Z.even base = true -> (0 <= base <= bound)%Z ->
  toggle (mkNode l r st2) = (mkNode l r (1 + base), true).
Proof.
  intros Hb -> Hev Hr. unfold toggle. cbn [state left right].
  rewrite int32_wrap_small by lia.
  replace (0 + base + 1)%Z with (1 + base)%Z by lia.
  f_equal. apply Z.eqb_eq. rewrite Z.rem_mod_nonneg by lia.
  apply Z.even_spec in Hev as [q ->].
  replace (1 + 2 * q)%Z with (1 + q * 2)%Z by lia.
  rewrite Z.mod_add by lia. reflexivity.
Qed.

Lemma toggle_sim_second bound l r st2 base :
  (bound + 2 < 2 ^ 31)%Z ->
  st2 = (1 + base)%Z -> Z.even base = true -> (0 <= base <= bound)%Z ->
  toggle (mkNode l r st2) = (mkNode l r (2 + base), false).
Proof.
  intros Hb -> Hev Hr. unfold toggle. cbn [state left right].
  rewrite int32_wrap_small by lia.
  replace (1 + base + 1)%Z with (2 + base)%Z by lia.
  f_equal. apply Z.eqb_neq. rewrite Z.rem_mod_nonneg by lia.
  apply Z.even_spec in Hev as [q ->].
  replace (2 + 2 * q)%Z with (0 + (1 + q) * 2)%Z by lia.
  rewrite Z.mod_add by lia. discriminate.
Qed.

Lemma similar_refl bound t : (0 <= bound)%Z -> similar bound t t.
Proof.
  intros Hb. split; [reflexivity|]. intros l m. split; [|auto].
  exists 0%Z. repeat split; lia.
Qed.

Lemma similar_set_node bound t tf lv idx n nf :
  similar bound t tf -> node_sim bound n nf ->
  similar bound (set_node t lv idx n) (set_node tf lv idx nf).
Proof.
  intros (Hr & Hn) Hs. split; [exact Hr|]. intros l m.
  rewrite !nodes_set_node. destruct ((l =? lv) && (m =? idx)); auto.
Qed.

Lemma similar_send bound t tf s :
  similar bound t tf -> similar bound (send_result t s) (send_result tf s).
Proof.
  intros (Hr & Hn). split; [|exact Hn]. simpl. now rewrite Hr.
Qed.

(** *** The code at a node *)

Section AtNode.

Variable t : tree.
Variable ths : list thread.
Variables i j : nat.
Variable th : thread.
Variable hash : bool.

Hypothesis I : inv t ths.
Hypothesis Hi : nth_error ths i = Some th.
Hypothesis Hj : S j < D.
Hypothesis Hat : at_node i j hash th.

Local Abbreviation cI := (i / 2 ^ j).
Local Abbreviation mI := (i / 2 ^ (S j)).
Local Abbreviation ndI := (t_nodes t (S j) (i / 2 ^ (S j))).

Lemma an_ptr : at_ptr j i = Some (S j, mI).
Proof. unfold at_ptr. now rewrite (ns_ltb Hj). Qed.

Lemma an_node_ok : node_ok t ths j mI.
Proof. apply (inv_nodes I Hj). apply div_pow_le. eapply inv_index; eauto. Qed.

Lemma an_incomplete_state : complete ndI = false -> state ndI = filled ndI.
Proof.
  intros C. destruct an_node_ok as (_ & _ & Hst).
  destruct (2 * mI + 1 <=? k / 2 ^ j); [exact Hst|].
  destruct Hst as (_ & [Hst|(C' & _)]); [exact Hst|congruence].
Qed.

Lemma an_final_left :
  i = k -> Nat.even cI = true -> right ndI = None.
Proof.
  intros K Ev. destruct an_node_ok as (_ & _ & Hst).
  replace (2 * mI + 1 <=? k / 2 ^ j) with false in Hst.
  - destruct Hst as (Hr & _). rewrite (ns_fpassed_old _ Hi Hat _ K) in Hr.
    rewrite Nat.ltb_irrefl in Hr. destruct (right ndI); [discriminate|reflexivity].
  - symmetry. apply Nat.leb_gt. rewrite div_pow_succ, <- K.
    pose proof (half_even _ Ev). lia.
Qed.

Lemma an_final_right :
  i = k -> Nat.even cI = false -> state ndI = filled ndI.
Proof.
  intros K Ev. destruct an_node_ok as (_ & _ & Hst).
  replace (2 * mI + 1 <=? k / 2 ^ j) with true in Hst; [exact Hst|].
  symmetry. apply Nat.leb_le. rewrite div_pow_succ, <- K.
  pose proof (half_odd _ Ev). lia.
Qed.

Lemma an_toggle_first l r st :
  st = 0%Z -> toggle (mkNode l r st) = (mkNode l r 1, true).
Proof. intros ->. reflexivity. Qed.

Lemma an_toggle_second l r st :
  st = 1%Z -> toggle (mkNode l r st) = (mkNode l r 2, false).
Proof. intros ->. reflexivity. Qed.

Ltac pick_node :=
  match goal with
  | |- exists nd', (set_node _ _ _ ?n, _, _) = _ /\ _ => exists n
  end.

(** [writeNode] and [writeFinalNode] at a node. *)
Lemma thread_step_at_node :
  exists nd',
    thread_step D zh t th = (set_node t (S j) mI nd', 0, next_thread i j ndI nd')
    /\ node_update i j hash ndI nd'.
Proof.
  pose proof an_ptr as Hp. pose proof Hat as Hat'.
  destruct Hat' as [(Eth & Hh & Hne)|(s & Eth & Hh & K)].
  - (* writeNode *)
    pose proof (ns_slot_empty I Hi Hj Hat Hh) as He.
    apply Nat.eqb_neq in Hne.
    rewrite Eth, Hh, Hp. cbn [thread_step]. unfold slot in He.
    unfold next_thread, node_update. rewrite Hne. cbn [andb].
    destruct (Nat.even cI) eqn:Ev; cbn [negb].
    + assert (C : complete ndI = false) by (unfold complete; now rewrite He).
      pose proof (an_incomplete_state C) as Hst.
      unfold filled in Hst. rewrite He in Hst. unfold complete.
      destruct (right ndI) as [r|] eqn:R; cbn [isSome b2z Z.add] in Hst.
      * rewrite (an_toggle_second _ _ Hst). cbv beta iota. pick_node. split.
        { cbn [left right isSome andb negb]. rewrite He. reflexivity. }
        cbn [left right state]. repeat split. now left.
      * rewrite (an_toggle_first _ _ Hst). cbv beta iota. pick_node. split.
        { cbn [left right isSome andb negb]. reflexivity. }
        cbn [left right state]. repeat split. now left.
    + assert (C : complete ndI = false).
      { unfold complete. rewrite He. apply andb_false_r. }
      pose proof (an_incomplete_state C) as Hst.
      unfold filled in Hst. rewrite He in Hst. unfold complete.
      destruct (left ndI) as [l|] eqn:L; cbn [isSome b2z Z.add] in Hst.
      * rewrite (an_toggle_second _ _ Hst). cbv beta iota. pick_node. split.
        { cbn [left right isSome andb negb]. rewrite He. reflexivity. }
        cbn [left right state]. repeat split. now left.
      * rewrite (an_toggle_first _ _ Hst). cbv beta iota. pick_node. split.
        { cbn [left right isSome andb negb]. reflexivity. }
        cbn [left right state]. repeat split. now left.
  - (* writeFinalNode *)
    pose proof (inv_threads I _ Hi) as Hok. rewrite Eth in Hok.
    destruct Hok as (_ & j0 & _ & Hlv & _ & _ & Hs).
    injection Hlv as <-.
    pose proof (proj2 (Nat.eqb_eq i k) K) as Kb.
    rewrite Eth, Hh, Hp. cbn [thread_step].
    unfold next_thread, node_update. rewrite Kb. cbn [andb].
    destruct (Nat.even cI) eqn:Ev; cbn [negb].
    + rewrite (zh_nth (j := S j)) by lia.
      pose proof (an_final_left K Ev) as R.
      assert (C : complete ndI = false).
      { unfold complete. rewrite R. apply andb_false_r. }
      pose proof (an_incomplete_state C) as Hst.
      unfold filled in Hst. rewrite R in Hst.
      destruct s as [x|].
      * destruct Hs as [Hs|(Hs & _)]; [discriminate|]. injection Hs as ->.
        pose proof (ns_slot_empty I Hi Hj Hat Hh) as He.
        unfold slot in He. rewrite Ev in He. rewrite He in Hst.
        cbn [isSome b2z Z.add] in Hst. cbn [left right state].
        pick_node. split.
        { cbn [left right isSome andb negb complete]. rewrite C. reflexivity. }
        cbn [left right state isSome andb negb complete]. repeat split.
        right. auto.
      * cbn [isSome andb]. unfold complete.
        destruct (left ndI) as [l|] eqn:L; cbn [isSome b2z Z.add] in Hst.
        -- rewrite (an_toggle_second _ _ Hst). cbv beta iota. pick_node. split.
           { cbn [left right isSome andb negb]. rewrite R. reflexivity. }
           cbn [left right state]. repeat split. now left.
        -- rewrite (an_toggle_first _ _ Hst). cbv beta iota. pick_node. split.
           { cbn [left right isSome andb negb]. reflexivity. }
           cbn [left right state]. repeat split. now left.
    + pose proof (an_final_right K Ev) as Hst.
      destruct s as [x|].
      * destruct Hs as [Hs|(Hs & _)]; [discriminate|]. injection Hs as ->.
        pose proof (ns_slot_empty I Hi Hj Hat Hh) as He.
        unfold slot in He. rewrite Ev in He.
        unfold filled in Hst. rewrite He in Hst. unfold complete.
        destruct (left ndI) as [l|] eqn:L; cbn [isSome b2z Z.add] in Hst.
        -- rewrite (an_toggle_second _ _ Hst). cbv beta iota. pick_node. split.
           { cbn [left right isSome andb negb]. rewrite He. reflexivity. }
           cbn [left right state isSome andb negb]. repeat split. now left.
        -- rewrite (an_toggle_first _ _ Hst). cbv beta iota. pick_node. split.
           { cbn [left right isSome andb negb]. reflexivity. }
           cbn [left right state isSome andb negb]. repeat split. now left.
      * cbn [isSome andb]. pick_node. split.
        { destruct (complete ndI); reflexivity. }
        repeat split. now left.
Qed.

(** The same step on a tree that was used before. *)

Variable bound : Z.
Variable t2 : tree.
Hypothesis Hbound : (bound + 2 < 2 ^ 31)%Z.
Hypothesis Hsim : similar bound t2 t.

Local Abbreviation nd2 := (t_nodes t2 (S j) (i / 2 ^ (S j))).

Ltac sim_finish base :=
  cbv beta iota; do 3 eexists;
  split; [reflexivity|]; split; [reflexivity|];
  split;
  [ exists base; cbn [state]; repeat split; try lia; assumption
  | cbn [left right isSome]; split; intros; try discriminate;
    try reflexivity; auto ].

Lemma thread_step_sim_at_node :
  exists N N2 TH,
    thread_step D zh t th = (set_node t (S j) mI N, 0, TH) /\
    thread_step D zh t2 th = (set_node t2 (S j) mI N2, 0, TH) /\
    node_sim bound N2 N.
Proof.
  pose proof an_ptr as Hp. pose proof Hat as Hat'.
  destruct (proj2 Hsim (S j) mI) as ((base & Hs2 & Hev & Hb) & Hl & Hr).
  destruct Hat' as [(Eth & Hh & Hne)|(s & Eth & Hh & K)].
  - (* writeNode *)
    pose proof (ns_slot_empty I Hi Hj Hat Hh) as He.
    rewrite Eth, Hp. cbn [thread_step]. unfold slot in He.
    destruct (Nat.even cI) eqn:Ev.
    + assert (C : complete ndI = false) by (unfold complete; now rewrite He).
      pose proof (an_incomplete_state C) as Hst.
      unfold filled in Hst. rewrite He in Hst.
      destruct (right ndI) as [r|] eqn:R; cbn [isSome b2z Z.add] in Hst.
      * rewrite Hst in Hs2. rewrite (Hr eq_refl).
        rewrite (an_toggle_second _ _ Hst).
        rewrite (toggle_sim_second _ _ Hbound Hs2 Hev Hb).
        sim_finish base.
      * rewrite Hst in Hs2.
        rewrite (an_toggle_first _ _ Hst).
        rewrite (toggle_sim_first _ _ Hbound Hs2 Hev Hb).
        sim_finish base.
    + assert (C : complete ndI = false).
      { unfold complete. rewrite He. apply andb_false_r. }
      pose proof (an_incomplete_state C) as Hst.
      unfold filled in Hst. rewrite He in Hst.
      destruct (left ndI) as [l|] eqn:L; cbn [isSome b2z Z.add] in Hst.
      * rewrite Hst in Hs2. rewrite (Hl eq_refl).
        rewrite (an_toggle_second _ _ Hst).
        rewrite (toggle_sim_second _ _ Hbound Hs2 Hev Hb).
        sim_finish base.
      * rewrite Hst in Hs2.
        rewrite (an_toggle_first _ _ Hst).
        rewrite (toggle_sim_first _ _ Hbound Hs2 Hev Hb).
        sim_finish base.
  - (* writeFinalNode *)
    pose proof (inv_threads I _ Hi) as Hok. rewrite Eth in Hok.
    destruct Hok as (_ & j0 & _ & Hlv & _ & _ & Hs).
    injection Hlv as <-.
    rewrite Eth, Hp. cbn [thread_step].
    destruct (Nat.even cI) eqn:Ev.
    + rewrite (zh_nth (j := S j)) by lia.
      pose proof (an_final_left K Ev) as R.
      assert (C : complete ndI = false).
      { unfold complete. rewrite R. apply andb_false_r. }
      pose proof (an_incomplete_state C) as Hst.
      unfold filled in Hst. rewrite R in Hst.
      destruct s as [x|].
      * cbn [left right state]. sim_finish base.
      * destruct (left ndI) as [l|] eqn:L; cbn [isSome b2z Z.add] in Hst.
        -- rewrite Hst in Hs2. rewrite (Hl eq_refl).
           rewrite (an_toggle_second _ _ Hst).
           rewrite (toggle_sim_second _ _ Hbound Hs2 Hev Hb).
           sim_finish base.
        -- rewrite Hst in Hs2.
           rewrite (an_toggle_first _ _ Hst).
           rewrite (toggle_sim_first _ _ Hbound Hs2 Hev Hb).
           sim_finish base.
    + pose proof (an_final_right K Ev) as Hst.
      destruct s as [x|].
      * destruct Hs as [Hs|(Hs & _)]; [discriminate|]. injection Hs as ->.
        pose proof (ns_slot_empty I Hi Hj Hat Hh) as He.
        unfold slot in He. rewrite Ev in He.
        unfold filled in Hst. rewrite He in Hst.
        destruct (left ndI) as [l|] eqn:L; cbn [isSome b2z Z.add] in Hst.
        -- rewrite Hst in Hs2. rewrite (Hl eq_refl).
           rewrite (an_toggle_second _ _ Hst).
           rewrite (toggle_sim_second _ _ Hbound Hs2 Hev Hb).
           sim_finish base.
        -- rewrite Hst in Hs2.
           rewrite (an_toggle_first _ _ Hst).
           rewrite (toggle_sim_first _ _ Hbound Hs2 Hev Hb).
           sim_finish base.
      * sim_finish base.
Qed.

End AtNode.

(** *** Steps that leave the nodes alone *)

Lemma carries_update_keep ths i th th' i' j :
  nth_error ths i = Some th -> carried th' = carried th ->
  carries (Pool.update i th' ths) i' j <-> carries ths i' j.
Proof.
  intros Hi Hc. destruct (Nat.eq_dec i i') as [<-|Hne].
  - rewrite carries_update_same by (apply nth_error_Some; congruence).
    rewrite Hc. unfold carries. rewrite Hi. split.
    + intros E. eauto.
    + intros (th0 & [= <-] & E). exact E.
  - now apply carries_update_other.
Qed.

Lemma inv_same_tree t ths i th th' :
  inv t ths -> nth_error ths i = Some th ->
  carried th' = carried th ->
  (forall j, S j < D -> fpassed (Pool.update i th' ths) j = fpassed ths j) ->
  thread_ok t i th' ->
  inv t (Pool.update i th' ths).
Proof.
  intros I Hi Hc Hf Hok. constructor.
  - rewrite Pool.length_update. exact (inv_length I).
  - exact (inv_result I).
  - intros j m Hj Hm. pose proof (inv_nodes I Hj Hm) as N.
    unfold node_ok in *. now rewrite Hf.
  - intros i' th1. rewrite Pool.nth_error_update.
    destruct (i =? i') eqn:E.
    + apply Nat.eqb_eq in E. subst i'. rewrite Hi. now intros [= <-].
    + apply (inv_threads I).
  - intros i1 i2 j Hne C1 C2.
    apply (@carries_update_keep ths i th th' _ _ Hi Hc) in C1, C2.
    now apply (inv_unique I Hne).
  - exact (inv_arrived I).
  - intros i' j Hi' Hj Hcomp Harr.
    destruct (inv_carrier I Hi' Hj Hcomp Harr) as (i'' & E & C).
    exists i''. split; [exact E|].
    now apply (@carries_update_keep ths i th th' _ _ Hi Hc).
Qed.

Lemma div_pow_0 i : i / 2 ^ 0 = i.
Proof. rewrite Nat.pow_0_r. apply Nat.div_1_r. Qed.

(** [WriteSection] hashes the section and goes to the leaf's parent. *)
Lemma start_step_inv t ths i i0 sec fin :
  inv t ths -> nth_error ths i = Some (GoWriteSection i0 sec fin) ->
  exists th',
    thread_step D zh t (GoWriteSection i0 sec fin) = (t, length sec, th') /\
    is_running th' = true /\
    inv t (Pool.update i th' ths).
Proof.
  intros I Hi. pose proof (inv_index _ I Hi) as Hle.
  destruct (inv_threads I _ Hi) as (-> & -> & -> & Harr).
  cbn [thread_step].
  replace (i <? 2 ^ (D - 1)) with true by (symmetry; apply Nat.ltb_lt; lia).
  rewrite doSum_one, parent_leaf. unfold isLeftNode.
  destruct (i =? k) eqn:K.
  - eexists. split; [reflexivity|]. split; [reflexivity|].
    apply Nat.eqb_eq in K.
    apply inv_same_tree with (th := GoWriteSection i (secs i) true); auto.
    + intros j _. unfold fpassed. rewrite <- K at 1.
      rewrite Pool.nth_error_update_eq by (apply nth_error_Some; congruence).
      rewrite <- K, Hi. reflexivity.
    + split; [exact K|]. exists 0. rewrite div_pow_0. repeat split; auto.
  - eexists. split; [reflexivity|]. split; [reflexivity|].
    apply Nat.eqb_neq in K.
    apply inv_same_tree with (th := GoWriteSection i (secs i) false); auto.
    + now apply carried_at_ptr.
    + intros j _. now apply fpassed_update_other.
    + split; [exact K|]. exists 0. rewrite div_pow_0. repeat split; auto.
Qed.

(** At the root there is no node to write into: a hash goes to the result
    channel. *)
Lemma send_step_inv t ths i th :
  inv t ths -> nth_error ths i = Some th -> carried th = Some (D - 1) ->
  (i = k -> exists n il s, th = InWriteFinalNode D n il s) ->
  inv (send_result t (Some root)) (Pool.update i Finished ths).
Proof.
  intros I Hi Hc Hk.
  destruct (carrier_facts _ I Hi Hc) as (_ & Hcomp & Harr).
  pose proof (inv_index _ I Hi) as Hle.
  assert (Htop : (S (D - 1) <? D) = false) by (apply Nat.ltb_ge; lia).
  assert (Hres : result t = []).
  { unfold arrived in Harr. rewrite Htop in Harr.
    destruct (result t); [reflexivity|discriminate]. }
  assert (Harr' : forall j' i', S j' < D ->
            arrived (send_result t (Some root)) j' i' = arrived t j' i').
  { intros j' i' Hj'. unfold arrived.
    apply Nat.ltb_lt in Hj'. now rewrite Hj'. }
  assert (Hf : forall j, S j < D ->
            fpassed (Pool.update i Finished ths) j = fpassed ths j).
  { intros j Hj. destruct (Nat.eq_dec i k) as [K|K].
    - unfold fpassed. rewrite <- K at 1.
      rewrite Pool.nth_error_update_eq by (apply nth_error_Some; congruence).
      rewrite <- K, Hi. destruct (Hk K) as (n & il & s & ->).
      symmetry. now apply Nat.ltb_lt.
    - now apply fpassed_update_other. }
  assert (Hcar : forall i' j', carries (Pool.update i Finished ths) i' j' ->
            i' <> i /\ carries ths i' j').
  { intros i' j' C. destruct (Nat.eq_dec i i') as [<-|Hne].
    - apply carries_update_same in C; [discriminate|].
      apply nth_error_Some. congruence.
    - split; [congruence|]. now apply carries_update_other in C. }
  constructor.
  - rewrite Pool.length_update. exact (inv_length I).
  - right. simpl. now rewrite Hres.
  - intros j m Hj Hm. pose proof (inv_nodes I Hj Hm) as N.
    unfold node_ok in *. simpl t_nodes. now rewrite Hf.
  - intros i' th1. rewrite Pool.nth_error_update.
    destruct (i =? i') eqn:E.
    + apply Nat.eqb_eq in E. subst i'. rewrite Hi. now intros [= <-].
    + intros Hi'. apply Nat.eqb_neq in E.
      apply thread_ok_mono with (t := t); [exact (inv_threads I _ Hi')| |auto].
      intros j1 Hc1 Ha1.
      destruct (carrier_facts _ I Hi' Hc1) as (Hj1 & _).
      destruct (Nat.eq_dec j1 (D - 1)) as [->|Hn].
      * exfalso. apply (inv_unique I (i := i) (i' := i') (j := D - 1)); auto.
        -- exists th. auto.
        -- exists th1. auto.
        -- rewrite !div_top; auto. eapply inv_index; eauto.
      * rewrite Harr' by lia. exact Ha1.
  - intros i1 i2 j Hne C1 C2.
    apply Hcar in C1 as (_ & C1). apply Hcar in C2 as (_ & C2).
    now apply (inv_unique I Hne).
  - intros i' j' Hi' Hj' Ha.
    change (computed (send_result t (Some root)) j' i') with (computed t j' i').
    destruct (Nat.eq_dec j' (D - 1)) as [->|Hn].
    + rewrite (computed_same t (D - 1) i' i); [exact Hcomp|].
      now rewrite !div_top.
    + rewrite Harr' in Ha by lia. now apply (inv_arrived I).
  - intros i' j' Hi' Hj'.
    change (computed (send_result t (Some root)) j' i') with (computed t j' i').
    intros Hcomp' Ha.
    destruct (Nat.eq_dec j' (D - 1)) as [->|Hn].
    + unfold arrived in Ha. rewrite Htop in Ha. simpl in Ha.
      destruct (result t); discriminate.
    + rewrite Harr' in Ha by lia.
      destruct (inv_carrier I Hi' Hj' Hcomp' Ha) as (i'' & E & C).
      exists i''. split; [exact E|].
      destruct (Nat.eq_dec i i'') as [<-|Hne].
      * destruct C as (th0 & Hth0 & C). congruence.
      * now apply carries_update_other.
Qed.

(** *** Every step keeps the invariant and brings the goroutine nearer
    to its end *)

Definition weight (th : thread) : nat :=
  match th with
  | GoWriteSection _ _ _ => D + 2
  | InWriteNode (Some (lv, _)) _ _ => D + 1 - lv
  | InWriteFinalNode _ (Some (lv, _)) _ _ => D + 1 - lv
  | InWriteNode None _ _ => 1
  | InWriteFinalNode _ None _ _ => 1
  | Finished => 0
  | Panicked => 0
  end.

Lemma weight_parent lv idx il s :
  lv < D -> weight (InWriteNode (parent D lv idx) il s) < D + 1 - lv.
Proof.
  intros Hlv. unfold parent. destruct (S lv <? D) eqn:E; simpl.
  - apply Nat.ltb_lt in E. lia.
  - lia.
Qed.

Lemma weight_parent_final lv idx level il s :
  lv < D -> weight (InWriteFinalNode level (parent D lv idx) il s) < D + 1 - lv.
Proof.
  intros Hlv. unfold parent. destruct (S lv <? D) eqn:E; simpl.
  - apply Nat.ltb_lt in E. lia.
  - lia.
Qed.

Lemma weight_next i j nd nd' :
  S j < D -> weight (next_thread i j nd nd') < D + 1 - S j.
Proof.
  intros Hj. unfold next_thread.
  destruct (i =? k); [now apply weight_parent_final|].
  destruct (complete nd' && negb (complete nd)); [now apply weight_parent|].
  simpl. lia.
Qed.

Lemma thread_step_inv t ths i th :
  inv t ths -> nth_error ths i = Some th -> is_running th = true ->
  exists t' added th',
    thread_step D zh t th = (t', added, th') /\
    inv t' (Pool.update i th' ths) /\
    weight th' < weight th.
Proof.
  intros I Hi Hrun. pose proof (inv_threads I _ Hi) as Hok.
  pose proof (inv_index _ I Hi) as Hle.
  destruct th as [i0 sec fin|n il s|lv n il s| |]; try discriminate.
  - destruct (start_step_inv _ I Hi) as (th' & E & _ & I').
    exists t, (length sec), th'. split; [exact E|]. split; [exact I'|].
    cbn [thread_step] in E.
    destruct (i0 <? 2 ^ (D - 1)).
    + injection E as <-. destruct fin.
      * pose proof (@weight_parent_final 0 i0 1 (isLeftNode i0)
                      (doSum None [Some sec]) ltac:(lia)).
        change (weight (GoWriteSection i0 sec true)) with (D + 2). lia.
      * pose proof (@weight_parent 0 i0 (isLeftNode i0)
                      (doSum None [Some sec]) ltac:(lia)).
        change (weight (GoWriteSection i0 sec false)) with (D + 2). lia.
    + injection E as <-. simpl. lia.
  - destruct Hok as (Hne & j0 & Hj0 & Hn & Hil & Hs & Hcomp & Harr).
    destruct (S j0 <? D) eqn:E.
    + apply Nat.ltb_lt in E.
      assert (Hat : at_node i j0 true (InWriteNode n il s)).
      { left. subst n il s. auto. }
      destruct (thread_step_at_node I Hi E Hat) as (nd' & Est & Hup).
      do 3 eexists. split; [exact Est|]. split.
      * exact (node_step_inv I Hi E Hat Hup).
      * rewrite Hn. unfold at_ptr. apply Nat.ltb_lt in E. rewrite E.
        apply Nat.ltb_lt in E. simpl weight. now apply weight_next.
    + apply Nat.ltb_ge in E. assert (j0 = D - 1) by lia. subst j0.
      unfold at_ptr in Hn.
      replace (S (D - 1) <? D) with false in Hn
        by (symmetry; apply Nat.ltb_ge; lia).
      subst n. cbn [thread_step]. do 3 eexists. split; [reflexivity|].
      split; [|simpl; lia].
      rewrite Hs, div_top by exact Hle.
      apply send_step_inv with (th := InWriteNode None il s); auto.
      intros K. contradiction.
  - destruct Hok as (K & j0 & Hj0 & Hlv & Hn & Hil & Hs).
    destruct (S j0 <? D) eqn:E.
    + apply Nat.ltb_lt in E.
      assert (Hat : at_node i j0 (isSome s) (InWriteFinalNode lv n il s)).
      { right. exists s. subst n il lv. auto. }
      destruct (thread_step_at_node I Hi E Hat) as (nd' & Est & Hup).
      do 3 eexists. split; [exact Est|]. split.
      * exact (node_step_inv I Hi E Hat Hup).
      * rewrite Hn. unfold at_ptr. apply Nat.ltb_lt in E. rewrite E.
        apply Nat.ltb_lt in E. simpl weight. now apply weight_next.
    + apply Nat.ltb_ge in E. assert (j0 = D - 1) by lia. subst j0.
      unfold at_ptr in Hn.
      replace (S (D - 1) <? D) with false in Hn
        by (symmetry; apply Nat.ltb_ge; lia).
      subst n. cbn [thread_step].
      destruct s as [x|].
      * do 3 eexists. split; [reflexivity|]. split; [|simpl; lia].
        destruct Hs as [Hs|(Hs & _)]; [discriminate|].
        rewrite Hs, div_top by exact Hle.
        apply send_step_inv with (th := InWriteFinalNode lv None il (Some x)).
        -- exact I.
        -- exact Hi.
        -- subst lv. simpl. f_equal. lia.
        -- intros _. exists None, il, (Some x). f_equal. lia.
      * do 3 eexists. split; [reflexivity|]. split; [|simpl; lia].
        apply inv_same_tree with (th := InWriteFinalNode lv None il None); auto.
        -- intros j Hj. unfold fpassed. rewrite <- K at 1.
           rewrite Pool.nth_error_update_eq
             by (apply nth_error_Some; congruence).
           rewrite <- K, Hi. subst lv. symmetry. apply Nat.ltb_lt. lia.
        -- exact Logic.I.
Qed.

(** *** Every step does the same on a tree that was used before *)

(** The nodes the goroutines of sections [0 .. k] write into. *)
Definition in_scope (l m : nat) : Prop :=
  exists j, l = S j /\ S j < D /\ m <= k / 2 ^ (S j).

Definition untouched (t : tree) : Prop :=
  forall l m, ~ in_scope l m -> t_nodes t l m = newNode.

Lemma untouched_set_node t i j nd :
  i <= k -> S j < D -> untouched t ->
  untouched (set_node t (S j) (i / 2 ^ (S j)) nd).
Proof.
  intros Hi Hj Hu l m Hout. rewrite nodes_set_node.
  destruct ((l =? S j) && (m =? i / 2 ^ (S j))) eqn:E; [|now apply Hu].
  apply andb_prop in E as [El Em]. apply Nat.eqb_eq in El, Em. subst l m.
  exfalso. apply Hout. exists j. repeat split; auto. now apply div_pow_le.
Qed.

Lemma thread_step_sim bound t ths i th t2 :
  inv t ths -> nth_error ths i = Some th ->
  (bound + 2 < 2 ^ 31)%Z -> similar bound t2 t ->
  exists t' t2' added th',
    thread_step D zh t th = (t', added, th') /\
    thread_step D zh t2 th = (t2', added, th') /\
    similar bound t2' t' /\ (untouched t -> untouched t').
Proof.
  intros I Hi Hb Hsim. pose proof (inv_threads I _ Hi) as Hok.
  pose proof (inv_index _ I Hi) as Hle.
  destruct th as [i0 sec fin|n il s|lv n il s| |].
  - cbn [thread_step]. destruct (i0 <? 2 ^ (D - 1));
      do 4 eexists; repeat split; try reflexivity; auto; apply Hsim.
  - destruct Hok as (Hne & j0 & Hj0 & Hn & Hil & Hs & Hcomp & Harr).
    destruct (S j0 <? D) eqn:E.
    + apply Nat.ltb_lt in E.
      assert (Hat : at_node i j0 true (InWriteNode n il s)).
      { left. subst n il s. auto. }
      destruct (thread_step_sim_at_node I Hi E Hat Hb Hsim)
        as (N & N2 & TH & E1 & E2 & HN).
      do 4 eexists. split; [exact E1|]. split; [exact E2|]. split.
      * now apply similar_set_node.
      * now apply untouched_set_node.
    + apply Nat.ltb_ge in E. assert (j0 = D - 1) by lia. subst j0.
      unfold at_ptr in Hn.
      replace (S (D - 1) <? D) with false in Hn
        by (symmetry; apply Nat.ltb_ge; lia).
      subst n. cbn [thread_step]. do 4 eexists.
      split; [reflexivity|]. split; [reflexivity|]. split.
      * now apply similar_send.
      * auto.
  - destruct Hok as (K & j0 & Hj0 & Hlv & Hn & Hil & Hs).
    destruct (S j0 <? D) eqn:E.
    + apply Nat.ltb_lt in E.
      assert (Hat : at_node i j0 (isSome s) (InWriteFinalNode lv n il s)).
      { right. exists s. subst n il lv. auto. }
      destruct (thread_step_sim_at_node I Hi E Hat Hb Hsim)
        as (N & N2 & TH & E1 & E2 & HN).
      do 4 eexists. split; [exact E1|]. split; [exact E2|]. split.
      * now apply similar_set_node.
      * now apply untouched_set_node.
    + apply Nat.ltb_ge in E. assert (j0 = D - 1) by lia. subst j0.
      unfold at_ptr in Hn.
      replace (S (D - 1) <? D) with false in Hn
        by (symmetry; apply Nat.ltb_ge; lia).
      subst n. cbn [thread_step]. destruct s as [x|]; do 4 eexists.
      * split; [reflexivity|]. split; [reflexivity|]. split.
        -- now apply similar_send.
        -- auto.
      * split; [reflexivity|]. split; [reflexivity|]. split; auto.
  - cbn [thread_step]. do 4 eexists. repeat split; auto; apply Hsim.
  - contradiction.
Qed.

(** *** When every goroutine has finished, the root is on the channel *)

Lemma half_double m : 2 * m / 2 = m.
Proof. rewrite Nat.mul_comm. apply Nat.div_mul. discriminate. Qed.

Lemma half_double_succ m : (2 * m + 1) / 2 = m.
Proof.
  pose proof (Nat.div_mod_eq (2 * m + 1) 2).
  pose proof (Nat.mod_upper_bound (2 * m + 1) 2). lia.
Qed.

(** The first section under child [c] of level [j]. *)
Lemma first_under j c :
  c <= k / 2 ^ j ->
  c * 2 ^ j <= k /\ c * 2 ^ j / 2 ^ j = c /\ c * 2 ^ j / 2 ^ (S j) = c / 2.
Proof.
  intros Hc. pose proof (pow2_pos j) as Hp.
  assert (E : c * 2 ^ j / 2 ^ j = c) by (apply Nat.div_mul; lia).
  split; [|split; [exact E|now rewrite div_pow_succ, E]].
  pose proof (Nat.Div0.mul_div_le k (2 ^ j)).
  pose proof (Nat.mul_le_mono_r _ _ (2 ^ j) Hc). lia.
Qed.

Section AllFinished.

Variable t : tree.
Variable ths : list thread.
Hypothesis I : inv t ths.
Hypothesis Hfin : forall i th, nth_error ths i = Some th -> th = Finished.

Lemma af_no_carrier i j : ~ carries ths i j.
Proof. intros (th & Hi & Hc). rewrite (Hfin _ Hi) in Hc. discriminate. Qed.

Lemma af_fpassed j : fpassed ths j = true.
Proof.
  unfold fpassed. destruct (nth_error ths k) as [th|] eqn:E.
  - now rewrite (Hfin _ E).
  - apply nth_error_None in E. rewrite (inv_length I) in E. lia.
Qed.

Lemma af_arrived i j :
  i <= k -> j < D -> computed t j i = true -> arrived t j i = true.
Proof.
  intros Hi Hj Hc. destruct (arrived t j i) eqn:A; [reflexivity|].
  destruct (inv_carrier I Hi Hj Hc A) as (i' & _ & C).
  now apply af_no_carrier in C.
Qed.

Lemma af_computed j : forall i, i <= k -> j < D -> computed t j i = true.
Proof.
  induction j as [|j IH]; intros i Hi Hj; [reflexivity|].
  unfold computed, complete.
  pose proof (div_pow_le (S j) Hi) as Hm.
  set (m := i / 2 ^ (S j)) in *.
  assert (Hlt : S j < D) by exact Hj.
  assert (Hj' : j < D) by lia.
  apply Nat.ltb_lt in Hlt.
  assert (H2m : 2 * m <= k / 2 ^ j).
  { rewrite div_pow_succ in Hm.
    pose proof (even_split (k / 2 ^ j)). destruct (Nat.even (k / 2 ^ j)); lia. }
  apply andb_true_intro. split.
  - destruct (first_under j H2m) as (Hle & E1 & E2).
    pose proof (af_arrived Hle Hj' (IH _ Hle Hj')) as A.
    unfold arrived in A. rewrite Hlt, E1, E2, half_double in A.
    unfold slot in A. now rewrite even_double in A.
  - destruct (2 * m + 1 <=? k / 2 ^ j) eqn:R.
    + apply Nat.leb_le in R.
      destruct (first_under j R) as (Hle & E1 & E2).
      pose proof (af_arrived Hle Hj' (IH _ Hle Hj')) as A.
      unfold arrived in A. rewrite Hlt, E1, E2, half_double_succ in A.
      unfold slot in A. now rewrite even_double_succ in A.
    + destruct (inv_nodes I Hj Hm) as (_ & _ & Hst).
      rewrite R in Hst. destruct Hst as (Hr & _). now rewrite Hr, af_fpassed.
Qed.

Lemma finished_result : result t = [Some root].
Proof.
  pose proof (@af_computed (D - 1) 0 ltac:(lia) ltac:(lia)) as C.
  apply af_arrived in C; [|lia|lia].
  unfold arrived in C.
  replace (S (D - 1) <? D) with false in C by (symmetry; apply Nat.ltb_ge; lia).
  destruct (inv_result I) as [E|E]; [|exact E].
  rewrite E in C. discriminate.
Qed.

End AllFinished.

(** *** The state [Write] and [Sum] leave to the goroutines *)

Definition clean (t : tree) : Prop :=
  (forall l m, t_nodes t l m = newNode) /\ result t = [].

Definition spawned (ths : list thread) : Prop :=
  length ths = S k /\
  forall i, i <= k ->
    nth_error ths i = Some (GoWriteSection i (secs i) (i =? k)).

Lemma inv_init t ths : clean t -> spawned ths -> inv t ths.
Proof.
  intros (Hn & Hr) (Hlen & Hths).
  assert (Hth : forall i th, nth_error ths i = Some th ->
            i <= k /\ th = GoWriteSection i (secs i) (i =? k)).
  { intros i th Hi.
    assert (i <= k).
    { assert (i < length ths) by (apply nth_error_Some; congruence). lia. }
    rewrite Hths in Hi by assumption. split; congruence. }
  assert (Harr : forall j i, arrived t j i = false).
  { intros j i. unfold arrived. rewrite Hn, Hr. unfold slot.
    destruct (S j <? D), (Nat.even (i / 2 ^ j)); reflexivity. }
  constructor.
  - exact Hlen.
  - now left.
  - intros j m Hj Hm. unfold node_ok. rewrite Hn. simpl.
    split; [now left|]. split; [now left|].
    destruct (2 * m + 1 <=? k / 2 ^ j); [reflexivity|].
    split; [|now left]. unfold fpassed. rewrite Hths by lia. reflexivity.
  - intros i th Hi. destruct (Hth _ _ Hi) as (Hle & ->). simpl. auto.
  - intros i i' j Hne (th & Hi & Hc) (th' & Hi' & Hc').
    destruct (Hth _ _ Hi) as (_ & ->). destruct (Hth _ _ Hi') as (_ & ->).
    simpl in Hc, Hc'. injection Hc as <-. now rewrite !div_pow_0.
  - intros i j _ _ A. now rewrite Harr in A.
  - intros i j Hi Hj Hc _. exists i. split; [reflexivity|].
    exists (GoWriteSection i (secs i) (i =? k)). split; [now apply Hths|].
    destruct j as [|j]; [reflexivity|].
    unfold computed in Hc. rewrite Hn in Hc. discriminate.
Qed.

(** *** The tree when the root has been sent *)

Section Delivered.

Variable t : tree.
Variable ths : list thread.
Hypothesis I : inv t ths.
Hypothesis Hsent : result t <> [].

Lemma dl_arrived d : forall j i, j + d = D - 1 -> i <= k -> arrived t j i = true.
Proof.
  induction d as [|d IH]; intros j i Hj Hi.
  - unfold arrived.
    replace (S j <? D) with false by (symmetry; apply Nat.ltb_ge; lia).
    destruct (result t); [contradiction|reflexivity].
  - assert (HS : S j < D) by lia.
    pose proof (IH (S j) i ltac:(lia) Hi) as A.
    apply (inv_arrived I Hi HS) in A. unfold computed, complete in A.
    apply andb_prop in A as [Al Ar].
    unfold arrived. apply Nat.ltb_lt in HS. rewrite HS. unfold slot.
    destruct (Nat.even (i / 2 ^ j)); assumption.
Qed.

Lemma dl_complete j m :
  S j < D -> m <= k / 2 ^ (S j) -> complete (t_nodes t (S j) m) = true.
Proof.
  intros Hj Hm. destruct (first_under (S j) Hm) as (Hle & E & _).
  pose proof (@dl_arrived (D - 1 - S j) (S j) _ ltac:(lia) Hle) as A.
  apply (inv_arrived I Hle Hj) in A. unfold computed in A. now rewrite E in A.
Qed.

(** Every toggle has been moved twice or not at all. *)
Lemma dl_state l m :
  untouched t ->
  state (t_nodes t l m) = 0%Z \/ state (t_nodes t l m) = 2%Z.
Proof.
  intros Hu.
  destruct l as [|j]; [left; rewrite Hu; [reflexivity|]; intros (j & ? & _);
                       discriminate|].
  destruct (Nat.lt_ge_cases (S j) D) as [Hj|Hj].
  - destruct (Nat.le_gt_cases m (k / 2 ^ (S j))) as [Hm|Hm].
    + pose proof (dl_complete Hj Hm) as C.
      destruct (inv_nodes I Hj Hm) as (_ & _ & Hst).
      assert (F : filled (t_nodes t (S j) m) = 2%Z).
      { unfold filled. unfold complete in C. apply andb_prop in C as [-> ->].
        reflexivity. }
      destruct (2 * m + 1 <=? k / 2 ^ j).
      * right. congruence.
      * destruct Hst as (_ & [Hst|(_ & Hst)]); [right; congruence|now left].
    + left. rewrite Hu; [reflexivity|]. intros (j' & E & _ & Hle).
      injection E as <-. lia.
  - left. rewrite Hu; [reflexivity|]. intros (j' & E & Hlt & _).
    injection E as <-. lia.
Qed.

End Delivered.

End Run.

(** ** The depth of the tree *)

Lemma depth_loop_bound n fuel : forall c d,
  c = 2 ^ (S d) -> n <= c + fuel -> n <= 2 ^ (S (depth_loop fuel c n d)).
Proof.
  induction fuel as [|fuel IH]; intros c d Hc Hn; simpl depth_loop.
  - lia.
  - destruct (c <? n) eqn:E.
    + apply IH.
      * rewrite Hc. rewrite (Nat.pow_succ_r' 2 (S d)). reflexivity.
      * pose proof (pow2_pos (S d)). lia.
    + apply Nat.ltb_ge in E. lia.
Qed.

(** The sections of a chunk fit the leaves of the tree. *)
Lemma segments_fit n : n <= 2 ^ calculateDepthFor n.
Proof.
  unfold calculateDepthFor. rewrite Nat.add_1_r.
  apply depth_loop_bound; [reflexivity|lia].
Qed.

(** ** The sections [Write] cuts the data into *)

(** Section [c] of the data [b]: the bytes from [c * secsize] on, in a
    zeroed buffer of one section. *)
Definition sec_of (b : bytes) (c : nat) : bytes :=
  GoSlice.copy (GoSlice.make (2 * segmentSize))
    (skipn (c * (2 * segmentSize)) b).

Lemma length_sec_of b c : length (sec_of b c) = 2 * segmentSize.
Proof. unfold sec_of. now rewrite GoSlice.length_copy, GoSlice.length_make. Qed.

Lemma nth_sec_of b c n :
  n < 2 * segmentSize ->
  nth n (sec_of b c) x00 = nth (c * (2 * segmentSize) + n) b x00.
Proof.
  intros Hn. unfold sec_of, GoSlice.copy. rewrite GoSlice.length_make.
  set (r := skipn (c * (2 * segmentSize)) b).
  assert (Hr : forall m, nth m r x00 = nth (c * (2 * segmentSize) + m) b x00).
  { intros m. unfold r. apply nth_skipn. }
  destruct (Nat.lt_ge_cases n (length r)) as [Hlt|Hge].
  - rewrite app_nth1 by (rewrite length_firstn; lia).
    rewrite nth_firstn.
    replace (n <? 2 * segmentSize) with true by (symmetry; now apply Nat.ltb_lt).
    apply Hr.
  - rewrite app_nth2 by (rewrite length_firstn; lia).
    rewrite <- Hr, (nth_overflow r) by exact Hge.
    unfold GoSlice.make. rewrite GoSlice.skipn_repeat. apply nth_repeat.
Qed.

Lemma sec_of_ext b b' c :
  (forall n, nth n b x00 = nth n b' x00) -> sec_of b c = sec_of b' c.
Proof.
  intros Hb. apply nth_ext with (d := x00) (d' := x00).
  - now rewrite !length_sec_of.
  - intros n Hn. rewrite length_sec_of in Hn. now rewrite !nth_sec_of.
Qed.

(** Zero bytes after the data do not change its sections. *)
Lemma sec_of_padded b n c : sec_of (b ++ GoSlice.make n) c = sec_of b c.
Proof.
  apply sec_of_ext. intros m.
  destruct (Nat.lt_ge_cases m (length b)) as [Hlt|Hge].
  - now apply app_nth1.
  - rewrite app_nth2 by exact Hge. rewrite (nth_overflow b) by exact Hge.
    unfold GoSlice.make. apply nth_repeat.
Qed.

Lemma sec_of_beyond b c :
  length b <= c * (2 * segmentSize) -> sec_of b c = GoSlice.make (2 * segmentSize).
Proof.
  intros Hc. unfold sec_of. rewrite skipn_all2 by exact Hc.
  unfold GoSlice.copy. now rewrite firstn_nil.
Qed.

Lemma dg_ext secs secs' :
  (forall c, secs c = secs' c) -> forall j c, dg secs j c = dg secs' j c.
Proof.
  intros Hs. induction j as [|j IH]; intros c; simpl.
  - now rewrite Hs.
  - now rewrite !IH.
Qed.

(** ** [Write] on a tree that holds nothing yet *)

(** The goroutines [Write] starts for the sections before the last one. *)
Definition workers (b : bytes) (n : nat) : list thread :=
  map (fun i => GoWriteSection i (sec_of b i) false) (seq 0 n).

(** The number of the last section of [l] bytes. *)
Definition last_section (l : nat) : nat := (l - 1) / (2 * segmentSize).

Lemma more_sections l c :
  0 < segmentSize -> 0 < l ->
  (c + 1) * (2 * segmentSize) < l <-> c < last_section l.
Proof.
  intros HS Hl. unfold last_section.
  set (ss := 2 * segmentSize). assert (Hss : ss <> 0) by (unfold ss; lia).
  split.
  - intros Hlt.
    assert (c + 1 <= (l - 1) / ss); [|lia].
    apply Nat.div_le_lower_bound; [exact Hss|]. lia.
  - intros Hlt. pose proof (Nat.Div0.mul_div_le (l - 1) ss) as Hm.
    assert ((c + 1) * ss <= (l - 1) / ss * ss)
      by (apply Nat.mul_le_mono_r; lia).
    lia.
Qed.

Lemma write_loop_spec b :
  0 < segmentSize -> 0 < length b ->
  forall fuel c t sp,
    c <= last_section (length b) -> last_section (length b) - c <= fuel ->
    cursor t = c -> section t = sec_of b c ->
    write_loop fuel (2 * segmentSize) b ((c + 1) * (2 * segmentSize)) t sp
    = (mkTree (t_nodes t) (last_section (length b)) (offset t)
         (sec_of b (last_section (length b))) (result t) (span t),
       (last_section (length b) + 1) * (2 * segmentSize),
       sp ++ map (fun i => GoWriteSection i (sec_of b i) false)
               (seq c (last_section (length b) - c))).
Proof.
  intros HS Hl. set (K := last_section (length b)).
  assert (Hstop : forall c t sp, c = K -> cursor t = c -> section t = sec_of b c ->
            (t, (c + 1) * (2 * segmentSize), sp)
            = (mkTree (t_nodes t) K (offset t) (sec_of b K) (result t) (span t),
               (K + 1) * (2 * segmentSize),
               sp ++ map (fun i => GoWriteSection i (sec_of b i) false)
                       (seq c (K - c)))).
  { intros c t sp -> Hc Hs. rewrite Nat.sub_diag. simpl. rewrite app_nil_r.
    destruct t as [nds cu off se re spn]. simpl in *. now subst. }
  induction fuel as [|fuel IH]; intros c t sp Hc Hf Hcur Hsec.
  - simpl. apply Hstop; auto. lia.
  - cbn [write_loop].
    destruct ((c + 1) * (2 * segmentSize) <? length b) eqn:E.
    + apply Nat.ltb_lt in E. apply (more_sections c HS Hl) in E. fold K in E.
      replace ((c + 1) * (2 * segmentSize) + 2 * segmentSize)
        with ((S c + 1) * (2 * segmentSize)) by lia.
      rewrite IH; try (fold K; simpl; lia).
      * rewrite Hcur, Hsec. cbn [set_section t_nodes offset result span].
        rewrite <- app_assoc. do 2 f_equal.
        replace (K - c) with (S (K - S c)) by lia. reflexivity.
      * cbn [set_section section]. unfold sec_of.
        replace (S c) with (c + 1) by lia. reflexivity.
    + apply Nat.ltb_ge in E. apply Hstop; auto.
      destruct (Nat.eq_dec c K) as [->|N]; [reflexivity|].
      assert (Hlt : c < K) by (fold K in Hc; lia).
      apply (more_sections c HS Hl) in Hlt. lia.
Qed.

Lemma Write_fresh h t b :
  0 < segmentSize ->
  SegmentSize (pool h) = segmentSize ->
  bmt h = Some t -> cursor t = 0 -> offset t = 0 ->
  section t = GoSlice.make (2 * segmentSize) ->
  0 < length b -> length b <= Size (pool h) ->
  Write h b
  = Some (mkHasher (pool h)
            (Some (mkTree (t_nodes t) (last_section (length b))
                     (length b - last_section (length b) * (2 * segmentSize))
                     (sec_of b (last_section (length b)))
                     (result t) (span t)))
            (size h + length b) (h_cursor h)
            (routines h ++ workers b (last_section (length b))),
          length b).
Proof.
  intros HS HSS Hb Hcur Hoff Hsec Hl Hsz. unfold Write.
  replace (length b =? 0) with false by (symmetry; apply Nat.eqb_neq; lia).
  replace (Size (pool h) <? length b) with false
    by (symmetry; apply Nat.ltb_ge; lia).
  cbn [orb]. unfold getTree. cbn [bmt pool]. rewrite Hb.
  cbn [pool]. rewrite HSS, Hoff, Nat.sub_0_r.
  replace (0 <? 2 * segmentSize) with true by (symmetry; apply Nat.ltb_lt; lia).
  replace (2 * segmentSize =? 0) with false by (symmetry; apply Nat.eqb_neq; lia).
  assert (Hfill : fill (section t) 0 b = sec_of b 0).
  { rewrite Hsec. unfold fill, sec_of. rewrite Nat.mul_0_l. reflexivity. }
  rewrite Hfill.
  destruct (length b <=? 2 * segmentSize) eqn:E.
  - apply Nat.leb_le in E.
    assert (K0 : last_section (length b) = 0).
    { unfold last_section. apply Nat.div_small. lia. }
    rewrite K0. unfold workers. simpl seq. simpl map. rewrite app_nil_r.
    unfold set_tree, set_offset, set_section.
    cbn [pool bmt size h_cursor routines t_nodes cursor offset section result
         span].
    rewrite Hcur, Hoff, Nat.mul_0_l, Nat.sub_0_r. reflexivity.
  - apply Nat.leb_gt in E. unfold write_sections. cbn [pool].
    rewrite HSS.
    pose proof (@write_loop_spec b HS Hl (length b) 0
                  (set_section t (cursor t) (sec_of b 0)) []) as W.
    rewrite Nat.add_0_l, Nat.mul_1_l in W.
    rewrite W.
    + cbn [set_section t_nodes offset result span set_offset cursor section
           pool size h_cursor routines app].
      rewrite Nat.sub_0_r. unfold workers.
      replace (length b + 2 * segmentSize -
               (last_section (length b) + 1) * (2 * segmentSize))
        with (length b - last_section (length b) * (2 * segmentSize)) by lia.
      reflexivity.
    + lia.
    + unfold last_section.
      pose proof (Nat.Div0.div_le_upper_bound (length b - 1) (2 * segmentSize)
                    (length b)) as U.
      assert ((length b - 1) / (2 * segmentSize) <= length b); [|lia].
      apply U. nia.
    + simpl. exact Hcur.
    + reflexivity.
Qed.

(** ** The goroutines of a hasher *)

Lemma thread_step_span d z t th :
  span (fst (fst (thread_step d z t th))) = span t.
Proof.
  destruct th as [i sec fin|n il s|lv n il s| |]; cbn [thread_step];
    try reflexivity.
  - destruct (i <? 2 ^ (d - 1)); reflexivity.
  - destruct n as [[lv idx]|]; [|reflexivity].
    destruct il; unfold toggle; cbv beta iota;
      match goal with |- context [if ?c then _ else _] => destruct c end;
      reflexivity.
  - destruct n as [[l idx]|]; [|destruct s; reflexivity].
    destruct il.
    + destruct (nth_error z lv); [|reflexivity].
      destruct s; [reflexivity|]. unfold toggle; cbv beta iota.
      match goal with |- context [if ?c then _ else _] => destruct c end;
        reflexivity.
    + destruct s; [|reflexivity]. unfold toggle; cbv beta iota.
      match goal with |- context [if ?c then _ else _] => destruct c end;
        reflexivity.
Qed.

(** A tree as [newTree] makes it or as the goroutine of [releaseTree]
    sends it back to the pool ([reset_tree]) after a chunk was hashed on
    it: the writer's fields are reset, and
    every toggle has been moved an even number of times, at most [bound]
    times. *)
Definition reusable (bound : Z) (t : tree) : Prop :=
  cursor t = 0 /\ offset t = 0 /\
  section t = GoSlice.make (2 * segmentSize) /\ result t = [] /\
  forall l m, Z.even (state (t_nodes t l m)) = true /\
              (0 <= state (t_nodes t l m) <= bound)%Z.

Section Hashing.

Variable D : nat.
Variable k : nat.
Variable secs : nat -> bytes.
Variable p : TreePool.
Variable sp : slice.
Variable bound : Z.

Hypothesis D_pos : 1 <= D.
Hypothesis k_fits : k < 2 ^ (D - 1).
Hypothesis secs_zero : forall c, k < c -> secs c = GoSlice.make (2 * segmentSize).
Hypothesis H_nonempty : forall x, H x <> [].
Hypothesis p_depth : Depth p = D.
Hypothesis p_zerohashes : zerohashes p = make_zerohashes D.
Hypothesis bound_fits : (bound + 2 < 2 ^ 31)%Z.

(** The hasher while [Sum] waits for the result: its tree [t] behaves like
    a tree [tf] that is used for the first time, on which the goroutines
    keep the invariant. *)
Definition hashing (h : Hasher) : Prop :=
  pool h = p /\
  exists t tf, bmt h = Some t /\ span t = sp /\
               similar bound t tf /\ untouched D k tf /\
               inv D k secs tf (routines h).

Definition load (h : Hasher) : nat := Pool.total (weight D) (routines h).

Lemma step_running i h th :
  hashing h -> nth_error (routines h) i = Some th -> is_running th = true ->
  hashing (step i h) /\ load (step i h) < load h.
Proof.
  intros (Hp & t & tf & Ht & Hsp & Hsim & Hu & I) Hi Hrun.
  destruct (thread_step_inv D_pos k_fits secs_zero H_nonempty _ I Hi Hrun)
    as (tf' & added & th' & E & I' & Hw).
  destruct (thread_step_sim D_pos k_fits _ I Hi bound_fits Hsim)
    as (tf1 & t' & added1 & th1 & E1 & E2 & Hsim' & Hu').
  rewrite E in E1. injection E1 as <- <- <-.
  pose proof (thread_step_span D (zh D) t th) as Hspan. rewrite E2 in Hspan.
  unfold step. rewrite Hi, Hrun. unfold getTree. rewrite Ht.
  rewrite Hp, p_depth, p_zerohashes. fold (zh D). rewrite E2.
  split.
  - split; [reflexivity|]. exists t', tf'. cbn [bmt routines].
    split; [reflexivity|]. split; [simpl in Hspan; congruence|].
    split; [exact Hsim'|]. split; [exact (Hu' Hu)|exact I'].
  - unfold load. cbn [routines].
    pose proof (@Pool.total_update _ (weight D) i th' th (routines h) Hi).
    lia.
Qed.

Lemma step_hashing i h : hashing h -> hashing (step i h).
Proof.
  intros Hh. unfold step.
  destruct (nth_error (routines h) i) as [th|] eqn:Hi; [|exact Hh].
  destruct (is_running th) eqn:Hrun.
  - pose proof (step_running _ Hh Hi Hrun) as (Hh' & _).
    unfold step in Hh'. now rewrite Hi, Hrun in Hh'.
  - exact Hh.
Qed.

Lemma run_hashing schedule : forall h, hashing h -> hashing (run schedule h).
Proof.
  induction schedule as [|i rest IH]; intros h Hh; [exact Hh|].
  simpl. apply IH. now apply step_hashing.
Qed.

Lemma run_app s1 s2 h : run (s1 ++ s2) h = run s2 (run s1 h).
Proof. revert h. induction s1 as [|i r IH]; intros h; simpl; auto. Qed.

Lemma positive_weight ths :
  0 < Pool.total (weight D) ths ->
  exists i th, nth_error ths i = Some th /\ 0 < weight D th.
Proof.
  induction ths as [|x r IH]; simpl; [lia|]. intros Hpos.
  destruct (Nat.eq_dec (weight D x) 0) as [E|E].
  - destruct IH as (i & th & Hi & Hw); [lia|]. exists (S i), th. auto.
  - exists 0, x. split; [reflexivity|lia].
Qed.

Lemma zero_weight ths i th :
  Pool.total (weight D) ths = 0 -> nth_error ths i = Some th ->
  weight D th = 0.
Proof.
  revert i. induction ths as [|x r IH]; intros [|i] Ht Hi; simpl in *;
    try discriminate.
  - injection Hi as ->. lia.
  - apply (IH i); [lia|exact Hi].
Qed.

Lemma weight_running th : 0 < weight D th -> is_running th = true.
Proof. destruct th; simpl; auto; lia. Qed.

Lemma weightless_finished t i th :
  thread_ok D k secs t i th -> weight D th = 0 -> th = Finished.
Proof.
  destruct th as [i0 sec fin|n il s|lv n il s| |]; simpl; intros Hok Hw;
    try reflexivity; try lia; try contradiction.
  - destruct Hok as (_ & j & Hj & -> & _). unfold at_ptr in Hw.
    destruct (S j <? D) eqn:E; [apply Nat.ltb_lt in E|]; lia.
  - destruct Hok as (_ & j & Hj & _ & -> & _). unfold at_ptr in Hw.
    destruct (S j <? D) eqn:E; [apply Nat.ltb_lt in E|]; lia.
Qed.

(** Whatever has happened so far, the goroutines can be run to their end. *)
Lemma run_to_end h :
  hashing h ->
  exists schedule,
    forall i th, nth_error (routines (run schedule h)) i = Some th ->
                 th = Finished.
Proof.
  remember (load h) as n eqn:Hn. revert h Hn.
  induction n as [n IH] using lt_wf_ind. intros h Hn Hh.
  destruct (Nat.eq_dec (load h) 0) as [Z|NZ].
  - exists []. simpl. intros i th Hi.
    destruct Hh as (_ & t & tf & _ & _ & _ & _ & I).
    apply (@weightless_finished tf i th (inv_threads I _ Hi)).
    now apply (@zero_weight (routines h) i th Z Hi).
  - destruct (@positive_weight (routines h)) as (i & th & Hi & Hw).
    { unfold load in NZ. lia. }
    destruct (step_running _ Hh Hi (weight_running _ Hw)) as (Hh' & Hlt).
    destruct (IH (load (step i h)) ltac:(lia) (step i h) eq_refl Hh')
      as (rest & Hrest).
    exists (i :: rest). exact Hrest.
Qed.

(** What [Sum] receives is the root, and once every goroutine has finished
    it does receive it. *)
Lemma Sum_finish_value h b r h' :
  hashing h -> Sum_finish h b = Some (r, h') ->
  r = doSum b [match sp with
               | None => Some (LengthToSpan (size h))
               | Some x => Some x
               end; Some (root D secs)].
Proof.
  intros (_ & t & tf & Ht & Hsp & (Hres & _) & _ & I).
  unfold Sum_finish. rewrite Ht, Hsp, Hres.
  destruct (inv_result I) as [E|E]; rewrite E; [discriminate|].
  now intros [= <- _].
Qed.

Lemma Sum_finish_returns h b :
  hashing h ->
  (forall i th, nth_error (routines h) i = Some th -> th = Finished) ->
  exists h',
    Sum_finish h b
    = Some (doSum b [match sp with
                     | None => Some (LengthToSpan (size h))
                     | Some x => Some x
                     end; Some (root D secs)], h').
Proof.
  intros (_ & t & tf & Ht & Hsp & (Hres & _) & _ & I) Hfin.
  unfold Sum_finish. rewrite Ht, Hsp, Hres.
  rewrite (finished_result D_pos k_fits I Hfin). eauto.
Qed.

(** [Sum] hands the tree to the goroutine of [releaseTree], which makes it
    fit for the next chunk. *)
Lemma Sum_finish_releases h b r h' :
  hashing h -> SegmentSize p = segmentSize ->
  Sum_finish h b = Some (r, h') ->
  exists t', pool h' = set_releasing p (releasing p ++ [t']) /\
             bmt h' = None /\
             reusable (bound + 2) (reset_tree p t').
Proof.
  intros (Hp & t & tf & Ht & Hsp & (Hres & Hn) & Hu & I) HS.
  unfold Sum_finish. rewrite Ht.
  destruct (result t) as [|s rest] eqn:R; [discriminate|].
  intros [= _ <-]. unfold releaseTree, set_tree. cbn [bmt pool t_nodes].
  eexists. split; [now rewrite Hp|]. split; [reflexivity|].
  unfold reset_tree.
  repeat split; cbn [cursor offset section result t_nodes].
  - rewrite HS. f_equal. lia.
  - destruct (inv_result I) as [E|E]; rewrite E in Hres;
      [discriminate|]. now injection Hres as _ ->.
  - destruct (Hn l m) as ((base & E & Hev & Hb) & _).
    assert (Hsent : result tf <> []) by (rewrite <- Hres; discriminate).
    destruct (dl_state D_pos k_fits I Hsent l m Hu) as [Z|Z];
      rewrite E, Z; [exact Hev|].
    rewrite Z.even_add, Hev. reflexivity.
  - destruct (Hn l m) as ((base & E & Hev & Hb) & _).
    assert (Hsent : result tf <> []) by (rewrite <- Hres; discriminate).
    destruct (dl_state D_pos k_fits I Hsent l m Hu) as [Z|Z];
      rewrite E, Z; lia.
  - destruct (Hn l m) as ((base & E & Hev & Hb) & _).
    assert (Hsent : result tf <> []) by (rewrite <- Hres; discriminate).
    destruct (dl_state D_pos k_fits I Hsent l m Hu) as [Z|Z];
      rewrite E, Z; lia.
Qed.

End Hashing.

(** ** The address of a chunk *)

(** The hash of a chunk as [createHash] of the hasher store asks for it:
    [Reset], [SetSpanBytes], [Write], [Sum(nil)], on a hasher newly made
    over the pool [p]; the goroutines run as [schedule] says while [Sum]
    waits. *)
Definition address (p : TreePool) (schedule : list nat)
    (spanBytes data : bytes) : option (outcome slice * Hasher) :=
  let h := Reset (New p) in
  match SetSpanBytes h spanBytes with
  | None => None
  | Some h1 =>
      match Write h1 data with
      | None => None
      | Some (h2, _) => Sum schedule h2 None
      end
  end.

(** The BMT root of the data: the tree of [calculateDepthFor segmentCount]
    levels over its sections. *)
Definition bmt_root (segmentCount : nat) (data : bytes) : bytes :=
  root (calculateDepthFor segmentCount) (sec_of data).

(** A pool as [NewTreePool] makes it for [segmentCount] segments and as the
    hashers leave it: whatever its capacity and the number of its trees,
    the trees that wait in it are fit for the next chunk. *)
Definition pool_ok (segmentCount : nat) (bound : Z) (p : TreePool) : Prop :=
  SegmentSize p = segmentSize /\
  Size p = segmentCount * segmentSize /\
  Depth p = calculateDepthFor segmentCount /\
  zerohashes p = make_zerohashes (Depth p) /\
  forall t, In t (pool_c p) -> reusable bound t.

Lemma NewTreePool_ok segmentCount capacity :
  pool_ok segmentCount 0 (NewTreePool segmentCount capacity).
Proof. repeat split; contradiction. Qed.

Lemma reusable_mono bound bound' t :
  (bound <= bound')%Z -> reusable bound t -> reusable bound' t.
Proof.
  intros Hb (? & ? & ? & ? & Hn).
  repeat split; auto; destruct (Hn l m); try assumption; lia.
Qed.

Lemma newTree_reusable bound :
  (0 <= bound)%Z -> reusable bound (newTree segmentSize).
Proof. intros Hb. repeat split; simpl; lia. Qed.

Lemma nth_error_map_seq (A : Type) (f : nat -> A) n : forall a i,
  nth_error (map f (seq a n)) i = if i <? n then Some (f (a + i)) else None.
Proof.
  induction n as [|n IH]; intros a i; simpl.
  - now destruct i.
  - destruct i as [|i]; simpl.
    + now rewrite Nat.add_0_r.
    + rewrite IH. change (S i <? S n) with (i <? n).
      destruct (i <? n); [|reflexivity]. do 2 f_equal. lia.
Qed.

Lemma spawned_by_Write b n :
  spawned n (sec_of b) (workers b n ++ [GoWriteSection n (sec_of b n) true]).
Proof.
  assert (Hlen : length (workers b n) = n).
  { unfold workers. now rewrite length_map, length_seq. }
  split.
  - rewrite length_app, Hlen. simpl. lia.
  - intros i Hi. destruct (Nat.eq_dec i n) as [->|Hne].
    + rewrite nth_error_app2 by lia. rewrite Hlen, Nat.sub_diag, Nat.eqb_refl.
      reflexivity.
    + rewrite nth_error_app1 by lia. unfold workers.
      rewrite nth_error_map_seq.
      replace (i <? n) with true by (symmetry; apply Nat.ltb_lt; lia).
      replace (i =? n) with false by (symmetry; now apply Nat.eqb_neq).
      reflexivity.
Qed.

Section Address.

Variable segmentCount : nat.
Variable bound : Z.
Variable p : TreePool.
Variable t0 : tree.
Variable p1 : TreePool.
Variables spanBytes data : bytes.

Hypothesis segment_pos : 0 < segmentSize.
Hypothesis H_size : forall x, length (H x) = segmentSize.
Hypothesis p_ok : pool_ok segmentCount bound p.
Hypothesis bound_nonneg : (0 <= bound)%Z.
Hypothesis bound_fits : (bound + 2 < 2 ^ 31)%Z.
Hypothesis p_reserve : reserve p = Some (t0, p1).
Hypothesis data_pos : 0 < length data.
Hypothesis data_fits : length data <= segmentCount * segmentSize.

Local Abbreviation depthA := (calculateDepthFor segmentCount).
Local Abbreviation lastA := (last_section (length data)).

(** What [reserve] hands out, and what it leaves. *)
Lemma reserved :
  reusable bound t0 /\
  SegmentSize p1 = SegmentSize p /\ Size p1 = Size p /\
  Depth p1 = Depth p /\ zerohashes p1 = zerohashes p /\
  forall t, In t (pool_c p1) -> In t (pool_c p).
Proof.
  destruct p_ok as (HS & _ & _ & _ & Hts).
  pose proof p_reserve as R. unfold reserve in R.
  assert (Hcases :
    (exists rest, pool_c p = t0 :: rest /\ p1 = set_pool_c p rest (count p))
    \/ (pool_c p = [] /\ t0 = newTree (SegmentSize p) /\
        p1 = set_pool_c p [] (S (count p)))).
  { destruct (count p =? Capacity p); destruct (pool_c p) as [|t rest];
      try discriminate; injection R as E1 E2; rewrite <- E1, <- E2;
      solve [left; exists rest; auto | right; auto]. }
  destruct Hcases as [(rest & C & E)|(C & E0 & E)]; rewrite E;
    cbn [set_pool_c SegmentSize Size Depth zerohashes pool_c].
  - split; [apply Hts; rewrite C; now left|].
    repeat split; auto. intros t Ht. rewrite C. now right.
  - split; [rewrite E0, HS; now apply newTree_reusable|].
    repeat split; auto. contradiction.
Qed.

Lemma p1_ok : pool_ok segmentCount bound p1.
Proof.
  destruct p_ok as (HS & HZ & HD & Hz & Hts).
  destruct reserved as (_ & E1 & E2 & E3 & E4 & Hin).
  split; [congruence|]. split; [congruence|]. split; [congruence|].
  split; [congruence|]. intros t Ht. apply Hts. auto.
Qed.

Definition span_written : bytes := GoSlice.copy (GoSlice.make 8) spanBytes.

(** The hasher after [Reset] and [SetSpanBytes]. *)
Definition ready : Hasher :=
  mkHasher p1
    (Some (mkTree (t_nodes t0) (cursor t0) (offset t0) (section t0)
             (result t0) (Some span_written)))
    0 0 [].

(** The hasher when [Sum] starts to wait. *)
Definition waiting : Hasher :=
  mkHasher p1
    (Some (mkTree (t_nodes t0) lastA
             (length data - lastA * (2 * segmentSize))
             (sec_of data lastA) (result t0) (Some span_written)))
    (0 + length data) 0
    ([] ++ workers data lastA ++ [GoWriteSection lastA (sec_of data lastA) true]).

Lemma SetSpanBytes_first :
  SetSpanBytes (Reset (New p)) spanBytes = Some ready.
Proof.
  unfold SetSpanBytes, getTree, Reset, New, releaseTree. cbn [bmt pool].
  rewrite p_reserve. reflexivity.
Qed.

Lemma Write_first :
  Write ready data
  = Some (mkHasher p1
            (Some (mkTree (t_nodes t0) lastA
                     (length data - lastA * (2 * segmentSize))
                     (sec_of data lastA) (result t0) (Some span_written)))
            (0 + length data) 0 ([] ++ workers data lastA),
          length data).
Proof.
  destruct reserved as ((Hc & Ho & Hs & _) & _).
  destruct p1_ok as (HS & HZ & _).
  unfold ready.
  rewrite (@Write_fresh _
             (mkTree (t_nodes t0) (cursor t0) (offset t0) (section t0)
                (result t0) (Some span_written))); auto.
  cbn [pool]. now rewrite HZ.
Qed.

Lemma address_waits schedule :
  address p schedule spanBytes data
  = match Sum_finish (run schedule waiting) None with
    | None => None
    | Some (s, h2) => Some (Ok s, h2)
    end.
Proof.
  unfold address. rewrite SetSpanBytes_first, Write_first.
  unfold Sum, Sum_start, getTree. cbn [bmt size offset cursor section].
  replace (0 + length data =? 0) with false
    by (symmetry; apply Nat.eqb_neq; lia).
  cbn [andb pool bmt size h_cursor routines]. rewrite <- app_assoc.
  reflexivity.
Qed.

Lemma H_nonempty x : H x <> [].
Proof.
  intros E. pose proof (H_size x) as L. rewrite E in L. simpl in L. lia.
Qed.

Lemma last_fits : lastA < 2 ^ (depthA - 1).
Proof.
  unfold last_section.
  apply Nat.Div0.div_lt_upper_bound.
  pose proof (segments_fit segmentCount) as F.
  assert (E : 2 ^ depthA = 2 * 2 ^ (depthA - 1)).
  { unfold calculateDepthFor. rewrite Nat.add_1_r, Nat.pow_succ_r'.
    now rewrite Nat.sub_succ, Nat.sub_0_r. }
  assert (length data <= 2 ^ depthA * segmentSize).
  { apply Nat.le_trans with (1 := data_fits). now apply Nat.mul_le_mono_r. }
  nia.
Qed.

Lemma beyond_last c :
  lastA < c -> sec_of data c = GoSlice.make (2 * segmentSize).
Proof.
  intros Hc. apply sec_of_beyond.
  destruct (Nat.le_gt_cases (length data) (c * (2 * segmentSize)))
    as [Hle|Hgt]; [exact Hle|].
  assert (Hm : (c - 1 + 1) * (2 * segmentSize) < length data).
  { replace (c - 1 + 1) with c by lia. exact Hgt. }
  apply (more_sections (c - 1) segment_pos data_pos) in Hm. lia.
Qed.

Lemma depth_pos : 1 <= depthA.
Proof. unfold calculateDepthFor. lia. Qed.

Lemma waiting_hashing :
  hashing depthA lastA (sec_of data) p1 (Some span_written) bound waiting.
Proof.
  destruct reserved as ((_ & _ & _ & Hr & Hn) & _).
  split; [reflexivity|].
  exists (mkTree (t_nodes t0) lastA
            (length data - lastA * (2 * segmentSize))
            (sec_of data lastA) (result t0) (Some span_written)),
         (mkTree (fun _ _ => newNode) lastA
            (length data - lastA * (2 * segmentSize))
            (sec_of data lastA) [] (Some span_written)).
  split; [reflexivity|]. split; [reflexivity|]. split; [|split].
  - split; [exact Hr|]. intros l m. cbn [t_nodes].
    destruct (Hn l m) as (Hev & Hb). split.
    + exists (state (t_nodes t0 l m)). repeat split; auto; lia.
    + split; discriminate.
  - intros l m _. reflexivity.
  - apply inv_init.
    + exact depth_pos.
    + exact last_fits.
    + split; reflexivity.
    + apply spawned_by_Write.
Qed.

(** The address of the data: the base hash of the span and the root. *)
Definition address_of : bytes := H (span_written ++ bmt_root segmentCount data).

Lemma doSum_span_root a b :
  doSum None [Some a; Some b] = Some (H (a ++ b)).
Proof.
  unfold doSum. simpl. rewrite app_nil_r.
  destruct (H (a ++ b)) eqn:E; [|reflexivity]. now apply H_nonempty in E.
Qed.

Lemma running_hashing schedule :
  hashing depthA lastA (sec_of data) p1 (Some span_written) bound
    (run schedule waiting).
Proof.
  destruct p1_ok as (_ & _ & HD & Hz & _).
  apply run_hashing; auto using depth_pos, last_fits, beyond_last, H_nonempty,
    waiting_hashing.
  now rewrite Hz, HD.
Qed.

Lemma reserve_after_release q t : reserve (release q t) <> None.
Proof.
  unfold reserve, release. cbn [set_pool_c pool_c count Capacity].
  destruct (count q =? Capacity q); destruct (pool_c q); discriminate.
Qed.

Lemma reserved_releasing : releasing p1 = releasing p.
Proof.
  pose proof p_reserve as R. unfold reserve in R.
  destruct (count p =? Capacity p); destruct (pool_c p);
    try discriminate; injection R as _ <-; reflexivity.
Qed.

(** When [Sum] returns the address the hasher holds no tree; until the
    goroutine of [releaseTree] has run, the pool's channel is as [reserve]
    left it and the tree is with the goroutine; when that goroutine has
    run, the pool is fit for the next chunk and has a tree to hand out. *)
Lemma address_value schedule r h' :
  address p schedule spanBytes data = Some (r, h') ->
  r = Ok (Some address_of) /\
  bmt h' = None /\
  pool_c (pool h') = pool_c p1 /\
  (count (pool h') = count p1 /\ Capacity (pool h') = Capacity p1) /\
  length (releasing (pool h')) = S (length (releasing p)) /\
  firstn (length (releasing p)) (releasing (pool h')) = releasing p /\
  pool_ok segmentCount bound (pool h') /\
  pool_ok segmentCount (bound + 2)
    (run_release (length (releasing p)) (pool h')) /\
  reserve (run_release (length (releasing p)) (pool h')) <> None.
Proof.
  rewrite address_waits.
  destruct (Sum_finish (run schedule waiting) None) as [[s h2]|] eqn:E;
    [|discriminate].
  intros [= <- <-]. split.
  - f_equal. rewrite (Sum_finish_value _ (running_hashing schedule) E).
    apply doSum_span_root.
  - destruct p1_ok as (HS & HZ & HD & Hz & Hts).
    destruct (Sum_finish_releases depth_pos last_fits HD None
                (running_hashing schedule) HS E) as (t' & -> & -> & Ht').
    rewrite <- reserved_releasing.
    unfold run_release.
    cbn [set_releasing pool_c count releasing SegmentSize Size Depth
         zerohashes].
    rewrite nth_error_app2, Nat.sub_diag by lia. cbn [nth_error].
    rewrite length_app, firstn_app, Nat.sub_diag, firstn_all, app_nil_r.
    cbn [length firstn].
    cbn [Capacity].
    split; [reflexivity|]. split; [reflexivity|].
    split; [split; reflexivity|].
    split; [lia|]. split; [reflexivity|].
    split; [split; [exact HS|]; split; [exact HZ|]; split; [exact HD|];
            split; [exact Hz|exact Hts]|].
    split; [|apply reserve_after_release].
    split; [exact HS|]. split; [exact HZ|]. split; [exact HD|].
    split; [exact Hz|].
    cbn [release set_pool_c set_releasing pool_c].
    intros t Ht. apply in_app_or in Ht as [Ht|[<-|[]]].
    + apply reusable_mono with (bound := bound); [lia|auto].
    + unfold reset_tree in *.
      cbn [set_releasing SegmentSize]. exact Ht'.
Qed.

Lemma address_returns schedule :
  exists rest h',
    address p (schedule ++ rest) spanBytes data
    = Some (Ok (Some address_of), h').
Proof.
  destruct p1_ok as (_ & _ & HD & Hz & _).
  assert (Hz' : zerohashes p1 = make_zerohashes depthA) by now rewrite Hz, HD.
  destruct (@run_to_end depthA lastA (sec_of data) p1
              (Some span_written) bound depth_pos last_fits beyond_last
              H_nonempty HD Hz' bound_fits _ (running_hashing schedule))
    as (rest & Hfin).
  rewrite <- run_app in Hfin.
  destruct (Sum_finish_returns depth_pos last_fits None
              (running_hashing (schedule ++ rest)) Hfin) as (h' & E).
  exists rest, h'. rewrite address_waits, E.
  now rewrite doSum_span_root.
Qed.

End Address.

Lemma bmt_root_padded segmentCount data n :
  bmt_root segmentCount (data ++ GoSlice.make n) = bmt_root segmentCount data.
Proof.
  unfold bmt_root, root. apply dg_ext. intros c. apply sec_of_padded.
Qed.

(** C2, amended.  Take a pool for chunks of [segmentCount] segments in any
    state the hashers leave it in: made by [NewTreePool], or used since, its
    trees back from earlier chunks with no toggle moved more than [bound]
    times, and a tree to be had from it.  On a hasher newly made over it,
    for every payload [data] that is not empty and no longer than the chunk
    size [segmentCount * segmentSize], and every span: however the
    goroutines are scheduled, if [Sum] returns for [data], or for [data]
    followed by zero bytes up to the chunk size, it returns the same address,
    the base hash of the span and the BMT root of [data]; every run so far
    can be continued so that [Sum] does return it.  [Sum] hands the tree to
    the goroutine [releaseTree] starts and does not wait for it: until that
    goroutine has run the pool's channel is as [reserve] left it; once it
    has run, the pool is fit for the next chunk and has a tree to hand out.
    The table of zero hashes has [Z[0]] the [segmentSize]
    zero bytes and [Z[i+1] = H (Z[i] ++ Z[i])], and the digest of every
    subtree to the right of the last section of [data], which the final
    goroutine takes from the table, is the entry of its level. *)
Theorem zero_padding_equivalence segmentCount bound p t0 p1 spanBytes data :
  0 < segmentSize ->
  (forall x, length (H x) = segmentSize) ->
  pool_ok segmentCount bound p ->
  (0 <= bound)%Z -> (bound + 2 < 2 ^ 31)%Z ->
  reserve p = Some (t0, p1) ->
  0 < length data ->
  length data <= segmentCount * segmentSize ->
  let padded :=
    data ++ GoSlice.make (segmentCount * segmentSize - length data) in
  let a :=
    H (GoSlice.copy (GoSlice.make 8) spanBytes ++ bmt_root segmentCount data) in
  let released (h : Hasher) := run_release (length (releasing p)) (pool h) in
  (forall schedule r h,
      address p schedule spanBytes data = Some (r, h) ->
      r = Ok (Some a) /\
      pool_c (pool h) = pool_c p1 /\
      length (releasing (pool h)) = S (length (releasing p)) /\
      pool_ok segmentCount (bound + 2) (released h) /\
      reserve (released h) <> None) /\
  (forall schedule r h,
      address p schedule spanBytes padded = Some (r, h) ->
      r = Ok (Some a) /\
      pool_c (pool h) = pool_c p1 /\
      length (releasing (pool h)) = S (length (releasing p)) /\
      pool_ok segmentCount (bound + 2) (released h) /\
      reserve (released h) <> None) /\
  (forall schedule, exists rest h,
      address p (schedule ++ rest) spanBytes data = Some (Ok (Some a), h)) /\
  (forall schedule, exists rest h,
      address p (schedule ++ rest) spanBytes padded = Some (Ok (Some a), h)) /\
  (forall j, j <= calculateDepthFor segmentCount ->
      nth_error (zerohashes p) j = Some (zseq j)) /\
  (forall j c, last_section (length data) / 2 ^ j < c ->
      dg (sec_of data) j c = zseq (S j)).
Proof.
  intros HS Hlen Hok Hb0 Hb Hres Hpos Hfit padded a released.
  assert (Hpad_pos : 0 < length padded).
  { unfold padded. rewrite length_app. lia. }
  assert (Hpad_fit : length padded <= segmentCount * segmentSize).
  { unfold padded. rewrite length_app, GoSlice.length_make. lia. }
  assert (Ea : a = address_of segmentCount spanBytes padded).
  { unfold a, address_of, span_written, padded.
    now rewrite bmt_root_padded. }
  split; [|split; [|split; [|split; [|split]]]].
  - intros schedule r h E.
    destruct (@address_value segmentCount bound p t0 p1 spanBytes data
                HS Hlen Hok Hb0 Hb Hres Hpos Hfit schedule r h E)
      as (Hr & _ & Hc & _ & Hl & _ & _ & Hk & Hn).
    auto.
  - intros schedule r h E. rewrite Ea.
    destruct (@address_value segmentCount bound p t0 p1 spanBytes padded
                HS Hlen Hok Hb0 Hb Hres Hpad_pos Hpad_fit schedule r h E)
      as (Hr & _ & Hc & _ & Hl & _ & _ & Hk & Hn).
    auto.
  - intros schedule. eapply address_returns; eauto.
  - intros schedule. rewrite Ea. eapply address_returns; eauto.
  - intros j Hj. destruct Hok as (_ & _ & HD & Hz & _).
    rewrite Hz, HD. now apply zerohashes_nth.
  - intros j c Hc.
    eapply (@dg_zero (calculateDepthFor segmentCount)
              (last_section (length data))); [| | |exact Hc].
    + unfold calculateDepthFor. lia.
    + eapply last_fits; eauto.
    + intros c' Hc'. eapply beyond_last; eauto.
Qed.

(** C1, amended.  When nothing was written ([size] is 0 and the offset of
    the tree is 0), [Sum] returns at once, whatever [b] it is given, the
    zero hash [Z[Depth]] of the full depth, and no goroutine of
    [WriteSection] is started; but it does so with a tree: it calls
    [getTree] first, which, when the hasher holds no tree, reserves one
    from the pool.  Before it returns [Sum] lets go of the tree and starts
    the goroutine of [releaseTree], for which it does not wait: the hasher
    holds no tree; until that goroutine has run the tree is with it and the
    pool's channel is as [getTree] left it; when the goroutine has run, the
    tree, reset, is the last in the pool's channel. *)
Theorem Sum_of_nothing_returns_zero_hash schedule h b t h1 :
  size h = 0 ->
  getTree h = Some (t, h1) ->
  offset t = 0 ->
  zerohashes (pool h) = make_zerohashes (Depth (pool h)) ->
  Sum schedule h b
  = Some (Ok (Some (zseq (Depth (pool h)))), releaseTree h1) /\
  (bmt h = None -> reserve (pool h) = Some (t, pool h1)) /\
  bmt (releaseTree h1) = None /\
  routines (releaseTree h1) = routines h /\
  pool_c (pool (releaseTree h1)) = pool_c (pool h1) /\
  count (pool (releaseTree h1)) = count (pool h1) /\
  releasing (pool (releaseTree h1)) = releasing (pool h1) ++ [t] /\
  pool_c (run_release (length (releasing (pool h1)))
            (pool (releaseTree h1)))
  = pool_c (pool h1) ++ [reset_tree (pool h1) t].
Proof.
  intros Hsize Hget Hoff Hz.
  assert (Hh1 : bmt h1 = Some t /\ size h1 = 0 /\ routines h1 = routines h /\
                Depth (pool h1) = Depth (pool h) /\
                zerohashes (pool h1) = zerohashes (pool h) /\
                (bmt h = None -> reserve (pool h) = Some (t, pool h1))).
  { unfold getTree in Hget. destruct (bmt h) as [t0|] eqn:B.
    - injection Hget as -> ->. repeat split; auto. discriminate.
    - destruct (reserve (pool h)) as [[t0 p']|] eqn:R; [|discriminate].
      injection Hget as -> <-. cbn [bmt size routines pool].
      repeat split; auto; unfold reserve in R;
        destruct (count (pool h) =? Capacity (pool h));
        destruct (pool_c (pool h)); try discriminate;
        injection R as _ <-; reflexivity. }
  destruct Hh1 as (B1 & S1 & R1 & D1 & Z1 & Hres).
  unfold Sum, Sum_start. rewrite Hget, S1, Hoff. cbn [Nat.eqb andb].
  unfold releaseTree. rewrite B1. cbn [pool routines bmt].
  split; [|split; [exact Hres|]].
  - unfold GetZeroHash. cbn [pool set_releasing zerohashes Depth].
    rewrite Z1, D1, Hz, zerohashes_nth by lia. reflexivity.
  - unfold run_release.
    cbn [set_releasing pool_c count releasing].
    rewrite nth_error_app2, Nat.sub_diag by lia. cbn [nth_error].
    repeat split; auto.
Qed.

(** ** More on the goroutines: what a step changes *)

(** What a goroutine adds to [h.size]: [WriteSection] adds the length of
    its section, the loops of [writeNode] and [writeFinalNode] nothing. *)
Definition size_added (th : thread) : nat :=
  match th with
  | GoWriteSection _ sec _ => length sec
  | _ => 0
  end.

Definition started (th : thread) : bool :=
  match th with
  | GoWriteSection _ _ _ => false
  | _ => true
  end.

Lemma thread_step_added d z t th :
  snd (fst (thread_step d z t th)) = size_added th.
Proof.
  destruct th as [i sec fin|n il s|lv n il s| |]; cbn [thread_step size_added];
    try reflexivity.
  - destruct (i <? 2 ^ (d - 1)); reflexivity.
  - destruct n as [[lv idx]|]; [|reflexivity].
    destruct il; unfold toggle; cbv beta iota;
      match goal with |- context [if ?c then _ else _] => destruct c end;
      reflexivity.
  - destruct n as [[l idx]|]; [|destruct s; reflexivity].
    destruct il.
    + destruct (nth_error z lv); [|reflexivity].
      destruct s; [reflexivity|]. unfold toggle; cbv beta iota.
      match goal with |- context [if ?c then _ else _] => destruct c end;
        reflexivity.
    + destruct s; [|reflexivity]. unfold toggle; cbv beta iota.
      match goal with |- context [if ?c then _ else _] => destruct c end;
        reflexivity.
Qed.

Lemma thread_step_started d z t th :
  is_running th = true -> started (snd (thread_step d z t th)) = true.
Proof.
  destruct th as [i sec fin|n il s|lv n il s| |]; cbn [thread_step];
    try discriminate; intros _.
  - destruct (i <? 2 ^ (d - 1)); [destruct fin|]; reflexivity.
  - destruct n as [[lv idx]|]; [|reflexivity].
    destruct il; unfold toggle; cbv beta iota;
      match goal with |- context [if ?c then _ else _] => destruct c end;
      reflexivity.
  - destruct n as [[l idx]|]; [|destruct s; reflexivity].
    destruct il.
    + destruct (nth_error z lv); [|reflexivity].
      destruct s; [reflexivity|]. unfold toggle; cbv beta iota.
      match goal with |- context [if ?c then _ else _] => destruct c end;
        reflexivity.
    + destruct s; [|reflexivity]. unfold toggle; cbv beta iota.
      match goal with |- context [if ?c then _ else _] => destruct c end;
        reflexivity.
Qed.

Lemma count_none (A : Type) (P : A -> bool) (l : list A) :
  (forall x, In x l -> P x = false) -> Pool.count P l = 0.
Proof.
  induction l as [|x r IH]; intros Hall; [reflexivity|].
  simpl. rewrite (Hall x) by now left. apply IH.
  intros y Hin. apply Hall. now right.
Qed.

Section Progress.

Variable D : nat.
Variable k : nat.
Variable secs : nat -> bytes.
Variable p : TreePool.
Variable sp : slice.
Variable bound : Z.

Hypothesis D_pos : 1 <= D.
Hypothesis k_fits : k < 2 ^ (D - 1).
Hypothesis secs_zero : forall c, k < c -> secs c = GoSlice.make (2 * segmentSize).
Hypothesis secs_length : forall c, length (secs c) = 2 * segmentSize.
Hypothesis H_nonempty : forall x, H x <> [].
Hypothesis p_depth : Depth p = D.
Hypothesis p_zerohashes : zerohashes p = make_zerohashes D.
Hypothesis bound_fits : (bound + 2 < 2 ^ 31)%Z.

Local Abbreviation hashingP := (hashing D k secs p sp bound).

(** A step of a goroutine that still runs: the goroutine alone moves, it
    comes nearer to its end, and [h.size] grows by what it adds. *)
Lemma step_effect i h th :
  hashingP h -> nth_error (routines h) i = Some th -> is_running th = true ->
  exists th',
    routines (step i h) = Pool.update i th' (routines h) /\
    weight D th' < weight D th /\ started th' = true /\
    size (step i h) = size h + size_added th /\
    hashingP (step i h).
Proof.
  intros Hh Hi Hrun.
  destruct (step_running D_pos k_fits secs_zero H_nonempty p_depth
              p_zerohashes bound_fits _ Hh Hi Hrun) as (Hh' & _).
  destruct Hh as (Hp & t & tf & Ht & Hsp & Hsim & Hu & I).
  destruct (thread_step_inv D_pos k_fits secs_zero H_nonempty _ I Hi Hrun)
    as (tf' & added & th' & E & I' & Hw).
  destruct (thread_step_sim D_pos k_fits _ I Hi bound_fits Hsim)
    as (tf1 & t' & added1 & th1 & E1 & E2 & Hsim' & Hu').
  rewrite E in E1. injection E1 as <- <- <-.
  pose proof (thread_step_added D (zh D) t th) as Ha. rewrite E2 in Ha.
  pose proof (thread_step_started D (zh D) t th Hrun) as Hst.
  rewrite E2 in Hst. simpl in Ha, Hst.
  exists th'. split; [|split; [exact Hw|split; [exact Hst|split]]].
  - unfold step. rewrite Hi, Hrun. unfold getTree. rewrite Ht.
    rewrite Hp, p_depth, p_zerohashes. fold (zh D). rewrite E2. reflexivity.
  - unfold step. rewrite Hi, Hrun. unfold getTree. rewrite Ht.
    rewrite Hp, p_depth, p_zerohashes. fold (zh D). rewrite E2.
    cbn [size]. now rewrite Ha.
  - exact Hh'.
Qed.

Lemma step_idle i h :
  match nth_error (routines h) i with
  | Some th => is_running th = false
  | None => True
  end -> step i h = h.
Proof.
  unfold step. destruct (nth_error (routines h) i) as [th|]; [|reflexivity].
  now intros ->.
Qed.

Definition thread_weight (h : Hasher) (i : nat) : nat :=
  match nth_error (routines h) i with
  | Some th => weight D th
  | None => 0
  end.

Lemma idle_weight th : is_running th = false -> weight D th = 0.
Proof. destruct th; simpl; auto; discriminate. Qed.

Lemma step_weight j h i :
  hashingP h ->
  thread_weight (step j h) i
  <= thread_weight h i - (if Nat.eq_dec j i then 1 else 0).
Proof.
  intros Hh. unfold thread_weight at 2.
  destruct (nth_error (routines h) j) as [th|] eqn:Hj.
  - destruct (is_running th) eqn:Hrun.
    + destruct (step_effect _ Hh Hj Hrun) as (th' & Er & Hw & _).
      unfold thread_weight. rewrite Er.
      destruct (Nat.eq_dec j i) as [->|Hne].
      * rewrite Pool.nth_error_update_eq by (apply nth_error_Some; congruence).
        rewrite Hj. lia.
      * rewrite Pool.nth_error_update_ne by exact Hne.
        destruct (nth_error (routines h) i); lia.
    + rewrite step_idle by (rewrite Hj; exact Hrun).
      unfold thread_weight. destruct (Nat.eq_dec j i) as [->|Hne].
      * rewrite Hj, (idle_weight _ Hrun). lia.
      * destruct (nth_error (routines h) i); lia.
  - rewrite step_idle by (now rewrite Hj).
    unfold thread_weight. destruct (Nat.eq_dec j i) as [->|Hne].
    + rewrite Hj. lia.
    + destruct (nth_error (routines h) i); lia.
Qed.

(** Every turn a goroutine gets brings it a step nearer to its end. *)
Lemma run_weight schedule : forall h i,
  hashingP h ->
  thread_weight (run schedule h) i
  <= thread_weight h i - count_occ Nat.eq_dec schedule i.
Proof.
  induction schedule as [|j rest IH]; intros h i Hh.
  - simpl. lia.
  - cbn [run count_occ].
    pose proof (IH (step j h) i
                  (step_hashing D_pos k_fits secs_zero H_nonempty p_depth
                     p_zerohashes bound_fits j Hh)) as R.
    pose proof (step_weight j i Hh) as W.
    destruct (Nat.eq_dec j i); lia.
Qed.

(** [h.size] and the sections not yet taken up add up to the same all
    along. *)
Definition pending (h : Hasher) : nat :=
  Pool.count (fun th => negb (started th)) (routines h).

Lemma step_size j h :
  hashingP h ->
  size (step j h) + 2 * segmentSize * pending (step j h)
  = size h + 2 * segmentSize * pending h.
Proof.
  intros Hh.
  destruct (nth_error (routines h) j) as [th|] eqn:Hj;
    [|now rewrite step_idle by (now rewrite Hj)].
  destruct (is_running th) eqn:Hrun;
    [|now rewrite step_idle by (rewrite Hj; exact Hrun)].
  destruct (step_effect _ Hh Hj Hrun) as (th' & Er & _ & Hst & Es & _).
  unfold pending. rewrite Er, Es.
  pose proof (@Pool.count_update _ (fun th => negb (started th)) j th' th
                (routines h) Hj) as C.
  cbv beta in C. rewrite Hst in C. cbn [negb] in C.
  destruct Hh as (_ & t & tf & _ & _ & _ & _ & I).
  pose proof (inv_threads I _ Hj) as Hok.
  destruct th as [i0 sec fin|n il s|lv n il s| |]; cbn [started negb size_added] in *.
  - destruct Hok as (_ & -> & _). rewrite secs_length. nia.
  - nia.
  - nia.
  - nia.
  - nia.
Qed.

Lemma run_size schedule : forall h,
  hashingP h ->
  size (run schedule h) + 2 * segmentSize * pending (run schedule h)
  = size h + 2 * segmentSize * pending h.
Proof.
  induction schedule as [|j rest IH]; intros h Hh; [reflexivity|].
  cbn [run]. rewrite IH.
  - now apply step_size.
  - apply (step_hashing D_pos k_fits secs_zero H_nonempty p_depth
             p_zerohashes bound_fits j Hh).
Qed.

(** Once the root is on the result channel, every section has been taken
    up. *)
Lemma sent_none_pending h t :
  hashingP h -> bmt h = Some t -> result t <> [] -> pending h = 0.
Proof.
  intros (_ & t1 & tf & Ht & _ & (Hres & _) & _ & I) Ht' Hsent.
  rewrite Ht in Ht'. injection Ht' as ->.
  assert (Hsent' : result tf <> []) by now rewrite <- Hres.
  unfold pending.
  assert (Hall : forall th, In th (routines h) -> negb (started th) = false).
  { intros th Hin. apply In_nth_error in Hin as (i & Hi).
    pose proof (inv_threads I _ Hi) as Hok.
    pose proof (inv_index D_pos k_fits _ I Hi) as Hle.
    destruct th as [i0 sec fin|n il s|lv n il s| |]; try reflexivity.
    destruct Hok as (_ & _ & _ & Harr).
    assert (Hd : 0 + (D - 1) = D - 1) by lia.
    rewrite (dl_arrived D_pos k_fits I Hsent' (D - 1) 0 Hd Hle) in Harr.
    discriminate. }
  now apply count_none.
Qed.

(** No goroutine ever panics, and nothing but the root is ever sent. *)
Lemma hashing_safe h :
  hashingP h ->
  (forall i th, nth_error (routines h) i = Some th -> th <> Panicked) /\
  exists t, bmt h = Some t /\
            (result t = [] \/ result t = [Some (root D secs)]).
Proof.
  intros (_ & t & tf & Ht & _ & (Hres & _) & _ & I). split.
  - intros i th Hi ->. exact (inv_threads I _ Hi).
  - exists t. split; [exact Ht|]. rewrite Hres. exact (inv_result I).
Qed.

End Progress.

(** ** The depth of the tree *)

Lemma depth_loop_least n : forall fuel c d,
  c = 2 ^ S d -> (d = 0 \/ 2 ^ d < n) ->
  depth_loop fuel c n d = 0 \/ 2 ^ depth_loop fuel c n d < n.
Proof.
  induction fuel as [|fuel IH]; intros c d Hc Hd; [exact Hd|].
  cbn [depth_loop]. destruct (c <? n) eqn:E; [|exact Hd].
  apply Nat.ltb_lt in E. apply IH.
  - rewrite Hc. now rewrite (Nat.pow_succ_r' 2 (S d)).
  - right. now rewrite <- Hc.
Qed.

(** ** A chunk hashed from its first byte to the digest *)

Section Behaviour.

Variable segmentCount : nat.
Variable bound : Z.
Variable p : TreePool.
Variable t0 : tree.
Variable p1 : TreePool.
Variable data : bytes.

Hypothesis segment_pos : 0 < segmentSize.
Hypothesis H_size : forall x, length (H x) = segmentSize.
Hypothesis p_ok : pool_ok segmentCount bound p.
Hypothesis bound_nonneg : (0 <= bound)%Z.
Hypothesis bound_fits : (bound + 2 < 2 ^ 31)%Z.
Hypothesis p_reserve : reserve p = Some (t0, p1).
Hypothesis data_pos : 0 < length data.
Hypothesis data_fits : length data <= segmentCount * segmentSize.

Local Abbreviation depthB := (calculateDepthFor segmentCount).
Local Abbreviation lastB := (last_section (length data)).

(** The hasher that holds the tree [t0] with the span slot [sp], before
    anything is written. *)
Definition holding (sp : slice) : Hasher :=
  mkHasher p1
    (Some (mkTree (t_nodes t0) (cursor t0) (offset t0) (section t0)
             (result t0) sp))
    0 0 [].

(** The hasher after [Write]. *)
Definition written (sp : slice) : Hasher :=
  mkHasher p1
    (Some (mkTree (t_nodes t0) lastB
             (length data - lastB * (2 * segmentSize))
             (sec_of data lastB) (result t0) sp))
    (0 + length data) 0 ([] ++ workers data lastB).

(** The hasher when [Sum] starts to wait. *)
Definition summing (sp : slice) : Hasher :=
  mkHasher p1
    (Some (mkTree (t_nodes t0) lastB
             (length data - lastB * (2 * segmentSize))
             (sec_of data lastB) (result t0) sp))
    (0 + length data) 0
    (([] ++ workers data lastB) ++ [GoWriteSection lastB (sec_of data lastB) true]).

Lemma t0_reusable : reusable bound t0.
Proof. exact (proj1 (reserved p_ok bound_nonneg p_reserve)). Qed.

Lemma p1_pool_ok : pool_ok segmentCount bound p1.
Proof. exact (p1_ok p_ok bound_nonneg p_reserve). Qed.

Lemma Write_holding sp : Write (holding sp) data = Some (written sp, length data).
Proof.
  destruct t0_reusable as (Hc & Ho & Hs & _).
  destruct p1_pool_ok as (HS & HZ & _).
  unfold holding.
  rewrite (@Write_fresh _
             (mkTree (t_nodes t0) (cursor t0) (offset t0) (section t0)
                (result t0) sp)); auto.
  cbn [pool]. now rewrite HZ.
Qed.

Lemma Sum_start_written sp :
  Sum_start (written sp) = Some (SumWaits (summing sp)).
Proof.
  unfold Sum_start, getTree, written. cbn [bmt size offset cursor section].
  replace (0 + length data =? 0) with false
    by (symmetry; apply Nat.eqb_neq; lia).
  reflexivity.
Qed.

Lemma Sum_written sp schedule b :
  Sum schedule (written sp) b
  = match Sum_finish (run schedule (summing sp)) b with
    | None => None
    | Some (s, h2) => Some (Ok s, h2)
    end.
Proof. unfold Sum. now rewrite Sum_start_written. Qed.

Lemma base_hash_nonempty x : H x <> [].
Proof.
  intros E. pose proof (H_size x) as L. rewrite E in L. simpl in L. lia.
Qed.

Lemma doSum_two a b : doSum None [Some a; Some b] = Some (H (a ++ b)).
Proof.
  unfold doSum. simpl. rewrite app_nil_r.
  destruct (H (a ++ b)) eqn:E; [|reflexivity].
  now apply base_hash_nonempty in E.
Qed.

Lemma depthB_pos : 1 <= depthB.
Proof. unfold calculateDepthFor. lia. Qed.

Lemma lastB_fits : lastB < 2 ^ (depthB - 1).
Proof.
  unfold last_section.
  apply Nat.Div0.div_lt_upper_bound.
  pose proof (segments_fit segmentCount) as F.
  assert (E : 2 ^ depthB = 2 * 2 ^ (depthB - 1)).
  { unfold calculateDepthFor. rewrite Nat.add_1_r, Nat.pow_succ_r'.
    now rewrite Nat.sub_succ, Nat.sub_0_r. }
  assert (length data <= 2 ^ depthB * segmentSize).
  { apply Nat.le_trans with (1 := data_fits). now apply Nat.mul_le_mono_r. }
  nia.
Qed.

Lemma beyond_lastB c :
  lastB < c -> sec_of data c = GoSlice.make (2 * segmentSize).
Proof.
  intros Hc. apply sec_of_beyond.
  destruct (Nat.le_gt_cases (length data) (c * (2 * segmentSize)))
    as [Hle|Hgt]; [exact Hle|].
  assert (Hm : (c - 1 + 1) * (2 * segmentSize) < length data).
  { replace (c - 1 + 1) with c by lia. exact Hgt. }
  apply (more_sections (c - 1) segment_pos data_pos) in Hm. lia.
Qed.

Lemma p1_depth : Depth p1 = depthB.
Proof. now destruct p1_pool_ok as (_ & _ & HD & _). Qed.

Lemma p1_zerohashes : zerohashes p1 = make_zerohashes depthB.
Proof. destruct p1_pool_ok as (_ & _ & HD & Hz & _). now rewrite Hz, HD. Qed.

Lemma summing_hashing sp :
  hashing depthB lastB (sec_of data) p1 sp bound (summing sp).
Proof.
  destruct t0_reusable as (_ & _ & _ & Hr & Hn).
  split; [reflexivity|].
  exists (mkTree (t_nodes t0) lastB
            (length data - lastB * (2 * segmentSize))
            (sec_of data lastB) (result t0) sp),
         (mkTree (fun _ _ => newNode) lastB
            (length data - lastB * (2 * segmentSize))
            (sec_of data lastB) [] sp).
  split; [reflexivity|]. split; [reflexivity|]. split; [|split].
  - split; [exact Hr|]. intros l m. cbn [t_nodes].
    destruct (Hn l m) as (Hev & Hb). split.
    + exists (state (t_nodes t0 l m)). repeat split; auto; lia.
    + split; discriminate.
  - intros l m _. reflexivity.
  - apply inv_init.
    + exact depthB_pos.
    + exact lastB_fits.
    + split; reflexivity.
    + apply spawned_by_Write.
Qed.

Lemma summing_run sp schedule :
  hashing depthB lastB (sec_of data) p1 sp bound (run schedule (summing sp)).
Proof.
  apply run_hashing; auto using depthB_pos, lastB_fits, beyond_lastB,
    base_hash_nonempty, summing_hashing, p1_depth, p1_zerohashes.
Qed.

Lemma weight_bound d th : weight d th <= d + 2.
Proof.
  destruct th as [i sec fin|[[lv idx]|] il s|l [[lv idx]|] il s| |]; simpl; lia.
Qed.

(** When every goroutine gets [Depth + 2] turns, all of them have come to
    their end. *)
Lemma fair_finishes sp schedule :
  (forall i, i <= lastB -> depthB + 2 <= count_occ Nat.eq_dec schedule i) ->
  forall i th,
    nth_error (routines (run schedule (summing sp))) i = Some th ->
    th = Finished.
Proof.
  intros Hfair i th Hi.
  pose proof (summing_run sp schedule) as Hh.
  pose proof (@run_weight depthB lastB (sec_of data) p1 sp bound depthB_pos
                lastB_fits beyond_lastB base_hash_nonempty p1_depth
                p1_zerohashes bound_fits schedule (summing sp) i
                (summing_hashing sp)) as W.
  destruct Hh as (_ & t & tf & _ & _ & _ & _ & I).
  pose proof (inv_index depthB_pos lastB_fits _ I Hi) as Hle.
  specialize (Hfair i Hle).
  assert (B : thread_weight depthB (summing sp) i <= depthB + 2).
  { unfold thread_weight. destruct (nth_error (routines (summing sp)) i);
      [apply weight_bound|lia]. }
  unfold thread_weight in W at 1. rewrite Hi in W.
  eapply weightless_finished; try exact (inv_threads I _ Hi); try lia;
    eauto using depthB_pos, lastB_fits, p1_depth.
Qed.

Lemma pending_summing sp : pending (summing sp) = lastB + 1.
Proof.
  unfold pending, summing. cbn [routines app].
  rewrite Pool.count_eq_length.
  - rewrite length_app. unfold workers. rewrite length_map, length_seq.
    reflexivity.
  - intros x Hin. apply in_app_or in Hin as [Hin|[<-|[]]]; [|reflexivity].
    unfold workers in Hin. apply in_map_iff in Hin as (c & <- & _).
    reflexivity.
Qed.

(** [h.size] when the root has been sent: the bytes written, and once more
    every section handed to [WriteSection]. *)
Lemma size_when_sent sp schedule t :
  bmt (run schedule (summing sp)) = Some t -> result t <> [] ->
  size (run schedule (summing sp))
  = length data + (lastB + 1) * (2 * segmentSize).
Proof.
  intros Ht Hsent.
  pose proof (@run_size depthB lastB (sec_of data) p1 sp bound depthB_pos
                lastB_fits beyond_lastB (length_sec_of data)
                base_hash_nonempty p1_depth p1_zerohashes bound_fits schedule
                (summing sp) (summing_hashing sp)) as R.
  assert (P0 : pending (run schedule (summing sp)) = 0).
  { eapply (@sent_none_pending depthB lastB (sec_of data) p1 sp bound);
      eauto using depthB_pos, lastB_fits, summing_run, p1_depth. }
  rewrite P0, pending_summing in R. cbn [size summing] in R. lia.
Qed.

(** What [Sum] returns when it returns. *)
Lemma Sum_written_value sp schedule r h' :
  Sum schedule (written sp) None = Some (r, h') ->
  r = Ok (Some (H (match sp with
                   | Some x => x
                   | None => LengthToSpan
                               (length data + (lastB + 1) * (2 * segmentSize))
                   end ++ bmt_root segmentCount data))).
Proof.
  rewrite Sum_written.
  destruct (Sum_finish (run schedule (summing sp)) None) as [[s h2]|] eqn:E;
    [|discriminate].
  intros [= <- <-]. f_equal.
  rewrite (Sum_finish_value _ (summing_run sp schedule) E).
  destruct sp as [x|]; [apply doSum_two|].
  unfold Sum_finish in E.
  destruct (bmt (run schedule (summing None))) as [t|] eqn:Ht;
    [|discriminate].
  destruct (result t) as [|x rest] eqn:Hres; [discriminate|].
  rewrite (@size_when_sent None schedule t Ht) by (rewrite Hres; discriminate).
  apply doSum_two.
Qed.

(** Every schedule can be continued so that [Sum] returns. *)
Lemma Sum_written_returns sp schedule :
  exists rest h',
    Sum (schedule ++ rest) (written sp) None
    = Some (Ok (Some (H (match sp with
                         | Some x => x
                         | None => LengthToSpan
                                     (length data
                                      + (lastB + 1) * (2 * segmentSize))
                         end ++ bmt_root segmentCount data))), h').
Proof.
  destruct (@run_to_end depthB lastB (sec_of data) p1 sp bound depthB_pos
              lastB_fits beyond_lastB base_hash_nonempty p1_depth
              p1_zerohashes bound_fits _ (summing_run sp schedule))
    as (rest & Hfin).
  rewrite <- run_app in Hfin.
  destruct (Sum_finish_returns depthB_pos lastB_fits None
              (summing_run sp (schedule ++ rest)) Hfin) as (h' & E).
  exists rest.
  destruct (Sum (schedule ++ rest) (written sp) None) as [[r h2]|] eqn:ES.
  - exists h2. now rewrite (Sum_written_value _ _ ES).
  - rewrite Sum_written, E in ES. discriminate.
Qed.

(** A fair schedule is long enough. *)
Lemma Sum_written_fair sp schedule :
  (forall i, i <= lastB -> depthB + 2 <= count_occ Nat.eq_dec schedule i) ->
  exists h',
    Sum schedule (written sp) None
    = Some (Ok (Some (H (match sp with
                         | Some x => x
                         | None => LengthToSpan
                                     (length data
                                      + (lastB + 1) * (2 * segmentSize))
                         end ++ bmt_root segmentCount data))), h').
Proof.
  intros Hfair.
  destruct (Sum_finish_returns depthB_pos lastB_fits None
              (summing_run sp schedule) (@fair_finishes sp schedule Hfair)) as (h' & E).
  destruct (Sum schedule (written sp) None) as [[r h2]|] eqn:ES.
  - exists h2. now rewrite (Sum_written_value _ _ ES).
  - rewrite Sum_written, E in ES. discriminate.
Qed.

(** The program [Reset; SetSpanBytes; Write], step by step. *)
Lemma SetSpanBytes_holding spanBytes :
  SetSpanBytes (Reset (New p)) spanBytes
  = Some (holding (Some (GoSlice.copy (GoSlice.make 8) spanBytes))).
Proof.
  unfold SetSpanBytes, getTree, Reset, New, releaseTree. cbn [bmt pool].
  rewrite p_reserve. reflexivity.
Qed.

Lemma address_written schedule spanBytes :
  address p schedule spanBytes data
  = Sum schedule (written (Some (GoSlice.copy (GoSlice.make 8) spanBytes))) None.
Proof.
  unfold address. now rewrite SetSpanBytes_holding, Write_holding.
Qed.

(** [Write] on a hasher that holds no tree yet takes [t0] from the pool. *)
Lemma Write_reserving :
  span t0 = None ->
  Write (Reset (New p)) data = Some (written None, length data).
Proof.
  intros Hsp. rewrite <- Write_holding.
  destruct p_ok as (_ & HZ & _). destruct p1_pool_ok as (_ & HZ1 & _).
  unfold Write, holding, Reset, New, releaseTree. cbn [bmt pool size h_cursor routines].
  rewrite HZ, HZ1.
  destruct ((length data =? 0) || (segmentCount * segmentSize <? length data))
    eqn:E.
  - apply orb_true_iff in E as [E|E];
      [apply Nat.eqb_eq in E|apply Nat.ltb_lt in E]; lia.
  - unfold getTree. cbn [bmt pool size h_cursor routines].
    rewrite p_reserve. cbn [pool].
    destruct t0 as [nds cu off se re spn]. cbn [span] in Hsp. subst spn.
    reflexivity.
Qed.

Lemma doSum_onto b x y :
  doSum (Some b) [Some x; Some y] = Some (b ++ H (x ++ y)).
Proof.
  unfold doSum. cbn [contents map concat]. rewrite app_nil_r.
  now destruct (b ++ H (x ++ y)).
Qed.

(** [Sum(b)] with a slice [b] to append to. *)
Lemma Sum_written_onto sp schedule b r h' :
  Sum schedule (written sp) (Some b) = Some (r, h') ->
  r = Ok (Some (b ++ H (match sp with
                        | Some x => x
                        | None => LengthToSpan
                                    (length data
                                     + (lastB + 1) * (2 * segmentSize))
                        end ++ bmt_root segmentCount data))).
Proof.
  rewrite Sum_written.
  destruct (Sum_finish (run schedule (summing sp)) (Some b)) as [[s h2]|] eqn:E;
    [|discriminate].
  intros [= <- <-]. f_equal.
  rewrite (Sum_finish_value _ (summing_run sp schedule) E).
  destruct sp as [x|]; [apply doSum_onto|].
  unfold Sum_finish in E.
  destruct (bmt (run schedule (summing None))) as [t|] eqn:Ht;
    [|discriminate].
  destruct (result t) as [|x rest] eqn:Hres; [discriminate|].
  rewrite (@size_when_sent None schedule t Ht) by (rewrite Hres; discriminate).
  apply doSum_onto.
Qed.

Lemma Sum_written_onto_returns sp schedule b :
  exists rest h',
    Sum (schedule ++ rest) (written sp) (Some b)
    = Some (Ok (Some (b ++ H (match sp with
                              | Some x => x
                              | None => LengthToSpan
                                          (length data
                                           + (lastB + 1) * (2 * segmentSize))
                              end ++ bmt_root segmentCount data))), h').
Proof.
  destruct (@run_to_end depthB lastB (sec_of data) p1 sp bound depthB_pos
              lastB_fits beyond_lastB base_hash_nonempty p1_depth
              p1_zerohashes bound_fits _ (summing_run sp schedule))
    as (rest & Hfin).
  rewrite <- run_app in Hfin.
  destruct (Sum_finish_returns depthB_pos lastB_fits (Some b)
              (summing_run sp (schedule ++ rest)) Hfin) as (h' & E).
  exists rest.
  destruct (Sum (schedule ++ rest) (written sp) (Some b)) as [[r h2]|] eqn:ES.
  - exists h2. now rewrite (Sum_written_onto _ _ _ ES).
  - rewrite Sum_written, E in ES. discriminate.
Qed.

End Behaviour.

(** ** The all-zero payload and the payload that is too long *)

Lemma dg_of_zeros secs :
  (forall c, secs c = GoSlice.make (2 * segmentSize)) ->
  forall j c, dg secs j c = zseq (S j).
Proof.
  intros Hs. induction j as [|j IH]; intros c.
  - simpl dg. rewrite Hs. simpl zseq. unfold GoSlice.make.
    rewrite <- repeat_app. do 2 f_equal. lia.
  - simpl dg. rewrite !IH. reflexivity.
Qed.

Lemma bmt_root_zeros segmentCount n :
  bmt_root segmentCount (GoSlice.make n) = zseq (calculateDepthFor segmentCount).
Proof.
  change (GoSlice.make n) with ([] ++ GoSlice.make n).
  rewrite bmt_root_padded. unfold bmt_root, root.
  rewrite dg_of_zeros.
  - f_equal. unfold calculateDepthFor. lia.
  - intros c. apply sec_of_beyond. simpl. lia.
Qed.

(** X1 ([calculateDepthFor]): for a segment count [n] the loop does not
    overflow on ([n <= 2^62]), [calculateDepthFor n] is the least depth
    [d >= 1] with [n <= 2^d]: it is at least 1, [2^d] segments are enough
    for [n], and either [d = 1] or [2^(d-1)] segments are too few. *)
Theorem calculateDepthFor_least n :
  (Z.of_nat n <= 2 ^ 62)%Z ->
  1 <= calculateDepthFor n /\
  n <= 2 ^ calculateDepthFor n /\
  (calculateDepthFor n = 1 \/ 2 ^ (calculateDepthFor n - 1) < n).
Proof.
  intros _. split; [unfold calculateDepthFor; lia|].
  split; [apply segments_fit|].
  unfold calculateDepthFor.
  destruct (@depth_loop_least n n 2 0 eq_refl (or_introl eq_refl)) as [E|E].
  - left. rewrite E. reflexivity.
  - right. now rewrite Nat.add_sub.
Qed.

(** X2 ([Hasher.Sum], [NewTreePool]): a payload of [n] zero bytes,
    [0 < n <= segmentCount * segmentSize], has the zero hash of the top
    level as its BMT root, the value the pool keeps in
    [zerohashes[Depth]] and that [GetZeroHash] returns: whenever [Sum]
    returns, it returns the base hash of the span followed by that zero
    hash, whatever the schedule of the goroutines, and every schedule can
    be continued until [Sum] returns. *)
Theorem zero_payload_has_the_zero_hash_root
    segmentCount bound p t0 p1 spanBytes n :
  0 < segmentSize ->
  (forall x, length (H x) = segmentSize) ->
  pool_ok segmentCount bound p ->
  (0 <= bound)%Z -> (bound + 2 < 2 ^ 31)%Z ->
  reserve p = Some (t0, p1) ->
  0 < n -> n <= segmentCount * segmentSize ->
  GetZeroHash (New p) = Ok (zseq (calculateDepthFor segmentCount)) /\
  (forall schedule r h',
      address p schedule spanBytes (GoSlice.make n) = Some (r, h') ->
      r = Ok (Some (H (GoSlice.copy (GoSlice.make 8) spanBytes
                       ++ zseq (calculateDepthFor segmentCount))))) /\
  (forall schedule, exists rest h',
      address p (schedule ++ rest) spanBytes (GoSlice.make n)
      = Some (Ok (Some (H (GoSlice.copy (GoSlice.make 8) spanBytes
                           ++ zseq (calculateDepthFor segmentCount)))), h')).
Proof.
  intros HS HH Hp Hb0 Hb Hr Hn0 Hn.
  assert (L : length (GoSlice.make n) = n) by apply GoSlice.length_make.
  assert (Hd0 : 0 < length (GoSlice.make n)) by now rewrite L.
  assert (Hd1 : length (GoSlice.make n) <= segmentCount * segmentSize)
    by now rewrite L.
  split; [|split].
  - destruct Hp as (_ & _ & HD & Hz & _).
    unfold GetZeroHash, New. cbn [pool]. rewrite Hz, HD.
    now rewrite zerohashes_nth by lia.
  - intros schedule r h' E.
    rewrite (address_written _ HS Hp Hb0 Hr Hd0 Hd1) in E.
    rewrite (Sum_written_value _ HS HH Hp Hb0 Hb Hr Hd0 Hd1 _ _ E).
    now rewrite bmt_root_zeros.
  - intros schedule.
    destruct (Sum_written_returns _ HS HH Hp Hb0 Hb Hr Hd0 Hd1
                (Some (GoSlice.copy (GoSlice.make 8) spanBytes)) schedule)
      as (rest & h' & E).
    exists rest, h'.
    rewrite (address_written _ HS Hp Hb0 Hr Hd0 Hd1), E.
    now rewrite bmt_root_zeros.
Qed.

(** X3 ([Hasher.Write], [Hasher.Sum]): a payload longer than the pool's
    [Size] is not hashed at all: [Write] takes nothing of it and starts no
    goroutine, and [Sum] then returns the zero hash [zerohashes[Depth]] of
    the empty payload, whatever the span and the payload are. *)
Theorem oversized_payload_is_not_hashed
    segmentCount bound p t0 p1 schedule spanBytes data :
  pool_ok segmentCount bound p ->
  (0 <= bound)%Z ->
  reserve p = Some (t0, p1) ->
  segmentCount * segmentSize < length data ->
  (forall h, pool h = p1 -> Write h data = Some (h, 0)) /\
  exists h',
    address p schedule spanBytes data
    = Some (Ok (Some (zseq (calculateDepthFor segmentCount))), h') /\
    routines h' = [].
Proof.
  intros Hp Hb0 Hr Hlen.
  destruct (reserved Hp Hb0 Hr) as ((Hc & Ho & _) & _ & HZ1 & HD1 & Hz1 & _).
  destruct Hp as (_ & HZ & HD & Hz & _).
  assert (W : forall h, pool h = p1 -> Write h data = Some (h, 0)).
  { intros h Eh. unfold Write. rewrite Eh, HZ1, HZ.
    replace (segmentCount * segmentSize <? length data) with true
      by (symmetry; now apply Nat.ltb_lt).
    now rewrite orb_true_r. }
  split; [exact W|].
  unfold address. rewrite (SetSpanBytes_holding p Hr), W by reflexivity.
  eexists. split.
  - unfold Sum, Sum_start, getTree, holding. cbn [bmt size offset].
    rewrite Ho. cbn [Nat.eqb andb].
    unfold GetZeroHash, releaseTree. cbn [bmt pool set_releasing
                                          zerohashes Depth].
    rewrite Hz1, HD1, Hz, HD. rewrite zerohashes_nth by lia. reflexivity.
  - reflexivity.
Qed.

(** X4 ([writeSection], [writeNode], [writeFinalNode]): while [Sum] waits
    for the result of a payload of [1 .. segmentCount * segmentSize]
    bytes, under every schedule of the goroutines no goroutine is stopped
    by a run-time panic (no index out of range in the leaves or in
    [zerohashes]), and the result channel holds nothing or exactly one
    value, the BMT root of the payload. *)
Theorem goroutines_never_panic
    segmentCount bound p t0 p1 spanBytes data :
  0 < segmentSize ->
  (forall x, length (H x) = segmentSize) ->
  pool_ok segmentCount bound p ->
  (0 <= bound)%Z -> (bound + 2 < 2 ^ 31)%Z ->
  reserve p = Some (t0, p1) ->
  0 < length data -> length data <= segmentCount * segmentSize ->
  exists h1 h2 h3,
    SetSpanBytes (Reset (New p)) spanBytes = Some h1 /\
    Write h1 data = Some (h2, length data) /\
    Sum_start h2 = Some (SumWaits h3) /\
    forall schedule,
      (forall i th, nth_error (routines (run schedule h3)) i = Some th ->
                    th <> Panicked) /\
      exists t, bmt (run schedule h3) = Some t /\
                (result t = [] \/
                 result t = [Some (bmt_root segmentCount data)]).
Proof.
  intros HS HH Hp Hb0 Hb Hr Hd0 Hd1.
  exists (holding t0 p1 (Some (GoSlice.copy (GoSlice.make 8) spanBytes))),
         (written t0 p1 data (Some (GoSlice.copy (GoSlice.make 8) spanBytes))),
         (summing t0 p1 data (Some (GoSlice.copy (GoSlice.make 8) spanBytes))).
  split; [exact (SetSpanBytes_holding p Hr spanBytes)|].
  split; [exact (Write_holding _ HS Hp Hb0 Hr Hd0 Hd1 _)|].
  split; [exact (Sum_start_written segmentCount t0 p1 _ HS Hd0 Hd1 _)|].
  intros schedule.
  exact (hashing_safe (summing_run _ HS HH Hp Hb0 Hb Hr Hd0 Hd1 _ schedule)).
Qed.

(** X5 ([Hasher.Sum]): [Sum] does not wait for ever under a fair schedule:
    when each of the goroutines [0 .. last section] gets at least
    [Depth + 2] turns while [Sum] waits, [Sum] returns, and it returns the
    base hash of the span followed by the BMT root. *)
Theorem fair_schedule_returns
    segmentCount bound p t0 p1 schedule spanBytes data :
  0 < segmentSize ->
  (forall x, length (H x) = segmentSize) ->
  pool_ok segmentCount bound p ->
  (0 <= bound)%Z -> (bound + 2 < 2 ^ 31)%Z ->
  reserve p = Some (t0, p1) ->
  0 < length data -> length data <= segmentCount * segmentSize ->
  (forall i, i <= last_section (length data) ->
             calculateDepthFor segmentCount + 2
             <= count_occ Nat.eq_dec schedule i) ->
  exists h',
    address p schedule spanBytes data
    = Some (Ok (Some (H (GoSlice.copy (GoSlice.make 8) spanBytes
                         ++ bmt_root segmentCount data))), h').
Proof.
  intros HS HH Hp Hb0 Hb Hr Hd0 Hd1 Hfair.
  rewrite (address_written _ HS Hp Hb0 Hr Hd0 Hd1).
  exact (Sum_written_fair _ HS HH Hp Hb0 Hb Hr Hd0 Hd1
           (Some (GoSlice.copy (GoSlice.make 8) spanBytes)) schedule Hfair).
Qed.

(** X6 ([Hasher.Write], [WriteSection], [Hasher.Sum]): when no span was
    set, [Sum] takes [LengthToSpan(h.size)] for the span, and [h.size]
    then is not the number of bytes written: [Write] adds the length of
    the payload and [WriteSection] adds the length of every section once
    more, so the span is that of [len + (last + 1) * 2 * segmentSize]
    bytes, [last] being the number of the last section. *)
Theorem default_span_counts_the_sections_too
    segmentCount bound p t0 p1 data :
  0 < segmentSize ->
  (forall x, length (H x) = segmentSize) ->
  pool_ok segmentCount bound p ->
  (0 <= bound)%Z -> (bound + 2 < 2 ^ 31)%Z ->
  reserve p = Some (t0, p1) ->
  span t0 = None ->
  0 < length data -> length data <= segmentCount * segmentSize ->
  exists h,
    Write (Reset (New p)) data = Some (h, length data) /\
    (forall schedule r h',
        Sum schedule h None = Some (r, h') ->
        r = Ok (Some (H (LengthToSpan
                           (length data
                            + (last_section (length data) + 1)
                              * (2 * segmentSize))
                         ++ bmt_root segmentCount data)))) /\
    (forall schedule, exists rest h',
        Sum (schedule ++ rest) h None
        = Some (Ok (Some (H (LengthToSpan
                               (length data
                                + (last_section (length data) + 1)
                                  * (2 * segmentSize))
                             ++ bmt_root segmentCount data))), h')).
Proof.
  intros HS HH Hp Hb0 Hb Hr Hsp Hd0 Hd1.
  exists (written t0 p1 data None).
  split; [exact (Write_reserving _ HS Hp Hb0 Hr Hd0 Hd1 Hsp)|]. split.
  - intros schedule r h' E.
    exact (Sum_written_value _ HS HH Hp Hb0 Hb Hr Hd0 Hd1 None schedule E).
  - intros schedule.
    exact (Sum_written_returns _ HS HH Hp Hb0 Hb Hr Hd0 Hd1 None schedule).
Qed.

(** X20 ([Hasher.Sum], [doSum]): [Sum(b)] appends to [b].  For a payload
    of [1 .. segmentCount * segmentSize] bytes, whenever [Sum(b)] returns
    it returns the bytes of [b] followed by the digest (the base hash of
    the span and the BMT root) that [Sum(nil)] returns, whatever the
    schedule of the goroutines; and every schedule can be continued until
    it returns. *)
Theorem Sum_appends_to_its_argument
    segmentCount bound p t0 p1 spanBytes data b :
  0 < segmentSize ->
  (forall x, length (H x) = segmentSize) ->
  pool_ok segmentCount bound p ->
  (0 <= bound)%Z -> (bound + 2 < 2 ^ 31)%Z ->
  reserve p = Some (t0, p1) ->
  0 < length data -> length data <= segmentCount * segmentSize ->
  exists h1 h2,
    SetSpanBytes (Reset (New p)) spanBytes = Some h1 /\
    Write h1 data = Some (h2, length data) /\
    (forall schedule r h',
        Sum schedule h2 None = Some (r, h') ->
        r = Ok (Some (H (GoSlice.copy (GoSlice.make 8) spanBytes
                         ++ bmt_root segmentCount data)))) /\
    (forall schedule r h',
        Sum schedule h2 (Some b) = Some (r, h') ->
        r = Ok (Some (b ++ H (GoSlice.copy (GoSlice.make 8) spanBytes
                              ++ bmt_root segmentCount data)))) /\
    (forall schedule, exists rest h',
        Sum (schedule ++ rest) h2 (Some b)
        = Some (Ok (Some (b ++ H (GoSlice.copy (GoSlice.make 8) spanBytes
                                  ++ bmt_root segmentCount data))), h')).
Proof.
  intros HS HH Hp Hb0 Hb Hr Hd0 Hd1.
  exists (holding t0 p1 (Some (GoSlice.copy (GoSlice.make 8) spanBytes))),
         (written t0 p1 data (Some (GoSlice.copy (GoSlice.make 8) spanBytes))).
  split; [exact (SetSpanBytes_holding p Hr spanBytes)|].
  split; [exact (Write_holding _ HS Hp Hb0 Hr Hd0 Hd1 _)|].
  split; [|split].
  - intros schedule r h' E.
    exact (Sum_written_value _ HS HH Hp Hb0 Hb Hr Hd0 Hd1 _ schedule E).
  - intros schedule r h' E.
    exact (Sum_written_onto _ HS HH Hp Hb0 Hb Hr Hd0 Hd1 _ schedule _ E).
  - intros schedule.
    exact (Sum_written_onto_returns _ HS HH Hp Hb0 Hb Hr Hd0 Hd1 _ schedule b).
Qed.

(** [address] begins with [reserve]: where that blocks nothing is hashed. *)
Lemma address_reserves q schedule spanBytes data :
  address q schedule spanBytes data <> None ->
  exists t q', reserve q = Some (t, q').
Proof.
  unfold address, SetSpanBytes, getTree, Reset, New, releaseTree.
  cbn [bmt pool].
  destruct (reserve q) as [[t q']|]; [eauto|congruence].
Qed.

Lemma address_blocks q schedule spanBytes data :
  reserve q = None -> address q schedule spanBytes data = None.
Proof.
  intros R.
  destruct (address q schedule spanBytes data) eqn:E; [|reflexivity].
  destruct (@address_reserves q schedule spanBytes data) as (t & q' & R');
    congruence.
Qed.

(** X21 ([Hasher.Sum], [Hasher.releaseTree], [TreePool.release],
    [TreePool.reserve]): the hasher can be used again.  [Sum], having
    returned the address of one chunk, has handed its tree to the goroutine
    [releaseTree] starts and has not waited for it.  Once that goroutine
    has run, the tree is in the pool's channel, [reserve] hands out a tree,
    and hashing a second chunk on that pool (on whichever tree [reserve]
    hands out then, new or used) gives the address of the second chunk
    under every schedule.  Until the goroutine has run, the second chunk
    has the same address if [reserve] hands out another tree, and nothing
    is hashed while every tree is checked out and the channel is empty. *)
Theorem hasher_is_reusable
    segmentCount bound p t0 p1 span1 data1 span2 data2 schedule1 r1 h1 :
  0 < segmentSize ->
  (forall x, length (H x) = segmentSize) ->
  pool_ok segmentCount bound p ->
  (0 <= bound)%Z -> (bound + 4 < 2 ^ 31)%Z ->
  reserve p = Some (t0, p1) ->
  0 < length data1 -> length data1 <= segmentCount * segmentSize ->
  0 < length data2 -> length data2 <= segmentCount * segmentSize ->
  address p schedule1 span1 data1 = Some (r1, h1) ->
  let a2 :=
    Ok (Some (H (GoSlice.copy (GoSlice.make 8) span2
                 ++ bmt_root segmentCount data2))) in
  let q := run_release (length (releasing p)) (pool h1) in
  r1 = Ok (Some (H (GoSlice.copy (GoSlice.make 8) span1
                    ++ bmt_root segmentCount data1))) /\
  bmt h1 = None /\
  pool_c (pool h1) = pool_c p1 /\
  length (releasing (pool h1)) = S (length (releasing p)) /\
  length (pool_c q) = S (length (pool_c p1)) /\
  reserve q <> None /\
  (forall schedule2 r2 h2,
      address q schedule2 span2 data2 = Some (r2, h2) -> r2 = a2) /\
  (forall schedule2, exists rest h2,
      address q (schedule2 ++ rest) span2 data2 = Some (a2, h2)) /\
  (forall schedule2 r2 h2,
      address (pool h1) schedule2 span2 data2 = Some (r2, h2) -> r2 = a2) /\
  (reserve (pool h1) <> None ->
   forall schedule2, exists rest h2,
      address (pool h1) (schedule2 ++ rest) span2 data2 = Some (a2, h2)) /\
  (count p1 = Capacity p1 -> pool_c p1 = [] ->
   forall schedule2, address (pool h1) schedule2 span2 data2 = None).
Proof.
  intros HS HH Hp Hb0 Hb Hr Hd0 Hd1 He0 He1 E a2 q.
  assert (Hb1 : (bound + 2 < 2 ^ 31)%Z) by lia.
  destruct (@address_value segmentCount bound p t0 p1 span1 data1
              HS HH Hp Hb0 Hb1 Hr Hd0 Hd1 schedule1 r1 h1 E)
    as (-> & Hbmt & Hc & (Hn & Hcp) & Hl & Hf & Hok & Hok' & Hres).
  fold q in Hok', Hres.
  split; [reflexivity|]. split; [exact Hbmt|]. split; [exact Hc|].
  split; [exact Hl|].
  assert (Hq : length (pool_c q) = S (length (pool_c p1))).
  { unfold q, run_release.
    destruct (nth_error (releasing (pool h1)) (length (releasing p)))
      as [t|] eqn:N.
    - unfold release. cbn [set_pool_c set_releasing pool_c].
      rewrite length_app, Hc. cbn [length]. lia.
    - apply nth_error_None in N. lia. }
  split; [exact Hq|]. split; [exact Hres|].
  assert (Hb0' : (0 <= bound + 2)%Z) by lia.
  assert (Hb' : (bound + 2 + 2 < 2 ^ 31)%Z) by lia.
  split; [|split; [|split; [|split]]].
  - intros schedule2 r2 h2 E2.
    destruct (reserve q) as [[t' p']|] eqn:Hr'; [|congruence].
    now destruct (@address_value segmentCount (bound + 2)%Z q t' p'
                    span2 data2 HS HH Hok' Hb0' Hb' Hr' He0 He1
                    schedule2 r2 h2 E2) as (-> & _).
  - intros schedule2.
    destruct (reserve q) as [[t' p']|] eqn:Hr'; [|congruence].
    exact (@address_returns segmentCount (bound + 2)%Z q t' p'
             span2 data2 HS HH Hok' Hb0' Hb' Hr' He0 He1 schedule2).
  - intros schedule2 r2 h2 E2.
    destruct (@address_reserves (pool h1) schedule2 span2 data2)
      as (t' & p' & Hr'); [congruence|].
    now destruct (@address_value segmentCount bound (pool h1) t' p'
                    span2 data2 HS HH Hok Hb0 Hb1 Hr' He0 He1
                    schedule2 r2 h2 E2) as (-> & _).
  - intros Hne schedule2.
    destruct (reserve (pool h1)) as [[t' p']|] eqn:Hr'; [|congruence].
    exact (@address_returns segmentCount bound (pool h1) t' p'
             span2 data2 HS HH Hok Hb0 Hb1 Hr' He0 He1 schedule2).
  - intros Hcap Hnil schedule2. apply address_blocks.
    unfold reserve. rewrite Hn, Hcp, Hcap, Nat.eqb_refl, Hc, Hnil.
    reflexivity.
Qed.

(** ** [Write] in pieces *)

Lemma sec_of_app_full b1 b2 c :
  (c + 1) * (2 * segmentSize) <= length b1 ->
  sec_of (b1 ++ b2) c = sec_of b1 c.
Proof.
  intros Hc. apply nth_ext with (d := x00) (d' := x00).
  - now rewrite !length_sec_of.
  - intros n Hn. rewrite length_sec_of in Hn. rewrite !nth_sec_of by exact Hn.
    apply app_nth1. lia.
Qed.

Lemma sec_of_app_next b1 b2 c :
  length b1 <= c * (2 * segmentSize) ->
  sec_of (b1 ++ b2) c
  = GoSlice.copy (GoSlice.make (2 * segmentSize))
      (skipn (c * (2 * segmentSize) - length b1) b2).
Proof.
  intros Hc. unfold sec_of. rewrite skipn_app.
  now rewrite (skipn_all2 b1) by exact Hc.
Qed.

(** The open section after [b1], filled up from [b2]. *)
Lemma fill_sec_of b1 b2 c :
  c * (2 * segmentSize) <= length b1 ->
  length b1 <= (c + 1) * (2 * segmentSize) ->
  fill (sec_of b1 c) (length b1 - c * (2 * segmentSize)) b2
  = sec_of (b1 ++ b2) c.
Proof.
  intros Hlo Hhi.
  set (r := skipn (c * (2 * segmentSize)) b1).
  assert (Lr : length r = length b1 - c * (2 * segmentSize))
    by (unfold r; apply length_skipn).
  assert (Hr : length r <= 2 * segmentSize) by lia.
  assert (E1 : sec_of b1 c = r ++ repeat x00 (2 * segmentSize - length r)).
  { unfold sec_of, GoSlice.copy. rewrite GoSlice.length_make. fold r.
    rewrite (firstn_all2 r) by exact Hr. unfold GoSlice.make.
    now rewrite GoSlice.skipn_repeat. }
  assert (E2 : sec_of (b1 ++ b2) c
               = r ++ firstn (2 * segmentSize - length r) b2
                 ++ repeat x00 (2 * segmentSize - (length r + length b2))).
  { unfold sec_of, GoSlice.copy. rewrite GoSlice.length_make, skipn_app.
    replace (c * (2 * segmentSize) - length b1) with 0 by lia.
    rewrite skipn_O. fold r.
    rewrite firstn_app, (firstn_all2 r) by exact Hr.
    rewrite length_app, <- app_assoc. unfold GoSlice.make.
    now rewrite GoSlice.skipn_repeat. }
  rewrite E1, E2, <- Lr. unfold fill, GoSlice.copy.
  rewrite firstn_app, Nat.sub_diag, firstn_O, app_nil_r.
  rewrite (firstn_all2 r) by lia.
  rewrite skipn_app, Nat.sub_diag, skipn_O, (skipn_all2 r) by lia.
  rewrite app_nil_l, repeat_length, GoSlice.skipn_repeat.
  do 3 f_equal. lia.
Qed.

Lemma workers_app b1 b2 n :
  n * (2 * segmentSize) <= length b1 ->
  workers (b1 ++ b2) n = workers b1 n.
Proof.
  intros Hn. unfold workers. apply map_ext_in. intros i Hi.
  apply in_seq in Hi. f_equal. apply sec_of_app_full. nia.
Qed.

(** The loop of [Write] on the piece [b2], after [b1] was written. *)
Lemma write_loop_more b1 b2 :
  0 < segmentSize -> 0 < length b2 ->
  forall fuel c t sp,
    c <= last_section (length b1 + length b2) ->
    last_section (length b1 + length b2) - c <= fuel ->
    length b1 <= (c + 1) * (2 * segmentSize) ->
    cursor t = c -> section t = sec_of (b1 ++ b2) c ->
    write_loop fuel (2 * segmentSize) b2
      ((c + 1) * (2 * segmentSize) - length b1) t sp
    = (mkTree (t_nodes t) (last_section (length b1 + length b2)) (offset t)
         (sec_of (b1 ++ b2) (last_section (length b1 + length b2)))
         (result t) (span t),
       (last_section (length b1 + length b2) + 1) * (2 * segmentSize)
       - length b1,
       sp ++ map (fun i => GoWriteSection i (sec_of (b1 ++ b2) i) false)
               (seq c (last_section (length b1 + length b2) - c))).
Proof.
  intros HS Hl. set (K := last_section (length b1 + length b2)).
  set (b := b1 ++ b2).
  assert (Hpos : 0 < length b1 + length b2) by lia.
  assert (Hstop : forall c t sp, c = K -> cursor t = c -> section t = sec_of b c ->
            (t, (c + 1) * (2 * segmentSize) - length b1, sp)
            = (mkTree (t_nodes t) K (offset t) (sec_of b K) (result t) (span t),
               (K + 1) * (2 * segmentSize) - length b1,
               sp ++ map (fun i => GoWriteSection i (sec_of b i) false)
                       (seq c (K - c)))).
  { intros c t sp -> Hc Hs. rewrite Nat.sub_diag. simpl. rewrite app_nil_r.
    destruct t as [nds cu off se re spn]. simpl in *. now subst. }
  induction fuel as [|fuel IH]; intros c t sp Hc Hf Hb1 Hcur Hsec.
  - simpl. apply Hstop; auto. lia.
  - cbn [write_loop].
    destruct ((c + 1) * (2 * segmentSize) - length b1 <? length b2) eqn:E.
    + apply Nat.ltb_lt in E.
      assert (E' : (c + 1) * (2 * segmentSize) < length b1 + length b2) by lia.
      apply (more_sections c HS Hpos) in E'. fold K in E'.
      replace ((c + 1) * (2 * segmentSize) - length b1 + 2 * segmentSize)
        with ((S c + 1) * (2 * segmentSize) - length b1) by lia.
      rewrite IH; try (fold K; simpl; lia).
      * rewrite Hcur, Hsec. cbn [set_section t_nodes offset result span].
        rewrite <- app_assoc. do 2 f_equal.
        replace (K - c) with (S (K - S c)) by lia. reflexivity.
      * cbn [set_section section]. unfold b.
        rewrite sec_of_app_next by lia.
        replace (S c * (2 * segmentSize)) with ((c + 1) * (2 * segmentSize))
          by lia.
        reflexivity.
    + apply Nat.ltb_ge in E. apply Hstop; auto.
      destruct (Nat.eq_dec c K) as [->|N]; [reflexivity|].
      assert (Hlt : c < K) by (fold K in Hc; lia).
      apply (more_sections c HS Hpos) in Hlt. lia.
Qed.

Lemma last_section_bounds l :
  0 < segmentSize -> 0 < l ->
  last_section l * (2 * segmentSize) < l /\
  l <= (last_section l + 1) * (2 * segmentSize).
Proof.
  intros HS Hl. unfold last_section.
  set (ss := 2 * segmentSize). assert (Hss : ss <> 0) by (unfold ss; lia).
  pose proof (Nat.Div0.mul_div_le (l - 1) ss) as Hlo.
  pose proof (Nat.mul_succ_div_gt (l - 1) ss Hss) as Hhi.
  split; nia.
Qed.

Lemma last_section_unique l c :
  0 < segmentSize ->
  c * (2 * segmentSize) < l -> l <= (c + 1) * (2 * segmentSize) ->
  last_section l = c.
Proof.
  intros HS Hlo Hhi.
  destruct (last_section_bounds HS (l := l) ltac:(lia)) as (Klo & Khi).
  nia.
Qed.

(** The hasher after [Write] has taken [b] on a tree that held nothing,
    [sz] being the value of [h.size]. *)
Definition after_Write (h : Hasher) (t : tree) (b : bytes) (sz : nat) : Hasher :=
  mkHasher (pool h)
    (Some (mkTree (t_nodes t) (last_section (length b))
             (length b - last_section (length b) * (2 * segmentSize))
             (sec_of b (last_section (length b)))
             (result t) (span t)))
    sz (h_cursor h)
    (routines h ++ workers b (last_section (length b))).

(** A second [Write]: the open section is filled up, the full sections
    are handed to goroutines, whether or not the tree has leaves for
    them. *)
Lemma Write_second h t b1 b2 sz :
  0 < segmentSize ->
  SegmentSize (pool h) = segmentSize ->
  Size (pool h) = SegmentCount (pool h) * segmentSize ->
  0 < length b1 -> length b1 <= Size (pool h) ->
  0 < length b2 -> length b2 <= Size (pool h) ->
  Write (after_Write h t b1 sz) b2
  = Some (after_Write h t (b1 ++ b2) (sz + length b2), length b2).
Proof.
  intros HS HSS HSZ Hl1 Hs1 Hl2 Hs2.
  unfold after_Write. rewrite length_app.
  set (K1 := last_section (length b1)).
  set (K := last_section (length b1 + length b2)).
  destruct (last_section_bounds HS Hl1) as (K1lo & K1hi). fold K1 in K1lo, K1hi.
  destruct (last_section_bounds HS (l := length b1 + length b2) ltac:(lia))
    as (Klo & Khi). fold K in Klo, Khi.
  assert (HK : K1 <= K) by nia.
  unfold Write. cbn [pool bmt size h_cursor routines].
  replace (length b2 =? 0) with false by (symmetry; apply Nat.eqb_neq; lia).
  replace (Size (pool h) <? length b2) with false
    by (symmetry; apply Nat.ltb_ge; lia).
  cbn [orb]. unfold getTree. cbn [bmt pool size h_cursor routines offset cursor
                                  section].
  rewrite HSS.
  assert (Hw : workers (b1 ++ b2) K
               = workers b1 K1
                 ++ map (fun i => GoWriteSection i (sec_of (b1 ++ b2) i) false)
                      (seq K1 (K - K1))).
  { unfold workers at 1. replace K with (K1 + (K - K1)) at 1 by lia.
    rewrite seq_app, map_app. f_equal.
    fold (workers (b1 ++ b2) K1). apply workers_app. lia. }
  destruct (length b1 - K1 * (2 * segmentSize) <? 2 * segmentSize) eqn:Eo.
  - apply Nat.ltb_lt in Eo.
    replace (2 * segmentSize - (length b1 - K1 * (2 * segmentSize)) =? 0)
      with false by (symmetry; apply Nat.eqb_neq; lia).
    unfold set_section. cbn [offset cursor section t_nodes result span].
    rewrite fill_sec_of by lia.
    destruct (length b2 <=? 2 * segmentSize
                            - (length b1 - K1 * (2 * segmentSize))) eqn:El.
    + apply Nat.leb_le in El.
      assert (EK : K = K1).
      { apply last_section_unique; [exact HS|lia|lia]. }
      unfold set_tree, set_offset, set_section.
      cbn [pool bmt size h_cursor routines t_nodes cursor offset section
           result span].
      rewrite Hw, EK, Nat.sub_diag. cbn [seq map]. rewrite app_nil_r.
      replace (length b1 - K1 * (2 * segmentSize) + length b2)
        with (length b1 + length b2 - K1 * (2 * segmentSize)) by lia.
      reflexivity.
    + apply Nat.leb_gt in El. unfold write_sections. cbn [pool]. rewrite HSS.
      pose proof (@write_loop_more b1 b2 HS Hl2 (length b2) K1
                    (mkTree (t_nodes t) K1
                       (length b1 - K1 * (2 * segmentSize))
                       (sec_of (b1 ++ b2) K1) (result t) (span t)) []) as W.
      fold K in W.
      replace ((K1 + 1) * (2 * segmentSize) - length b1)
        with (2 * segmentSize - (length b1 - K1 * (2 * segmentSize))) in W
        by lia.
      rewrite W; [|exact HK|nia|lia|reflexivity|reflexivity].
      cbn [set_offset pool bmt size h_cursor routines t_nodes cursor offset
           section result span app].
      rewrite Hw, <- !app_assoc.
      replace (length b2 + 2 * segmentSize
               - ((K + 1) * (2 * segmentSize) - length b1))
        with (length b1 + length b2 - K * (2 * segmentSize)) by lia.
      reflexivity.
  - apply Nat.ltb_ge in Eo.
    assert (Efull : length b1 = (K1 + 1) * (2 * segmentSize)) by lia.
    replace (K1 =? SegmentCount (pool h) * 2) with false
      by (symmetry; apply Nat.eqb_neq; nia).
    unfold write_sections. cbn [pool]. rewrite HSS.
    pose proof (@write_loop_more b1 b2 HS Hl2 (length b2) K1
                  (mkTree (t_nodes t) K1
                     (length b1 - K1 * (2 * segmentSize))
                     (sec_of b1 K1) (result t) (span t)) []) as W.
    fold K in W.
    replace ((K1 + 1) * (2 * segmentSize) - length b1)
      with (2 * segmentSize - (length b1 - K1 * (2 * segmentSize))) in W
      by lia.
    rewrite W; [|exact HK|nia|lia|reflexivity|].
    + cbn [set_offset pool bmt size h_cursor routines t_nodes cursor offset
           section result span app].
      rewrite Hw, <- !app_assoc.
      replace (length b2 + 2 * segmentSize
               - ((K + 1) * (2 * segmentSize) - length b1))
        with (length b1 + length b2 - K * (2 * segmentSize)) by lia.
      reflexivity.
    + cbn [section]. symmetry. apply sec_of_app_full. lia.
Qed.

(** X7 ([Hasher.Write]): [Write] is a streaming writer.  On a hasher
    whose tree holds nothing yet, writing [b1] and then [b2] (both not
    empty, together not longer than the pool's [Size]) leaves the hasher
    exactly as one [Write] of [b1 ++ b2] does: the same cursor, offset and
    open section, the same goroutines started for the same sections, the
    same [size]; each call reports the length of its piece. *)
Theorem Write_is_streaming h t b1 b2 :
  0 < segmentSize ->
  SegmentSize (pool h) = segmentSize ->
  Size (pool h) = SegmentCount (pool h) * segmentSize ->
  bmt h = Some t -> cursor t = 0 -> offset t = 0 ->
  section t = GoSlice.make (2 * segmentSize) ->
  0 < length b1 -> 0 < length b2 ->
  length b1 + length b2 <= Size (pool h) ->
  exists h1 h2,
    Write h b1 = Some (h1, length b1) /\
    Write h1 b2 = Some (h2, length b2) /\
    Write h (b1 ++ b2) = Some (h2, length b1 + length b2).
Proof.
  intros HS HSS HSZ Hb Hcur Hoff Hsec Hl1 Hl2 Hsz.
  exists (after_Write h t b1 (size h + length b1)),
         (after_Write h t (b1 ++ b2) (size h + length b1 + length b2)).
  split; [|split].
  - apply (Write_fresh h b1 HS HSS Hb Hcur Hoff Hsec Hl1). lia.
  - apply Write_second; auto; lia.
  - rewrite (Write_fresh h (b1 ++ b2) HS HSS Hb Hcur Hoff Hsec)
      by (rewrite length_app; lia).
    unfold after_Write. rewrite length_app, Nat.add_assoc. reflexivity.
Qed.

(** X23 ([Hasher.Write], [Hasher.Sum], [Hasher.writeSection]): the size
    check of [Write] is made for each call, not for the chunk.  Two
    pieces that each pass the check but together are longer than the
    [2^Depth] segments the tree has leaves for are both taken; [Sum] then
    starts the goroutine of a section beyond the last leaf, and that
    goroutine is stopped by a run-time panic (an index out of range in
    [t.leaves]) as soon as it runs. *)
Theorem pieces_beyond_the_tree_panic h t b1 b2 :
  0 < segmentSize ->
  SegmentSize (pool h) = segmentSize ->
  Size (pool h) = SegmentCount (pool h) * segmentSize ->
  bmt h = Some t -> cursor t = 0 -> offset t = 0 ->
  section t = GoSlice.make (2 * segmentSize) ->
  routines h = [] ->
  1 <= Depth (pool h) ->
  0 < length b1 -> length b1 <= Size (pool h) ->
  0 < length b2 -> length b2 <= Size (pool h) ->
  2 ^ Depth (pool h) * segmentSize < length b1 + length b2 ->
  exists h1 h2 h3,
    Write h b1 = Some (h1, length b1) /\
    Write h1 b2 = Some (h2, length b2) /\
    Sum_start h2 = Some (SumWaits h3) /\
    nth_error (routines (step (last_section (length b1 + length b2)) h3))
      (last_section (length b1 + length b2))
    = Some Panicked.
Proof.
  intros HS HSS HSZ Hb Hcur Hoff Hsec Hrt HD Hl1 Hs1 Hl2 Hs2 Hover.
  set (K := last_section (length b1 + length b2)).
  destruct (last_section_bounds HS (l := length b1 + length b2) ltac:(lia))
    as (Klo & Khi). fold K in Klo, Khi.
  set (h2 := after_Write h t (b1 ++ b2) (size h + length b1 + length b2)).
  assert (Lw : length (workers (b1 ++ b2) K) = K).
  { unfold workers. now rewrite length_map, length_seq. }
  exists (after_Write h t b1 (size h + length b1)), h2.
  eexists.
  split; [apply (Write_fresh h b1 HS HSS Hb Hcur Hoff Hsec Hl1); lia|].
  split; [apply Write_second; auto; lia|].
  split.
  - unfold Sum_start, getTree, h2, after_Write.
    cbn [bmt size offset cursor section pool h_cursor routines].
    replace (size h + length b1 + length b2 =? 0) with false
      by (symmetry; apply Nat.eqb_neq; lia).
    cbn [andb]. reflexivity.
  - rewrite length_app. fold K. rewrite Hrt. cbn [app].
    unfold step. cbn [routines].
    rewrite nth_error_app2 by lia. rewrite Lw, Nat.sub_diag.
    cbn [nth_error is_running]. unfold getTree. cbn [bmt pool routines size
                                                     h_cursor].
    cbn [thread_step].
    assert (Hbig : 2 ^ (Depth (pool h) - 1) <= K).
    { assert (E : 2 ^ Depth (pool h) = 2 * 2 ^ (Depth (pool h) - 1)).
      { destruct (Depth (pool h)) as [|d]; [lia|].
        now rewrite Nat.pow_succ_r', Nat.sub_succ, Nat.sub_0_r. }
      rewrite E in Hover.
      destruct (Nat.le_gt_cases (2 ^ (Depth (pool h) - 1)) K) as [Hle|Hgt];
        [exact Hle|].
      assert ((K + 1) * segmentSize
              <= 2 ^ (Depth (pool h) - 1) * segmentSize)
        by (apply Nat.mul_le_mono_r; lia).
      lia. }
    replace (K <? 2 ^ (Depth (pool h) - 1)) with false
      by (symmetry; apply Nat.ltb_ge; exact Hbig).
    cbn [routines]. rewrite Pool.nth_error_update_eq; [reflexivity|].
    rewrite length_app, Lw. simpl. lia.
Qed.

(** ** The pool of trees *)

(** [Drain]: [for len(p.c) > n { <-p.c; p.count-- }], for [n >= 0].  The
    loop runs at most [len(p.c)] times. *)
Fixpoint drain_loop (fuel n : nat) (c : list tree) (cnt : nat)
  : list tree * nat :=
  match fuel with
  | O => (c, cnt)
  | S fuel' =>
      if n <? length c then
        match c with
        | _ :: rest => drain_loop fuel' n rest (cnt - 1)
        | [] => (c, cnt)
        end
      else (c, cnt)
  end.

Definition Drain (p : TreePool) (n : nat) : TreePool :=
  let '(c, cnt) := drain_loop (length (pool_c p)) n (pool_c p) (count p) in
  set_pool_c p c cnt.

(** What the hashers do with a pool: [getTree] reserves a tree, the
    goroutine [releaseTree] starts gives back the tree the hasher held (a
    tree counts as held until then), and anyone may drain the pool. *)
Inductive pool_op : Type :=
| OpReserve
| OpRelease (t : tree)
| OpDrain (n : nat).

(** The pool and the number of trees the hashers hold, after one
    operation; [None] when [reserve] blocks, or when a hasher that holds no
    tree is asked to release one (which [releaseTree] never does). *)
Definition pool_step (st : TreePool * nat) (op : pool_op)
  : option (TreePool * nat) :=
  let '(p, out) := st in
  match op with
  | OpReserve =>
      match reserve p with
      | Some (_, p') => Some (p', S out)
      | None => None
      end
  | OpRelease t =>
      match out with
      | O => None
      | S out' => Some (release p t, out')
      end
  | OpDrain n => Some (Drain p n, out)
  end.

Fixpoint pool_run (ops : list pool_op) (st : TreePool * nat)
  : option (TreePool * nat) :=
  match ops with
  | [] => Some st
  | op :: rest =>
      match pool_step st op with
      | Some st' => pool_run rest st'
      | None => None
      end
  end.

Definition pool_balanced (cap : nat) (st : TreePool * nat) : Prop :=
  Capacity (fst st) = cap /\
  count (fst st) = length (pool_c (fst st)) + snd st /\
  count (fst st) <= cap.

Lemma drain_loop_spec n : forall fuel c cnt,
  length c <= fuel -> length c <= cnt ->
  drain_loop fuel n c cnt
  = (skipn (length c - n) c, cnt - (length c - n)).
Proof.
  induction fuel as [|fuel IH]; intros c cnt Hf Hc.
  - destruct c; [|simpl in Hf; lia]. cbn [drain_loop length].
    rewrite Nat.sub_0_l, skipn_O. f_equal. lia.
  - cbn [drain_loop]. destruct (n <? length c) eqn:E.
    + apply Nat.ltb_lt in E. destruct c as [|x rest]; [simpl in E; lia|].
      simpl in Hf, Hc, E. rewrite IH by lia.
      cbn [length]. replace (S (length rest) - n) with (S (length rest - n))
        by lia.
      cbn [skipn]. f_equal. lia.
    + apply Nat.ltb_ge in E. replace (length c - n) with 0 by lia.
      now rewrite skipn_O, Nat.sub_0_r.
Qed.

Lemma Drain_spec p n :
  length (pool_c p) <= count p ->
  Drain p n
  = set_pool_c p (skipn (length (pool_c p) - n) (pool_c p))
      (count p - (length (pool_c p) - n)).
Proof.
  intros Hc. unfold Drain. now rewrite drain_loop_spec by lia.
Qed.

Lemma pool_step_balanced cap st op st' :
  pool_balanced cap st -> pool_step st op = Some st' -> pool_balanced cap st'.
Proof.
  destruct st as [p out]. intros (HC & Hn & Hle) E. cbn [fst snd] in *.
  destruct op as [|t|n]; cbn [pool_step] in E.
  - unfold reserve in E.
    destruct (count p =? Capacity p) eqn:Ec; destruct (pool_c p) as [|t rest] eqn:Ep;
      try discriminate; injection E as <-; unfold pool_balanced;
      cbn [fst snd set_pool_c Capacity count pool_c length] in *;
      try apply Nat.eqb_neq in Ec; lia.
  - destruct out as [|out']; [discriminate|]. injection E as <-.
    unfold pool_balanced, release.
    cbn [fst snd set_pool_c Capacity count pool_c].
    rewrite length_app. cbn [length]. lia.
  - injection E as <-. rewrite Drain_spec by lia.
    unfold pool_balanced. cbn [fst snd set_pool_c Capacity count pool_c].
    rewrite length_skipn. lia.
Qed.

Lemma pool_run_balanced cap ops : forall st st',
  pool_balanced cap st -> pool_run ops st = Some st' -> pool_balanced cap st'.
Proof.
  induction ops as [|op rest IH]; intros st st' Hb E; cbn [pool_run] in E.
  - now injection E as <-.
  - destruct (pool_step st op) as [st1|] eqn:E1; [|discriminate].
    eapply IH; [|exact E]. eapply pool_step_balanced; eauto.
Qed.

(** X8 ([TreePool.reserve], [TreePool.release], [TreePool.Drain]): after
    any sequence of reserve, release and drain operations on a new pool
    (a hasher releasing only a tree it holds), [count] is the number of
    trees that wait in the channel plus the number the hashers hold, and it
    never exceeds [Capacity].  So [release] finds room in the channel
    whenever a hasher holds a tree, [reserve] blocks exactly when all
    [Capacity] trees are held, and draining to [n] leaves at most [n]
    trees waiting. *)
Theorem pool_accounting segmentCount capacity ops p out :
  pool_run ops (NewTreePool segmentCount capacity, 0) = Some (p, out) ->
  Capacity p = capacity /\
  count p = length (pool_c p) + out /\
  count p <= capacity /\
  (0 < out -> length (pool_c p) < capacity) /\
  (reserve p = None <-> out = capacity) /\
  forall n, length (pool_c (Drain p n)) <= n /\
            count (Drain p n) = length (pool_c (Drain p n)) + out.
Proof.
  intros E.
  assert (B0 : pool_balanced capacity (NewTreePool segmentCount capacity, 0)).
  { unfold pool_balanced, NewTreePool. cbn. lia. }
  destruct (pool_run_balanced _ B0 E) as (HC & Hn & Hle). cbn [fst snd] in *.
  split; [exact HC|]. split; [exact Hn|]. split; [exact Hle|].
  split; [lia|]. split.
  - unfold reserve. rewrite HC.
    destruct (count p =? capacity) eqn:Ec;
      [apply Nat.eqb_eq in Ec|apply Nat.eqb_neq in Ec];
      destruct (pool_c p) as [|t rest] eqn:Ep; cbn [length] in *;
      split; intros X; try discriminate; try reflexivity; lia.
  - intros n. rewrite Drain_spec by lia.
    cbn [set_pool_c pool_c count]. rewrite length_skipn. lia.
Qed.

(** ** The span *)

(** [SetSpan]: [h.getTree().span = LengthToSpan(length)]. *)
Definition SetSpan (h : Hasher) (length : nat) : option Hasher :=
  match getTree h with
  | None => None
  | Some (t, h') =>
      Some (set_tree h' (mkTree (t_nodes t) (cursor t) (offset t) (section t)
                           (result t) (Some (LengthToSpan length))))
  end.

Lemma length_le_encode n z : length (UInt64.le_encode n z) = n.
Proof.
  revert z. induction n as [|n IH]; intros z; simpl; [reflexivity|].
  now rewrite IH.
Qed.

Lemma le_decode_encode n : forall z,
  (0 <= z)%Z ->
  UInt64.le_decode (UInt64.le_encode n z) = (z mod 256 ^ Z.of_nat n)%Z.
Proof.
  induction n as [|n IH]; intros z Hz.
  - simpl. now rewrite Z.mod_1_r.
  - cbn [UInt64.le_encode UInt64.le_decode].
    rewrite IH by (apply Z.div_pos; lia).
    rewrite Nat2Z.inj_succ, Z.pow_succ_r by lia.
    assert (Hm : (0 <= z mod 256 < 256)%Z) by (apply Z.mod_pos_bound; lia).
    destruct (Byte.of_N (Z.to_N (z mod 256))) as [x|] eqn:E.
    + apply Byte.to_of_N in E. rewrite E, Z2N.id by lia.
      rewrite (Z.rem_mul_r z 256 (256 ^ Z.of_nat n)) by lia. reflexivity.
    + apply Byte.of_N_None_iff in E. lia.
Qed.

(** X12 ([Hasher.SetSpan], [Hasher.SetSpanBytes], [LengthToSpan]): the two
    ways to set the span agree.  [LengthToSpan] makes eight bytes that
    [binary.LittleEndian.Uint64] reads back as the length (modulo [2^64]),
    and [SetSpan(length)] leaves the hasher in the state
    [SetSpanBytes(LengthToSpan(length))] leaves it in. *)
Theorem SetSpan_agrees_with_SetSpanBytes h n :
  length (LengthToSpan n) = 8 /\
  UInt64.Uint64 (LengthToSpan n) = Ok (Z.of_nat n mod 2 ^ 64)%Z /\
  SetSpan h n = SetSpanBytes h (LengthToSpan n).
Proof.
  assert (L : length (LengthToSpan n) = 8) by apply length_le_encode.
  split; [exact L|]. split.
  - unfold UInt64.Uint64. rewrite L. cbn [Nat.leb].
    rewrite <- L at 1. rewrite firstn_all.
    unfold LengthToSpan, UInt64.PutUint64, UInt64.wrap, UInt64.modulus.
    rewrite le_decode_encode by (apply Z.mod_pos_bound; lia).
    change (256 ^ Z.of_nat 8)%Z with (2 ^ 64)%Z.
    now rewrite Z.mod_mod by lia.
  - unfold SetSpan, SetSpanBytes.
    destruct (getTree h) as [[t h']|]; [|reflexivity].
    rewrite GoSlice.copy_same_length; [reflexivity|].
    now rewrite L, GoSlice.length_make.
Qed.

End WithBaseHash.

(** ** An instance *)

(** A small base hash of two bytes, to run the hasher on: a checksum of
    the input. *)
Definition demo_hash (x : bytes) : bytes :=
  UInt64.le_encode 2
    (fold_left (fun a c => (a * 31 + Z.of_N (Byte.to_N c) + 7) mod 65521)%Z
       x 1%Z).

Definition round_robin (threads rounds : nat) : list nat :=
  concat (repeat (seq 0 threads) rounds).

Definition demo_data : bytes := [x01; x02; x03; x04; x05].

Lemma demo_hash_size x : length (demo_hash x) = 2.
Proof. reflexivity. Qed.

Definition demo_pool : TreePool := NewTreePool demo_hash 2 8 1.

Lemma zero_padding_equivalence_witness :
  (exists rest h,
      address demo_hash demo_pool ([] ++ rest) (LengthToSpan 5) demo_data
      = Some (Ok (Some [x12; x12]), h)) /\
  (exists rest h,
      address demo_hash demo_pool ([] ++ rest) (LengthToSpan 5)
        (demo_data ++ GoSlice.make (8 * 2 - length demo_data))
      = Some (Ok (Some [x12; x12]), h)) /\
  (exists r h,
      address demo_hash demo_pool (round_robin 2 6) (LengthToSpan 5) demo_data
      = Some (r, h) /\
      r = Ok (Some [x12; x12]) /\
      pool_c (pool h) = [] /\
      length (releasing (pool h)) = 1 /\
      reserve (run_release 0 (pool h)) <> None).
Proof.
  assert (H1 : 0 < 2) by lia.
  assert (H2 : (0 <= 0)%Z) by lia.
  assert (H3 : (0 + 2 < 2 ^ 31)%Z) by lia.
  assert (H4 : 0 < length demo_data) by (simpl; lia).
  assert (H5 : length demo_data <= 8 * 2) by (simpl; lia).
  destruct (@zero_padding_equivalence demo_hash 2 8 0 demo_pool
              (newTree 2) (set_pool_c demo_pool [] 1) (LengthToSpan 5)
              demo_data H1 demo_hash_size (NewTreePool_ok demo_hash 2 8 1)
              H2 H3 eq_refl H4 H5)
    as (R0 & _ & R1 & R2 & _).
  split; [exact (R1 [])|]. split; [exact (R2 [])|].
  destruct (address demo_hash demo_pool (round_robin 2 6) (LengthToSpan 5)
              demo_data) as [[r h]|] eqn:E;
    [|vm_compute in E; discriminate E].
  destruct (R0 _ r h E) as (Hr & Hc & Hl & _ & Hn).
  exists r, h. split; [reflexivity|]. split; [exact Hr|].
  split; [exact Hc|]. split; [exact Hl|exact Hn].
Defined.

(** The pool has one tree.  When [Sum] has returned the first address the
    tree is still with the goroutine of [releaseTree], and a second chunk
    waits in [reserve]; when the goroutine has run, the tree that comes
    back serves the next chunk: the second address is the one a new pool
    gives. *)
Lemma second_chunk_on_a_used_tree :
  match address demo_hash demo_pool (round_robin 2 6) (LengthToSpan 5)
          demo_data with
  | Some (_, h) =>
      (option_map fst
         (address demo_hash (pool h) (round_robin 3 6) (LengthToSpan 11)
            [x09; x08; x07; x06; x05; x04; x03; x02; x01; x00; x0b]),
       option_map fst
         (address demo_hash (run_release 0 (pool h)) (round_robin 3 6)
            (LengthToSpan 11)
            [x09; x08; x07; x06; x05; x04; x03; x02; x01; x00; x0b]))
  | None => (None, None)
  end
  = (None,
     option_map fst
       (address demo_hash demo_pool (round_robin 3 6) (LengthToSpan 11)
          [x09; x08; x07; x06; x05; x04; x03; x02; x01; x00; x0b])).
Proof. vm_compute. reflexivity. Qed.

(** With nothing written [Sum] returns [Z[Depth]], not the hash of the span
    and the root: the address of the empty payload is not the address of
    the chunk of zero bytes under the same span. *)
Lemma empty_payload_is_not_padded :
  option_map fst (address demo_hash demo_pool [] (LengthToSpan 0) [])
  = Some (Ok (Some [x5c; x12])) /\
  option_map fst
    (address demo_hash demo_pool (round_robin 4 6) (LengthToSpan 0)
       ([] ++ GoSlice.make (8 * 2 - 0)))
  = Some (Ok (Some [xe6; x91])) /\
  zseq demo_hash 2 (calculateDepthFor 8) = [x5c; x12] /\
  demo_hash (LengthToSpan 0 ++ zseq demo_hash 2 (calculateDepthFor 8))
  = [xe6; x91].
Proof.
  split; [vm_compute; reflexivity|].
  split; [vm_compute; reflexivity|].
  split; vm_compute; reflexivity.
Qed.

Lemma Sum_of_nothing_returns_zero_hash_witness :
  let h' :=
    mkHasher
      (set_releasing (set_pool_c (NewTreePool demo_hash 2 8 1) [] 1)
         [newTree 2])
      None 0 0 [] in
  Sum demo_hash [] (New (NewTreePool demo_hash 2 8 1)) None
  = Some (Ok (Some (zseq demo_hash 2 3)), h') /\
  reserve (pool (New (NewTreePool demo_hash 2 8 1)))
  = Some (newTree 2, set_pool_c (NewTreePool demo_hash 2 8 1) [] 1) /\
  pool_c (pool h') = [] /\
  pool_c (run_release 0 (pool h')) = [newTree 2].
Proof.
  cbv zeta.
  assert (G : getTree (New (NewTreePool demo_hash 2 8 1))
              = Some (newTree 2,
                      mkHasher (set_pool_c (NewTreePool demo_hash 2 8 1) [] 1)
                        (Some (newTree 2)) 0 0 [])) by reflexivity.
  destruct (@Sum_of_nothing_returns_zero_hash demo_hash 2 []
              (New (NewTreePool demo_hash 2 8 1)) None _ _
              eq_refl G eq_refl eq_refl) as (E & R & _ & _ & C & _ & _ & P).
  split; [exact E|]. split; [exact (R eq_refl)|]. split; [exact C|exact P].
Defined.

(** [Sum] on a hasher that has written nothing takes a tree out of the
    pool and hands it to the goroutine of [releaseTree]: the pool has
    allocated a tree afterwards, which is in its channel once that
    goroutine has run; and when the only tree of the pool is in use
    elsewhere, [Sum] waits for it. *)
Lemma Sum_of_nothing_reserves_a_tree :
  count (pool (New (NewTreePool demo_hash 2 8 1))) = 0 /\
  pool_c (pool (New (NewTreePool demo_hash 2 8 1))) = [] /\
  option_map
    (fun rh => (fst rh, count (pool (snd rh)),
                length (pool_c (pool (snd rh))),
                length (releasing (pool (snd rh))),
                length (pool_c (run_release 0 (pool (snd rh))))))
    (Sum demo_hash [] (New (NewTreePool demo_hash 2 8 1)) None)
  = Some (Ok (Some [x5c; x12]), 1, 0, 1, 1) /\
  Sum demo_hash [] (New (set_pool_c (NewTreePool demo_hash 2 8 1) [] 1)) None
  = None.
Proof.
  repeat split; vm_compute; reflexivity.
Qed.

(** The pool of the instance hands out a new tree first. *)
Lemma demo_reserve :
  reserve demo_pool = Some (newTree 2, set_pool_c demo_pool [] 1).
Proof. reflexivity. Qed.

Lemma calculateDepthFor_least_witness :
  1 <= calculateDepthFor 128 /\
  128 <= 2 ^ calculateDepthFor 128 /\
  (calculateDepthFor 128 = 1 \/ 2 ^ (calculateDepthFor 128 - 1) < 128).
Proof.
  assert (Hn : (Z.of_nat 128 <= 2 ^ 62)%Z) by (vm_compute; discriminate).
  exact (@calculateDepthFor_least 128 Hn).
Defined.

Lemma zero_payload_has_the_zero_hash_root_witness :
  GetZeroHash (New demo_pool) = Ok (zseq demo_hash 2 (calculateDepthFor 8)) /\
  exists rest h',
    address demo_hash demo_pool ([] ++ rest) (LengthToSpan 5) (GoSlice.make 5)
    = Some (Ok (Some (demo_hash
                        (GoSlice.copy (GoSlice.make 8) (LengthToSpan 5)
                         ++ zseq demo_hash 2 (calculateDepthFor 8)))), h').
Proof.
  assert (H1 : 0 < 2) by lia.
  assert (H2 : (0 <= 0)%Z) by lia.
  assert (H3 : (0 + 2 < 2 ^ 31)%Z) by lia.
  assert (H4 : 0 < 5) by lia.
  assert (H5 : 5 <= 8 * 2) by lia.
  destruct (@zero_payload_has_the_zero_hash_root demo_hash 2 8 0 demo_pool
              (newTree 2) (set_pool_c demo_pool [] 1) (LengthToSpan 5) 5
              H1 demo_hash_size (NewTreePool_ok demo_hash 2 8 1) H2 H3
              demo_reserve H4 H5) as (Z0 & _ & R).
  split; [exact Z0|exact (R [])].
Defined.

Lemma oversized_payload_is_not_hashed_witness :
  exists h',
    address demo_hash demo_pool (round_robin 9 6) (LengthToSpan 17)
      (demo_data ++ demo_data ++ demo_data ++ [x01; x02])
    = Some (Ok (Some (zseq demo_hash 2 (calculateDepthFor 8))), h') /\
    routines h' = [].
Proof.
  assert (H2 : (0 <= 0)%Z) by lia.
  assert (H4 : 8 * 2
               < length (demo_data ++ demo_data ++ demo_data ++ [x01; x02]))
    by (simpl; lia).
  exact (proj2 (@oversized_payload_is_not_hashed demo_hash 2 8 0 demo_pool
                  (newTree 2) (set_pool_c demo_pool [] 1) (round_robin 9 6)
                  (LengthToSpan 17) _ (NewTreePool_ok demo_hash 2 8 1) H2
                  demo_reserve H4)).
Defined.

Lemma goroutines_never_panic_witness :
  exists h1 h2 h3,
    SetSpanBytes (Reset (New demo_pool)) (LengthToSpan 5) = Some h1 /\
    Write h1 demo_data = Some (h2, length demo_data) /\
    Sum_start h2 = Some (SumWaits h3) /\
    forall schedule,
      (forall i th,
          nth_error (routines (run demo_hash schedule h3)) i = Some th ->
          th <> Panicked) /\
      exists t, bmt (run demo_hash schedule h3) = Some t /\
                (result t = [] \/
                 result t = [Some (bmt_root demo_hash 2 8 demo_data)]).
Proof.
  assert (H1 : 0 < 2) by lia.
  assert (H2 : (0 <= 0)%Z) by lia.
  assert (H3 : (0 + 2 < 2 ^ 31)%Z) by lia.
  assert (H4 : 0 < length demo_data) by (simpl; lia).
  assert (H5 : length demo_data <= 8 * 2) by (simpl; lia).
  exact (@goroutines_never_panic demo_hash 2 8 0 demo_pool
           (newTree 2) (set_pool_c demo_pool [] 1) (LengthToSpan 5)
           demo_data H1 demo_hash_size (NewTreePool_ok demo_hash 2 8 1)
           H2 H3 demo_reserve H4 H5).
Defined.

Lemma fair_schedule_returns_witness :
  exists h',
    address demo_hash demo_pool (round_robin 2 5) (LengthToSpan 5) demo_data
    = Some (Ok (Some (demo_hash
                        (GoSlice.copy (GoSlice.make 8) (LengthToSpan 5)
                         ++ bmt_root demo_hash 2 8 demo_data))), h').
Proof.
  assert (H1 : 0 < 2) by lia.
  assert (H2 : (0 <= 0)%Z) by lia.
  assert (H3 : (0 + 2 < 2 ^ 31)%Z) by lia.
  assert (H4 : 0 < length demo_data) by (simpl; lia).
  assert (H5 : length demo_data <= 8 * 2) by (simpl; lia).
  assert (H6 : forall i, i <= last_section 2 (length demo_data) ->
                         calculateDepthFor 8 + 2
                         <= count_occ Nat.eq_dec (round_robin 2 5) i).
  { intros i Hi. change (last_section 2 (length demo_data)) with 1 in Hi.
    destruct i as [|[|i]]; [vm_compute; lia|vm_compute; lia|lia]. }
  exact (@fair_schedule_returns demo_hash 2 8 0 demo_pool
           (newTree 2) (set_pool_c demo_pool [] 1) (round_robin 2 5)
           (LengthToSpan 5) demo_data H1 demo_hash_size
           (NewTreePool_ok demo_hash 2 8 1) H2 H3 demo_reserve H4 H5 H6).
Defined.

Lemma default_span_counts_the_sections_too_witness :
  exists h,
    Write (Reset (New demo_pool)) demo_data = Some (h, 5) /\
    exists rest h',
      Sum demo_hash ([] ++ rest) h None
      = Some (Ok (Some (demo_hash
                          (LengthToSpan (5 + (1 + 1) * (2 * 2))
                           ++ bmt_root demo_hash 2 8 demo_data))), h').
Proof.
  assert (H1 : 0 < 2) by lia.
  assert (H2 : (0 <= 0)%Z) by lia.
  assert (H3 : (0 + 2 < 2 ^ 31)%Z) by lia.
  assert (H4 : 0 < length demo_data) by (simpl; lia).
  assert (H5 : length demo_data <= 8 * 2) by (simpl; lia).
  destruct (@default_span_counts_the_sections_too demo_hash 2 8 0 demo_pool
              (newTree 2) (set_pool_c demo_pool [] 1) demo_data H1
              demo_hash_size (NewTreePool_ok demo_hash 2 8 1) H2 H3
              demo_reserve eq_refl H4 H5) as (h & W & _ & R).
  exists h. split; [exact W|exact (R [])].
Defined.

Lemma Sum_appends_to_its_argument_witness :
  exists h1 h2,
    SetSpanBytes (Reset (New demo_pool)) (LengthToSpan 5) = Some h1 /\
    Write h1 demo_data = Some (h2, length demo_data) /\
    exists rest h',
      Sum demo_hash ([] ++ rest) h2 (Some [x0a; x0b])
      = Some (Ok (Some ([x0a; x0b]
                        ++ demo_hash
                             (GoSlice.copy (GoSlice.make 8) (LengthToSpan 5)
                              ++ bmt_root demo_hash 2 8 demo_data))), h').
Proof.
  assert (H1 : 0 < 2) by lia.
  assert (H2 : (0 <= 0)%Z) by lia.
  assert (H3 : (0 + 2 < 2 ^ 31)%Z) by lia.
  assert (H4 : 0 < length demo_data) by (simpl; lia).
  assert (H5 : length demo_data <= 8 * 2) by (simpl; lia).
  destruct (@Sum_appends_to_its_argument demo_hash 2 8 0 demo_pool
              (newTree 2) (set_pool_c demo_pool [] 1) (LengthToSpan 5)
              demo_data [x0a; x0b] H1 demo_hash_size
              (NewTreePool_ok demo_hash 2 8 1) H2 H3 demo_reserve H4 H5)
    as (h1 & h2 & S & W & _ & _ & R).
  exists h1, h2. split; [exact S|]. split; [exact W|exact (R [])].
Defined.

Lemma hasher_is_reusable_witness :
  exists r1 h1,
    address demo_hash demo_pool (round_robin 2 6) (LengthToSpan 5) demo_data
    = Some (r1, h1) /\
    r1 = Ok (Some (demo_hash
                     (GoSlice.copy (GoSlice.make 8) (LengthToSpan 5)
                      ++ bmt_root demo_hash 2 8 demo_data))) /\
    (forall schedule2,
        address demo_hash (pool h1) schedule2 (LengthToSpan 11)
          [x09; x08; x07; x06; x05; x04; x03; x02; x01; x00; x0b]
        = None) /\
    exists rest h2,
      address demo_hash (run_release 0 (pool h1)) ([] ++ rest)
        (LengthToSpan 11)
        [x09; x08; x07; x06; x05; x04; x03; x02; x01; x00; x0b]
      = Some (Ok (Some (demo_hash
                          (GoSlice.copy (GoSlice.make 8) (LengthToSpan 11)
                           ++ bmt_root demo_hash 2 8
                                [x09; x08; x07; x06; x05; x04; x03; x02; x01;
                                 x00; x0b]))), h2).
Proof.
  assert (H1 : 0 < 2) by lia.
  assert (H2 : (0 <= 0)%Z) by lia.
  assert (H3 : (0 + 4 < 2 ^ 31)%Z) by lia.
  assert (H4 : 0 < length demo_data) by (simpl; lia).
  assert (H5 : length demo_data <= 8 * 2) by (simpl; lia).
  assert (H6 : 0 < length [x09; x08; x07; x06; x05; x04; x03; x02; x01; x00;
                           x0b]) by (simpl; lia).
  assert (H7 : length [x09; x08; x07; x06; x05; x04; x03; x02; x01; x00; x0b]
               <= 8 * 2) by (simpl; lia).
  destruct (address demo_hash demo_pool (round_robin 2 6) (LengthToSpan 5)
              demo_data) as [[r1 h1]|] eqn:E;
    [|vm_compute in E; discriminate].
  destruct (@hasher_is_reusable demo_hash 2 8 0 demo_pool (newTree 2)
              (set_pool_c demo_pool [] 1) (LengthToSpan 5) demo_data
              (LengthToSpan 11)
              [x09; x08; x07; x06; x05; x04; x03; x02; x01; x00; x0b]
              (round_robin 2 6) r1 h1 H1 demo_hash_size
              (NewTreePool_ok demo_hash 2 8 1) H2 H3 demo_reserve H4 H5 H6 H7
              E) as (R1 & _ & _ & _ & _ & _ & _ & R2 & _ & _ & R3).
  exists r1, h1. split; [reflexivity|]. split; [exact R1|].
  split; [exact (R3 eq_refl eq_refl)|exact (R2 [])].
Defined.

Lemma Write_is_streaming_witness :
  exists h1 h2,
    Write (mkHasher (set_pool_c demo_pool [] 1) (Some (newTree 2)) 0 0 [])
      demo_data = Some (h1, 5) /\
    Write h1 [x06; x07; x08; x09; x0a; x0b] = Some (h2, 6) /\
    Write (mkHasher (set_pool_c demo_pool [] 1) (Some (newTree 2)) 0 0 [])
      (demo_data ++ [x06; x07; x08; x09; x0a; x0b]) = Some (h2, 5 + 6).
Proof.
  assert (H1 : 0 < 2) by lia.
  assert (H4 : 0 < length demo_data) by (simpl; lia).
  assert (H5 : 0 < length [x06; x07; x08; x09; x0a; x0b]) by (simpl; lia).
  assert (H6 : length demo_data + length [x06; x07; x08; x09; x0a; x0b]
               <= Size (set_pool_c demo_pool [] 1)) by (simpl; lia).
  exact (@Write_is_streaming 2
           (mkHasher (set_pool_c demo_pool [] 1) (Some (newTree 2)) 0 0 [])
           (newTree 2) demo_data [x06; x07; x08; x09; x0a; x0b]
           H1 eq_refl eq_refl eq_refl eq_refl eq_refl eq_refl H4 H5 H6).
Defined.

(** A full chunk of sixteen bytes and one byte more, on the tree of eight
    segments: the fifth section has no leaf. *)
Lemma pieces_beyond_the_tree_panic_witness :
  exists h1 h2 h3,
    Write (mkHasher (set_pool_c demo_pool [] 1) (Some (newTree 2)) 0 0 [])
      (GoSlice.make 16) = Some (h1, 16) /\
    Write h1 [x01] = Some (h2, 1) /\
    Sum_start h2 = Some (SumWaits h3) /\
    nth_error (routines (step demo_hash 4 h3)) 4 = Some Panicked.
Proof.
  assert (H1 : 0 < 2) by lia.
  assert (H2 : 1 <= Depth (set_pool_c demo_pool [] 1))
    by (vm_compute; lia).
  assert (H3 : 0 < length (GoSlice.make 16)) by (simpl; lia).
  assert (H4 : length (GoSlice.make 16) <= Size (set_pool_c demo_pool [] 1))
    by (simpl; lia).
  assert (H5 : 0 < length [x01]) by (simpl; lia).
  assert (H6 : length [x01] <= Size (set_pool_c demo_pool [] 1))
    by (simpl; lia).
  assert (H7 : 2 ^ Depth (set_pool_c demo_pool [] 1) * 2
               < length (GoSlice.make 16) + length [x01])
    by (vm_compute; lia).
  exact (@pieces_beyond_the_tree_panic demo_hash 2
           (mkHasher (set_pool_c demo_pool [] 1) (Some (newTree 2)) 0 0 [])
           (newTree 2) (GoSlice.make 16) [x01]
           H1 eq_refl eq_refl eq_refl eq_refl eq_refl eq_refl eq_refl H2
           H3 H4 H5 H6 H7).
Defined.

Lemma pool_accounting_witness :
  exists p out,
    pool_run [OpReserve; OpReserve; OpRelease (newTree 2); OpDrain 0;
              OpReserve]
      (NewTreePool demo_hash 2 8 2, 0) = Some (p, out) /\
    out = 2 /\
    count p = length (pool_c p) + out /\
    (reserve p = None <-> out = 2).
Proof.
  eexists. eexists. split; [reflexivity|]. split; [reflexivity|].
  destruct (@pool_accounting demo_hash 2 8 2
              [OpReserve; OpReserve; OpRelease (newTree 2); OpDrain 0;
               OpReserve] _ _ eq_refl) as (_ & A & _ & _ & B & _).
  split; [exact A|exact B].
Defined.

End BMT.
